(** * TP2/planet_delivery.py: contract-net delivery between planets and ships

    A shallow embedding of the decision logic of [planet_delivery.py]:
    [Item], [Ship], [PlanetManager] and [SpaceRoadNetwork], followed by the
    properties established about them.

    Modelling conventions.
    - A Python [float] is a rational [Q]: every finite binary64 value is a
      rational and [<], [==] on finite floats agree with the order of [Q].
      [str(f)] followed by [float(...)] and [json.dumps]/[json.loads] give
      back the same float, so a message body is kept in parsed form.
    - A Python [int] is a [Z].
    - A [dict] keyed by [Item] hashes and compares an item by its [uid]
      ([Item.__hash__], [Item.__eq__]); such a dict is a [gmap] on the uid
      when only lookups matter and an association list in insertion order
      when the code iterates over it.
    - [random.random()], [random.choice] and [uuid.uuid1()] read an explicit
      source of draws that is threaded through the code.
    - A raised exception ends the computation with [Raise]. *)

From Stdlib Require Import QArith Qround ZArith List String Lia Setoid Morphisms.
From stdpp Require Import gmap strings list fin_maps sorting pretty.

Open Scope Z_scope.

Abbreviation float := Q (only parsing).

#[export] Instance float_eq_dec : EqDecision Q.
Proof. solve_decision. Defined.

(** ** Exceptions and the ambient state *)

Inductive exn : Type :=
| KeyError
| IndexError
| ValueError
| AttributeError
| NetworkXNoPath.

Inductive Res (A : Type) : Type :=
| Ok (a : A)
| Raise (e : exn).
Arguments Ok {A} a.
Arguments Raise {A} e.

(** [self.a], ..., [self.uid] of an [Item]; the same record is the JSON
    object [json.dumps(item.__dict__)] carried by the messages. The
    operations of the class come after the ambient state they use. *)
Module ItemData.
Record t : Type := mk {
  a : float;
  b : float;
  c : float;
  x : float;
  y : float;
  uid : Z
}.
End ItemData.

(** [spade.message.Message]: [body] is the string
    [json(item) | f1 | f2 | ...], kept as the item and the list of the
    remaining fields, so that [body.split('|')[0]] is [body_item] and
    [body.split('|')[k]] is the field [k - 1] of [body_fields]. The [thread]
    of a message is ['CNP-' + str(item)], the default representation of the
    object; no code reads it and it is left out. *)
Module Message.
Record t : Type := mk {
  to : string;
  sender : string;
  body_item : ItemData.t;
  body_fields : list float;
  performative : string;
  turn : Z
}.

(** [float(m.body.split('|')[k])] for [k >= 1] *)
Definition field (m : t) (k : nat) : option float :=
  match k with
  | O => None
  | S k' => body_fields m !! k'
  end.
End Message.

(** What the code reaches through [random], [uuid], [self.model] and
    [self.send]. *)
Record Ambient : Type := mkAmbient {
  rnd_floats : list float;      (* the next results of random.random() *)
  rnd_picks : list nat;         (* the next draws of random.choice *)
  next_uuid : Z;                (* the next int(uuid.uuid1()) *)
  outbox : list Message.t;        (* messages given to send(), oldest first *)
  model_items : list ItemData.t;      (* self.model.items *)
  computed_items_nb : Z;        (* self.model.computed_items_nb *)
  schedule_steps : Z            (* self.model.schedule.steps *)
}.

Definition M (A : Type) : Type := Ambient -> Res (A * Ambient).

Definition ret {A} (v : A) : M A := fun w => Ok (v, w).

Definition bind {A B} (m : M A) (k : A -> M B) : M B :=
  fun w => match m w with
           | Ok (v, w') => k v w'
           | Raise e => Raise e
           end.

Definition raise {A} (e : exn) : M A := fun _ => Raise e.

Declare Scope py_scope.
Delimit Scope py_scope with py.
Notation "v <- m ;; k" := (bind m (fun v => k))
  (at level 100, m at next level, right associativity) : py_scope.
Notation "m ;;; k" := (bind m (fun _ => k))
  (at level 100, right associativity) : py_scope.
Open Scope py_scope.

(** [for v in l: body] where the body threads a loop state. *)
Fixpoint for_each {A S} (l : list A) (body : A -> S -> M S) (s : S) : M S :=
  match l with
  | [] => ret s
  | v :: l' => s' <- body v s ;; for_each l' body s'
  end.

Definition lift_opt {A} (e : exn) (o : option A) : M A :=
  match o with
  | Some v => ret v
  | None => raise e
  end.

(** [random.random()] *)
Definition random_random : M float := fun w =>
  match rnd_floats w with
  | [] => Ok (0%Q, w)
  | r :: rs =>
      Ok (r, mkAmbient rs (rnd_picks w) (next_uuid w) (outbox w)
                 (model_items w) (computed_items_nb w) (schedule_steps w))
  end.

(** [random.choice(seq)]: [IndexError] on an empty sequence, otherwise the
    element at the drawn index. *)
Definition random_choice {A} (seq : list A) : M A := fun w =>
  let k := hd 0%nat (rnd_picks w) in
  match seq !! (k mod length seq)%nat with
  | None => Raise IndexError
  | Some v =>
      Ok (v, mkAmbient (rnd_floats w) (tl (rnd_picks w)) (next_uuid w) (outbox w)
                 (model_items w) (computed_items_nb w) (schedule_steps w))
  end.

(** [int(uuid.uuid1())] *)
Definition uuid1 : M Z := fun w =>
  Ok (next_uuid w,
      mkAmbient (rnd_floats w) (rnd_picks w) (next_uuid w + 1) (outbox w)
        (model_items w) (computed_items_nb w) (schedule_steps w)).

(** [CommunicatingAgent.send] *)
Definition send (msg : Message.t) : M unit := fun w =>
  Ok (tt, mkAmbient (rnd_floats w) (rnd_picks w) (next_uuid w) (outbox w ++ [msg])
            (model_items w) (computed_items_nb w) (schedule_steps w)).

Definition get_steps : M Z := fun w => Ok (schedule_steps w, w).

Definition get_items : M (list ItemData.t) := fun w => Ok (model_items w, w).

Definition set_items (l : list ItemData.t) : M unit := fun w =>
  Ok (tt, mkAmbient (rnd_floats w) (rnd_picks w) (next_uuid w) (outbox w)
            l (computed_items_nb w) (schedule_steps w)).

Definition incr_computed_items_nb : M unit := fun w =>
  Ok (tt, mkAmbient (rnd_floats w) (rnd_picks w) (next_uuid w) (outbox w)
            (model_items w) (computed_items_nb w + 1) (schedule_steps w)).

(** Python truth values: [not v] for an optional float and an optional
    int. [None], [0.0] and [0] are false. *)
Definition not_float (v : option float) : bool :=
  match v with
  | None => true
  | Some q => Qeq_bool q 0
  end.

Definition not_int (v : option Z) : bool :=
  match v with
  | None => true
  | Some n => n =? 0
  end.

Definition float_gt (p q : float) : bool := negb (Qle_bool p q).
Definition float_lt (p q : float) : bool := negb (Qle_bool q p).
Definition float_eq (p q : float) : bool := Qeq_bool p q.

Definition NEW_ITEM_PROBA : float := (5 # 100)%Q.
Definition PROBA_ISSUE_ROAD : float := (5 # 100)%Q.
Definition WAITING_TIME : Z := 3.

(** ** class Item *)

Module Item.
Include ItemData.

(** [Item.__init__(self, x, y, a=None, b=None, c=None, uid=None)] *)
Definition init (x0 y0 : float) (a0 b0 c0 : option float) (uid0 : option Z)
  : M t :=
  va <- (if not_float a0 then random_random else ret (default 0%Q a0)) ;;
  vb <- (if not_float b0 then random_random else ret (default 0%Q b0)) ;;
  vc <- (if not_float c0 then random_random else ret (default 0%Q c0)) ;;
  vu <- (if not_int uid0 then uuid1 else ret (default 0 uid0)) ;;
  ret (mk va vb vc x0 y0 vu).

(** [Item.from_json(json_object)] *)
Definition from_json (j : ItemData.t) : M t :=
  init (ItemData.x j) (ItemData.y j) (Some (ItemData.a j)) (Some (ItemData.b j))
    (Some (ItemData.c j)) (Some (ItemData.uid j)).

(** [Item.__eq__] between two items *)
Definition eq (i1 i2 : t) : bool := uid i1 =? uid i2.

End Item.

(** ** Planets as the other agents see them

    A [PlanetManager] object as it is referred to by ships, by the road
    network and by the other planets: its [unique_id], the name its
    communicator was created with, and its position. None of these changes
    after construction and [unique_id] differs between two objects, so
    identity of objects (the [==] of an [Agent] and its hash) is equality
    of these records. *)
Module Planet.
Record t : Type := mk {
  unique_id : Z;
  name : string;
  x : float;
  y : float
}.

#[export] Instance eq_dec : EqDecision t.
Proof. solve_decision. Defined.

Definition to_tuple (p : t) : Z * string * (Z * positive) * (Z * positive) :=
  (unique_id p, name p, (Qnum (x p), Qden (x p)), (Qnum (y p), Qden (y p))).

Definition of_tuple (q : Z * string * (Z * positive) * (Z * positive)) : t :=
  let '(i, n, (xn, xd), (yn, yd)) := q in mk i n (xn # xd) (yn # yd).

#[export] Instance countable : Countable t.
Proof.
  refine (inj_countable' to_tuple of_tuple _).
  intros [i n [xn xd] [yn yd]]. reflexivity.
Defined.

(** [str(agent.communicator.jid)] *)
Definition jid (p : t) : string := (name p ++ "@localhost")%string.
End Planet.
Import (hints) Planet.

(** ** networkx.Graph

    The part of [networkx] the program uses. A graph keeps its nodes in
    insertion order and its edges with their ['distance'] attribute. The
    edges are listed here in insertion order, each once; [networkx] lists
    them node by node, and nothing below depends on the order or on the
    orientation in which an edge is listed. *)
Module Graph.
Definition edge : Type := Planet.t * Planet.t * float.

Record t : Type := mk {
  nodes : list Planet.t;
  edges : list edge
}.

Definition empty : t := mk [] [].

(** [u] and [v] are the two ends of [e], in either order *)
Definition joins (u v : Planet.t) (e : edge) : bool :=
  (bool_decide (e.1.1 = u) && bool_decide (e.1.2 = v))
  || (bool_decide (e.1.1 = v) && bool_decide (e.1.2 = u)).

Definition has_edge (g : t) (u v : Planet.t) : bool :=
  existsb (joins u v) (edges g).

(** [G.add_node(n)] *)
Definition add_node (n : Planet.t) (g : t) : t :=
  if bool_decide (n ∈ nodes g) then g else mk (nodes g ++ [n]) (edges g).

(** [G.add_edge(u, v, distance=d)]: the two nodes are added when they
    are missing; an edge already there keeps its place and takes the new
    attribute. *)
Definition add_edge (u v : Planet.t) (d : float) (g : t) : t :=
  let g' := add_node v (add_node u g) in
  if has_edge g' u v
  then mk (nodes g')
          (map (fun e : edge => if joins u v e then (e.1, d) else e) (edges g'))
  else mk (nodes g') (edges g' ++ [(u, v, d)]).

(** The block of the partition [P] that contains [u], with its index. *)
Definition find_block (u : Planet.t) (P : list (list Planet.t))
  : option (nat * list Planet.t) :=
  list_find (fun B => u ∈ B) P.

(** Join the blocks of [u] and [v]; the joined block takes the place of
    the one that comes first. *)
Definition merge (u v : Planet.t) (P : list (list Planet.t))
  : list (list Planet.t) :=
  match find_block u P, find_block v P with
  | Some (i, Bi), Some (j, Bj) =>
      if decide (i = j) then P
      else if decide (i < j)%nat
           then <[i := Bi ++ Bj]> (delete j P)
           else <[j := Bj ++ Bi]> (delete i P)
  | _, _ => P
  end.

(** [list(nx.connected_components(G))]: the node sets of the connected
    components, in the order of their first node. Every node starts as a
    block of its own and the two ends of every edge are joined. *)
Definition connected_components (g : t) : list (list Planet.t) :=
  fold_left (fun P (e : edge) => merge e.1.1 e.1.2 P) (edges g)
            (map (fun n => [n]) (nodes g)).

(** Two nodes joined by an edge of [es], in either direction; joined by
    an edge of a graph, and by a path. *)
Definition linked (es : list edge) (u v : Planet.t) : Prop :=
  ∃ d, (u, v, d) ∈ es ∨ (v, u, d) ∈ es.

Definition adjacent (g : t) : Planet.t -> Planet.t -> Prop := linked (edges g).

Definition path (g : t) : Planet.t -> Planet.t -> Prop := rtc (adjacent g).

(** One connected component: there is a node and every two nodes are
    joined by a path. *)
Definition connected (g : t) : Prop :=
  nodes g ≠ [] ∧ ∀ u v, u ∈ nodes g -> v ∈ nodes g -> path g u v.

(** The nodes are listed once and the edges join nodes of the graph. *)
Definition wf (g : t) : Prop :=
  NoDup (nodes g) ∧ ∀ e : edge, e ∈ edges g -> e.1.1 ∈ nodes g ∧ e.1.2 ∈ nodes g.

(** [G.edges.items()]: every edge with its attribute dictionary *)
Definition edges_items (g : t) : list ((Planet.t * Planet.t) * list (string * float)) :=
  map (fun e : edge => (e.1, [("distance"%string, e.2)])) (edges g).
End Graph.

(** A Python value as far as [SpaceRoadNetwork.step] compares them: a float
    or a dictionary of edge attributes. *)
Inductive pyval : Type :=
| PyFloat (f : float)
| PyDict (d : list (string * float)).

(** [v1 != v2]: two floats are compared as numbers, two dictionaries by
    their content, and a float is never equal to a dictionary. *)
Definition py_ne (v1 v2 : pyval) : bool :=
  match v1, v2 with
  | PyFloat f1, PyFloat f2 => negb (float_eq f1 f2)
  | PyDict d1, PyDict d2 =>
      negb (bool_decide (map fst d1 = map fst d2)
            && forallb (fun p => float_eq p.1 p.2) (zip (map snd d1) (map snd d2)))
  | _, _ => true
  end.

(** ** class SpaceRoadNetwork *)

Module SpaceRoadNetwork.
Record t : Type := mk {
  unique_id : Z;
  initial_graph : Graph.t;
  current_graph : Graph.t;
  speed_modificator : gmap (Planet.t * Planet.t) float
}.

(** Lines 414-420: the node [planets[i]] and its roads to the earlier
    planets. *)
Definition add_planet (norm : float -> float -> float) (road_branching_factor : float)
    (earlier : list Planet.t) (p : Planet.t) (g : Graph.t) : M Graph.t :=
  for_each earlier (fun q g =>
      r <- random_random ;;
      if float_lt r road_branching_factor
      then ret (Graph.add_edge p q
                  (norm (Planet.x p - Planet.x q)%Q (Planet.y p - Planet.y q)%Q) g)
      else ret g)
    (Graph.add_node p g).

Fixpoint add_planets (norm : float -> float -> float) (road_branching_factor : float)
    (earlier rest : list Planet.t) (g : Graph.t) : M Graph.t :=
  match rest with
  | [] => ret g
  | p :: rest' =>
      g' <- add_planet norm road_branching_factor earlier p g ;;
      add_planets norm road_branching_factor (earlier ++ [p]) rest' g'
  end.

(** Lines 422-426: [while len(list(nx.connected_components(g))) != 1].
    [fuel] bounds the number of turns of the loop; [None] is returned
    when it is used up before the loop ends. *)
Fixpoint reconnect (norm : float -> float -> float) (fuel : nat) (g : Graph.t)
  : M (option Graph.t) :=
  let comps := Graph.connected_components g in
  if bool_decide (length comps ≠ 1%nat) then
    match fuel with
    | O => ret None
    | S fuel' =>
        c0 <- lift_opt IndexError (comps !! 0%nat) ;;
        first_element <- random_choice c0 ;;
        c1 <- lift_opt IndexError (comps !! 1%nat) ;;
        second_element <- random_choice c1 ;;
        reconnect norm fuel'
          (Graph.add_edge first_element second_element
             (norm (Planet.x first_element - Planet.x second_element)%Q
                   (Planet.y first_element - Planet.y second_element)%Q) g)
    end
  else ret (Some g).

(** Lines 428-431, the body of [for e in self.initial_graph.edges]: the
    road is copied to the current graph and opened in both directions. *)
Definition open_road (acc : Graph.t * gmap (Planet.t * Planet.t) float)
    (e : Graph.edge) : Graph.t * gmap (Planet.t * Planet.t) float :=
  (Graph.add_edge e.1.1 e.1.2 e.2 acc.1,
   <[(e.1.2, e.1.1) := 1%Q]> (<[e.1 := 1%Q]> acc.2)).

(** Lines 427-431 *)
Definition open_roads (g : Graph.t)
  : Graph.t * gmap (Planet.t * Planet.t) float :=
  fold_left open_road (Graph.edges g) (Graph.empty, ∅).

(** [SpaceRoadNetwork.__init__(self, planets, unique_id, model,
    road_branching_factor)]. [norm dx dy] is [np.linalg.norm([dx, dy])].
    The result is [None] only if the reconnection loop has not ended
    after [len(planets) + 1] turns. *)
Definition init (norm : float -> float -> float) (planets : list Planet.t)
    (uid : Z) (road_branching_factor : float) : M (option t) :=
  g <- add_planets norm road_branching_factor [] planets Graph.empty ;;
  og <- reconnect norm (S (length planets)) g ;;
  match og with
  | None => ret None
  | Some g' =>
      let '(cur, sm) := open_roads g' in
      ret (Some (mk uid g' cur sm))
  end.

Definition road_states : list float := [0%Q; (1 # 2)%Q; 1%Q].

(** The body of the loop of [step] for one [(road, state)] of
    [self.current_graph.edges.items()]. *)
Definition step_road (rs : (Planet.t * Planet.t) * list (string * float))
    (sm : gmap (Planet.t * Planet.t) float)
  : M (gmap (Planet.t * Planet.t) float) :=
  let '(road, state) := rs in
  p <- random_random ;;
  if float_lt p PROBA_ISSUE_ROAD then
    new_state <- random_choice
                   (filter (fun n => py_ne (PyFloat n) (PyDict state) = true) road_states) ;;
    ret (<[(road.2, road.1) := new_state]> (<[road := new_state]> sm))
  else ret sm.

(** [SpaceRoadNetwork.step(self)] *)
Definition step (net : t) : M t :=
  sm <- for_each (Graph.edges_items (current_graph net)) step_road
          (speed_modificator net) ;;
  ret (mk (unique_id net) (initial_graph net) (current_graph net) sm).
End SpaceRoadNetwork.

(** ** class Ship *)

Module Ship.
Record t : Type := mk {
  name : string;
  preference_a : float;
  preference_b : float;
  preference_c : float;
  planets : list Planet.t;
  x : float;
  y : float;
  max_speed : float;
  destination : option Planet.t;
  potential_destination : option Planet.t;
  waypoint : option Planet.t;
  previous_point : Planet.t;
  item : option Item.t;
  waiting_for_proposal : bool;
  msg_box : list Message.t          (* self.communicator.msg_box *)
}.

Definition jid (s : t) : string := (name s ++ "@localhost")%string.

Definition set_waypoint (v : option Planet.t) (s : t) : t :=
  mk (name s) (preference_a s) (preference_b s) (preference_c s) (planets s)
     (x s) (y s) (max_speed s) (destination s) (potential_destination s)
     v (previous_point s) (item s) (waiting_for_proposal s) (msg_box s).

Definition set_destination (v : option Planet.t) (s : t) : t :=
  mk (name s) (preference_a s) (preference_b s) (preference_c s) (planets s)
     (x s) (y s) (max_speed s) v (potential_destination s)
     (waypoint s) (previous_point s) (item s) (waiting_for_proposal s) (msg_box s).

Definition set_potential_destination (v : option Planet.t) (s : t) : t :=
  mk (name s) (preference_a s) (preference_b s) (preference_c s) (planets s)
     (x s) (y s) (max_speed s) (destination s) v
     (waypoint s) (previous_point s) (item s) (waiting_for_proposal s) (msg_box s).

Definition set_previous_point (v : Planet.t) (s : t) : t :=
  mk (name s) (preference_a s) (preference_b s) (preference_c s) (planets s)
     (x s) (y s) (max_speed s) (destination s) (potential_destination s)
     (waypoint s) v (item s) (waiting_for_proposal s) (msg_box s).

Definition set_item (v : option Item.t) (s : t) : t :=
  mk (name s) (preference_a s) (preference_b s) (preference_c s) (planets s)
     (x s) (y s) (max_speed s) (destination s) (potential_destination s)
     (waypoint s) (previous_point s) v (waiting_for_proposal s) (msg_box s).

Definition set_waiting_for_proposal (v : bool) (s : t) : t :=
  mk (name s) (preference_a s) (preference_b s) (preference_c s) (planets s)
     (x s) (y s) (max_speed s) (destination s) (potential_destination s)
     (waypoint s) (previous_point s) (item s) v (msg_box s).

Definition set_msg_box (v : list Message.t) (s : t) : t :=
  mk (name s) (preference_a s) (preference_b s) (preference_c s) (planets s)
     (x s) (y s) (max_speed s) (destination s) (potential_destination s)
     (waypoint s) (previous_point s) (item s) (waiting_for_proposal s) v.

Definition set_position (vx vy : float) (s : t) : t :=
  mk (name s) (preference_a s) (preference_b s) (preference_c s) (planets s)
     vx vy (max_speed s) (destination s) (potential_destination s)
     (waypoint s) (previous_point s) (item s) (waiting_for_proposal s) (msg_box s).

(** [Ship.move_to(self, dest, speed)]. [norm dx dy] is
    [np.linalg.norm((dx, dy))]; [min(full, rest, key=norm)] is [full]
    unless [rest] is strictly shorter. A division by a zero norm gives
    [0] here, where numpy gives [nan] or [inf]. *)
Definition move_to (norm : float -> float -> float) (dest : Planet.t)
    (speed : float) (s : t) : t :=
  let dx := (Planet.x dest - x s)%Q in
  let dy := (Planet.y dest - y s)%Q in
  let full := ((speed * dx / norm dx dy)%Q, (speed * dy / norm dx dy)%Q) in
  let rest := (dx, dy) in
  let movement :=
    if float_lt (norm rest.1 rest.2) (norm full.1 full.2) then rest else full in
  set_position (x s + movement.1)%Q (y s + movement.2)%Q s.

(** [Ship.utility(self, item)] *)
Definition utility (s : t) (it : Item.t) : float :=
  (Item.a it * preference_a s + Item.b it * preference_b s
   + Item.c it * preference_c s)%Q.

(** [self.model.items.remove(it)]: the first element equal to [it] is
    taken out; [None] when there is none ([ValueError]). *)
Fixpoint list_remove (it : Item.t) (l : list Item.t) : option (list Item.t) :=
  match l with
  | [] => None
  | i :: l' =>
      if Item.eq it i then Some l'
      else match list_remove it l' with
           | Some r => Some (i :: r)
           | None => None
           end
  end.

(** [nx.dijkstra_path(g, source, target, 'distance')[1]], where
    [dijkstra_path g source target] is the path from [source] to
    [target], or the exception [networkx] raises. *)
Definition next_hop
    (dijkstra_path : Graph.t -> Planet.t -> option Planet.t -> Res (list Planet.t))
    (g : Graph.t) (source : Planet.t) (target : option Planet.t) : M Planet.t :=
  match dijkstra_path g source target with
  | Raise e => raise e
  | Ok p => lift_opt IndexError (p !! 1%nat)
  end.

(** Lines 185-205 of [step]: the route and the move. *)
Definition advance (norm : float -> float -> float)
    (dijkstra_path : Graph.t -> Planet.t -> option Planet.t -> Res (list Planet.t))
    (environment : SpaceRoadNetwork.t) (s : t) : M t :=
  s1 <- (match waypoint s, destination s with
         | None, Some d =>
             w <- next_hop dijkstra_path (SpaceRoadNetwork.current_graph environment)
                    (previous_point s) (Some d) ;;
             ret (set_waypoint (Some w) s)
         | _, _ => ret s
         end) ;;
  match waypoint s1 with
  | None => ret s1
  | Some w =>
      modif <- lift_opt KeyError
                 (SpaceRoadNetwork.speed_modificator environment
                    !! (previous_point s1, w)) ;;
      let s2 := move_to norm w (max_speed s1 * modif)%Q s1 in
      it <- lift_opt AttributeError (item s2) ;;
      let it' := Item.mk (Item.a it) (Item.b it) (Item.c it) (x s2) (y s2)
                         (Item.uid it) in
      let s3 := set_item (Some it') s2 in
      if float_eq (x s3) (Planet.x w) && float_eq (y s3) (Planet.y w) then
        let s4 := set_previous_point w s3 in
        if bool_decide (Some w = destination s4) then
          (* deliver *)
          let s5 := set_destination None (set_waypoint None s4) in
          items <- get_items ;;
          items' <- lift_opt ValueError (list_remove it' items) ;;
          set_items items' ;;;
          incr_computed_items_nb ;;;
          ret (set_item None s5)
        else
          w' <- next_hop dijkstra_path (SpaceRoadNetwork.current_graph environment)
                  (previous_point s4) (destination s4) ;;
          ret (set_waypoint (Some w') s4)
      else ret s3
  end.

(** Lines 215-228: the first [if] of the loop over the drained messages. *)
Definition on_call_for_proposal (m : Message.t) (s : t) : M t :=
  if bool_decide (item s = None)
     && String.eqb (Message.performative m) "call_for_proposal"
     && bool_decide (waiting_for_proposal s = false)
  then
    proposedItem <- Item.from_json (Message.body_item m) ;;
    proposedItemX <- lift_opt IndexError (Message.field m 1) ;;
    proposedItemY <- lift_opt IndexError (Message.field m 2) ;;
    let proposedUtility := utility s proposedItem in
    dest <- lift_opt IndexError
              (last (filter (fun planet : Planet.t =>
                               float_eq (Planet.x planet) proposedItemX = true
                               ∧ float_eq (Planet.y planet) proposedItemY = true)
                            (planets s))) ;;
    steps <- get_steps ;;
    send (Message.mk (Message.sender m) (Message.to m) proposedItem
            [proposedItemX; proposedItemY; proposedUtility]
            "proposal" steps) ;;;
    ret (set_waiting_for_proposal true
           (set_potential_destination (Some dest) s))
  else ret s.

(** Lines 231-233: the second [if]. *)
Definition on_reject_proposal (m : Message.t) (s : t) : t :=
  if bool_decide (item s = None)
     && String.eqb (Message.performative m) "reject_proposal"
     && bool_decide (waiting_for_proposal s = true)
  then set_potential_destination None (set_waiting_for_proposal false s)
  else s.

(** Lines 236-240: the third [if]. *)
Definition on_accept_proposal (m : Message.t) (s : t) : M t :=
  if bool_decide (item s = None)
     && String.eqb (Message.performative m) "accept_proposal"
     && bool_decide (waiting_for_proposal s = true)
  then
    it <- Item.from_json (Message.body_item m) ;;
    ret (set_waiting_for_proposal false
           (set_potential_destination None
              (set_destination (potential_destination s)
                 (set_item (Some it) s))))
  else ret s.

(** The body of [for m in messages], lines 213-240: the three [if] in
    turn, each on the ship as the one before left it. *)
Definition handle (s : t) (m : Message.t) : M t :=
  s1 <- on_call_for_proposal m s ;;
  on_accept_proposal m (on_reject_proposal m s1).

(** [Ship.step(self)] *)
Definition step (norm : float -> float -> float)
    (dijkstra_path : Graph.t -> Planet.t -> option Planet.t -> Res (list Planet.t))
    (environment : SpaceRoadNetwork.t) (s : t) : M t :=
  s1 <- advance norm dijkstra_path environment s ;;
  let messages := msg_box s1 in
  let s2 := set_msg_box [] s1 in
  for_each messages (fun m s => handle s m) s2.
(** [Ship.__init__(self, name, planets, unique_id, model, x, y, max_speed,
    environment)]. The communicator starts with an empty mailbox; no code
    reads the [unique_id] of a ship, and the [environment] is handed to
    [step]. [IndexError] when no planet has the coordinates [(x, y)]. *)
Definition init (name : string) (planets : list Planet.t) (x y max_speed : float)
  : M t :=
  preference_a <- random_random ;;
  preference_b <- random_random ;;
  preference_c <- random_random ;;
  previous_point <- lift_opt IndexError
                      (head (filter (fun p : Planet.t =>
                                       float_eq (Planet.x p) x = true
                                       ∧ float_eq (Planet.y p) y = true) planets)) ;;
  ret (mk name preference_a preference_b preference_c planets x y max_speed
          None None None previous_point None false []).
End Ship.

(** ** class PlanetManager *)

Module PlanetManager.
Record t : Type := mk {
  self : Planet.t;                                (* unique_id, name, x, y *)
  items_to_ship : list (Item.t * Planet.t);       (* dict, insertion order *)
  waiting_for_proposal : list Item.t;
  start_times : gmap Z Z;                         (* dict keyed by item *)
  proposals : gmap Z (list Message.t);            (* dict keyed by item *)
  planets : list Planet.t;
  msg_box : list Message.t                        (* self.communicator.msg_box *)
}.

Definition set_items_to_ship (v : list (Item.t * Planet.t)) (p : t) : t :=
  mk (self p) v (waiting_for_proposal p) (start_times p) (proposals p)
     (planets p) (msg_box p).

Definition set_waiting_for_proposal (v : list Item.t) (p : t) : t :=
  mk (self p) (items_to_ship p) v (start_times p) (proposals p)
     (planets p) (msg_box p).

Definition set_start_times (v : gmap Z Z) (p : t) : t :=
  mk (self p) (items_to_ship p) (waiting_for_proposal p) v (proposals p)
     (planets p) (msg_box p).

Definition set_proposals (v : gmap Z (list Message.t)) (p : t) : t :=
  mk (self p) (items_to_ship p) (waiting_for_proposal p) (start_times p) v
     (planets p) (msg_box p).

Definition set_msg_box (v : list Message.t) (p : t) : t :=
  mk (self p) (items_to_ship p) (waiting_for_proposal p) (start_times p)
     (proposals p) (planets p) v.

(** [d[item] = v] on a dict keyed by items: a key equal to [item] keeps
    its place and its key object; a new key goes last. *)
Fixpoint dict_set (item : Item.t) (v : Planet.t) (d : list (Item.t * Planet.t))
  : list (Item.t * Planet.t) :=
  match d with
  | [] => [(item, v)]
  | (k, v') :: d' =>
      if Item.eq k item then (k, v) :: d' else (k, v') :: dict_set item v d'
  end.

(** [d[item]] *)
Fixpoint dict_get (item : Item.t) (d : list (Item.t * Planet.t)) : option Planet.t :=
  match d with
  | [] => None
  | (k, v) :: d' => if Item.eq k item then Some v else dict_get item d'
  end.

(** Lines 276-279: a new item with probability [NEW_ITEM_PROBA]. *)
Definition spawn (p : t) : M t :=
  r <- random_random ;;
  if float_lt r NEW_ITEM_PROBA then
    item <- Item.init (Planet.x (self p)) (Planet.y (self p)) None None None None ;;
    items <- get_items ;;
    set_items (items ++ [item]) ;;;
    dest <- random_choice (planets p) ;;
    ret (set_items_to_ship (dict_set item dest (items_to_ship p)) p)
  else ret p.

(** Lines 281-293, the body of [for item in self.items_to_ship]: the
    call for proposals goes to the ships that are at the planet. *)
Definition call_for_proposal (ships : list Ship.t) (item : Item.t) (p : t) : M t :=
  steps <- get_steps ;;
  dest <- lift_opt KeyError (dict_get item (items_to_ship p)) ;;
  let cfps :=
    map (fun a : Ship.t =>
           Message.mk (Ship.jid a) (Planet.jid (self p)) item
             [Planet.x dest; Planet.y dest] "call_for_proposal" steps)
        (filter (fun a : Ship.t =>
                   float_eq (Ship.x a) (Planet.x (self p)) = true
                   ∧ float_eq (Ship.y a) (Planet.y (self p)) = true) ships) in
  for_each cfps (fun c _ => send c) tt ;;;
  ret (set_waiting_for_proposal (waiting_for_proposal p ++ [item])
         (set_proposals (<[Item.uid item := []]> (proposals p))
            (set_start_times (<[Item.uid item := steps]> (start_times p)) p))).

(** Lines 303-304, the body of [for m in messages]. *)
Definition collect (m : Message.t) (p : t) : M t :=
  key <- Item.from_json (Message.body_item m) ;;
  received <- lift_opt KeyError (proposals p !! Item.uid key) ;;
  ret (set_proposals (<[Item.uid key := received ++ [m]]> (proposals p)) p).

(** Lines 317-322: the scan for the best proposal. [IndexError] when a
    body has no fourth field. *)
Fixpoint best_scan (ps : list Message.t) (i : nat) (bestRank : nat)
    (bestUtility : float) : option nat :=
  match ps with
  | [] => Some bestRank
  | m :: ps' =>
      match Message.field m 3 with
      | None => None
      | Some u =>
          if float_gt u bestUtility
          then best_scan ps' (S i) i u
          else best_scan ps' (S i) bestRank bestUtility
      end
  end.

Definition best_rank (ps : list Message.t) : option nat := best_scan ps 0 0 0%Q.

(** Lines 323-337, the body of [for j in range(len(...))]: the answer to
    the proposal of rank [j]. *)
Definition answer (p : t) (waiting_item : Item.t) (bestRank : nat)
    (j : nat) (m : Message.t) : M unit :=
  steps <- get_steps ;;
  fx <- lift_opt IndexError (Message.field m 1) ;;
  fy <- lift_opt IndexError (Message.field m 2) ;;
  send (Message.mk (Message.sender m) (Planet.jid (self p)) waiting_item [fx; fy]
          (if bool_decide (j = bestRank) then "accept_proposal" else "reject_proposal")
          steps).

(** Lines 316-340: what is done with an item whose waiting time is over. *)
Definition award (waiting_item : Item.t) (received : list Message.t) (p : t) : M t :=
  if (0 <? length received)%nat then
    bestRank <- lift_opt IndexError (best_rank received) ;;
    for_each (imap (fun j m => (j, m)) received)
      (fun jm _ => answer p waiting_item bestRank jm.1 jm.2) tt ;;;
    ret p
  else
    dest <- random_choice (planets p) ;;
    ret (set_items_to_ship (dict_set waiting_item dest (items_to_ship p)) p).

(** Lines 310-345, the body of
    [for l, waiting_item in enumerate(self.waiting_for_proposal)]; the
    loop state is the planet and [items_to_del]. *)
Definition resolve (lw : nat * Item.t) (st : t * list nat) : M (t * list nat) :=
  let '(l, waiting_item) := lw in
  let '(p, items_to_del) := st in
  steps <- get_steps ;;
  started <- lift_opt KeyError (start_times p !! Item.uid waiting_item) ;;
  let waiting_time := steps - started in
  if waiting_time >? WAITING_TIME then
    received <- lift_opt KeyError (proposals p !! Item.uid waiting_item) ;;
    p' <- award waiting_item received p ;;
    ret (set_start_times (delete (Item.uid waiting_item) (start_times p'))
           (set_proposals (delete (Item.uid waiting_item) (proposals p')) p'),
         items_to_del ++ [l])
  else ret (p, items_to_del).

(** [items_to_del.sort(reverse=True)] *)
Fixpoint insert_desc (k : nat) (l : list nat) : list nat :=
  match l with
  | [] => [k]
  | h :: l' => if (h <=? k)%nat then k :: l else h :: insert_desc k l'
  end.

Definition sort_desc (l : list nat) : list nat := foldr insert_desc [] l.

(** [for k in items_to_del: self.waiting_for_proposal.pop(k)] *)
Fixpoint pop_all (ks : list nat) (l : list Item.t) : option (list Item.t) :=
  match ks with
  | [] => Some l
  | k :: ks' =>
      match l !! k with
      | None => None
      | Some _ => pop_all ks' (delete k l)
      end
  end.

(** [PlanetManager.step(self)]; [ships] is [self.ships] as the ships are
    when the planet takes its turn. *)
Definition step (ships : list Ship.t) (p : t) : M t :=
  p1 <- spawn p ;;
  p2 <- for_each (map fst (items_to_ship p1)) (call_for_proposal ships) p1 ;;
  let p3 := set_items_to_ship [] p2 in
  let messages := msg_box p3 in
  let p4 := set_msg_box [] p3 in
  p5 <- for_each messages collect p4 ;;
  st <- for_each (imap (fun l w => (l, w)) (waiting_for_proposal p5)) resolve (p5, []) ;;
  let '(p6, items_to_del) := st in
  waiting <- lift_opt IndexError
               (pop_all (sort_desc items_to_del) (waiting_for_proposal p6)) ;;
  ret (set_waiting_for_proposal waiting p6).
(** [PlanetManager.__init__(self, name, ships, unique_id, model, x, y)],
    where [self] holds [unique_id], [name], [x] and [y]; [ships] is handed
    to [step]. *)
Definition init (self : Planet.t) : t := mk self [] [] ∅ ∅ [] [].

Definition set_planets (v : list Planet.t) (p : t) : t :=
  mk (self p) (items_to_ship p) (waiting_for_proposal p) (start_times p)
     (proposals p) v (msg_box p).
End PlanetManager.

(** ** class PlanetDelivery *)

Module PlanetDelivery.
Record t : Type := mk {
  environment : SpaceRoadNetwork.t;
  ships : list Ship.t;
  planets : list PlanetManager.t;
  world : Ambient                 (* items, computed_items_nb, schedule, ... *)
}.

(** The schedule lets the ship of rank [k] take its turn: [agent.step()]. *)
Definition ship_turn (norm : float -> float -> float)
    (dijkstra_path : Graph.t -> Planet.t -> option Planet.t -> Res (list Planet.t))
    (k : nat) (mo : t) : Res t :=
  match ships mo !! k with
  | None => Raise IndexError
  | Some s =>
      match Ship.step norm dijkstra_path (environment mo) s (world mo) with
      | Ok (s', w') => Ok (mk (environment mo) (<[k := s']> (ships mo)) (planets mo) w')
      | Raise e => Raise e
      end
  end.

(** The schedule lets the planet of rank [k] take its turn. *)
Definition planet_turn (k : nat) (mo : t) : Res t :=
  match planets mo !! k with
  | None => Raise IndexError
  | Some p =>
      match PlanetManager.step (ships mo) p (world mo) with
      | Ok (p', w') => Ok (mk (environment mo) (ships mo) (<[k := p']> (planets mo)) w')
      | Raise e => Raise e
      end
  end.

(** The end of a tick: [self.steps += 1] in the schedule. *)
Definition next_tick (w : Ambient) : Ambient :=
  mkAmbient (rnd_floats w) (rnd_picks w) (next_uuid w) (outbox w)
    (model_items w) (computed_items_nb w) (schedule_steps w + 1).

(** A planet takes its turn tick after tick; [inboxes] are the messages
    that reach its mailbox before each of its turns. *)
Fixpoint planet_ticks (ships : list Ship.t) (inboxes : list (list Message.t))
    (p : PlanetManager.t) (w : Ambient) : Res (PlanetManager.t * Ambient) :=
  match inboxes with
  | [] => Ok (p, w)
  | inbox :: inboxes' =>
      match PlanetManager.step ships
              (PlanetManager.set_msg_box (PlanetManager.msg_box p ++ inbox) p) w with
      | Ok (p', w') => planet_ticks ships inboxes' p' (next_tick w')
      | Raise e => Raise e
      end
  end.
(** Line 37, one turn of the comprehension: the planet of rank [i]. The
    arguments are evaluated from left to right. *)
Definition make_planet (i : nat) : M Planet.t :=
  uid <- uuid1 ;;
  rx <- random_random ;;
  ry <- random_random ;;
  ret (Planet.mk uid ("planet-" ++ pretty i) (rx * 600)%Q (ry * 600)%Q).

(** Lines 44-46: the ship of rank [i], docked at a planet drawn at
    random. The [uuid] of the ship is drawn although nothing reads it. *)
Definition make_ship (planets : list Planet.t) (i : nat) : M Ship.t :=
  starting_point <- random_choice planets ;;
  uuid1 ;;;
  Ship.init ("ship-" ++ pretty i) planets (Planet.x starting_point)
    (Planet.y starting_point) 60.

(** Line 50: [p.planets = [planet for planet in planets if planet != p]] *)
Definition others (planets : list Planet.t) (p : Planet.t) : list Planet.t :=
  filter (fun planet => planet ≠ p) planets.

(** [PlanetDelivery.__init__(self, n_planets, n_ships,
    road_branching_factor)]. The draws are read from [w]; the model starts
    with no item, no delivery and a schedule at step 0. The result is
    [None] only if the road network is. *)
Definition init (norm : float -> float -> float) (n_planets n_ships : nat)
    (road_branching_factor : float) (w : Ambient) : Res (option t) :=
  match (planets <- for_each (seq 0 n_planets)
                      (fun i acc => p <- make_planet i ;; ret (acc ++ [p])) [] ;;
         uid <- uuid1 ;;
         environment <- SpaceRoadNetwork.init norm planets uid road_branching_factor ;;
         match environment with
         | None => ret None
         | Some environment =>
             ships <- for_each (seq 0 n_ships)
                        (fun i acc => s <- make_ship planets i ;; ret (acc ++ [s])) [] ;;
             ret (Some (planets, environment, ships))
         end) w with
  | Raise e => Raise e
  | Ok (None, _) => Ok None
  | Ok (Some (planets, environment, ships), w') =>
      Ok (Some (mk environment ships
                  (map (fun p => PlanetManager.set_planets (others planets p)
                                   (PlanetManager.init p)) planets)
                  (mkAmbient (rnd_floats w') (rnd_picks w') (next_uuid w') (outbox w')
                     [] 0 0)))
  end.
End PlanetDelivery.

(** ** Vocabulary of the statements *)

(** [w'] differs from [w] at most by the draws that were consumed. *)
Definition same_model (w w' : Ambient) : Prop :=
  outbox w' = outbox w ∧ model_items w' = model_items w
  ∧ computed_items_nb w' = computed_items_nb w
  ∧ schedule_steps w' = schedule_steps w.

(** [w] after [msg] has been sent. *)
Definition sent (msg : Message.t) (w : Ambient) : Ambient :=
  mkAmbient (rnd_floats w) (rnd_picks w) (next_uuid w) (outbox w ++ [msg])
    (model_items w) (computed_items_nb w) (schedule_steps w).

(** [w] after a delivery that leaves [items'] in the world. *)
Definition delivered (items' : list Item.t) (w : Ambient) : Ambient :=
  mkAmbient (rnd_floats w) (rnd_picks w) (next_uuid w) (outbox w)
    items' (computed_items_nb w + 1) (schedule_steps w).

(** A ship that carries nothing and waits for no answer. *)
Definition idle (s : Ship.t) : Prop :=
  Ship.item s = None ∧ Ship.waiting_for_proposal s = false.

(** The utility carried by a proposal: [float(m.body.split('|')[3])]. *)
Definition bid (m : Message.t) : option float := Message.field m 3.

(** A proposal as a ship sends it: three fields after the item. *)
Definition is_proposal (m : Message.t) : Prop :=
  ∃ X Y U, Message.body_fields m = [X; Y; U].

(** [w] after the messages [msgs] have been sent, in this order. *)
Definition sent_all (msgs : list Message.t) (w : Ambient) : Ambient :=
  mkAmbient (rnd_floats w) (rnd_picks w) (next_uuid w) (outbox w ++ msgs)
    (model_items w) (computed_items_nb w) (schedule_steps w).

(** The answer of the planet [p] to the proposal [m] of rank [j], when
    the proposal of rank [bestRank] is the one retained. *)
Definition reply (p : PlanetManager.t) (waiting_item : Item.t) (bestRank : nat)
    (steps : Z) (j : nat) (m : Message.t) : Message.t :=
  Message.mk (Message.sender m) (Planet.jid (PlanetManager.self p)) waiting_item
    (take 2 (Message.body_fields m))
    (if bool_decide (j = bestRank) then "accept_proposal" else "reject_proposal")%string
    steps.

(** [k] is the first rank at which the greatest utility of [received]
    stands. *)
Definition first_best (received : list Message.t) (k : nat) : Prop :=
  ∃ best vk, received !! k = Some best ∧ bid best = Some vk
    ∧ (∀ j m v, received !! j = Some m -> bid m = Some v -> (v <= vk)%Q)
    ∧ (∀ j m v, (j < k)%nat -> received !! j = Some m -> bid m = Some v -> (v < vk)%Q).

(** The answers [new] to the proposals [bids] of a round: one for each
    proposal, to its sender, an [accept_proposal] at the rank [k] and a
    [reject_proposal] at the other ranks. [k] is the first rank of the
    greatest utility when no utility is negative, and whenever some utility
    exceeds 0; it is 0 when no utility exceeds 0. *)
Definition awarded (bids new : list Message.t) (k : nat) : Prop :=
  (k < length bids)%nat ∧ length new = length bids
  ∧ (∀ j m, bids !! j = Some m ->
       ∃ r, new !! j = Some r ∧ Message.to r = Message.sender m
            ∧ Message.performative r
              = if bool_decide (j = k) then "accept_proposal"%string
                else "reject_proposal"%string)
  ∧ ((∀ m v, m ∈ bids -> bid m = Some v -> (0 <= v)%Q) -> first_best bids k)
  ∧ ((∃ m v, m ∈ bids ∧ bid m = Some v ∧ (0 < v)%Q) -> first_best bids k)
  ∧ ((∀ m v, m ∈ bids -> bid m = Some v -> (v <= 0)%Q) -> k = 0%nat).

(** The restart of the round of [wi] by the step of [p]: [wi] is set in
    [items_to_ship], or is the item the step spawns. *)
Definition restarted (p : PlanetManager.t) (w : Ambient) (wi : Item.t) : Prop :=
  (∃ it, it ∈ map fst (PlanetManager.items_to_ship p) ∧ Item.uid it = Item.uid wi)
  ∨ next_uuid w = Item.uid wi.

(** The planet once the round of [waiting_item] is deleted from
    [proposals] and [start_times]. *)
Definition closed (waiting_item : Item.t) (p : PlanetManager.t) : PlanetManager.t :=
  PlanetManager.set_start_times
    (delete (Item.uid waiting_item) (PlanetManager.start_times p))
    (PlanetManager.set_proposals
       (delete (Item.uid waiting_item) (PlanetManager.proposals p)) p).

(** [w] after one draw of [random.choice]. *)
Definition picked (w : Ambient) : Ambient :=
  mkAmbient (rnd_floats w) (tl (rnd_picks w)) (next_uuid w) (outbox w)
    (model_items w) (computed_items_nb w) (schedule_steps w).

(** The calls for proposals for [item] and the round they open. *)
Definition cfps_for (ships : list Ship.t) (item : Item.t) (dest : Planet.t)
    (p : PlanetManager.t) (steps : Z) : list Message.t :=
  map (fun a : Ship.t =>
         Message.mk (Ship.jid a) (Planet.jid (PlanetManager.self p)) item
           [Planet.x dest; Planet.y dest] "call_for_proposal" steps)
      (filter (fun a : Ship.t =>
                 float_eq (Ship.x a) (Planet.x (PlanetManager.self p)) = true
                 ∧ float_eq (Ship.y a) (Planet.y (PlanetManager.self p)) = true) ships).

Definition opened (item : Item.t) (steps : Z) (p : PlanetManager.t) : PlanetManager.t :=
  PlanetManager.set_waiting_for_proposal (PlanetManager.waiting_for_proposal p ++ [item])
    (PlanetManager.set_proposals (<[Item.uid item := []]> (PlanetManager.proposals p))
       (PlanetManager.set_start_times
          (<[Item.uid item := steps]> (PlanetManager.start_times p)) p)).

(** The planet after [item] went back to [items_to_ship] toward [dest]. *)
Definition requeued (item : Item.t) (dest : Planet.t) (p : PlanetManager.t)
  : PlanetManager.t :=
  closed item
    (PlanetManager.set_items_to_ship
       (PlanetManager.dict_set item dest (PlanetManager.items_to_ship p)) p).

(** The two directions of the road between [u] and [v] have the same
    multiplier, one of the three road states. *)
Definition same_both_ways (sm : gmap (Planet.t * Planet.t) float) (u v : Planet.t)
  : Prop :=
  ∃ state, state ∈ SpaceRoadNetwork.road_states
           ∧ sm !! (u, v) = Some state ∧ sm !! (v, u) = Some state.

Definition symmetric_roads (net : SpaceRoadNetwork.t) : Prop :=
  ∀ e : Graph.edge, e ∈ Graph.edges (SpaceRoadNetwork.current_graph net) ->
    same_both_ways (SpaceRoadNetwork.speed_modificator net) e.1.1 e.1.2.

(** One tick of the road network. *)
Definition ticks (net net' : SpaceRoadNetwork.t) : Prop :=
  ∃ w w', SpaceRoadNetwork.step net w = Ok (net', w').

(** The road networks of a run: the one that is constructed and those that
    [step] makes of it. *)
Inductive reachable (norm : float -> float -> float) (planets : list Planet.t)
    (uid : Z) (road_branching_factor : float) : SpaceRoadNetwork.t -> Prop :=
| reachable_init w w' net :
    SpaceRoadNetwork.init norm planets uid road_branching_factor w = Ok (Some net, w') ->
    reachable norm planets uid road_branching_factor net
| reachable_step net net' :
    reachable norm planets uid road_branching_factor net ->
    ticks net net' ->
    reachable norm planets uid road_branching_factor net'.

(** What holds of the partition [P] once the edges [es] between the nodes
    [ns] have been taken into account. *)
Record partition_of (ns : list Planet.t) (es : list Graph.edge)
    (P : list (list Planet.t)) : Prop := {
  part_nodes : mjoin P ≡ₚ ns;
  part_nonempty : ∀ B, B ∈ P -> B ≠ [];
  part_joined : ∀ B a b, B ∈ P -> a ∈ B -> b ∈ B -> rtc (Graph.linked es) a b;
  part_edges : ∀ e : Graph.edge, e ∈ es -> ∃ B, B ∈ P ∧ e.1.1 ∈ B ∧ e.1.2 ∈ B
}.

(** ** Data for the examples

    Two planets at distance 5, a ship docked at the first one, and a norm
    that is exact on the vectors with integer coordinates whose length is
    an integer. *)
Definition earth : Planet.t := Planet.mk 11 "planet-0" 0 0.
Definition mars : Planet.t := Planet.mk 12 "planet-1" 3 4.

Definition example_norm (dx dy : float) : float :=
  inject_Z (Z.sqrt (Qfloor (dx * dx + dy * dy)%Q)).

Definition example_path (g : Graph.t) (source : Planet.t) (target : option Planet.t)
  : Res (list Planet.t) :=
  match target with
  | Some t => Ok [source; t]
  | None => Raise NetworkXNoPath
  end.

(** The road network of the two planets, with the road between them. *)
Definition example_roads : SpaceRoadNetwork.t :=
  SpaceRoadNetwork.mk 1
    (Graph.mk [earth; mars] [(mars, earth, 5%Q)])
    (Graph.mk [mars; earth] [(mars, earth, 5%Q)])
    (<[(earth, mars) := 1%Q]> (<[(mars, earth) := 1%Q]> ∅)).

(** An item, a ship docked at [earth] and the same ship carrying the item
    to [mars]; the call for proposals for the item and proposals for it. *)
Definition parcel : Item.t := Item.mk (1 # 2) (1 # 2) (1 # 2) 0 0 7.

Definition docked_ship : Ship.t :=
  Ship.mk "ship-0" (1 # 2) (1 # 4) (1 # 4) [earth; mars] 0 0 60
    None None None earth None false [].

Definition carrier : Ship.t :=
  Ship.mk "ship-0" (1 # 2) (1 # 4) (1 # 4) [earth; mars] 0 0 60
    (Some mars) None (Some mars) earth (Some parcel) false [].

Definition cfp_parcel : Message.t :=
  Message.mk "ship-0@localhost" "planet-0@localhost" parcel [3%Q; 4%Q]
    "call_for_proposal" 10.

Definition proposal_of (ship : string) (utility : float) : Message.t :=
  Message.mk "planet-0@localhost" ship parcel [3%Q; 4%Q; utility] "proposal" 11.

Definition three_bids : list Message.t :=
  [proposal_of "ship-A@localhost" (7 # 10); proposal_of "ship-B@localhost" (9 # 10);
   proposal_of "ship-C@localhost" (4 # 10)].

(** A proposal for an item of uid 8, which no planet below has a round
    for. *)
Definition stray_proposal : Message.t :=
  Message.mk "planet-0@localhost" "ship-0@localhost"
    (Item.mk (1 # 2) (1 # 2) (1 # 2) 0 0 8) [3%Q; 4%Q; (1 # 2)%Q] "proposal" 11.

(** The planet [earth] with the parcel to ship to [mars] and no round yet;
    the same planet with the round of the parcel opened at tick 10 with the
    bids [received]; and the same planet with nothing to ship and the
    messages [inbox] in its mailbox. *)
Definition depot : PlanetManager.t :=
  PlanetManager.mk earth [(parcel, mars)] [] ∅ ∅ [mars] [].

Definition soliciting (received : list Message.t) : PlanetManager.t :=
  PlanetManager.mk earth [] [parcel] {[7 := 10]} {[7 := received]} [mars] [].

Definition at_rest (inbox : list Message.t) : PlanetManager.t :=
  PlanetManager.mk earth [] [] ∅ ∅ [mars] inbox.

(** The ambient state at the tick [steps]: the parcel is the only item, and
    [random.random()] gives [0.5], so that no item is spawned. *)
Definition calm (steps : Z) : Ambient :=
  mkAmbient [(1 # 2)%Q; (1 # 2)%Q; (1 # 2)%Q; (1 # 2)%Q; (1 # 2)%Q; (1 # 2)%Q]
    [] 100 [] [parcel] 0 steps.

(** ** Vocabulary of the further properties *)

(** The coordinates of the planet [p] are [(x, y)]. *)
Definition located (x y : float) (p : Planet.t) : Prop :=
  float_eq (Planet.x p) x = true ∧ float_eq (Planet.y p) y = true.

(** What the fields of a ship have to do with each other: an item is on
    board exactly when there is a destination, a waypoint is kept only
    toward a destination, and an answer is awaited only with no item on
    board and with the destination that was proposed. *)
Definition consistent (s : Ship.t) : Prop :=
  (Ship.item s = None ↔ Ship.destination s = None)
  ∧ (Ship.destination s = None -> Ship.waypoint s = None)
  ∧ (Ship.waiting_for_proposal s = true ->
     Ship.item s = None ∧ Ship.potential_destination s ≠ None).

(** The road network of the examples with its road closed. *)
Definition closed_roads : SpaceRoadNetwork.t :=
  SpaceRoadNetwork.mk 1
    (Graph.mk [earth; mars] [(mars, earth, 5%Q)])
    (Graph.mk [mars; earth] [(mars, earth, 5%Q)])
    (<[(earth, mars) := 0%Q]> (<[(mars, earth) := 0%Q]> ∅)).

(** A call for proposals toward coordinates where no planet is, and the
    rejection of a proposal for the parcel. *)
Definition cfp_nowhere : Message.t :=
  Message.mk "ship-0@localhost" "planet-0@localhost" parcel [9%Q; 9%Q]
    "call_for_proposal" 10.

Definition reject_parcel : Message.t :=
  Message.mk "ship-0@localhost" "planet-0@localhost" parcel [3%Q; 4%Q]
    "reject_proposal" 14.

Definition accept_parcel : Message.t :=
  Message.mk "ship-0@localhost" "planet-0@localhost" parcel [3%Q; 4%Q]
    "accept_proposal" 14.

(** The ambient state of a model that holds no item. *)
Definition bare (steps : Z) : Ambient :=
  mkAmbient [(1 # 2)%Q; (1 # 2)%Q; (1 # 2)%Q; (1 # 2)%Q; (1 # 2)%Q; (1 # 2)%Q]
    [] 100 [] [] 0 steps.

(** The [uid]s of the items that wait for proposals, and of the items in
    [items_to_ship]. *)
Definition round_uids (p : PlanetManager.t) : list Z :=
  map Item.uid (PlanetManager.waiting_for_proposal p).

Definition queued_uids (p : PlanetManager.t) : list Z :=
  map (fun kv : Item.t * Planet.t => Item.uid kv.1) (PlanetManager.items_to_ship p).

(** The books of a planet are in order: the items that wait are listed
    once, [start_times] and [proposals] have an entry exactly for them, the
    items to ship are listed once, wait for nothing and go to planets of
    [self.planets], and every [uid] in the books has been issued. *)
Record books (p : PlanetManager.t) (w : Ambient) : Prop := {
  books_rounds : NoDup (round_uids p);
  books_start_times :
    ∀ u, is_Some (PlanetManager.start_times p !! u) ↔ u ∈ round_uids p;
  books_proposals :
    ∀ u, is_Some (PlanetManager.proposals p !! u) ↔ u ∈ round_uids p;
  books_queue : NoDup (queued_uids p);
  books_apart : ∀ u, u ∈ queued_uids p -> u ∉ round_uids p;
  books_routes :
    ∀ it dest, (it, dest) ∈ PlanetManager.items_to_ship p ->
               dest ∈ PlanetManager.planets p;
  books_issued : ∀ u, u ∈ round_uids p ∨ u ∈ queued_uids p -> u < next_uuid w
}.

(** Every proposal on the books has its three fields. *)
Definition bids_ok (p : PlanetManager.t) : Prop :=
  ∀ u received, PlanetManager.proposals p !! u = Some received ->
                Forall is_proposal received.

(** Every message in the mailbox is a proposal, with its three fields, for
    an item of the books. *)
Definition inbox_ok (p : PlanetManager.t) : Prop :=
  ∀ m, m ∈ PlanetManager.msg_box p ->
       is_proposal m ∧ Item.uid (Message.body_item m) ≠ 0
       ∧ (Item.uid (Message.body_item m) ∈ round_uids p
          ∨ Item.uid (Message.body_item m) ∈ queued_uids p).

(** The elements of [l] whose rank, counted from [i], is not in [dels]. *)
Fixpoint keep_from (i : nat) (dels : list nat) (l : list Item.t) : list Item.t :=
  match l with
  | [] => []
  | x :: l' =>
      if decide (i ∈ dels) then keep_from (S i) dels l'
      else x :: keep_from (S i) dels l'
  end.

(** A planet that knows no other planet, with the round of the parcel
    opened at tick 10 and no proposal for it; and the ambient state at the
    tick [steps] when [random.random()] gives [0.01], so that an item is
    created. *)
Definition lonely : PlanetManager.t :=
  PlanetManager.mk earth [] [parcel] {[7 := 10]} {[7 := []]} [] [].

Definition fertile (steps : Z) : Ambient :=
  mkAmbient [(1 # 100)%Q; (1 # 2)%Q; (1 # 2)%Q; (1 # 2)%Q] [] 100 [] [parcel] 0 steps.

(** [w'] differs from [w] at most by the draws consumed and the messages
    sent. *)
Definition same_items (w w' : Ambient) : Prop :=
  model_items w' = model_items w ∧ computed_items_nb w' = computed_items_nb w
  ∧ schedule_steps w' = schedule_steps w ∧ next_uuid w' = next_uuid w.

(** [w'] has the clock of [w], and the messages sent by then are still
    the first of its outbox. *)
Definition extends (w w' : Ambient) : Prop :=
  schedule_steps w' = schedule_steps w ∧ ∃ new, outbox w' = outbox w ++ new.

(** The ['distance'] of every road of [g] is the norm of the difference
    of the coordinates of its two ends, taken from one end or from the
    other. *)
Definition measured (norm : float -> float -> float) (g : Graph.t) : Prop :=
  ∀ u v d, (u, v, d) ∈ Graph.edges g ->
    d = norm (Planet.x u - Planet.x v)%Q (Planet.y u - Planet.y v)%Q
    ∨ d = norm (Planet.x v - Planet.x u)%Q (Planet.y v - Planet.y u)%Q.

(** The keys of [speed_modificator] are the two directions of the roads of
    the current graph, whose nodes are the ends of its roads. *)
Definition keyed (net : SpaceRoadNetwork.t) : Prop :=
  (∀ a b, is_Some (SpaceRoadNetwork.speed_modificator net !! (a, b))
          ↔ Graph.adjacent (SpaceRoadNetwork.current_graph net) a b)
  ∧ (∀ x, x ∈ Graph.nodes (SpaceRoadNetwork.current_graph net)
          ↔ ∃ y, Graph.adjacent (SpaceRoadNetwork.current_graph net) x y).

(** A ship as the model creates it: docked at a planet of the model, idle,
    with no destination and an empty mailbox. *)
Definition docked (planets : list Planet.t) (s : Ship.t) : Prop :=
  idle s ∧ consistent s ∧ Ship.planets s = planets
  ∧ Ship.previous_point s ∈ planets
  ∧ located (Ship.x s) (Ship.y s) (Ship.previous_point s)
  ∧ Ship.max_speed s = 60%Q ∧ Ship.msg_box s = []
  ∧ Ship.destination s = None ∧ Ship.waypoint s = None
  ∧ Ship.potential_destination s = None.

(** ** Tactics *)

(** The tests on the flags of a ship, once the flags are known. *)
Ltac decide_flags H :=
  change (bool_decide (true = true)) with true in H;
  change (bool_decide (false = false)) with true in H;
  change (bool_decide (true = false)) with false in H;
  change (bool_decide (false = true)) with false in H;
  change (bool_decide (@None Item.t = None)) with true in H;
  repeat match type of H with
         | context [bool_decide (Some ?it = @None Item.t)] =>
             change (bool_decide (Some it = @None Item.t)) with false in H
         end;
  rewrite ?andb_true_r, ?andb_false_r, ?andb_true_l, ?andb_false_l in H.

(** Case analysis on the innermost scrutinee of the [match]es of [H]. *)
Ltac split_match H :=
  match type of H with
  | context [match ?x with _ => _ end] =>
      lazymatch x with
      | context [match _ with _ => _ end] => fail
      | _ => let E := fresh "E" in
             destruct x eqn:E; cbn -[Item.from_json] in H; decide_flags H;
             try discriminate H
      end
  end.

(** * Properties *)

(** ** The ambient state *)

Lemma bind_ok {A B} (m : M A) (k : A -> M B) w v w' :
  m w = Ok (v, w') -> bind m k w = k v w'.
Proof. intros H. unfold bind. by rewrite H. Qed.

Lemma bind_raise {A B} (m : M A) (k : A -> M B) w e :
  m w = Raise e -> bind m k w = Raise e.
Proof. intros H. unfold bind. by rewrite H. Qed.

Lemma float_gt_true p q : float_gt p q = true ↔ (q < p)%Q.
Proof.
  unfold float_gt. rewrite negb_true_iff, <- not_true_iff_false, Qle_bool_iff.
  split; [apply Qnot_le_lt | apply Qlt_not_le].
Qed.

Lemma float_gt_false p q : float_gt p q = false ↔ (p <= q)%Q.
Proof. unfold float_gt. by rewrite negb_false_iff, Qle_bool_iff. Qed.


(** ** Item *)

Section ItemFacts.
Variables (x0 y0 : float) (w : Ambient).

(** An attribute that is supplied and is not zero is stored as it is. *)
Lemma init_supplied (a0 b0 c0 : float) (u0 : Z) :
  Qeq_bool a0 0 = false -> Qeq_bool b0 0 = false -> Qeq_bool c0 0 = false ->
  u0 ≠ 0 ->
  Item.init x0 y0 (Some a0) (Some b0) (Some c0) (Some u0) w
  = Ok (Item.mk a0 b0 c0 x0 y0 u0, w).
Proof.
  intros Ha Hb Hc Hu. unfold Item.init, bind, ret. cbn.
  rewrite Ha, Hb, Hc. apply Z.eqb_neq in Hu. rewrite Hu. reflexivity.
Qed.

(** A supplied attribute equal to [0.0] is taken for a missing one:
    [not 0.0] holds, and the value stored is the next random draw. *)
Lemma init_zero_redrawn (b0 c0 : option float) (u0 : option Z) r rs :
  rnd_floats w = r :: rs ->
  ∃ it w', Item.init x0 y0 (Some 0%Q) b0 c0 u0 w = Ok (it, w') ∧ Item.a it = r.
Proof.
  intros Hr. unfold Item.init, bind.
  change (not_float (Some 0%Q)) with true. cbv iota.
  unfold random_random at 1. rewrite Hr.
  destruct (not_float b0), (not_float c0), (not_int u0);
    unfold random_random, uuid1, ret; cbn;
    try (destruct rs as [|r1 [|r2 rs]]; cbn); eauto.
Qed.
End ItemFacts.

Lemma from_json_supplied (j : Item.t) (w : Ambient) :
  Qeq_bool (Item.a j) 0 = false -> Qeq_bool (Item.b j) 0 = false ->
  Qeq_bool (Item.c j) 0 = false -> Item.uid j ≠ 0 ->
  Item.from_json j w = Ok (j, w).
Proof.
  intros Ha Hb Hc Hu. unfold Item.from_json.
  rewrite init_supplied by assumption. by destruct j.
Qed.

(** C9 (the code departs from it): [Item(x, y, a=0.0, b=0.5, c=0.25, uid=7)]
    is given all four values, yet the item built has [a = 0.75], the next
    result of [random.random()], and not the [0.0] supplied: [if not a]
    takes the supplied [0.0] for a missing argument. The same happens in
    [Item.from_json] for a serialized item whose [a] is [0.0]. *)
Theorem C9_supplied_zero_is_redrawn :
  let w := mkAmbient [(3 # 4)%Q] [] 100 [] [] 0 0 in
  (∃ it w', Item.init 1 2 (Some 0%Q) (Some (1 # 2)%Q) (Some (1 # 4)%Q) (Some 7) w
            = Ok (it, w')
            ∧ Item.a it = (3 # 4)%Q ∧ Item.a it ≠ 0%Q ∧ rnd_floats w' = [])
  ∧ (∃ it w', Item.from_json (Item.mk 0 (1 # 2) (1 # 4) 1 2 7) w = Ok (it, w')
              ∧ Item.a it = (3 # 4)%Q).
Proof.
  cbv zeta. split; eexists _, _; vm_compute; repeat split; discriminate.
Qed.

(** Building an item never raises and touches nothing but the sources of
    random numbers and of identifiers. *)
Lemma init_total x0 y0 a0 b0 c0 u0 w :
  ∃ it w', Item.init x0 y0 a0 b0 c0 u0 w = Ok (it, w')
           ∧ same_model w w' ∧ rnd_picks w' = rnd_picks w.
Proof.
  unfold Item.init, bind, ret, random_random, uuid1.
  destruct w as [fl pk nu ob mi cn st].
  destruct (not_float a0), (not_float b0), (not_float c0), (not_int u0);
    destruct fl as [|r1 [|r2 [|r3 rs]]]; cbn;
    (do 2 eexists; split; [reflexivity | done]).
Qed.

Lemma from_json_total j w :
  ∃ it w', Item.from_json j w = Ok (it, w')
           ∧ same_model w w' ∧ rnd_picks w' = rnd_picks w.
Proof. apply init_total. Qed.

(** ** Ship: bidding *)

Lemma on_reject_other m s :
  Message.performative m ≠ "reject_proposal"%string -> Ship.on_reject_proposal m s = s.
Proof.
  intros Hp. unfold Ship.on_reject_proposal.
  apply String.eqb_neq in Hp. by rewrite Hp, andb_false_r.
Qed.

Lemma on_accept_other m s w :
  Message.performative m ≠ "accept_proposal"%string ->
  Ship.on_accept_proposal m s w = Ok (s, w).
Proof.
  intros Hp. unfold Ship.on_accept_proposal.
  apply String.eqb_neq in Hp. by rewrite Hp, andb_false_r.
Qed.

Lemma on_cfp_busy m s w :
  ¬ idle s -> Ship.on_call_for_proposal m s w = Ok (s, w).
Proof.
  intros Hbusy. unfold Ship.on_call_for_proposal.
  destruct (bool_decide (Ship.item s = None)) eqn:Hi; [|done].
  destruct (bool_decide (Ship.waiting_for_proposal s = false)) eqn:Hw;
    [|by rewrite andb_false_r].
  apply bool_decide_eq_true in Hi, Hw. by destruct Hbusy.
Qed.

Lemma handle_cfp_busy s m w :
  Message.performative m = "call_for_proposal"%string ->
  ¬ idle s -> Ship.handle s m w = Ok (s, w).
Proof.
  intros Hp Hbusy. unfold Ship.handle.
  rewrite (bind_ok _ _ _ _ _ (on_cfp_busy m s w Hbusy)).
  rewrite on_reject_other by (rewrite Hp; discriminate).
  apply on_accept_other. rewrite Hp; discriminate.
Qed.

Lemma batch_cfp_busy ms s w :
  Forall (fun m => Message.performative m = "call_for_proposal"%string) ms ->
  ¬ idle s -> for_each ms (fun m s => Ship.handle s m) s w = Ok (s, w).
Proof.
  induction 1 as [|m ms Hm _ IH]; intros Hbusy; [done|].
  cbn. rewrite (bind_ok _ _ _ _ _ (handle_cfp_busy s m w Hm Hbusy)). by apply IH.
Qed.

Lemma last_filter_match (P : Planet.t -> Prop) `{∀ p, Decision (P p)} (l : list Planet.t) d :
  d ∈ l -> P d -> ∃ d', last (filter P l) = Some d' ∧ d' ∈ l ∧ P d'.
Proof.
  intros Hd HP.
  assert (Hin : d ∈ filter P l) by (apply list_elem_of_filter; done).
  destruct (last (filter P l)) as [d'|] eqn:Hl.
  - exists d'. split; [done|]. apply last_Some_elem_of in Hl.
    apply list_elem_of_filter in Hl. tauto.
  - apply last_None in Hl. rewrite Hl in Hin. by apply elem_of_nil in Hin.
Qed.

(** ** Ship: delivery *)

(** [list.remove] takes out the first item with the same uid. *)
Lemma list_remove_first it l i :
  i ∈ l -> Item.uid i = Item.uid it ->
  ∃ l1 i' l2, l = l1 ++ i' :: l2 ∧ Item.uid i' = Item.uid it
              ∧ (∀ j, j ∈ l1 -> Item.uid j ≠ Item.uid it)
              ∧ Ship.list_remove it l = Some (l1 ++ l2).
Proof.
  induction l as [|h l IH]; intros Hin Hu; [by apply elem_of_nil in Hin|].
  cbn. unfold Item.eq. destruct (Z.eqb_spec (Item.uid it) (Item.uid h)) as [He|Hne].
  - exists [], h, l. split_and!; try done. intros j Hj. by apply elem_of_nil in Hj.
  - apply elem_of_cons in Hin as [->|Hin]; [congruence|].
    destruct (IH Hin Hu) as (l1 & i' & l2 & -> & Hi' & Hl1 & ->).
    exists (h :: l1), i', l2. split_and!; try done.
    intros j [->|Hj]%elem_of_cons; [congruence | by apply Hl1].
Qed.

(** The move that ends on the destination: what [advance] returns. *)
Lemma advance_delivers
    (norm : float -> float -> float)
    (dijkstra_path : Graph.t -> Planet.t -> option Planet.t -> Res (list Planet.t))
    (environment : SpaceRoadNetwork.t) (s : Ship.t) (w : Ambient)
    (wp : Planet.t) (it i : Item.t) (modif : float) :
  Ship.waypoint s = Some wp -> Ship.destination s = Some wp ->
  Ship.item s = Some it ->
  SpaceRoadNetwork.speed_modificator environment !! (Ship.previous_point s, wp)
    = Some modif ->
  float_eq (Ship.x (Ship.move_to norm wp (Ship.max_speed s * modif)%Q s)) (Planet.x wp) = true ->
  float_eq (Ship.y (Ship.move_to norm wp (Ship.max_speed s * modif)%Q s)) (Planet.y wp) = true ->
  i ∈ model_items w -> Item.uid i = Item.uid it ->
  ∃ s' l1 i' l2,
    Ship.advance norm dijkstra_path environment s w = Ok (s', delivered (l1 ++ l2) w)
    ∧ model_items w = l1 ++ i' :: l2 ∧ Item.uid i' = Item.uid it
    ∧ (∀ j, j ∈ l1 -> Item.uid j ≠ Item.uid it)
    ∧ computed_items_nb (delivered (l1 ++ l2) w) = computed_items_nb w + 1
    ∧ Ship.item s' = None ∧ Ship.destination s' = None ∧ Ship.waypoint s' = None
    ∧ Ship.previous_point s' = wp
    ∧ Ship.preference_a s' = Ship.preference_a s
    ∧ Ship.preference_b s' = Ship.preference_b s
    ∧ Ship.preference_c s' = Ship.preference_c s
    ∧ Ship.max_speed s' = Ship.max_speed s
    ∧ Ship.name s' = Ship.name s ∧ Ship.planets s' = Ship.planets s
    ∧ Ship.potential_destination s' = Ship.potential_destination s
    ∧ Ship.waiting_for_proposal s' = Ship.waiting_for_proposal s
    ∧ Ship.msg_box s' = Ship.msg_box s.
Proof.
  intros Hwp Hd Hit Hsm Hx Hy Hin Hu.
  set (s2 := Ship.move_to norm wp (Ship.max_speed s * modif)%Q s) in *.
  set (it' := Item.mk (Item.a it) (Item.b it) (Item.c it) (Ship.x s2) (Ship.y s2)
                (Item.uid it)).
  destruct (list_remove_first it' (model_items w) i Hin Hu)
    as (l1 & i' & l2 & Hsplit & Hi' & Hl1 & Hrm).
  eexists _, l1, i', l2. split.
  - unfold Ship.advance. rewrite Hwp.
    unfold bind at 1. cbn [ret]. rewrite Hwp.
    unfold bind at 1. rewrite Hsm. cbn [lift_opt ret]. fold s2.
    unfold bind at 1. replace (Ship.item s2) with (Some it) by (by rewrite <- Hit).
    cbn [lift_opt ret]. fold it'.
    replace (Ship.x (Ship.set_item (Some it') s2)) with (Ship.x s2) by done.
    replace (Ship.y (Ship.set_item (Some it') s2)) with (Ship.y s2) by done.
    rewrite Hx, Hy. cbn [andb].
    rewrite bool_decide_eq_true_2 by (cbn; by rewrite Hd).
    unfold bind, get_items, set_items, incr_computed_items_nb, ret.
    rewrite Hrm. cbn. reflexivity.
  - cbn. split_and!; done.
Qed.

(** ** PlanetManager: the choice of a proposal *)

(** What the scan returns, for a running best [(r, u)] reached before the
    rank [i]: [r] when no utility in [ps] exceeds [u]; otherwise the first
    rank at which the greatest utility of [ps] stands. *)
Lemma best_scan_spec ps : ∀ i r u,
  Forall (fun m => is_Some (bid m)) ps ->
  ∃ k, PlanetManager.best_scan ps i r u = Some k
       ∧ ((k = r ∧ ∀ j m v, ps !! j = Some m -> bid m = Some v -> (v <= u)%Q)
          ∨ (∃ j m v, k = (i + j)%nat ∧ ps !! j = Some m ∧ bid m = Some v
                      ∧ (u < v)%Q
                      ∧ (∀ j' m' v', ps !! j' = Some m' -> bid m' = Some v' -> (v' <= v)%Q)
                      ∧ (∀ j' m' v', (j' < j)%nat -> ps !! j' = Some m' ->
                                     bid m' = Some v' -> (v' < v)%Q))).
Proof.
  induction ps as [|m ps IH]; intros i r u Hall.
  - exists r. split; [done|]. left. split; [done|]. intros j m v Hj. done.
  - apply Forall_cons in Hall as [[v0 Hv0] Hall]. cbn [PlanetManager.best_scan].
    unfold bid in *. rewrite Hv0.
    assert (Hhead : ∀ v', (m :: ps) !! 0%nat = Some m -> Message.field m 3 = Some v' -> v' = v0)
      by (intros v' _ Hv'; congruence).
    destruct (float_gt v0 u) eqn:Hgt.
    + apply float_gt_true in Hgt.
      destruct (IH (S i) i v0 Hall)
        as (k & Hk & [[-> Hle]|(j & m' & v & -> & Hj & Hv & Hlt & Hmax & Hfirst)]).
      * exists i. split; [done|]. right. exists 0%nat, m, v0.
        split_and!; [lia|done|done|done| |].
        -- intros [|j'] m'' v' Hj' Hv'; cbn in Hj'.
           ++ injection Hj' as <-. rewrite (Hhead v') by done. apply Qle_refl.
           ++ by eapply Hle.
        -- intros j' m'' v' Hlt'. lia.
      * exists (S i + j)%nat. split; [done|]. right. exists (S j), m', v.
        split_and!; [lia|done|done| | |].
        -- by eapply Qlt_trans.
        -- intros [|j'] m'' v' Hj' Hv'; cbn in Hj'.
           ++ injection Hj' as <-. rewrite (Hhead v') by done. by apply Qlt_le_weak.
           ++ by eapply Hmax.
        -- intros [|j'] m'' v' Hlt' Hj' Hv'; cbn in Hj'.
           ++ injection Hj' as <-. by rewrite (Hhead v') by done.
           ++ eapply Hfirst; [|done..]. lia.
    + apply float_gt_false in Hgt.
      destruct (IH (S i) r u Hall)
        as (k & Hk & [[-> Hle]|(j & m' & v & -> & Hj & Hv & Hlt & Hmax & Hfirst)]).
      * exists r. split; [done|]. left. split; [done|].
        intros [|j'] m'' v' Hj' Hv'; cbn in Hj'.
        -- injection Hj' as <-. by rewrite (Hhead v') by done.
        -- by eapply Hle.
      * exists (S i + j)%nat. split; [done|]. right. exists (S j), m', v.
        split_and!; [lia|done|done|done| |].
        -- intros [|j'] m'' v' Hj' Hv'; cbn in Hj'.
           ++ injection Hj' as <-. rewrite (Hhead v') by done.
              apply Qlt_le_weak. by eapply Qle_lt_trans.
           ++ by eapply Hmax.
        -- intros [|j'] m'' v' Hlt' Hj' Hv'; cbn in Hj'.
           ++ injection Hj' as <-. rewrite (Hhead v') by done. by eapply Qle_lt_trans.
           ++ eapply Hfirst; [|done..]. lia.
Qed.

Lemma sent_all_nil w : sent_all [] w = w.
Proof. destruct w. unfold sent_all. cbn. by rewrite app_nil_r. Qed.

Lemma sent_all_app l1 l2 w : sent_all l2 (sent_all l1 w) = sent_all (l1 ++ l2) w.
Proof. unfold sent_all. cbn. by rewrite app_assoc. Qed.

Lemma answer_sent p wi k j m w :
  is_proposal m ->
  PlanetManager.answer p wi k j m w
  = Ok (tt, sent_all [reply p wi k (schedule_steps w) j m] w).
Proof.
  intros (X & Y & U & Hf). unfold PlanetManager.answer, Message.field, reply.
  rewrite Hf. reflexivity.
Qed.

Lemma answers_sent p wi k (jms : list (nat * Message.t)) w :
  Forall (fun jm => is_proposal jm.2) jms ->
  for_each jms (fun jm _ => PlanetManager.answer p wi k jm.1 jm.2) tt w
  = Ok (tt, sent_all (map (fun jm => reply p wi k (schedule_steps w) jm.1 jm.2) jms) w).
Proof.
  revert w. induction jms as [|[j m] jms IH]; intros w Hall.
  - cbn. by rewrite sent_all_nil.
  - apply Forall_cons in Hall as [Hm Hall]. cbn [for_each].
    rewrite (bind_ok _ _ _ _ _ (answer_sent p wi k j m w Hm)).
    rewrite IH by done. cbn [map]. by rewrite sent_all_app.
Qed.


Lemma is_proposal_bid m : is_proposal m -> is_Some (bid m).
Proof. intros (X & Y & U & Hf). unfold bid, Message.field. rewrite Hf. by eexists. Qed.

Lemma award_bids wi received p w :
  received ≠ [] -> Forall is_proposal received ->
  ∃ k, PlanetManager.best_rank received = Some k
       ∧ PlanetManager.award wi received p w
         = Ok (p, sent_all (imap (reply p wi k (schedule_steps w)) received) w).
Proof.
  intros Hne Hall.
  destruct (best_scan_spec received 0 0 0%Q) as (k & Hk & _).
  { eapply Forall_impl; [exact Hall|]. intros m. apply is_proposal_bid. }
  exists k. split; [exact Hk|].
  unfold PlanetManager.award.
  destruct received as [|m0 rest]; [done|]. cbn [length Nat.ltb Nat.leb].
  unfold PlanetManager.best_rank in *. rewrite Hk. cbn [lift_opt].
  unfold bind at 1. cbn [ret]. unfold bind at 1.
  rewrite answers_sent.
  - cbn [ret]. do 2 f_equal. rewrite fmap_imap. f_equal. 
  - apply Forall_lookup. intros i [j m] Hi.
    apply list_lookup_imap_Some in Hi as (m' & Hm' & [= -> ->]).
    eapply Forall_lookup_1 in Hall; done.
Qed.

Lemma best_rank_first received k :
  received ≠ [] -> Forall (fun m => is_Some (bid m)) received ->
  PlanetManager.best_rank received = Some k ->
  (k < length received)%nat
  ∧ ((∃ m v, m ∈ received ∧ bid m = Some v ∧ (0 < v)%Q) -> first_best received k)
  ∧ ((∀ m v, m ∈ received -> bid m = Some v -> (v <= 0)%Q) -> k = 0%nat)
  ∧ ((∀ m v, m ∈ received -> bid m = Some v -> (0 <= v)%Q) -> first_best received k).
Proof.
  intros Hne Hall Hk.
  destruct (best_scan_spec received 0 0 0%Q Hall) as (k' & Hk' & Hspec).
  unfold PlanetManager.best_rank in Hk. rewrite Hk in Hk'. injection Hk' as <-.
  destruct received as [|m0 rest]; [done|].
  destruct (Forall_inv Hall) as [v0 Hv0].
  destruct Hspec as [[-> Hle]|(j & m & v & -> & Hj & Hv & Hlt & Hmax & Hfirst)].
  - split_and!.
    + cbn. lia.
    + intros (m & v & Hm & Hv & Hpos). apply list_elem_of_lookup in Hm as [j Hj].
      specialize (Hle j m v Hj Hv). by apply Qlt_not_le in Hpos.
    + done.
    + intros Hnn. exists m0, v0. split_and!; [done|done| |].
      * intros j m v Hj Hv. apply Qle_trans with 0%Q; [by eapply Hle|].
        eapply (Hnn m0); [apply elem_of_cons; by left | done].
      * intros j m v Hlt. lia.
  - assert (Hfb : first_best (m0 :: rest) (0 + j)).
    { exists m, v. split_and!; try done. }
    split_and!.
    + cbn [Nat.add]. by eapply lookup_lt_Some.
    + done.
    + intros Hnp. exfalso. apply (Qlt_not_le _ _ Hlt). eapply Hnp; [|done].
      apply list_elem_of_lookup. eauto.
    + done.
Qed.

Lemma resolve_waiting l wi p dels w started :
  PlanetManager.start_times p !! Item.uid wi = Some started ->
  schedule_steps w - started <= WAITING_TIME ->
  PlanetManager.resolve (l, wi) (p, dels) w = Ok ((p, dels), w).
Proof.
  intros Hst Hle. unfold PlanetManager.resolve, bind, get_steps. rewrite Hst. cbn [lift_opt ret].
  destruct (Z.gtb_spec (schedule_steps w - started) WAITING_TIME); [lia | done].
Qed.

Lemma resolve_expired l wi p dels w started received :
  PlanetManager.start_times p !! Item.uid wi = Some started ->
  schedule_steps w - started > WAITING_TIME ->
  PlanetManager.proposals p !! Item.uid wi = Some received ->
  PlanetManager.resolve (l, wi) (p, dels) w
  = match PlanetManager.award wi received p w with
    | Ok (p', w') => Ok ((closed wi p', dels ++ [l]), w')
    | Raise e => Raise e
    end.
Proof.
  intros Hst Hgt Hpr. unfold PlanetManager.resolve, bind, get_steps. rewrite Hst. cbn [lift_opt ret].
  destruct (Z.gtb_spec (schedule_steps w - started) WAITING_TIME); [|lia].
  rewrite Hpr. cbn [lift_opt ret]. by destruct (PlanetManager.award wi received p w) as [[p' w']|e].
Qed.

(** An expired round with proposals: the answers that are sent. *)
Lemma resolve_bids_sent l wi p dels w started received :
  PlanetManager.start_times p !! Item.uid wi = Some started ->
  schedule_steps w - started > WAITING_TIME ->
  PlanetManager.proposals p !! Item.uid wi = Some received ->
  received ≠ [] -> Forall is_proposal received ->
  ∃ k, PlanetManager.best_rank received = Some k
       ∧ PlanetManager.resolve (l, wi) (p, dels) w
         = Ok ((closed wi p, dels ++ [l]),
               sent_all (imap (reply p wi k (schedule_steps w)) received) w).
Proof.
  intros Hst Hgt Hpr Hne Hall.
  destruct (award_bids wi received p w Hne Hall) as (k & Hk & Haward).
  exists k. split; [exact Hk|].
  rewrite (resolve_expired _ _ _ _ _ _ _ Hst Hgt Hpr). by rewrite Haward.
Qed.

Lemma random_choice_spec {A} (seq : list A) w :
  seq ≠ [] ->
  ∃ v, seq !! (hd 0%nat (rnd_picks w) mod length seq)%nat = Some v
       ∧ v ∈ seq ∧ random_choice seq w = Ok (v, picked w).
Proof.
  intros Hne. unfold random_choice.
  destruct (lookup_lt_is_Some_2 seq (hd 0%nat (rnd_picks w) mod length seq)%nat) as [v Hv].
  { apply Nat.mod_upper_bound. by destruct seq. }
  exists v. rewrite Hv. split_and!; [done| |done]. by eapply list_elem_of_lookup_2.
Qed.

Lemma random_choice_nil {A} w : random_choice (@nil A) w = Raise IndexError.
Proof. reflexivity. Qed.

Lemma dict_get_set item v d :
  PlanetManager.dict_get item (PlanetManager.dict_set item v d) = Some v.
Proof.
  induction d as [|[k v'] d IH]; cbn.
  - unfold Item.eq. by rewrite Z.eqb_refl.
  - destruct (Item.eq k item) eqn:He; cbn; by rewrite He.
Qed.

Lemma dict_get_key item d :
  item ∈ map fst d -> is_Some (PlanetManager.dict_get item d).
Proof.
  induction d as [|[k v] d IH]; cbn; [by intros ?%elem_of_nil|].
  intros [->|Hin]%elem_of_cons.
  - unfold Item.eq. rewrite Z.eqb_refl. by eexists.
  - destruct (Item.eq k item); [by eexists | by apply IH].
Qed.

Lemma dict_set_keys item v d k :
  k ∈ map fst (PlanetManager.dict_set item v d) -> k ∈ map fst d ∨ k = item.
Proof.
  induction d as [|[k' v'] d IH]; cbn.
  - intros [->|?%elem_of_nil]%elem_of_cons; [by right | done].
  - destruct (Item.eq k' item); cbn.
    + intros Hk. by left.
    + intros [->|Hk]%elem_of_cons; [left; apply elem_of_cons; by left|].
      destruct (IH Hk) as [?|?]; [left; apply elem_of_cons; by right | by right].
Qed.

Lemma send_all_sent (cfps : list Message.t) w :
  for_each cfps (fun c _ => send c) tt w = Ok (tt, sent_all cfps w).
Proof.
  revert w. induction cfps as [|c cfps IH]; intros w; cbn.
  - by rewrite sent_all_nil.
  - unfold bind, send at 1. rewrite IH. do 2 f_equal.
    change (mkAmbient _ _ _ (outbox w ++ [c]) _ _ _) with (sent_all [c] w).
    by rewrite sent_all_app.
Qed.

Lemma call_for_proposal_spec ships item p w dest :
  PlanetManager.dict_get item (PlanetManager.items_to_ship p) = Some dest ->
  PlanetManager.call_for_proposal ships item p w
  = Ok (opened item (schedule_steps w) p,
        sent_all (cfps_for ships item dest p (schedule_steps w)) w).
Proof.
  intros Hd. unfold PlanetManager.call_for_proposal, bind at 1, get_steps.
  unfold bind at 1. rewrite Hd. cbn [lift_opt ret].
  unfold bind. fold (cfps_for ships item dest p (schedule_steps w)).
  by rewrite send_all_sent.
Qed.

Lemma award_no_bid wi p w :
  PlanetManager.award wi [] p w
  = match random_choice (PlanetManager.planets p) w with
    | Ok (dest, w') =>
        Ok (PlanetManager.set_items_to_ship
              (PlanetManager.dict_set wi dest (PlanetManager.items_to_ship p)) p, w')
    | Raise e => Raise e
    end.
Proof.
  unfold PlanetManager.award. cbn [length Nat.ltb Nat.leb]. unfold bind.
  by destruct (random_choice (PlanetManager.planets p) w) as [[d w']|e].
Qed.

(** An expired round without proposal: the item goes back to
    [items_to_ship] toward the planet drawn. *)
Lemma resolve_no_bid_drawn l wi p dels w started :
  PlanetManager.start_times p !! Item.uid wi = Some started ->
  schedule_steps w - started > WAITING_TIME ->
  PlanetManager.proposals p !! Item.uid wi = Some [] ->
  PlanetManager.planets p ≠ [] ->
  ∃ dest,
    PlanetManager.planets p
      !! (hd 0%nat (rnd_picks w) mod length (PlanetManager.planets p))%nat = Some dest
    ∧ PlanetManager.resolve (l, wi) (p, dels) w
      = Ok ((requeued wi dest p, dels ++ [l]), picked w).
Proof.
  intros Hst Hgt Hpr Hne.
  destruct (random_choice_spec (PlanetManager.planets p) w Hne) as (dest & Hdest & _ & Hch).
  exists dest. split; [done|].
  rewrite (resolve_expired _ _ _ _ _ _ _ Hst Hgt Hpr), award_no_bid. by rewrite Hch.
Qed.

Lemma from_json_uid j w :
  Item.uid j ≠ 0 ->
  ∃ it w', Item.from_json j w = Ok (it, w') ∧ Item.uid it = Item.uid j
           ∧ same_model w w' ∧ rnd_picks w' = rnd_picks w.
Proof.
  intros Hu. apply Z.eqb_neq in Hu.
  unfold Item.from_json, Item.init, bind, ret, random_random.
  cbn [not_int]. rewrite Hu.
  destruct w as [fl pk nu ob mi cn st].
  destruct (not_float (Some (ItemData.a j))), (not_float (Some (ItemData.b j))),
    (not_float (Some (ItemData.c j)));
    destruct fl as [|r1 [|r2 [|r3 rs]]]; cbn;
    (do 2 eexists; split; [reflexivity | done]).
Qed.

Lemma collect_known m p w received :
  Item.uid (Message.body_item m) ≠ 0 ->
  PlanetManager.proposals p !! Item.uid (Message.body_item m) = Some received ->
  ∃ w', PlanetManager.collect m p w
        = Ok (PlanetManager.set_proposals
                (<[Item.uid (Message.body_item m) := received ++ [m]]>
                   (PlanetManager.proposals p)) p, w')
        ∧ same_model w w' ∧ rnd_picks w' = rnd_picks w.
Proof.
  intros Hu Hpr. destruct (from_json_uid _ w Hu) as (it & w' & Hj & Hit & Hsame & Hpk).
  exists w'. split; [|done]. unfold PlanetManager.collect.
  rewrite (bind_ok _ _ _ _ _ Hj), Hit. unfold bind. by rewrite Hpr.
Qed.

Lemma collect_unknown m p w :
  Item.uid (Message.body_item m) ≠ 0 ->
  PlanetManager.proposals p !! Item.uid (Message.body_item m) = None ->
  PlanetManager.collect m p w = Raise KeyError.
Proof.
  intros Hu Hpr. destruct (from_json_uid _ w Hu) as (it & w' & Hj & Hit & _).
  unfold PlanetManager.collect.
  rewrite (bind_ok _ _ _ _ _ Hj), Hit. unfold bind. by rewrite Hpr.
Qed.

(** What [spawn] leaves as it found it. *)
Lemma spawn_spec p w :
  PlanetManager.planets p ≠ [] ->
  ∃ p1 w1, PlanetManager.spawn p w = Ok (p1, w1)
    ∧ PlanetManager.proposals p1 = PlanetManager.proposals p
    ∧ PlanetManager.start_times p1 = PlanetManager.start_times p
    ∧ PlanetManager.waiting_for_proposal p1 = PlanetManager.waiting_for_proposal p
    ∧ PlanetManager.msg_box p1 = PlanetManager.msg_box p
    ∧ PlanetManager.planets p1 = PlanetManager.planets p
    ∧ PlanetManager.self p1 = PlanetManager.self p
    ∧ schedule_steps w1 = schedule_steps w ∧ outbox w1 = outbox w
    ∧ (∀ it, it ∈ map fst (PlanetManager.items_to_ship p1) ->
         it ∈ map fst (PlanetManager.items_to_ship p) ∨ Item.uid it = next_uuid w).
Proof.
  intros Hne. unfold PlanetManager.spawn.
  assert (Hr : ∃ r w0, random_random w = Ok (r, w0) ∧ next_uuid w0 = next_uuid w
             ∧ schedule_steps w0 = schedule_steps w ∧ outbox w0 = outbox w).
  { unfold random_random. destruct (rnd_floats w); eauto 10. }
  destruct Hr as (r & w0 & Hr & Hu0 & Hs0 & Ho0).
  rewrite (bind_ok _ _ _ _ _ Hr).
  destruct (float_lt r NEW_ITEM_PROBA).
  - assert (Hi : ∃ it wi, Item.init (Planet.x (PlanetManager.self p))
                   (Planet.y (PlanetManager.self p)) None None None None w0 = Ok (it, wi)
               ∧ Item.uid it = next_uuid w0
               ∧ schedule_steps wi = schedule_steps w0 ∧ outbox wi = outbox w0).
    { unfold Item.init, bind, ret, random_random, uuid1. cbn [not_float not_int].
      destruct w0 as [fl pk nu ob mi cn st].
      destruct fl as [|r1 [|r2 [|r3 rs]]]; cbn; eauto 10. }
    destruct Hi as (it & wi & Hi & Hu & Hs & Ho).
    rewrite (bind_ok _ _ _ _ _ Hi).
    unfold bind, get_items, set_items, ret.
    match goal with |- context [random_choice _ ?w'] =>
      destruct (random_choice_spec (PlanetManager.planets p) w' Hne) as (d & _ & _ & Hc)
    end.
    rewrite Hc. eexists _, _. split; [reflexivity|].
    cbn. split_and!; try done; try congruence.
    intros k Hk. apply dict_set_keys in Hk as [?| ->]; [by left | right; congruence].
  - eexists _, _. split; [reflexivity|]. split_and!; try done. intros it Hit. by left.
Qed.


(** The loop [for item in self.items_to_ship]: a round is opened for every
    item and nothing else is changed. *)
Lemma cfp_loop_spec ships its : ∀ p w,
  (∀ it, it ∈ its -> is_Some (PlanetManager.dict_get it (PlanetManager.items_to_ship p))) ->
  ∃ p2 w2, for_each its (PlanetManager.call_for_proposal ships) p w = Ok (p2, w2)
    ∧ PlanetManager.items_to_ship p2 = PlanetManager.items_to_ship p
    ∧ PlanetManager.msg_box p2 = PlanetManager.msg_box p
    ∧ PlanetManager.planets p2 = PlanetManager.planets p
    ∧ PlanetManager.self p2 = PlanetManager.self p
    ∧ PlanetManager.waiting_for_proposal p2 = PlanetManager.waiting_for_proposal p ++ its
    ∧ schedule_steps w2 = schedule_steps w
    ∧ rnd_floats w2 = rnd_floats w ∧ rnd_picks w2 = rnd_picks w
    ∧ (∀ u, (∀ it, it ∈ its -> Item.uid it ≠ u) ->
         PlanetManager.proposals p2 !! u = PlanetManager.proposals p !! u
         ∧ PlanetManager.start_times p2 !! u = PlanetManager.start_times p !! u)
    ∧ (∀ it, it ∈ its ->
         PlanetManager.proposals p2 !! Item.uid it = Some []
         ∧ PlanetManager.start_times p2 !! Item.uid it = Some (schedule_steps w)).
Proof.
  induction its as [|item its IH]; intros p w Hkeys.
  - eexists _, _. split; [reflexivity|]. rewrite app_nil_r.
    split_and!; try done. intros it Hit. by apply elem_of_nil in Hit.
  - destruct (Hkeys item) as [dest Hdest]; [apply elem_of_cons; by left|].
    cbn [for_each]. rewrite (bind_ok _ _ _ _ _ (call_for_proposal_spec ships item p w dest Hdest)).
    destruct (IH (opened item (schedule_steps w) p)
                (sent_all (cfps_for ships item dest p (schedule_steps w)) w))
      as (p2 & w2 & Hloop & Hits & Hbox & Hpl & Hself & Hwait & Hsteps & Hfl & Hpk & Hother & Hopen).
    { intros it Hit. apply Hkeys. apply elem_of_cons. by right. }
    exists p2, w2. split; [exact Hloop|]. cbn in *.
    split_and!; try done.
    + by rewrite Hwait, <- app_assoc.
    + intros u Hu. destruct (Hother u) as [Hp Hs].
      { intros it Hit. apply Hu. apply elem_of_cons. by right. }
      assert (Item.uid item ≠ u) by (apply Hu; apply elem_of_cons; by left).
      rewrite Hp, Hs. by rewrite !lookup_insert_ne.
    + intros it [->|Hit]%elem_of_cons; [|by apply Hopen].
      destruct (decide (Item.uid item ∈ map Item.uid its)) as [Hin|Hnin].
      * apply list_elem_of_fmap in Hin as (it' & Hu & Hin). rewrite Hu. by apply Hopen.
      * destruct (Hother (Item.uid item)) as [Hp Hs].
        { intros it Hit Heq. apply Hnin. apply list_elem_of_fmap. eauto. }
        rewrite Hp, Hs. by rewrite !lookup_insert_eq.
Qed.

Lemma for_each_raise {A S} (body : A -> S -> M S) v l s w e :
  body v s w = Raise e -> for_each (v :: l) body s w = Raise e.
Proof. intros H. cbn. by apply bind_raise. Qed.

(** A drained message for an item without a round ends the step. *)
Lemma step_unknown_message ships p w m ms :
  PlanetManager.planets p ≠ [] ->
  PlanetManager.msg_box p = m :: ms ->
  Item.uid (Message.body_item m) ≠ 0 ->
  PlanetManager.proposals p !! Item.uid (Message.body_item m) = None ->
  (∀ it, it ∈ map fst (PlanetManager.items_to_ship p) ->
         Item.uid it ≠ Item.uid (Message.body_item m)) ->
  next_uuid w ≠ Item.uid (Message.body_item m) ->
  PlanetManager.step ships p w = Raise KeyError.
Proof.
  intros Hne Hbox Hu Hnone Hits Hfresh. unfold PlanetManager.step.
  destruct (spawn_spec p w Hne)
    as (p1 & w1 & Hspawn & Hpr1 & Hst1 & Hw1 & Hbox1 & Hpl1 & Hself1 & Hs1 & Ho1 & Hk1).
  rewrite (bind_ok _ _ _ _ _ Hspawn).
  destruct (cfp_loop_spec ships (map fst (PlanetManager.items_to_ship p1)) p1 w1)
    as (p2 & w2 & Hloop & Hits2 & Hbox2 & Hpl2 & Hself2 & Hwait2 & Hs2 & _ & _ & Hother & _).
  { intros it Hit. by apply dict_get_key. }
  rewrite (bind_ok _ _ _ _ _ Hloop). cbn zeta.
  apply bind_raise. cbn [PlanetManager.msg_box PlanetManager.set_items_to_ship
                          PlanetManager.set_msg_box].
  rewrite Hbox2, Hbox1, Hbox. apply for_each_raise.
  apply collect_unknown; [done|]. cbn.
  destruct (Hother (Item.uid (Message.body_item m))) as [-> _]; [|congruence].
  intros it Hit. destruct (Hk1 it Hit) as [?| ->]; [by apply Hits | done].
Qed.

(** ** SpaceRoadNetwork: one tick *)

(** In [step], [state] is the attribute dictionary of the road, which no
    float is equal to: the three road states are all candidates. *)
Lemma candidates_all (state : list (string * float)) :
  filter (fun n => py_ne (PyFloat n) (PyDict state) = true) SpaceRoadNetwork.road_states
  = SpaceRoadNetwork.road_states.
Proof. reflexivity. Qed.

Lemma random_random_total w :
  ∃ r w', random_random w = Ok (r, w') ∧ rnd_picks w' = rnd_picks w.
Proof. unfold random_random. destruct (rnd_floats w); eauto. Qed.

Lemma same_both_ways_insert sm u v a b state :
  state ∈ SpaceRoadNetwork.road_states ->
  same_both_ways sm u v ->
  same_both_ways (<[(b, a) := state]> (<[(a, b) := state]> sm)) u v.
Proof.
  intros Hstate (old & Hold & Huv & Hvu).
  destruct (decide ((u, v) = (a, b))) as [[= -> ->]|Hab].
  { exists state. split; [done|]. split.
    - destruct (decide ((b, a) = (a, b))) as [->|?];
        [apply lookup_insert_eq | rewrite lookup_insert_ne by done; apply lookup_insert_eq].
    - apply lookup_insert_eq. }
  destruct (decide ((u, v) = (b, a))) as [[= -> ->]|Hba].
  { exists state. split; [done|]. split.
    - apply lookup_insert_eq.
    - destruct (decide ((b, a) = (a, b))) as [->|?];
        [apply lookup_insert_eq | rewrite lookup_insert_ne by done; apply lookup_insert_eq]. }
  exists old. split; [done|].
  rewrite !lookup_insert_ne by congruence. done.
Qed.

Lemma step_road_spec road state sm w :
  ∃ sm' w', SpaceRoadNetwork.step_road (road, state) sm w = Ok (sm', w')
    ∧ (sm' = sm
       ∨ ∃ new_state, new_state ∈ SpaceRoadNetwork.road_states
           ∧ sm' = <[(road.2, road.1) := new_state]> (<[road := new_state]> sm)).
Proof.
  unfold SpaceRoadNetwork.step_road.
  destruct (random_random_total w) as (r & w1 & Hr & _).
  rewrite (bind_ok _ _ _ _ _ Hr).
  destruct (float_lt r PROBA_ISSUE_ROAD); [|eexists _, _; split; [reflexivity | by left]].
  rewrite candidates_all.
  destruct (random_choice_spec SpaceRoadNetwork.road_states w1) as (n & _ & Hn & Hc); [done|].
  rewrite (bind_ok _ _ _ _ _ Hc). eexists _, _. split; [reflexivity|]. right. eauto.
Qed.

Lemma step_roads_spec rss : ∀ sm w,
  ∃ sm' w', for_each rss SpaceRoadNetwork.step_road sm w = Ok (sm', w')
    ∧ ∀ u v, same_both_ways sm u v -> same_both_ways sm' u v.
Proof.
  induction rss as [|[road state] rss IH]; intros sm w.
  - eexists _, _. split; [reflexivity | done].
  - destruct (step_road_spec road state sm w) as (sm1 & w1 & Hstep & Hsm1).
    destruct (IH sm1 w1) as (sm' & w' & Hloop & Hsym).
    exists sm', w'. split; [cbn; by rewrite (bind_ok _ _ _ _ _ Hstep)|].
    intros u v Huv. apply Hsym.
    destruct Hsm1 as [->|(n & Hn & ->)]; [done|].
    destruct road as [a b]. by apply same_both_ways_insert.
Qed.

Lemma step_spec net w :
  ∃ net' w', SpaceRoadNetwork.step net w = Ok (net', w')
    ∧ SpaceRoadNetwork.initial_graph net' = SpaceRoadNetwork.initial_graph net
    ∧ SpaceRoadNetwork.current_graph net' = SpaceRoadNetwork.current_graph net
    ∧ SpaceRoadNetwork.unique_id net' = SpaceRoadNetwork.unique_id net
    ∧ (symmetric_roads net -> symmetric_roads net').
Proof.
  unfold SpaceRoadNetwork.step.
  destruct (step_roads_spec
              (Graph.edges_items (SpaceRoadNetwork.current_graph net))
              (SpaceRoadNetwork.speed_modificator net) w) as (sm' & w' & Hloop & Hsym).
  rewrite (bind_ok _ _ _ _ _ Hloop). eexists _, _. split; [reflexivity|].
  cbn. split_and!; try done. intros Hnet e He. apply Hsym. by apply Hnet.
Qed.

Lemma ticks_frame net net' :
  ticks net net' ->
  SpaceRoadNetwork.initial_graph net' = SpaceRoadNetwork.initial_graph net
  ∧ SpaceRoadNetwork.current_graph net' = SpaceRoadNetwork.current_graph net
  ∧ (symmetric_roads net -> symmetric_roads net').
Proof.
  intros (w & w' & Hstep).
  destruct (step_spec net w) as (net2 & w2 & Hstep2 & Hi & Hc & _ & Hs).
  rewrite Hstep in Hstep2. injection Hstep2 as <- <-. done.
Qed.

(** ** Graph: nodes, edges and components *)

(** *** Nodes and edges *)

Lemma add_node_nodes n g x :
  x ∈ Graph.nodes (Graph.add_node n g) ↔ x ∈ Graph.nodes g ∨ x = n.
Proof.
  unfold Graph.add_node. case_bool_decide as Hn; cbn.
  - split; [by left | by intros [?| ->]].
  - rewrite elem_of_app, list_elem_of_singleton. done.
Qed.

Lemma add_node_edges n g : Graph.edges (Graph.add_node n g) = Graph.edges g.
Proof. unfold Graph.add_node. by case_bool_decide. Qed.

Lemma add_node_present n g : n ∈ Graph.nodes g -> Graph.add_node n g = g.
Proof. intros Hn. unfold Graph.add_node. by rewrite bool_decide_eq_true_2. Qed.

Lemma add_node_length n g :
  (length (Graph.nodes (Graph.add_node n g)) <= S (length (Graph.nodes g)))%nat.
Proof.
  unfold Graph.add_node. case_bool_decide; cbn; [lia|]. rewrite length_app. cbn. lia.
Qed.

Lemma add_node_wf n g : Graph.wf g -> Graph.wf (Graph.add_node n g).
Proof.
  intros [Hnd Hends]. split.
  - unfold Graph.add_node. case_bool_decide as Hn; cbn; [done|].
    apply NoDup_app. split_and!; [done| |apply NoDup_singleton].
    intros x Hx ->%list_elem_of_singleton. done.
  - intros e He. rewrite add_node_edges in He. rewrite !add_node_nodes.
    destruct (Hends e He). by split; left.
Qed.

Lemma joins_spec u v (e : Graph.edge) :
  Graph.joins u v e = true ↔ e.1 = (u, v) ∨ e.1 = (v, u).
Proof.
  unfold Graph.joins. destruct e as [[a b] d]. cbn.
  rewrite orb_true_iff, !andb_true_iff, !bool_decide_eq_true.
  split.
  - intros [[-> ->]|[-> ->]]; [by left | by right].
  - intros [[= -> ->]|[= -> ->]]; [left | right]; done.
Qed.

Lemma has_edge_linked g u v :
  Graph.has_edge g u v = true ↔ Graph.adjacent g u v.
Proof.
  unfold Graph.has_edge, Graph.adjacent, Graph.linked.
  rewrite existsb_exists. split.
  - intros ([[a b] d] & Hin & Hj). apply list_elem_of_In in Hin.
    apply joins_spec in Hj. cbn in Hj.
    destruct Hj as [Hj|Hj]; injection Hj as -> ->; exists d; [by left | by right].
  - intros [d [Hin|Hin]]; eexists; (split; [apply list_elem_of_In; exact Hin|]);
      apply joins_spec; [by left | by right].
Qed.

Lemma add_edge_nodes u v d g x :
  x ∈ Graph.nodes (Graph.add_edge u v d g) ↔ x ∈ Graph.nodes g ∨ x = u ∨ x = v.
Proof.
  unfold Graph.add_edge. cbv zeta.
  destruct (Graph.has_edge _ u v); cbn [Graph.nodes];
    rewrite !add_node_nodes; tauto.
Qed.

Lemma add_edge_present u v d g :
  u ∈ Graph.nodes g -> v ∈ Graph.nodes g ->
  Graph.nodes (Graph.add_edge u v d g) = Graph.nodes g.
Proof.
  intros Hu Hv. unfold Graph.add_edge.
  rewrite (add_node_present u g Hu), (add_node_present v g Hv).
  by destruct (Graph.has_edge g u v).
Qed.


Lemma add_edge_wf u v d g : Graph.wf g -> Graph.wf (Graph.add_edge u v d g).
Proof.
  intros Hwf.
  assert (Hwf' : Graph.wf (Graph.add_node v (Graph.add_node u g)))
    by by do 2 apply add_node_wf.
  destruct Hwf' as [Hnd Hends].
  assert (Hu : u ∈ Graph.nodes (Graph.add_node v (Graph.add_node u g)))
    by (rewrite !add_node_nodes; tauto).
  assert (Hv : v ∈ Graph.nodes (Graph.add_node v (Graph.add_node u g)))
    by (rewrite !add_node_nodes; tauto).
  unfold Graph.add_edge. cbv zeta.
  destruct (Graph.has_edge _ u v); split; cbn; try done.
  - intros e (e' & -> & He')%list_elem_of_fmap.
    destruct (Graph.joins u v e'); cbn; by apply Hends.
  - intros e [He|He%list_elem_of_singleton]%elem_of_app; [by apply Hends | by subst e].
Qed.

(** A road between two nodes that have none is put last. *)
Lemma add_edge_new u v d g :
  u ∈ Graph.nodes g -> v ∈ Graph.nodes g -> Graph.has_edge g u v = false ->
  Graph.add_edge u v d g = Graph.mk (Graph.nodes g) (Graph.edges g ++ [(u, v, d)]).
Proof.
  intros Hu Hv Hno. unfold Graph.add_edge.
  rewrite (add_node_present u g Hu), (add_node_present v g Hv).
  cbv zeta. by rewrite Hno.
Qed.

(** The pairs of nodes joined by an edge after [add_edge]. *)
Lemma add_edge_adjacent u v d g a b :
  Graph.adjacent (Graph.add_edge u v d g) a b
  ↔ Graph.adjacent g a b ∨ (a, b) = (u, v) ∨ (a, b) = (v, u).
Proof.
  unfold Graph.add_edge. cbv zeta.
  set (g' := Graph.add_node v (Graph.add_node u g)).
  assert (Hadj : Graph.adjacent g' a b ↔ Graph.adjacent g a b).
  { unfold Graph.adjacent, g'. by rewrite !add_node_edges. }
  destruct (Graph.has_edge g' u v) eqn:Hhas.
  - apply has_edge_linked in Hhas. rewrite <- Hadj.
    assert (Hsame : Graph.adjacent
              (Graph.mk (Graph.nodes g')
                 (map (fun e : Graph.edge => if Graph.joins u v e then (e.1, d) else e)
                      (Graph.edges g'))) a b ↔ Graph.adjacent g' a b).
    { unfold Graph.adjacent, Graph.linked. cbn. split.
      - intros [d' Hin].
        assert (Hone : ∀ x y, (x, y, d') ∈ map (fun e : Graph.edge =>
                          if Graph.joins u v e then (e.1, d) else e) (Graph.edges g') ->
                        ∃ d0, (x, y, d0) ∈ Graph.edges g').
        { intros x y ([[x' y'] d0] & Heq & He)%list_elem_of_fmap.
          destruct (Graph.joins u v (x', y', d0)); cbn in Heq;
            injection Heq as -> -> ?; by exists d0. }
        destruct Hin as [Hin|Hin]; destruct (Hone _ _ Hin) as [d0 H0];
          exists d0; [by left | by right].
      - intros [d' Hin].
        assert (Hone : ∀ x y, (x, y, d') ∈ Graph.edges g' ->
                  ∃ d0, (x, y, d0) ∈ map (fun e : Graph.edge =>
                          if Graph.joins u v e then (e.1, d) else e) (Graph.edges g')).
        { intros x y He. destruct (Graph.joins u v (x, y, d')) eqn:Hj.
          - exists d. apply list_elem_of_fmap. exists (x, y, d'). by rewrite Hj.
          - exists d'. apply list_elem_of_fmap. exists (x, y, d'). by rewrite Hj. }
        destruct Hin as [Hin|Hin]; destruct (Hone _ _ Hin) as [d0 H0];
          exists d0; [by left | by right]. }
    rewrite Hsame. split; [by left|].
    intros [?|[[= -> ->]|[= -> ->]]]; [done|done|].
    destruct Hhas as [d0 [?|?]]; exists d0; [by right | by left].
  - rewrite <- Hadj. unfold Graph.adjacent, Graph.linked. cbn. split.
    + intros [d0 [[?|[= -> -> ->]%list_elem_of_singleton]%elem_of_app
                 |[?|[= -> -> ->]%list_elem_of_singleton]%elem_of_app]].
      * left. exists d0. by left.
      * right. by left.
      * left. exists d0. by right.
      * right. by right.
    + intros [[d0 [?|?]]|[[= -> ->]|[= -> ->]]].
      * exists d0. left. apply elem_of_app. by left.
      * exists d0. right. apply elem_of_app. by left.
      * exists d. left. apply elem_of_app. right. by apply list_elem_of_singleton.
      * exists d. right. apply elem_of_app. right. by apply list_elem_of_singleton.
Qed.

(** *** Partitions *)

Lemma insert_Permutation {A} (l : list A) i x :
  (i < length l)%nat -> <[i:=x]> l ≡ₚ x :: delete i l.
Proof.
  intros Hi. rewrite insert_take_drop by done. rewrite delete_take_drop.
  symmetry. apply Permutation_middle.
Qed.

Lemma find_block_Some u P i B :
  Graph.find_block u P = Some (i, B) -> P !! i = Some B ∧ u ∈ B.
Proof. intros H%list_find_Some. tauto. Qed.

Lemma find_block_elem u (P : list (list Planet.t)) B :
  B ∈ P -> u ∈ B -> ∃ i B', Graph.find_block u P = Some (i, B').
Proof.
  intros HB Hu. destruct (Graph.find_block u P) as [[i B']|] eqn:Hf; [eauto|].
  unfold Graph.find_block in Hf. 
  apply list_find_None in Hf. rewrite Forall_forall in Hf. by destruct (Hf B HB).
Qed.

(** Joining two different blocks: the others are kept. *)
Lemma merge_Permutation u v P i j Bi Bj :
  Graph.find_block u P = Some (i, Bi) -> Graph.find_block v P = Some (j, Bj) ->
  i ≠ j ->
  ∃ R B, P ≡ₚ Bi :: Bj :: R ∧ Graph.merge u v P ≡ₚ B :: R ∧ B ≡ₚ Bi ++ Bj.
Proof.
  intros Hu Hv Hij. unfold Graph.merge. rewrite Hu, Hv.
  apply find_block_Some in Hu as [Hi _]. apply find_block_Some in Hv as [Hj _].
  rewrite decide_False by done.
  destruct (decide (i < j)%nat) as [Hlt|Hge].
  - exists (delete i (delete j P)), (Bi ++ Bj).
    assert (Hi' : delete j P !! i = Some Bi) by by rewrite list_lookup_delete_lt.
    split_and!; [| |done].
    + rewrite (delete_Permutation P j Bj Hj) at 1.
      rewrite (delete_Permutation _ i Bi Hi') at 1. apply perm_swap.
    + apply insert_Permutation. by eapply lookup_lt_Some.
  - assert (Hlt : (j < i)%nat) by lia.
    exists (delete j (delete i P)), (Bj ++ Bi).
    assert (Hj' : delete i P !! j = Some Bj) by by rewrite list_lookup_delete_lt.
    split_and!.
    + rewrite (delete_Permutation P i Bi Hi) at 1.
      by rewrite (delete_Permutation _ j Bj Hj') at 1.
    + apply insert_Permutation. by eapply lookup_lt_Some.
    + apply Permutation_app_comm.
Qed.

Lemma merge_length_le u v P : (length (Graph.merge u v P) <= length P)%nat.
Proof.
  unfold Graph.merge.
  destruct (Graph.find_block u P) as [[i Bi]|] eqn:Hu; [|done].
  destruct (Graph.find_block v P) as [[j Bj]|] eqn:Hv; [|done].
  apply find_block_Some in Hu as [Hi _]. apply find_block_Some in Hv as [Hj _].
  repeat case_decide; [done| |]; rewrite length_insert, length_delete by eauto; lia.
Qed.

Lemma components_length_le g :
  (length (Graph.connected_components g) <= length (Graph.nodes g))%nat.
Proof.
  unfold Graph.connected_components.
  assert (H : ∀ es P, (length (fold_left (fun P (e : Graph.edge) =>
                         Graph.merge e.1.1 e.1.2 P) es P) <= length P)%nat).
  { induction es as [|e es IH]; intros P; cbn; [done|].
    etransitivity; [apply IH | apply merge_length_le]. }
  etransitivity; [apply H|]. by rewrite length_map.
Qed.

Lemma linked_sym es a b : Graph.linked es a b -> Graph.linked es b a.
Proof. intros [d [?|?]]; exists d; [by right | by left]. Qed.

Lemma joined_sym es a b : rtc (Graph.linked es) a b -> rtc (Graph.linked es) b a.
Proof.
  induction 1 as [|a b c Hab _ IH]; [done|].
  eapply rtc_r; [exact IH | by apply linked_sym].
Qed.

Lemma linked_mono es es' a b :
  es ⊆ es' -> Graph.linked es a b -> Graph.linked es' a b.
Proof. intros Hsub [d [?|?]]; exists d; [left | right]; by apply Hsub. Qed.

Lemma joined_mono es es' a b :
  es ⊆ es' -> rtc (Graph.linked es) a b -> rtc (Graph.linked es') a b.
Proof. intros Hsub. apply rtc_subrel. intros x y. by apply linked_mono. Qed.

Lemma partition_singletons ns : partition_of ns [] (map (fun n => [n]) ns).
Proof.
  split.
  - induction ns as [|n ns IH]; cbn; [done | by constructor].
  - intros B (n & -> & _)%list_elem_of_fmap. done.
  - intros B a b (n & -> & _)%list_elem_of_fmap
      ->%list_elem_of_singleton ->%list_elem_of_singleton. done.
  - intros e He. by apply elem_of_nil in He.
Qed.

Lemma partition_merge ns es P (e : Graph.edge) :
  partition_of ns es P -> e.1.1 ∈ ns -> e.1.2 ∈ ns ->
  partition_of ns (es ++ [e]) (Graph.merge e.1.1 e.1.2 P).
Proof.
  intros [Hnodes Hne Hjoin Hedges] Hu Hv.
  destruct e as [[u v] d]. cbn [fst snd] in *.
  assert (Hsub : es ⊆ es ++ [(u, v, d)]) by (intros x Hx; apply elem_of_app; by left).
  assert (Hnew : Graph.linked (es ++ [(u, v, d)]) u v).
  { exists d. left. apply elem_of_app. right. by apply list_elem_of_singleton. }
  assert (Hfu : ∃ i Bi, Graph.find_block u P = Some (i, Bi)).
  { rewrite <- Hnodes in Hu. apply list_elem_of_join in Hu as (B & HuB & HB).
    by eapply find_block_elem. }
  assert (Hfv : ∃ j Bj, Graph.find_block v P = Some (j, Bj)).
  { rewrite <- Hnodes in Hv. apply list_elem_of_join in Hv as (B & HvB & HB).
    by eapply find_block_elem. }
  destruct Hfu as (i & Bi & Hfu), Hfv as (j & Bj & Hfv).
  destruct (find_block_Some _ _ _ _ Hfu) as [Hi HuBi].
  destruct (find_block_Some _ _ _ _ Hfv) as [Hj HvBj].
  destruct (decide (i = j)) as [->|Hij].
  - assert (Bi = Bj) as -> by congruence.
    assert (Hsame : Graph.merge u v P = P).
    { unfold Graph.merge. rewrite Hfu, Hfv. by rewrite decide_True. }
    rewrite Hsame. split; [done|done| |].
    + intros B a b HB Ha Hb. eapply joined_mono; [exact Hsub|]. by apply (Hjoin B).
    + intros e [He|He%list_elem_of_singleton]%elem_of_app; [by apply Hedges|].
      subst e. exists Bj. split_and!; [by eapply list_elem_of_lookup_2|done|done].
  - destruct (merge_Permutation u v P i j Bi Bj Hfu Hfv Hij) as (R & B & HP & HP' & HB).
    assert (HBiP : Bi ∈ P) by by eapply list_elem_of_lookup_2.
    assert (HBjP : Bj ∈ P) by by eapply list_elem_of_lookup_2.
    assert (HRP : ∀ B0, B0 ∈ R -> B0 ∈ P).
    { intros B0 HB0. rewrite HP. do 2 (apply elem_of_cons; right). done. }
    assert (Hin : ∀ B0, B0 ∈ Graph.merge u v P ↔ B0 = B ∨ B0 ∈ R).
    { intros B0. rewrite HP'. apply elem_of_cons. }
    assert (HinB : ∀ a, a ∈ B ↔ a ∈ Bi ∨ a ∈ Bj).
    { intros a. rewrite HB. apply elem_of_app. }
    split.
    + rewrite HP'. cbn. rewrite HB, <- Hnodes, HP. cbn. by rewrite app_assoc.
    + intros B0 [->|HB0]%Hin; [|by apply Hne, HRP].
      intros ->. apply (elem_of_nil u). apply HinB. by left.
    + intros B0 a b [->|HB0]%Hin Ha Hb.
      * apply HinB in Ha, Hb.
        assert (Hold : ∀ B1 x y, B1 ∈ P -> x ∈ B1 -> y ∈ B1 ->
                         rtc (Graph.linked (es ++ [(u, v, d)])) x y).
        { intros B1 x y ? ? ?. eapply joined_mono; [exact Hsub|]. by apply (Hjoin B1). }
        destruct Ha as [Ha|Ha], Hb as [Hb|Hb].
        -- by apply (Hold Bi).
        -- transitivity u; [by apply (Hold Bi)|].
           transitivity v; [by apply rtc_once | by apply (Hold Bj)].
        -- transitivity v; [by apply (Hold Bj)|].
           transitivity u; [by apply rtc_once, linked_sym | by apply (Hold Bi)].
        -- by apply (Hold Bj).
      * eapply joined_mono; [exact Hsub|]. apply (Hjoin B0); [by apply HRP|done..].
    + intros e [He|He%list_elem_of_singleton]%elem_of_app.
      * destruct (Hedges e He) as (B0 & HB0 & Ha & Hb).
        rewrite HP in HB0.
        apply elem_of_cons in HB0 as [->|HB0]; [|apply elem_of_cons in HB0 as [->|HB0]].
        -- exists B. rewrite Hin, !HinB. tauto.
        -- exists B. rewrite Hin, !HinB. tauto.
        -- exists B0. rewrite Hin. tauto.
      * subst e. exists B. rewrite Hin, !HinB. cbn. tauto.
Qed.

Lemma partition_fold ns es_rest : ∀ es P,
  partition_of ns es P ->
  (∀ e : Graph.edge, e ∈ es_rest -> e.1.1 ∈ ns ∧ e.1.2 ∈ ns) ->
  partition_of ns (es ++ es_rest)
    (fold_left (fun P (e : Graph.edge) => Graph.merge e.1.1 e.1.2 P) es_rest P).
Proof.
  induction es_rest as [|e es_rest IH]; intros es P HP Hends; cbn.
  - by rewrite app_nil_r.
  - replace (es ++ e :: es_rest) with ((es ++ [e]) ++ es_rest)
      by (by rewrite <- app_assoc).
    apply IH.
    + destruct (Hends e) as [? ?]; [apply elem_of_cons; by left|]. by apply partition_merge.
    + intros e' He'. apply Hends. apply elem_of_cons. by right.
Qed.

(** The components computed are a partition of the nodes into sets of
    nodes joined by paths, and no edge leaves a component. *)
Lemma components_partition g :
  Graph.wf g -> partition_of (Graph.nodes g) (Graph.edges g) (Graph.connected_components g).
Proof.
  intros [_ Hends]. unfold Graph.connected_components.
  apply (partition_fold (Graph.nodes g) (Graph.edges g) []);
    [apply partition_singletons | done].
Qed.

(** *** The reconnection loop *)

(** One turn of the loop: a road between the first two components makes
    one component of them. *)
Lemma reconnect_turn g c0 c1 rest first_element second_element d :
  Graph.wf g ->
  Graph.connected_components g = c0 :: c1 :: rest ->
  first_element ∈ c0 -> second_element ∈ c1 ->
  Graph.wf (Graph.add_edge first_element second_element d g)
  ∧ Graph.nodes (Graph.add_edge first_element second_element d g) = Graph.nodes g
  ∧ Graph.connected_components (Graph.add_edge first_element second_element d g)
    = (c0 ++ c1) :: rest.
Proof.
  intros Hwf HP H0 H1.
  destruct (components_partition g Hwf) as [Hnodes Hne Hjoin Hedges].
  rewrite HP in *. cbn in Hnodes.
  assert (Hnd : NoDup (c0 ++ c1 ++ mjoin rest)) by (rewrite Hnodes; apply Hwf).
  apply NoDup_app in Hnd as (_ & Hc0 & Hnd).
  apply NoDup_app in Hnd as (_ & Hc1 & _).
  assert (Hu : first_element ∈ Graph.nodes g).
  { rewrite <- Hnodes. apply elem_of_app. by left. }
  assert (Hv : second_element ∈ Graph.nodes g).
  { rewrite <- Hnodes. apply elem_of_app. right. apply elem_of_app. by left. }
  assert (H10 : second_element ∉ c0).
  { intros Hin. apply (Hc0 _ Hin). apply elem_of_app. by left. }
  assert (Hno : Graph.has_edge g first_element second_element = false).
  { apply not_true_is_false. intros Hhas%has_edge_linked.
    assert (Hblock : ∃ B, B ∈ c0 :: c1 :: rest ∧ first_element ∈ B ∧ second_element ∈ B).
    { destruct Hhas as [d' [Hin|Hin]]; destruct (Hedges _ Hin) as (B & HB & Ha & Hb);
        exists B; cbn in *; done. }
    destruct Hblock as (B & HB & Ha & Hb).
    apply elem_of_cons in HB as [->|HB]; [done|].
    apply elem_of_cons in HB as [->|HB].
    - apply (Hc0 _ H0). apply elem_of_app. by left.
    - apply (Hc0 _ H0). apply elem_of_app. right. apply list_elem_of_join. eauto. }
  rewrite (add_edge_new _ _ d g Hu Hv Hno). split_and!.
  - destruct Hwf as [Hnd' Hends]. split; [done|]. cbn.
    intros e [He|He%list_elem_of_singleton]%elem_of_app; [by apply Hends | by subst e].
  - done.
  - unfold Graph.connected_components in *. cbn [Graph.nodes Graph.edges].
    rewrite fold_left_app, HP. cbn [fold_left fst snd].
    unfold Graph.merge, Graph.find_block. cbn [list_find].
    rewrite (decide_True (P := first_element ∈ c0)) by done.
    rewrite (decide_False (P := second_element ∈ c0)) by done.
    rewrite (decide_True (P := second_element ∈ c1)) by done.
    reflexivity.
Qed.

Lemma components_nonempty g :
  Graph.wf g -> Graph.nodes g ≠ [] -> Graph.connected_components g ≠ [].
Proof.
  intros Hwf Hne HP. destruct (components_partition g Hwf) as [Hnodes _ _ _].
  rewrite HP in Hnodes. cbn in Hnodes. symmetry in Hnodes.
  by apply Permutation_nil_r in Hnodes.
Qed.

Lemma reconnect_spec norm fuel : ∀ g w,
  Graph.wf g -> Graph.nodes g ≠ [] ->
  (length (Graph.connected_components g) <= S fuel)%nat ->
  ∃ g' w', SpaceRoadNetwork.reconnect norm fuel g w = Ok (Some g', w')
    ∧ Graph.wf g' ∧ Graph.nodes g' = Graph.nodes g
    ∧ length (Graph.connected_components g') = 1%nat.
Proof.
  induction fuel as [|fuel IH]; intros g w Hwf Hne Hlen;
    pose proof (components_nonempty g Hwf Hne) as Hcomp.
  - exists g, w. cbn. destruct (Graph.connected_components g) as [|c0 [|c1 rest]] eqn:HP;
      [done| |cbn in Hlen; lia].
    cbn. split_and!; try done; by rewrite HP.
  - cbn [SpaceRoadNetwork.reconnect].
    destruct (Graph.connected_components g) as [|c0 [|c1 rest]] eqn:HP; [done| |].
    + exists g, w. cbn. split_and!; try done; by rewrite HP.
    + rewrite bool_decide_eq_true_2 by (cbn; lia).
      destruct (components_partition g Hwf) as [_ Hnonempty _ _]. rewrite HP in Hnonempty.
      destruct (random_choice_spec c0 w) as (a & _ & Ha & Hca).
      { apply Hnonempty. apply elem_of_cons. by left. }
      destruct (random_choice_spec c1 (picked w)) as (b & _ & Hb & Hcb).
      { apply Hnonempty. apply elem_of_cons. right. apply elem_of_cons. by left. }
      cbn [lookup list_lookup lift_opt]. unfold bind at 1. cbn [ret].
      rewrite (bind_ok _ _ _ _ _ Hca). unfold bind at 1. cbn [ret lift_opt].
      rewrite (bind_ok _ _ _ _ _ Hcb).
      destruct (reconnect_turn g c0 c1 rest a b
                  (norm (Planet.x a - Planet.x b)%Q (Planet.y a - Planet.y b)%Q)
                  Hwf HP Ha Hb) as (Hwf' & Hnodes' & HP').
      destruct (IH _ (picked (picked w)) Hwf') as (g' & w' & Hrec & Hwf'' & Hn'' & Hone).
      * by rewrite Hnodes'.
      * rewrite HP'. cbn in *. lia.
      * exists g', w'. split_and!; try done. by rewrite Hn'', Hnodes'.
Qed.

(** *** The first loop of the constructor *)

Lemma add_roads_spec norm rbf p qs : ∀ g w,
  Graph.wf g -> p ∈ Graph.nodes g -> (∀ q, q ∈ qs -> q ∈ Graph.nodes g) ->
  ∃ g' w',
    for_each qs (fun q g =>
        r <- random_random ;;
        if float_lt r rbf
        then ret (Graph.add_edge p q
                    (norm (Planet.x p - Planet.x q)%Q (Planet.y p - Planet.y q)%Q) g)
        else ret g) g w = Ok (g', w')
    ∧ Graph.wf g' ∧ Graph.nodes g' = Graph.nodes g.
Proof.
  induction qs as [|q qs IH]; intros g w Hwf Hp Hqs.
  - by exists g, w.
  - cbn [for_each].
    destruct (random_random_total w) as (r & w1 & Hr & _).
    unfold bind at 1. unfold bind at 1. rewrite Hr.
    assert (Hq : q ∈ Graph.nodes g) by (apply Hqs; apply elem_of_cons; by left).
    destruct (float_lt r rbf); cbn [ret].
    + destruct (IH (Graph.add_edge p q
                      (norm (Planet.x p - Planet.x q)%Q (Planet.y p - Planet.y q)%Q) g) w1)
        as (g' & w' & Hloop & Hwf' & Hn').
      * by apply add_edge_wf.
      * by rewrite add_edge_present.
      * intros q' Hq'. rewrite add_edge_present by done. apply Hqs. apply elem_of_cons. by right.
      * exists g', w'. split_and!; try done. by rewrite Hn', add_edge_present.
    + destruct (IH g w1) as (g' & w' & Hloop & Hwf' & Hn'); try done.
      * intros q' Hq'. apply Hqs. apply elem_of_cons. by right.
      * by exists g', w'.
Qed.

Lemma add_planet_spec norm rbf earlier p g w :
  Graph.wf g -> (∀ q, q ∈ earlier -> q ∈ Graph.nodes g) ->
  ∃ g' w', SpaceRoadNetwork.add_planet norm rbf earlier p g w = Ok (g', w')
    ∧ Graph.wf g' ∧ Graph.nodes g' = Graph.nodes (Graph.add_node p g).
Proof.
  intros Hwf Hearlier. unfold SpaceRoadNetwork.add_planet.
  apply add_roads_spec.
  - by apply add_node_wf.
  - apply add_node_nodes. by right.
  - intros q Hq. apply add_node_nodes. left. by apply Hearlier.
Qed.

Lemma add_planets_spec norm rbf rest : ∀ earlier g w,
  Graph.wf g -> (∀ x, x ∈ Graph.nodes g ↔ x ∈ earlier) ->
  (length (Graph.nodes g) <= length earlier)%nat ->
  ∃ g' w', SpaceRoadNetwork.add_planets norm rbf earlier rest g w = Ok (g', w')
    ∧ Graph.wf g' ∧ (∀ x, x ∈ Graph.nodes g' ↔ x ∈ earlier ++ rest)
    ∧ (length (Graph.nodes g') <= length (earlier ++ rest))%nat.
Proof.
  induction rest as [|p rest IH]; intros earlier g w Hwf Hnodes Hlen.
  - exists g, w. rewrite app_nil_r. by split_and!.
  - cbn [SpaceRoadNetwork.add_planets].
    destruct (add_planet_spec norm rbf earlier p g w Hwf) as (g1 & w1 & Hadd & Hwf1 & Hn1).
    { intros q Hq. by apply Hnodes. }
    rewrite (bind_ok _ _ _ _ _ Hadd).
    destruct (IH (earlier ++ [p]) g1 w1 Hwf1) as (g' & w' & Hrest & Hwf' & Hn' & Hlen').
    + intros x. rewrite Hn1, add_node_nodes, elem_of_app, list_elem_of_singleton, Hnodes. done.
    + rewrite Hn1, length_app. cbn. pose proof (add_node_length p g). lia.
    + exists g', w'. rewrite <- app_assoc in Hn', Hlen'. by split_and!.
Qed.

(** *** The roads as they are opened *)

Lemma linked_snoc es u v d a b :
  Graph.linked (es ++ [(u, v, d)]) a b
  ↔ Graph.linked es a b ∨ (a, b) = (u, v) ∨ (a, b) = (v, u).
Proof.
  unfold Graph.linked. split.
  - intros [d0 [[?|[= -> -> ->]%list_elem_of_singleton]%elem_of_app
               |[?|[= -> -> ->]%list_elem_of_singleton]%elem_of_app]].
    + left. exists d0. by left.
    + right. by left.
    + left. exists d0. by right.
    + right. by right.
  - intros [[d0 [?|?]]|[[= -> ->]|[= -> ->]]].
    + exists d0. left. apply elem_of_app. by left.
    + exists d0. right. apply elem_of_app. by left.
    + exists d. left. apply elem_of_app. right. by apply list_elem_of_singleton.
    + exists d. right. apply elem_of_app. right. by apply list_elem_of_singleton.
Qed.

Lemma open_roads_fold es_rest : ∀ es (acc : Graph.t * gmap (Planet.t * Planet.t) Q),
  (∀ a b, Graph.adjacent acc.1 a b ↔ Graph.linked es a b) ->
  (∀ a b, Graph.linked es a b -> acc.2 !! (a, b) = Some 1%Q) ->
  (∀ x, x ∈ Graph.nodes acc.1 -> ∃ y, Graph.linked es x y) ->
  (∀ a b, Graph.adjacent (fold_left SpaceRoadNetwork.open_road es_rest acc).1 a b
          ↔ Graph.linked (es ++ es_rest) a b)
  ∧ (∀ a b, Graph.linked (es ++ es_rest) a b ->
            (fold_left SpaceRoadNetwork.open_road es_rest acc).2 !! (a, b) = Some 1%Q)
  ∧ (∀ x, x ∈ Graph.nodes (fold_left SpaceRoadNetwork.open_road es_rest acc).1 ->
          ∃ y, Graph.linked (es ++ es_rest) x y).
Proof.
  induction es_rest as [|[[u v] d] es_rest IH]; intros es acc Hadj Hsm Hnodes.
  - rewrite app_nil_r. by split_and!.
  - cbn [fold_left].
    assert (Heq : ∀ (l1 l2 : list Graph.edge) e, l1 ++ e :: l2 = (l1 ++ [e]) ++ l2)
      by (intros; by rewrite <- app_assoc).
    rewrite Heq.
    apply IH; unfold SpaceRoadNetwork.open_road; cbn [fst snd].
    + intros a b. rewrite add_edge_adjacent, linked_snoc, Hadj. done.
    + intros a b [Hold|[[= -> ->]|[= -> ->]]]%linked_snoc.
      * destruct (decide ((v, u) = (a, b))) as [->|?]; [apply lookup_insert_eq|].
        rewrite lookup_insert_ne by done.
        destruct (decide ((u, v) = (a, b))) as [->|?]; [apply lookup_insert_eq|].
        rewrite lookup_insert_ne by done. by apply Hsm.
      * destruct (decide ((v, u) = (u, v))) as [->|?]; [apply lookup_insert_eq|].
        rewrite lookup_insert_ne by done. apply lookup_insert_eq.
      * apply lookup_insert_eq.
    + intros x [Hx|[->| ->]]%add_edge_nodes.
      * destruct (Hnodes x Hx) as [y Hy]. exists y. apply linked_snoc. by left.
      * exists v. apply linked_snoc. right. by left.
      * exists u. apply linked_snoc. right. by right.
Qed.

Lemma open_roads_spec g cur sm :
  SpaceRoadNetwork.open_roads g = (cur, sm) ->
  (∀ a b, Graph.adjacent cur a b ↔ Graph.adjacent g a b)
  ∧ (∀ a b, Graph.adjacent g a b -> sm !! (a, b) = Some 1%Q)
  ∧ (∀ x, x ∈ Graph.nodes cur -> ∃ y, Graph.adjacent g x y).
Proof.
  intros Hopen. unfold SpaceRoadNetwork.open_roads in Hopen.
  pose proof (open_roads_fold (Graph.edges g) [] (Graph.empty, ∅)) as H.
  rewrite Hopen in H. cbn [fst snd app] in H. apply H.
  - intros a b. unfold Graph.adjacent, Graph.linked. cbn.
    split; intros [d [Hin|Hin]]; by apply elem_of_nil in Hin.
  - intros a b [d [Hin|Hin]]; by apply elem_of_nil in Hin.
  - intros x Hx. by apply elem_of_nil in Hx.
Qed.

(** One component means that every two nodes are joined by a path. *)
Lemma one_component_connected g :
  Graph.wf g -> Graph.nodes g ≠ [] ->
  length (Graph.connected_components g) = 1%nat -> Graph.connected g.
Proof.
  intros Hwf Hne Hone. split; [done|]. intros u v Hu Hv.
  destruct (components_partition g Hwf) as [Hnodes _ Hjoin _].
  destruct (Graph.connected_components g) as [|B [|? ?]]; try done.
  cbn in Hnodes. rewrite app_nil_r in Hnodes.
  apply (Hjoin B); [apply elem_of_cons; by left | by rewrite Hnodes..].
Qed.

(** *** The constructor *)

Lemma path_current g cur u v :
  (∀ a b, Graph.adjacent cur a b ↔ Graph.adjacent g a b) ->
  Graph.path g u v -> Graph.path cur u v.
Proof. intros Hadj. apply rtc_subrel. intros a b. by apply Hadj. Qed.

Lemma one_in_road_states : 1%Q ∈ SpaceRoadNetwork.road_states.
Proof.
  unfold SpaceRoadNetwork.road_states.
  apply elem_of_cons; right. apply elem_of_cons; right. apply elem_of_cons. by left.
Qed.

(** The roads opened by the constructor are the same both ways. *)
Lemma open_roads_symmetric uid g' g cur sm :
  SpaceRoadNetwork.open_roads g = (cur, sm) ->
  symmetric_roads (SpaceRoadNetwork.mk uid g' cur sm).
Proof.
  intros Hopen. destruct (open_roads_spec g cur sm Hopen) as (Hadj & Hsm & _).
  intros [[u v] d] He. cbn in *. exists 1%Q.
  assert (Huv : Graph.adjacent cur u v) by (exists d; by left).
  split; [apply one_in_road_states|].
  split; apply Hsm, Hadj; [done | by apply linked_sym].
Qed.

Lemma init_inv norm planets uid rbf w net w' :
  SpaceRoadNetwork.init norm planets uid rbf w = Ok (Some net, w') ->
  SpaceRoadNetwork.open_roads (SpaceRoadNetwork.initial_graph net)
  = (SpaceRoadNetwork.current_graph net, SpaceRoadNetwork.speed_modificator net)
  ∧ SpaceRoadNetwork.unique_id net = uid.
Proof.
  unfold SpaceRoadNetwork.init, bind, ret.
  destruct (SpaceRoadNetwork.add_planets norm rbf [] planets Graph.empty w)
    as [[g w1]|]; [|done].
  destruct (SpaceRoadNetwork.reconnect norm (S (length planets)) g w1)
    as [[[g'|] w2]|]; [|done..].
  destruct (SpaceRoadNetwork.open_roads g') as [cur sm] eqn:Hopen.
  intros [= <- <-]. cbn. by rewrite Hopen.
Qed.

Lemma init_spec norm planets uid rbf w :
  planets ≠ [] ->
  ∃ net w', SpaceRoadNetwork.init norm planets uid rbf w = Ok (Some net, w')
    ∧ Graph.wf (SpaceRoadNetwork.initial_graph net)
    ∧ (∀ x, x ∈ Graph.nodes (SpaceRoadNetwork.initial_graph net) ↔ x ∈ planets)
    ∧ length (Graph.connected_components (SpaceRoadNetwork.initial_graph net)) = 1%nat.
Proof.
  intros Hne. unfold SpaceRoadNetwork.init.
  destruct (add_planets_spec norm rbf planets [] Graph.empty w)
    as (g & w1 & Hadd & Hwf & Hnodes & Hlen).
  { split; [apply NoDup_nil_2|]. intros e He. by apply elem_of_nil in He. }
  { done. }
  { done. }
  cbn [app] in Hnodes, Hlen.
  rewrite (bind_ok _ _ _ _ _ Hadd).
  destruct (reconnect_spec norm (S (length planets)) g w1 Hwf)
    as (g' & w2 & Hrec & Hwf' & Hn' & Hone).
  { intros Hnil. destruct planets as [|p ps]; [done|].
    assert (Hp : p ∈ Graph.nodes g) by (apply Hnodes, elem_of_cons; by left).
    rewrite Hnil in Hp. by apply elem_of_nil in Hp. }
  { pose proof (components_length_le g). lia. }
  rewrite (bind_ok _ _ _ _ _ Hrec).
  destruct (SpaceRoadNetwork.open_roads g') as [cur sm] eqn:Hopen.
  eexists _, _. split; [reflexivity|]. cbn.
  split_and!; try done. intros x. by rewrite Hn'.
Qed.

Lemma run_frame net net' :
  rtc ticks net net' ->
  SpaceRoadNetwork.initial_graph net' = SpaceRoadNetwork.initial_graph net
  ∧ SpaceRoadNetwork.current_graph net' = SpaceRoadNetwork.current_graph net.
Proof.
  induction 1 as [|net net1 net2 Hstep _ [IHi IHc]]; [done|].
  destruct (ticks_frame _ _ Hstep) as (Hi & Hc & _). split; congruence.
Qed.

(** C5: for at least one planet and any branching factor the constructor
    ends and returns a network whose road graph has exactly one connected
    component: every two planets are joined by a path. The current graph has
    the same roads. No tick changes either graph, so that both stay as they
    are, and connected, for the whole run; and a tick always ends. *)
Theorem C5_road_graph_connected (norm : float -> float -> float)
    (planets : list Planet.t) (uid : Z) (road_branching_factor : float) (w : Ambient) :
  planets ≠ [] ->
  ∃ net w',
    SpaceRoadNetwork.init norm planets uid road_branching_factor w = Ok (Some net, w')
    ∧ length (Graph.connected_components (SpaceRoadNetwork.initial_graph net)) = 1%nat
    ∧ Graph.connected (SpaceRoadNetwork.initial_graph net)
    ∧ (∀ x, x ∈ Graph.nodes (SpaceRoadNetwork.initial_graph net) ↔ x ∈ planets)
    ∧ (∀ a b, Graph.adjacent (SpaceRoadNetwork.current_graph net) a b
              ↔ Graph.adjacent (SpaceRoadNetwork.initial_graph net) a b)
    ∧ (∀ net', rtc ticks net net' ->
         SpaceRoadNetwork.initial_graph net' = SpaceRoadNetwork.initial_graph net
         ∧ SpaceRoadNetwork.current_graph net' = SpaceRoadNetwork.current_graph net
         ∧ Graph.connected (SpaceRoadNetwork.initial_graph net')
         ∧ (∀ u v, u ∈ planets -> v ∈ planets ->
                   Graph.path (SpaceRoadNetwork.current_graph net') u v)
         ∧ (∀ w1, ∃ net'' w2, SpaceRoadNetwork.step net' w1 = Ok (net'', w2))).
Proof.
  intros Hne.
  destruct (init_spec norm planets uid road_branching_factor w Hne)
    as (net & w' & Hinit & Hwf & Hnodes & Hone).
  destruct (init_inv _ _ _ _ _ _ _ Hinit) as [Hopen _].
  destruct (open_roads_spec _ _ _ Hopen) as (Hadj & _ & _).
  assert (Hconn : Graph.connected (SpaceRoadNetwork.initial_graph net)).
  { apply one_component_connected; [done| |done].
    intros Hnil. destruct planets as [|p ps]; [done|].
    assert (Hp : p ∈ Graph.nodes (SpaceRoadNetwork.initial_graph net))
      by (apply Hnodes, elem_of_cons; by left).
    rewrite Hnil in Hp. by apply elem_of_nil in Hp. }
  exists net, w'. split_and!; try done.
  intros net' Hrun. destruct (run_frame _ _ Hrun) as [Hi Hc].
  rewrite Hi, Hc. split_and!; try done.
  - intros u v Hu Hv. eapply path_current; [exact Hadj|].
    apply Hconn; by apply Hnodes.
  - intros w1. destruct (step_spec net' w1) as (net'' & w2 & Hstep & _). eauto.
Qed.

(** C10: in every road network of a run, the one the constructor returns
    and those that follow tick after tick, the two directions of every road
    have the same multiplier, which is [0.0], [0.5] or [1.0]. *)
Theorem C10_speed_modificator_symmetric (norm : float -> float -> float)
    (planets : list Planet.t) (uid : Z) (road_branching_factor : float)
    (net : SpaceRoadNetwork.t) :
  reachable norm planets uid road_branching_factor net ->
  ∀ (u v : Planet.t) (d : float),
    (u, v, d) ∈ Graph.edges (SpaceRoadNetwork.current_graph net) ->
    ∃ state, (state = 0%Q ∨ state = (1 # 2)%Q ∨ state = 1%Q)
             ∧ SpaceRoadNetwork.speed_modificator net !! (u, v) = Some state
             ∧ SpaceRoadNetwork.speed_modificator net !! (v, u) = Some state.
Proof.
  intros Hreach.
  assert (Hsym : symmetric_roads net).
  { induction Hreach as [w w' net Hinit|net net' _ IH Hstep].
    - destruct (init_inv _ _ _ _ _ _ _ Hinit) as [Hopen _].
      destruct net as [uid' g' cur sm]. cbn in Hopen. by eapply open_roads_symmetric.
    - by apply (ticks_frame _ _ Hstep). }
  intros u v d He. destruct (Hsym _ He) as (state & Hstate & Huv & Hvu).
  exists state. split; [|done].
  unfold SpaceRoadNetwork.road_states in Hstate.
  apply elem_of_cons in Hstate as [->|Hstate]; [by left|].
  apply elem_of_cons in Hstate as [->|Hstate]; [right; by left|].
  apply list_elem_of_singleton in Hstate as ->. right. by right.
Qed.

(** C3 (the code departs from it): the road between the two planets has the
    multiplier [1.0]; the tick draws [0.01 < PROBA_ISSUE_ROAD] for it, so the
    road is resampled, and [random.choice] draws the candidate of rank 2.
    The candidates are all three road states, because [state] is compared
    as the attribute dictionary of the road; the multiplier that is written,
    in both directions, is [1.0] again. *)
Theorem C3_resampled_to_previous_value :
  let w := mkAmbient [(1 # 100)%Q] [2%nat] 100 [] [] 0 0 in
  SpaceRoadNetwork.speed_modificator example_roads !! (earth, mars) = Some 1%Q
  ∧ (∀ state : list (string * float),
       filter (fun n => py_ne (PyFloat n) (PyDict state) = true)
         SpaceRoadNetwork.road_states = [0%Q; (1 # 2)%Q; 1%Q])
  ∧ ∃ net' w',
      SpaceRoadNetwork.step example_roads w = Ok (net', w')
      ∧ rnd_floats w' = [] ∧ rnd_picks w' = []
      ∧ SpaceRoadNetwork.speed_modificator net' !! (earth, mars) = Some 1%Q
      ∧ SpaceRoadNetwork.speed_modificator net' !! (mars, earth) = Some 1%Q.
Proof.
  cbv zeta. split; [by vm_compute|]. split; [intros state; apply candidates_all|].
  eexists _, _. split; [vm_compute; reflexivity|]. by vm_compute.
Qed.


(** ** The claims about the ships and the planets *)

Lemma set_msg_box_same s : Ship.msg_box s = [] -> Ship.set_msg_box [] s = s.
Proof. destruct s. cbn. by intros ->. Qed.

Lemma ship_turn_frame norm dijkstra_path k mo mo' :
  PlanetDelivery.ship_turn norm dijkstra_path k mo = Ok mo' ->
  PlanetDelivery.planets mo' = PlanetDelivery.planets mo
  ∧ PlanetDelivery.environment mo' = PlanetDelivery.environment mo
  ∧ ∀ j, j ≠ k -> PlanetDelivery.ships mo' !! j = PlanetDelivery.ships mo !! j.
Proof.
  unfold PlanetDelivery.ship_turn.
  destruct (PlanetDelivery.ships mo !! k) as [s|]; [|done].
  destruct (Ship.step _ _ _ s _) as [[s' w']|]; [|done].
  intros [= <-]. cbn. split_and!; try done.
  intros j Hj. by rewrite list_lookup_insert_ne.
Qed.

(** C8: a ship that carries [it] toward the waypoint [wp], its destination,
    and whose move ends exactly on [wp], delivers. The first item of
    [model.items] with the uid of [it] is taken out, the counter of
    delivered items grows by one, the ship has no item, no destination and
    no waypoint any more, its previous point is [wp], and its preferences,
    its maximal speed and the rest of its state are as before; nothing is
    sent and no draw is consumed. With an empty mailbox this is the whole
    step of the ship; and the turn of a ship leaves the planets, the road
    network and the other ships as they are. *)
Theorem C8_delivery_on_arrival
    (norm : float -> float -> float)
    (dijkstra_path : Graph.t -> Planet.t -> option Planet.t -> Res (list Planet.t))
    (environment : SpaceRoadNetwork.t) (s : Ship.t) (w : Ambient)
    (wp : Planet.t) (it i : Item.t) (modif : float) :
  Ship.waypoint s = Some wp -> Ship.destination s = Some wp ->
  Ship.item s = Some it ->
  SpaceRoadNetwork.speed_modificator environment !! (Ship.previous_point s, wp)
    = Some modif ->
  float_eq (Ship.x (Ship.move_to norm wp (Ship.max_speed s * modif)%Q s)) (Planet.x wp) = true ->
  float_eq (Ship.y (Ship.move_to norm wp (Ship.max_speed s * modif)%Q s)) (Planet.y wp) = true ->
  i ∈ model_items w -> Item.uid i = Item.uid it ->
  ∃ s' l1 i' l2,
    Ship.advance norm dijkstra_path environment s w = Ok (s', delivered (l1 ++ l2) w)
    ∧ (Ship.msg_box s = [] ->
       Ship.step norm dijkstra_path environment s w = Ok (s', delivered (l1 ++ l2) w))
    ∧ model_items w = l1 ++ i' :: l2 ∧ Item.uid i' = Item.uid it
    ∧ (∀ j, j ∈ l1 -> Item.uid j ≠ Item.uid it)
    ∧ model_items (delivered (l1 ++ l2) w) = l1 ++ l2
    ∧ computed_items_nb (delivered (l1 ++ l2) w) = computed_items_nb w + 1
    ∧ outbox (delivered (l1 ++ l2) w) = outbox w
    ∧ Ship.item s' = None ∧ Ship.destination s' = None ∧ Ship.waypoint s' = None
    ∧ Ship.previous_point s' = wp
    ∧ Ship.preference_a s' = Ship.preference_a s
    ∧ Ship.preference_b s' = Ship.preference_b s
    ∧ Ship.preference_c s' = Ship.preference_c s
    ∧ Ship.max_speed s' = Ship.max_speed s
    ∧ Ship.name s' = Ship.name s ∧ Ship.planets s' = Ship.planets s
    ∧ Ship.potential_destination s' = Ship.potential_destination s
    ∧ Ship.waiting_for_proposal s' = Ship.waiting_for_proposal s
    ∧ Ship.msg_box s' = Ship.msg_box s
    ∧ (∀ mo k mo', PlanetDelivery.ship_turn norm dijkstra_path k mo = Ok mo' ->
         PlanetDelivery.planets mo' = PlanetDelivery.planets mo
         ∧ PlanetDelivery.environment mo' = PlanetDelivery.environment mo
         ∧ ∀ j, j ≠ k -> PlanetDelivery.ships mo' !! j = PlanetDelivery.ships mo !! j).
Proof.
  intros Hwp Hd Hit Hsm Hx Hy Hin Hu.
  destruct (advance_delivers norm dijkstra_path environment s w wp it i modif
              Hwp Hd Hit Hsm Hx Hy Hin Hu)
    as (s' & l1 & i' & l2 & Hadv & Hsplit & Hi' & Hl1 & Hnb & Hrest).
  exists s', l1, i', l2. split; [exact Hadv|]. split.
  - intros Hbox. unfold Ship.step. rewrite (bind_ok _ _ _ _ _ Hadv).
    assert (Hbox' : Ship.msg_box s' = []) by (destruct_and!; congruence).
    rewrite Hbox'. cbn. by rewrite set_msg_box_same.
  - split_and!; try done; try tauto. intros mo k mo'. apply ship_turn_frame.
Qed.

(** C4, as the code has it: a drained message whose item has a round is
    added to the proposals of this round; one whose item has no round makes
    [self.proposals[...]] raise [KeyError], and the step of the planet ends
    there with this exception. *)
Theorem C4_message_without_round_raises (ships : list Ship.t) (p : PlanetManager.t)
    (w : Ambient) (m : Message.t) (ms : list Message.t) :
  Item.uid (Message.body_item m) ≠ 0 ->
  (PlanetManager.proposals p !! Item.uid (Message.body_item m) = None ->
     PlanetManager.collect m p w = Raise KeyError)
  ∧ (∀ received,
       PlanetManager.proposals p !! Item.uid (Message.body_item m) = Some received ->
       ∃ w', PlanetManager.collect m p w
             = Ok (PlanetManager.set_proposals
                     (<[Item.uid (Message.body_item m) := received ++ [m]]>
                        (PlanetManager.proposals p)) p, w')
             ∧ same_model w w')
  ∧ (PlanetManager.planets p ≠ [] ->
     PlanetManager.msg_box p = m :: ms ->
     PlanetManager.proposals p !! Item.uid (Message.body_item m) = None ->
     (∀ it, it ∈ map fst (PlanetManager.items_to_ship p) ->
            Item.uid it ≠ Item.uid (Message.body_item m)) ->
     next_uuid w ≠ Item.uid (Message.body_item m) ->
     PlanetManager.step ships p w = Raise KeyError).
Proof.
  intros Hu. split_and!.
  - by apply collect_unknown.
  - intros received Hpr. destruct (collect_known m p w received Hu Hpr) as (w' & Hc & Hs & _).
    by exists w'.
  - intros. by eapply step_unknown_message.
Qed.


(** ** Ship: the calls for proposals of a whole step *)

(** What the route and the move of a step leave as they are: the mailbox,
    the flag, the preferences, the planets known, and what was sent. A ship
    without item stays without item. *)
Lemma advance_frame norm dijkstra_path environment s w s' w' :
  Ship.advance norm dijkstra_path environment s w = Ok (s', w') ->
  Ship.msg_box s' = Ship.msg_box s
  ∧ Ship.waiting_for_proposal s' = Ship.waiting_for_proposal s
  ∧ Ship.potential_destination s' = Ship.potential_destination s
  ∧ Ship.planets s' = Ship.planets s
  ∧ Ship.preference_a s' = Ship.preference_a s
  ∧ Ship.preference_b s' = Ship.preference_b s
  ∧ Ship.preference_c s' = Ship.preference_c s
  ∧ outbox w' = outbox w ∧ schedule_steps w' = schedule_steps w
  ∧ rnd_floats w' = rnd_floats w ∧ next_uuid w' = next_uuid w
  ∧ (Ship.item s = None -> Ship.item s' = None).
Proof.
  destruct s as [nm pa pb pc pl x y ms dst pd wpt pp itm wt mb].
  intros Hadv.
  unfold Ship.advance, Ship.next_hop, bind, ret, lift_opt, raise,
    get_items, set_items, incr_computed_items_nb in Hadv.
  cbn in Hadv.
  destruct wpt as [wp|], dst as [d|], itm as [it|];
    cbn in Hadv; repeat split_match Hadv;
    injection Hadv as <- <-; cbn; by split_and!.
Qed.

(** A ship with no waypoint and no destination does not move. *)
Lemma advance_at_rest norm dijkstra_path environment s w :
  Ship.waypoint s = None -> Ship.destination s = None ->
  Ship.advance norm dijkstra_path environment s w = Ok (s, w).
Proof.
  intros Hwp Hd. unfold Ship.advance. rewrite Hwp, Hd.
  unfold bind at 1. unfold ret at 1. by rewrite Hwp.
Qed.

(** The attributes of a deserialized item are those of the serialized one
    where these are not [0.0]. *)
Lemma from_json_attributes j w it w' :
  Item.from_json j w = Ok (it, w') ->
  (Qeq_bool (Item.a j) 0 = false -> Item.a it = Item.a j)
  ∧ (Qeq_bool (Item.b j) 0 = false -> Item.b it = Item.b j)
  ∧ (Qeq_bool (Item.c j) 0 = false -> Item.c it = Item.c j).
Proof.
  unfold Item.from_json, Item.init, bind, ret, random_random, uuid1.
  cbn [not_float not_int default].
  destruct (Qeq_bool (ItemData.a j) 0) eqn:Ha, (Qeq_bool (ItemData.b j) 0) eqn:Hb,
    (Qeq_bool (ItemData.c j) 0) eqn:Hc, (ItemData.uid j =? 0);
    destruct w as [[|r1 [|r2 [|r3 rs]]] pk nu ob mi cn st]; cbn;
    intros [= <- <-]; cbn; split_and!; intros; congruence.
Qed.

Lemma utility_of_copy s j it :
  Item.a it = Item.a j -> Item.b it = Item.b j -> Item.c it = Item.c j ->
  Ship.utility s it = Ship.utility s j.
Proof. unfold Ship.utility. by intros -> -> ->. Qed.

(** The call for proposals read by an idle ship. *)
Lemma handle_cfp_bid s m w X Y rest dest :
  Message.performative m = "call_for_proposal"%string ->
  Message.body_fields m = X :: Y :: rest ->
  dest ∈ Ship.planets s ->
  float_eq (Planet.x dest) X = true -> float_eq (Planet.y dest) Y = true ->
  idle s ->
  ∃ it w1 pd,
    Item.from_json (Message.body_item m) w = Ok (it, w1)
    ∧ Ship.handle s m w
      = Ok (Ship.set_waiting_for_proposal true
              (Ship.set_potential_destination (Some pd) s),
            sent (Message.mk (Message.sender m) (Message.to m) it
                    [X; Y; Ship.utility s it] "proposal" (schedule_steps w)) w1)
    ∧ outbox w1 = outbox w
    ∧ pd ∈ Ship.planets s
    ∧ float_eq (Planet.x pd) X = true ∧ float_eq (Planet.y pd) Y = true.
Proof.
  intros Hp Hf Hd Hx Hy [Hi Hw].
  destruct (from_json_total (Message.body_item m) w)
    as (it & w1 & Hjson & (Hob & _ & _ & Hst) & _).
  destruct (last_filter_match
              (fun planet : Planet.t => float_eq (Planet.x planet) X = true
                               ∧ float_eq (Planet.y planet) Y = true)
              (Ship.planets s) dest Hd (conj Hx Hy)) as (pd & Hlast & Hpd & Hpx & Hpy).
  exists it, w1, pd. split; [exact Hjson|]. split; [|done].
  unfold Ship.handle, Ship.on_call_for_proposal.
  rewrite (bool_decide_eq_true_2 _ Hi), (bool_decide_eq_true_2 _ Hw), Hp.
  rewrite String.eqb_refl. cbn [andb].
  unfold bind at 1. rewrite (bind_ok _ _ _ _ _ Hjson).
  unfold Message.field. rewrite Hf. cbn -[Item.from_json].
  unfold bind at 1. cbn -[Item.from_json].
  rewrite Hlast. cbn -[Ship.on_accept_proposal Ship.on_reject_proposal].
  rewrite on_reject_other by (rewrite Hp; discriminate).
  rewrite on_accept_other by (rewrite Hp; discriminate).
  unfold sent, Ship.utility. by rewrite Hst.
Qed.

(** The rejection read by a ship that awaits an answer. *)
Lemma handle_reject_awaited s m w :
  Ship.item s = None -> Ship.waiting_for_proposal s = true ->
  Message.performative m = "reject_proposal"%string ->
  Ship.handle s m w
  = Ok (Ship.set_potential_destination None (Ship.set_waiting_for_proposal false s), w).
Proof.
  intros Hi Hw Hp. unfold Ship.handle, Ship.on_call_for_proposal.
  rewrite Hp. cbn [String.eqb Ascii.eqb Bool.eqb]. rewrite andb_false_r. cbn [andb].
  unfold bind at 1. unfold ret at 1.
  unfold Ship.on_reject_proposal. rewrite Hi, Hw, Hp.
  change (bool_decide (@None Item.t = None)) with true.
  change (bool_decide (true = true)) with true. cbn [andb String.eqb Ascii.eqb Bool.eqb].
  apply on_accept_other. rewrite Hp. discriminate.
Qed.

(** A whole step of a ship whose mailbox holds calls for proposals: the
    ship answers the first call when the route and the move leave it idle,
    and ignores the calls that follow; it ignores them all otherwise. *)
Lemma step_cfp_batch norm dijkstra_path environment s w s1 w1 m ms X Y rest dest :
  Ship.advance norm dijkstra_path environment s w = Ok (s1, w1) ->
  Ship.msg_box s = m :: ms ->
  Forall (fun m' => Message.performative m' = "call_for_proposal"%string) (m :: ms) ->
  Message.body_fields m = X :: Y :: rest ->
  dest ∈ Ship.planets s ->
  float_eq (Planet.x dest) X = true -> float_eq (Planet.y dest) Y = true ->
  (idle s1 ->
     ∃ it w2 pd,
       Item.from_json (Message.body_item m) w1 = Ok (it, w2)
       ∧ Ship.step norm dijkstra_path environment s w
         = Ok (Ship.set_waiting_for_proposal true
                 (Ship.set_potential_destination (Some pd) (Ship.set_msg_box [] s1)),
               sent (Message.mk (Message.sender m) (Message.to m) it
                       [X; Y; Ship.utility s it] "proposal" (schedule_steps w)) w2)
       ∧ outbox w2 = outbox w
       ∧ pd ∈ Ship.planets s
       ∧ float_eq (Planet.x pd) X = true ∧ float_eq (Planet.y pd) Y = true)
  ∧ (¬ idle s1 ->
     Ship.step norm dijkstra_path environment s w = Ok (Ship.set_msg_box [] s1, w1)
     ∧ outbox w1 = outbox w).
Proof.
  intros Hadv Hbox Hall Hf Hd Hx Hy.
  destruct (advance_frame _ _ _ _ _ _ _ Hadv)
    as (Hbox1 & _ & _ & Hpl & Hpa & Hpb & Hpc & Hob & Hst & _).
  apply Forall_cons in Hall as [Hm Hms].
  unfold Ship.step. rewrite (bind_ok _ _ _ _ _ Hadv). cbv zeta.
  rewrite Hbox1, Hbox. split.
  - intros [Hi Hw].
    destruct (handle_cfp_bid (Ship.set_msg_box [] s1) m w1 X Y rest dest Hm Hf)
      as (it & w2 & pd & Hjson & Hh & Hob2 & Hpd & Hpx & Hpy); try done.
    { cbn. by rewrite Hpl. }
    exists it, w2, pd. split; [exact Hjson|].
    split; [|split_and!; try done; [congruence | cbn in Hpd; by rewrite <- Hpl]].
    cbn [for_each]. rewrite (bind_ok _ _ _ _ _ Hh).
    rewrite batch_cfp_busy; [|done|by intros [_ ?]].
    unfold Ship.utility. cbn. by rewrite Hpa, Hpb, Hpc, Hst.
  - intros Hbusy. split; [|done].
    apply (batch_cfp_busy (m :: ms)); [by constructor|].
    intros [Hi Hw]. by apply Hbusy.
Qed.

(** C7 (the code departs from it for an item with an attribute equal to
    [0.0]). What holds: a call for proposals whose destination is a known
    planet is answered if and only if the ship is idle (no item, no answer
    awaited) when it reads the call. An idle ship sends one proposal, to
    the sender of the call, and is left waiting for the answer; a ship that
    is not idle sends nothing and does not change. This holds of the turn
    of the loop over the drained messages and of the whole step of a ship
    whose mailbox holds calls for proposals: the step answers the first
    call when the route and the move leave the ship idle, as they leave a
    ship that was idle, and ignores the calls that follow in the batch; it
    ignores all of them otherwise, as for a ship that awaits an answer. A
    [reject_proposal] makes the ship that awaits an answer idle again. The
    utility of the proposal is [item.a * preference_a + item.b *
    preference_b + item.c * preference_c] for the item the ship
    deserialized and sends back; this is the utility of the item of the
    call when none of its [a], [b], [c] is [0.0]. What does not hold: for
    the item [(a, b, c) = (0.0, 0.5, 0.5)] and the preferences [(0.5, 0.25,
    0.25)] the proposal carries the utility [0.625], with [a] redrawn as
    [0.75] by [Item.from_json], where the item of the call has the utility
    [0.25]. *)
Theorem C7_bid_of_item_with_zero_attribute :
  (∀ (s : Ship.t) (m : Message.t) (w : Ambient) (X Y : float) (rest : list float)
     (dest : Planet.t),
     Message.performative m = "call_for_proposal"%string ->
     Message.body_fields m = X :: Y :: rest ->
     dest ∈ Ship.planets s ->
     float_eq (Planet.x dest) X = true -> float_eq (Planet.y dest) Y = true ->
     (idle s ->
        ∃ it w1 pd,
          Item.from_json (Message.body_item m) w = Ok (it, w1)
          ∧ Ship.handle s m w
            = Ok (Ship.set_waiting_for_proposal true
                    (Ship.set_potential_destination (Some pd) s),
                  sent (Message.mk (Message.sender m) (Message.to m) it
                          [X; Y; (Item.a it * Ship.preference_a s
                                  + Item.b it * Ship.preference_b s
                                  + Item.c it * Ship.preference_c s)%Q]
                          "proposal" (schedule_steps w)) w1)
          ∧ outbox w1 = outbox w
          ∧ pd ∈ Ship.planets s
          ∧ float_eq (Planet.x pd) X = true ∧ float_eq (Planet.y pd) Y = true
          ∧ (Qeq_bool (Item.a (Message.body_item m)) 0 = false ->
             Qeq_bool (Item.b (Message.body_item m)) 0 = false ->
             Qeq_bool (Item.c (Message.body_item m)) 0 = false ->
             Ship.utility s it = Ship.utility s (Message.body_item m)))
     ∧ (¬ idle s -> Ship.handle s m w = Ok (s, w))
     ∧ (∀ (ms : list Message.t) (s' : Ship.t) (w' : Ambient),
          Forall (fun m' => Message.performative m' = "call_for_proposal"%string) ms ->
          ¬ idle s' ->
          for_each ms (fun m' s0 => Ship.handle s0 m') s' w' = Ok (s', w')))
  ∧ (∀ (norm : float -> float -> float)
       (dijkstra_path : Graph.t -> Planet.t -> option Planet.t -> Res (list Planet.t))
       (environment : SpaceRoadNetwork.t) (s s1 : Ship.t) (w w1 : Ambient)
       (m : Message.t) (ms : list Message.t) (X Y : float) (rest : list float)
       (dest : Planet.t),
       Ship.advance norm dijkstra_path environment s w = Ok (s1, w1) ->
       Ship.msg_box s = m :: ms ->
       Forall (fun m' => Message.performative m' = "call_for_proposal"%string) (m :: ms) ->
       Message.body_fields m = X :: Y :: rest ->
       dest ∈ Ship.planets s ->
       float_eq (Planet.x dest) X = true -> float_eq (Planet.y dest) Y = true ->
       (idle s1 ->
          ∃ it w2 pd,
            Item.from_json (Message.body_item m) w1 = Ok (it, w2)
            ∧ Ship.step norm dijkstra_path environment s w
              = Ok (Ship.set_waiting_for_proposal true
                      (Ship.set_potential_destination (Some pd)
                         (Ship.set_msg_box [] s1)),
                    sent (Message.mk (Message.sender m) (Message.to m) it
                            [X; Y; (Item.a it * Ship.preference_a s
                                    + Item.b it * Ship.preference_b s
                                    + Item.c it * Ship.preference_c s)%Q]
                            "proposal" (schedule_steps w)) w2)
            ∧ outbox w2 = outbox w
            ∧ pd ∈ Ship.planets s
            ∧ float_eq (Planet.x pd) X = true ∧ float_eq (Planet.y pd) Y = true
            ∧ (Qeq_bool (Item.a (Message.body_item m)) 0 = false ->
               Qeq_bool (Item.b (Message.body_item m)) 0 = false ->
               Qeq_bool (Item.c (Message.body_item m)) 0 = false ->
               Ship.utility s it = Ship.utility s (Message.body_item m)))
       ∧ (¬ idle s1 ->
          Ship.step norm dijkstra_path environment s w = Ok (Ship.set_msg_box [] s1, w1)
          ∧ outbox w1 = outbox w)
       ∧ (idle s -> idle s1)
       ∧ (Ship.waiting_for_proposal s = true -> ¬ idle s1))
  ∧ (∀ (norm : float -> float -> float)
       (dijkstra_path : Graph.t -> Planet.t -> option Planet.t -> Res (list Planet.t))
       (environment : SpaceRoadNetwork.t) (s : Ship.t) (w : Ambient),
       Ship.waypoint s = None -> Ship.destination s = None ->
       Ship.advance norm dijkstra_path environment s w = Ok (s, w))
  ∧ (∀ (s : Ship.t) (r : Message.t) (w : Ambient),
       Ship.item s = None -> Ship.waiting_for_proposal s = true ->
       Message.performative r = "reject_proposal"%string ->
       Ship.handle s r w
       = Ok (Ship.set_potential_destination None
               (Ship.set_waiting_for_proposal false s), w)
       ∧ idle (Ship.set_potential_destination None
                 (Ship.set_waiting_for_proposal false s)))
  ∧ (let offered := Item.mk 0 (1 # 2) (1 # 2) 0 0 7 in
     let call := Message.mk "ship-0@localhost" "planet-0@localhost" offered
                   [3%Q; 4%Q] "call_for_proposal" 10 in
     let w := mkAmbient [(3 # 4)%Q] [] 100 [] [offered] 0 10 in
     ∃ s' w' u,
       Ship.step example_norm example_path example_roads
         (Ship.set_msg_box [call] docked_ship) w = Ok (s', w')
       ∧ Ship.waiting_for_proposal s' = true
       ∧ map Message.performative (outbox w') = ["proposal"%string]
       ∧ map bid (outbox w') = [Some u]
       ∧ (u == 5 # 8)%Q
       ∧ (Ship.utility docked_ship offered == 1 # 4)%Q
       ∧ ¬ (u == Ship.utility docked_ship offered)%Q).
Proof.
  split_and!.
  - intros s m w X Y rest dest Hp Hf Hd Hx Hy. split_and!.
    + intros Hidle.
      destruct (handle_cfp_bid s m w X Y rest dest Hp Hf Hd Hx Hy Hidle)
        as (it & w1 & pd & Hjson & Hh & Hob & Hpd & Hpx & Hpy).
      exists it, w1, pd. split_and!; try done.
      intros Ha Hb Hc.
      destruct (from_json_attributes _ _ _ _ Hjson) as (Ha' & Hb' & Hc').
      apply utility_of_copy; auto.
    + by apply handle_cfp_busy.
    + intros ms s' w' Hms Hb. by apply batch_cfp_busy.
  - intros norm dijkstra_path environment s s1 w w1 m ms X Y rest dest
      Hadv Hbox Hall Hf Hd Hx Hy.
    destruct (step_cfp_batch norm dijkstra_path environment s w s1 w1 m ms X Y rest dest
                Hadv Hbox Hall Hf Hd Hx Hy) as [Hidle Hbusy].
    destruct (advance_frame _ _ _ _ _ _ _ Hadv)
      as (_ & Hwait & _ & _ & _ & _ & _ & _ & _ & _ & _ & Hitem).
    split_and!.
    + intros Hi. destruct (Hidle Hi) as (it & w2 & pd & Hjson & Hstep & Hob & Hpd & Hpx & Hpy).
      exists it, w2, pd. split_and!; try done.
      intros Ha Hb Hc.
      destruct (from_json_attributes _ _ _ _ Hjson) as (Ha' & Hb' & Hc').
      apply utility_of_copy; auto.
    + exact Hbusy.
    + intros [Hi Hw]. split; [by apply Hitem | congruence].
    + intros Hw [_ Hw1]. congruence.
  - intros norm dijkstra_path environment s w. apply advance_at_rest.
  - intros s r w Hi Hw Hp. split; [by apply handle_reject_awaited|].
    split; [exact Hi | reflexivity].
  - cbv zeta. eexists _, _, _. split; [vm_compute; reflexivity|].
    split_and!; try reflexivity. by vm_compute.
Qed.

(** ** PlanetManager: a whole step *)

Lemma bind_inv {A B} (m : M A) (k : A -> M B) w r w' :
  bind m k w = Ok (r, w') -> ∃ v w1, m w = Ok (v, w1) ∧ k v w1 = Ok (r, w').
Proof. unfold bind. destruct (m w) as [[v w1]|e]; [eauto | done]. Qed.

Lemma lift_opt_inv {A} e (o : option A) w v w' :
  lift_opt e o w = Ok (v, w') -> o = Some v ∧ w' = w.
Proof. destruct o; cbn; [by intros [= -> ->] | done]. Qed.

Lemma random_random_inv w r w' :
  random_random w = Ok (r, w') ->
  next_uuid w' = next_uuid w ∧ rnd_picks w' = rnd_picks w ∧ same_model w w'.
Proof. unfold random_random. destruct (rnd_floats w); by intros [= <- <-]. Qed.

Lemma random_choice_inv {A} (seq : list A) w v w' :
  random_choice seq w = Ok (v, w') -> v ∈ seq ∧ w' = picked w.
Proof.
  unfold random_choice. destruct (seq !! _) as [x|] eqn:Hx; [|done].
  intros [= <- <-]. split; [by eapply list_elem_of_lookup_2 | done].
Qed.

(** What [spawn] can change: [items_to_ship], [model.items] and the
    draws. *)
Lemma spawn_inv p w p1 w1 :
  PlanetManager.spawn p w = Ok (p1, w1) ->
  PlanetManager.proposals p1 = PlanetManager.proposals p
  ∧ PlanetManager.start_times p1 = PlanetManager.start_times p
  ∧ PlanetManager.waiting_for_proposal p1 = PlanetManager.waiting_for_proposal p
  ∧ PlanetManager.msg_box p1 = PlanetManager.msg_box p
  ∧ PlanetManager.planets p1 = PlanetManager.planets p
  ∧ PlanetManager.self p1 = PlanetManager.self p
  ∧ schedule_steps w1 = schedule_steps w ∧ outbox w1 = outbox w
  ∧ (∀ it, it ∈ map fst (PlanetManager.items_to_ship p1) ->
       it ∈ map fst (PlanetManager.items_to_ship p) ∨ Item.uid it = next_uuid w).
Proof.
  intros Hspawn.
  destruct (decide (PlanetManager.planets p = [])) as [Hnil|Hne].
  - unfold PlanetManager.spawn in Hspawn.
    apply bind_inv in Hspawn as (r & w0 & Hr & Hspawn).
    destruct (float_lt r NEW_ITEM_PROBA).
    + apply bind_inv in Hspawn as (it & wi & _ & Hspawn).
      apply bind_inv in Hspawn as (its & w2 & _ & Hspawn).
      apply bind_inv in Hspawn as (? & w3 & _ & Hspawn).
      apply bind_inv in Hspawn as (d & w4 & Hc & _).
      rewrite Hnil in Hc. by rewrite random_choice_nil in Hc.
    + injection Hspawn as <- <-.
      destruct (random_random_inv _ _ _ Hr) as (_ & _ & Ho & _ & _ & Hs).
      split_and!; try done. intros it Hit. by left.
  - destruct (spawn_spec p w Hne) as (p1' & w1' & Hs & H).
    rewrite Hspawn in Hs. injection Hs as <- <-. exact H.
Qed.

(** The calls for proposals never fail: the destination of every item of
    the loop is in [items_to_ship]. *)
Lemma cfp_phase_spec ships p w :
  ∃ p2 w2,
    for_each (map fst (PlanetManager.items_to_ship p))
      (PlanetManager.call_for_proposal ships) p w = Ok (p2, w2)
    ∧ PlanetManager.msg_box p2 = PlanetManager.msg_box p
    ∧ PlanetManager.planets p2 = PlanetManager.planets p
    ∧ PlanetManager.self p2 = PlanetManager.self p
    ∧ PlanetManager.waiting_for_proposal p2
      = PlanetManager.waiting_for_proposal p ++ map fst (PlanetManager.items_to_ship p)
    ∧ schedule_steps w2 = schedule_steps w
    ∧ rnd_floats w2 = rnd_floats w ∧ rnd_picks w2 = rnd_picks w
    ∧ (∀ u, (∀ it, it ∈ map fst (PlanetManager.items_to_ship p) -> Item.uid it ≠ u) ->
         PlanetManager.proposals p2 !! u = PlanetManager.proposals p !! u
         ∧ PlanetManager.start_times p2 !! u = PlanetManager.start_times p !! u).
Proof.
  destruct (cfp_loop_spec ships (map fst (PlanetManager.items_to_ship p)) p w)
    as (p2 & w2 & Hloop & _ & Hbox & Hpl & Hself & Hwait & Hs & Hfl & Hpk & Hother & _).
  { intros it Hit. by apply dict_get_key. }
  exists p2, w2. by split_and!.
Qed.

(** One drained message: it joins the proposals of a round that exists. *)
Lemma collect_inv m p w p' w' :
  PlanetManager.collect m p w = Ok (p', w') ->
  same_model w w' ∧ rnd_picks w' = rnd_picks w
  ∧ ∃ u received,
      PlanetManager.proposals p !! u = Some received
      ∧ p' = PlanetManager.set_proposals
               (<[u := received ++ [m]]> (PlanetManager.proposals p)) p.
Proof.
  unfold PlanetManager.collect. intros Hc.
  apply bind_inv in Hc as (key & w1 & Hj & Hc).
  apply bind_inv in Hc as (received & w2 & Hl & Hc).
  apply lift_opt_inv in Hl as [Hl ->]. injection Hc as <- <-.
  destruct (from_json_total (Message.body_item m) w) as (it & w'' & Hj' & Hsame & Hpk).
  rewrite Hj in Hj'. injection Hj' as <- <-. split_and!; [done..|]. eauto.
Qed.

Lemma collect_loop_inv ms : ∀ p w p' w',
  for_each ms PlanetManager.collect p w = Ok (p', w') ->
  PlanetManager.start_times p' = PlanetManager.start_times p
  ∧ PlanetManager.waiting_for_proposal p' = PlanetManager.waiting_for_proposal p
  ∧ PlanetManager.items_to_ship p' = PlanetManager.items_to_ship p
  ∧ PlanetManager.msg_box p' = PlanetManager.msg_box p
  ∧ PlanetManager.planets p' = PlanetManager.planets p
  ∧ PlanetManager.self p' = PlanetManager.self p
  ∧ same_model w w' ∧ rnd_picks w' = rnd_picks w
  ∧ (∀ u, PlanetManager.proposals p !! u = None -> PlanetManager.proposals p' !! u = None)
  ∧ (∀ u received, PlanetManager.proposals p !! u = Some received ->
       ∃ arrived, PlanetManager.proposals p' !! u = Some (received ++ arrived)
                  ∧ arrived ⊆ ms).
Proof.
  induction ms as [|m ms IH]; intros p w p' w' Hloop.
  - injection Hloop as <- <-. split_and!; try done.
    intros u received Hu. exists []. by rewrite app_nil_r.
  - cbn [for_each] in Hloop. apply bind_inv in Hloop as (p1 & w1 & Hc & Hloop).
    destruct (collect_inv _ _ _ _ _ Hc) as (Hsame & Hpk & u0 & r0 & Hu0 & ->).
    destruct (IH _ _ _ _ Hloop)
      as (Hst & Hwait & Hits & Hbox & Hpl & Hself & Hsame' & Hpk' & Hnone & Hsome).
    cbn in *. split_and!; try done.
    + destruct Hsame as (?&?&?&?), Hsame' as (?&?&?&?). split_and!; congruence.
    + congruence.
    + intros u Hu. apply Hnone.
      destruct (decide (u0 = u)) as [->|?]; [congruence | by rewrite lookup_insert_ne].
    + intros u received Hu.
      destruct (decide (u0 = u)) as [->|Hne].
      * assert (r0 = received) as -> by congruence.
        destruct (Hsome u (received ++ [m])) as (arrived & Harr & Hsub);
          [apply lookup_insert_eq|].
        exists (m :: arrived). split; [by rewrite Harr, <- app_assoc|].
        intros x [->|Hx]%elem_of_cons; [apply elem_of_cons; by left|].
        apply elem_of_cons. right. by apply Hsub.
      * destruct (Hsome u received) as (arrived & Harr & Hsub);
          [by rewrite lookup_insert_ne|].
        exists arrived. split; [done|]. intros x Hx. apply elem_of_cons. right. by apply Hsub.
Qed.


Lemma answer_inv p wi k j m w r w' :
  PlanetManager.answer p wi k j m w = Ok (r, w') ->
  w' = sent_all [reply p wi k (schedule_steps w) j m] w.
Proof.
  unfold PlanetManager.answer, Message.field, reply, bind, get_steps.
  destruct (Message.body_fields m) as [|X [|Y rest]]; cbn; [done..|].
  by intros [= _ <-].
Qed.

Lemma answers_inv p wi k (jms : list (nat * Message.t)) : ∀ w r w',
  for_each jms (fun jm _ => PlanetManager.answer p wi k jm.1 jm.2) tt w = Ok (r, w') ->
  w' = sent_all (map (fun jm => reply p wi k (schedule_steps w) jm.1 jm.2) jms) w.
Proof.
  induction jms as [|[j m] jms IH]; intros w r w' Hloop.
  - injection Hloop as _ <-. by rewrite sent_all_nil.
  - cbn [for_each] in Hloop. apply bind_inv in Hloop as ([] & w1 & Ha & Hloop).
    apply answer_inv in Ha as ->. apply IH in Hloop as ->.
    cbn [map schedule_steps sent_all]. by rewrite sent_all_app.
Qed.

(** What was done with an item whose waiting time is over, when nothing
    was raised. *)
Lemma award_inv wi received p w p1 w1 :
  PlanetManager.award wi received p w = Ok (p1, w1) ->
  (received ≠ [] ∧ p1 = p
   ∧ ∃ k, PlanetManager.best_rank received = Some k
          ∧ w1 = sent_all (imap (reply p wi k (schedule_steps w)) received) w)
  ∨ (received = []
     ∧ ∃ dest, dest ∈ PlanetManager.planets p
               ∧ p1 = PlanetManager.set_items_to_ship
                        (PlanetManager.dict_set wi dest (PlanetManager.items_to_ship p)) p
               ∧ w1 = picked w).
Proof.
  unfold PlanetManager.award. destruct received as [|m0 rest]; cbn [length Nat.ltb Nat.leb].
  - intros Ha. right. split; [done|].
    apply bind_inv in Ha as (dest & w2 & Hc & Ha). injection Ha as <- <-.
    apply random_choice_inv in Hc as [Hd ->]. by exists dest.
  - intros Ha. left. split; [done|].
    apply bind_inv in Ha as (k & w2 & Hk & Ha).
    apply lift_opt_inv in Hk as [Hk ->].
    apply bind_inv in Ha as ([] & w3 & Hloop & Ha). injection Ha as <- <-.
    split; [done|]. exists k. split; [done|].
    apply answers_inv in Hloop as ->. f_equal. by rewrite fmap_imap.
Qed.

Lemma resolve_inv l x p dels w p' dels' w' :
  PlanetManager.resolve (l, x) (p, dels) w = Ok ((p', dels'), w') ->
  ∃ st, PlanetManager.start_times p !! Item.uid x = Some st
    ∧ ((schedule_steps w - st <= WAITING_TIME ∧ p' = p ∧ dels' = dels ∧ w' = w)
       ∨ (schedule_steps w - st > WAITING_TIME
          ∧ ∃ received p1,
              PlanetManager.proposals p !! Item.uid x = Some received
              ∧ PlanetManager.award x received p w = Ok (p1, w')
              ∧ p' = closed x p1 ∧ dels' = dels ++ [l])).
Proof.
  unfold PlanetManager.resolve. intros Hr.
  apply bind_inv in Hr as (steps & w0 & Hs & Hr). injection Hs as <- <-.
  apply bind_inv in Hr as (st & w0 & Hst & Hr). apply lift_opt_inv in Hst as [Hst ->].
  exists st. split; [done|].
  destruct (Z.gtb_spec (schedule_steps w - st) WAITING_TIME).
  - right. split; [lia|].
    apply bind_inv in Hr as (received & w0 & Hpr & Hr). apply lift_opt_inv in Hpr as [Hpr ->].
    apply bind_inv in Hr as (p1 & w1 & Ha & Hr). injection Hr as <- <- <-.
    by exists received, p1.
  - left. injection Hr as <- <- <-. done.
Qed.

Lemma dict_get_set_ne x y v d :
  Item.uid y ≠ Item.uid x ->
  PlanetManager.dict_get x (PlanetManager.dict_set y v d) = PlanetManager.dict_get x d.
Proof.
  intros Hne. induction d as [|[k v'] d IH]; cbn.
  - unfold Item.eq. by rewrite (proj2 (Z.eqb_neq _ _) Hne).
  - destruct (Item.eq k y) eqn:Hky; cbn; [|by rewrite IH].
    unfold Item.eq in *. apply Z.eqb_eq in Hky.
    assert (Item.uid k ≠ Item.uid x) as ->%Z.eqb_neq by congruence. done.
Qed.

(** What one turn of the loop over the waiting items leaves as it is. *)
Lemma resolve_frame l x p dels w p' dels' w' :
  PlanetManager.resolve (l, x) (p, dels) w = Ok ((p', dels'), w') ->
  PlanetManager.self p' = PlanetManager.self p
  ∧ PlanetManager.planets p' = PlanetManager.planets p
  ∧ PlanetManager.waiting_for_proposal p' = PlanetManager.waiting_for_proposal p
  ∧ PlanetManager.msg_box p' = PlanetManager.msg_box p
  ∧ schedule_steps w' = schedule_steps w
  ∧ (∃ post, outbox w' = outbox w ++ post)
  ∧ (dels' = dels ∨ dels' = dels ++ [l])
  ∧ is_Some (PlanetManager.start_times p !! Item.uid x)
  ∧ (∀ u, u ≠ Item.uid x ->
       PlanetManager.start_times p' !! u = PlanetManager.start_times p !! u
       ∧ PlanetManager.proposals p' !! u = PlanetManager.proposals p !! u)
  ∧ (∀ u, PlanetManager.start_times p !! u = None ->
          PlanetManager.start_times p' !! u = None)
  ∧ (∀ u, PlanetManager.proposals p !! u = None ->
          PlanetManager.proposals p' !! u = None)
  ∧ (∀ y, Item.uid y ≠ Item.uid x ->
          PlanetManager.dict_get y (PlanetManager.items_to_ship p')
          = PlanetManager.dict_get y (PlanetManager.items_to_ship p)).
Proof.
  intros Hr. apply resolve_inv in Hr as (st & Hst & [(Hle & -> & -> & ->)|(Hgt & received & p1 & Hpr & Ha & -> & ->)]).
  - split_and!; try done; try (by left); try (by eexists);
      exists []; by rewrite app_nil_r.
  - assert (Hp1 : PlanetManager.self p1 = PlanetManager.self p
                  ∧ PlanetManager.planets p1 = PlanetManager.planets p
                  ∧ PlanetManager.waiting_for_proposal p1 = PlanetManager.waiting_for_proposal p
                  ∧ PlanetManager.msg_box p1 = PlanetManager.msg_box p
                  ∧ PlanetManager.start_times p1 = PlanetManager.start_times p
                  ∧ PlanetManager.proposals p1 = PlanetManager.proposals p
                  ∧ schedule_steps w' = schedule_steps w
                  ∧ (∃ post, outbox w' = outbox w ++ post)
                  ∧ (∀ y, Item.uid y ≠ Item.uid x ->
                          PlanetManager.dict_get y (PlanetManager.items_to_ship p1)
                          = PlanetManager.dict_get y (PlanetManager.items_to_ship p))).
    { apply award_inv in Ha as [(_ & -> & k & _ & ->)|(_ & dest & _ & -> & ->)].
      - split_and!; try done. by eexists.
      - split_and!; try done; [exists []; by rewrite app_nil_r|].
        intros y Hy. cbn. by apply dict_get_set_ne. }
    destruct Hp1 as (Hself & Hpl & Hwait & Hbox & Hst1 & Hpr1 & Hsteps & Hout & Hdict).
    cbn. rewrite Hst1, Hpr1. split_and!; try done; try (by right); try (by eexists).
    + intros u Hu. by rewrite !lookup_delete_ne.
    + intros u Hu. destruct (decide (Item.uid x = u)) as [->|?];
        [apply lookup_delete_eq | by rewrite lookup_delete_ne].
    + intros u Hu. destruct (decide (Item.uid x = u)) as [->|?];
        [apply lookup_delete_eq | by rewrite lookup_delete_ne].
Qed.

(** The loop over the waiting items, when nothing was raised. *)
Lemma resolve_loop_frame lws : ∀ p dels w p' dels' w',
  for_each lws PlanetManager.resolve (p, dels) w = Ok ((p', dels'), w') ->
  PlanetManager.self p' = PlanetManager.self p
  ∧ PlanetManager.planets p' = PlanetManager.planets p
  ∧ PlanetManager.waiting_for_proposal p' = PlanetManager.waiting_for_proposal p
  ∧ PlanetManager.msg_box p' = PlanetManager.msg_box p
  ∧ schedule_steps w' = schedule_steps w
  ∧ (∃ post, outbox w' = outbox w ++ post)
  ∧ (∀ l, l ∈ dels -> l ∈ dels')
  ∧ (∀ l, l ∈ dels' -> l ∈ dels ∨ l ∈ map fst lws)
  ∧ (StronglySorted lt (dels ++ map fst lws) -> StronglySorted lt dels')
  ∧ (∀ u, PlanetManager.start_times p !! u = None ->
       PlanetManager.start_times p' !! u = None
       ∧ (∀ lx : nat * Item.t, lx ∈ lws -> Item.uid lx.2 ≠ u)
       ∧ (PlanetManager.proposals p !! u = None -> PlanetManager.proposals p' !! u = None)
       ∧ (∀ y, Item.uid y = u ->
            PlanetManager.dict_get y (PlanetManager.items_to_ship p')
            = PlanetManager.dict_get y (PlanetManager.items_to_ship p))).
Proof.
  induction lws as [|[l x] lws IH]; intros p dels w p' dels' w' Hloop.
  - injection Hloop as <- <- <-. rewrite app_nil_r.
    split_and!; try done; [exists []; by rewrite app_nil_r | by left; done |].
    intros u Hu. split_and!; try done. intros lx Hlx. by apply elem_of_nil in Hlx.
  - cbn [for_each] in Hloop. apply bind_inv in Hloop as ([p1 dels1] & w1 & Hr & Hloop).
    destruct (resolve_frame _ _ _ _ _ _ _ _ Hr)
      as (Hself & Hpl & Hwait & Hbox & Hsteps & [post1 Hout] & Hdels & Hsome & Hother
          & Hstnone & Hprnone & Hdict).
    destruct (IH _ _ _ _ _ _ Hloop)
      as (Hself' & Hpl' & Hwait' & Hbox' & Hsteps' & [post Hout'] & Hin & Hfrom
          & Hsorted & Hnone).
    split_and!; try congruence.
    + exists (post1 ++ post). by rewrite Hout', Hout, app_assoc.
    + intros l0 Hl0. apply Hin. destruct Hdels as [->| ->]; [done|].
      apply elem_of_app. by left.
    + intros l0 Hl0. cbn [map fst]. destruct (Hfrom l0 Hl0) as [Hd|Hd].
      * destruct Hdels as [->| ->]; [by left|].
        apply elem_of_app in Hd as [?|Heq%list_elem_of_singleton]; [by left|].
        subst l0. right. apply elem_of_cons. by left.
      * right. apply elem_of_cons. by right.
    + intros Hss. apply Hsorted. cbn [map fst] in Hss.
      destruct Hdels as [->| ->].
      * apply StronglySorted_app in Hss as (Hlt & Hs1 & Hs2).
        apply StronglySorted_app. split_and!; [|done|by apply StronglySorted_inv in Hs2 as [? _]].
        intros a b Ha Hb. apply Hlt; [done|]. apply elem_of_cons. by right.
      * by rewrite <- app_assoc.
    + intros u Hu.
      assert (Hux : u ≠ Item.uid x).
      { intros ->. rewrite Hu in Hsome. by destruct Hsome. }
      destruct (Hnone u (Hstnone u Hu)) as (Hst' & Hno & Hpr' & Hd').
      split_and!; [done| | |].
      * intros lx [->|Hlx]%elem_of_cons; [by cbn | by apply Hno].
      * intros Hpr. by apply Hpr', Hprnone.
      * intros y Hy. rewrite (Hd' y Hy). apply Hdict. congruence.
Qed.

(** A round whose waiting time is not over is left as it is by the loop. *)
Lemma resolve_loop_open lws : ∀ p dels w p' dels' w' u st,
  for_each lws PlanetManager.resolve (p, dels) w = Ok ((p', dels'), w') ->
  NoDup (map fst lws) ->
  PlanetManager.start_times p !! u = Some st ->
  schedule_steps w - st <= WAITING_TIME ->
  PlanetManager.start_times p' !! u = Some st
  ∧ PlanetManager.proposals p' !! u = PlanetManager.proposals p !! u
  ∧ (∀ l x, (l, x) ∈ lws -> Item.uid x = u -> l ∈ dels' -> l ∈ dels).
Proof.
  induction lws as [|[l0 x0] lws IH]; intros p dels w p' dels' w' u st Hloop Hnd Hst Hle.
  - injection Hloop as <- <- <-. split_and!; try done;
      intros l x Hin; by apply elem_of_nil in Hin.
  - cbn [for_each] in Hloop. apply bind_inv in Hloop as ([p1 dels1] & w1 & Hr & Hloop).
    cbn [map fst] in Hnd. apply NoDup_cons in Hnd as [Hl0 Hnd].
    destruct (resolve_loop_frame _ _ _ _ _ _ _ Hloop)
      as (_ & _ & _ & _ & _ & _ & _ & Hfrom & _).
    destruct (decide (Item.uid x0 = u)) as [Hx0|Hx0].
    + apply resolve_inv in Hr as (st0 & Hst0 & [(_ & -> & -> & ->)|(Hgt & _)]);
        [|rewrite Hx0, Hst in Hst0; injection Hst0 as <-; lia].
      destruct (IH _ _ _ _ _ _ u st Hloop Hnd Hst Hle) as (Hst' & Hpr' & Hdels').
      split_and!; try done.
      intros l x Hin Hu Hl.
      apply elem_of_cons in Hin as [Heq|Hin]; [injection Heq as -> ->|by eapply Hdels'].
      destruct (Hfrom l0 Hl) as [?|?]; done.
    + destruct (resolve_frame _ _ _ _ _ _ _ _ Hr)
        as (_ & _ & _ & _ & Hsteps & _ & Hdels & _ & Hother & _).
      destruct (Hother u) as [Hst1 Hpr1]; [done|].
      destruct (IH _ _ _ _ _ _ u st Hloop Hnd) as (Hst' & Hpr' & Hdels');
        [congruence | lia |].
      split_and!; [done | congruence |].
      intros l x Hin Hu Hl.
      apply elem_of_cons in Hin as [Heq|Hin]; [injection Heq as -> ->; done|].
      specialize (Hdels' l x Hin Hu Hl).
      destruct Hdels as [->| ->]; [done|].
      apply elem_of_app in Hdels' as [?|Heq%list_elem_of_singleton]; [done|].
      subst l. exfalso. apply Hl0. apply list_elem_of_fmap. by exists (l0, x).
Qed.

Lemma reply_self p p' wi k steps j m :
  PlanetManager.self p' = PlanetManager.self p ->
  reply p' wi k steps j m = reply p wi k steps j m.
Proof. unfold reply. by intros ->. Qed.

(** A round whose waiting time is over is resolved by the loop, with the
    proposals it has then. *)
Lemma resolve_loop_expired lws : ∀ p dels w p' dels' w' l x st,
  for_each lws PlanetManager.resolve (p, dels) w = Ok ((p', dels'), w') ->
  (l, x) ∈ lws ->
  PlanetManager.start_times p !! Item.uid x = Some st ->
  schedule_steps w - st > WAITING_TIME ->
  PlanetManager.start_times p' !! Item.uid x = None
  ∧ PlanetManager.proposals p' !! Item.uid x = None
  ∧ l ∈ dels'
  ∧ ∃ received, PlanetManager.proposals p !! Item.uid x = Some received
    ∧ ((received ≠ []
        ∧ ∃ k pre post, PlanetManager.best_rank received = Some k
            ∧ outbox w' = outbox w ++ pre
                          ++ imap (reply p x k (schedule_steps w)) received ++ post)
       ∨ (received = []
          ∧ ∃ dest, dest ∈ PlanetManager.planets p
              ∧ PlanetManager.dict_get x (PlanetManager.items_to_ship p') = Some dest)).
Proof.
  induction lws as [|[l0 x0] lws IH]; intros p dels w p' dels' w' l x st Hloop Hin Hst Hgt.
  - by apply elem_of_nil in Hin.
  - cbn [for_each] in Hloop. apply bind_inv in Hloop as ([p1 dels1] & w1 & Hr & Hloop).
    destruct (resolve_loop_frame _ _ _ _ _ _ _ Hloop)
      as (_ & _ & _ & _ & _ & [post Hout] & Hkeep & _ & _ & Hnone).
    destruct (decide (Item.uid x0 = Item.uid x)) as [Hx0|Hx0].
    + apply resolve_inv in Hr
        as (st0 & Hst0 & [(Hle & _)|(_ & received & p2 & Hpr & Ha & -> & ->)]);
        [rewrite Hx0, Hst in Hst0; injection Hst0 as <-; lia|].
      destruct (Hnone (Item.uid x)) as (Hst' & Hno & Hpr' & Hd').
      { cbn. rewrite <- Hx0. apply lookup_delete_eq. }
      apply elem_of_cons in Hin as [Heq|Hin]; [injection Heq as -> ->|by destruct (Hno _ Hin)].
      split_and!; [done| |apply Hkeep, elem_of_app; right; by apply list_elem_of_singleton|].
      { apply Hpr'. cbn. apply lookup_delete_eq. }
      exists received. split; [done|].
      apply award_inv in Ha as [(Hne & -> & k & Hk & ->)|(-> & dest & Hdest & -> & ->)].
      * left. split; [done|]. exists k, [], post. split; [done|].
        rewrite Hout. cbn. by rewrite <- app_assoc.
      * right. split; [done|]. exists dest. split; [done|].
        rewrite (Hd' x0) by done. cbn. apply dict_get_set.
    + apply elem_of_cons in Hin as [Heq|Hin]; [injection Heq as -> ->; done|].
      destruct (resolve_frame _ _ _ _ _ _ _ _ Hr)
        as (Hself & Hpl & _ & _ & Hsteps & [post1 Hout1] & _ & _ & Hother & _).
      destruct (Hother (Item.uid x)) as [Hst1 Hpr1]; [done|].
      destruct (IH _ _ _ _ _ _ l x st Hloop Hin) as (Hst' & Hpr' & Hl & received & Hrec & Hcase);
        [congruence | lia |].
      split_and!; [done..|]. exists received. split; [congruence|].
      destruct Hcase as [(Hne & k & pre & post' & Hk & Hout')|(-> & dest & Hdest & Hget)].
      * left. split; [done|]. exists k, (post1 ++ pre), post'. split; [done|].
        assert (Heq : imap (reply p1 x k (schedule_steps w)) received
                      = imap (reply p x k (schedule_steps w)) received)
          by (apply imap_ext; intros j m _; by apply reply_self).
        by rewrite Hout', Hout1, Hsteps, Heq, <- !app_assoc.
      * right. split; [done|]. exists dest. split; [congruence | done].
Qed.

(** Taking out the ranks [dels], the greatest first, leaves the items at
    the other ranks. *)
Lemma pop_all_keeps dels : ∀ (l l' : list Item.t) i x,
  StronglySorted lt dels ->
  PlanetManager.pop_all (reverse dels) l = Some l' ->
  l !! i = Some x -> i ∉ dels -> x ∈ l'.
Proof.
  induction dels as [|k dels IH] using rev_ind; intros l l' i x Hss Hpop Hi Hni.
  - injection Hpop as <-. by eapply list_elem_of_lookup_2.
  - rewrite reverse_snoc in Hpop. cbn [PlanetManager.pop_all] in Hpop.
    destruct (l !! k) as [y|] eqn:Hk; [|done].
    apply StronglySorted_app in Hss as (Hlt & Hss & _).
    assert (Hik : i ≠ k).
    { intros ->. apply Hni. apply elem_of_app. right. by apply list_elem_of_singleton. }
    assert (Hnd : ∀ j, j ∈ dels -> (j < k)%nat).
    { intros j Hj. apply Hlt; [done | by apply list_elem_of_singleton]. }
    destruct (decide (i < k)%nat) as [Hlt'|Hge].
    + apply (IH (delete k l) l' i x); [done|done| |].
      * by rewrite list_lookup_delete_lt.
      * intros Hin. apply Hni. apply elem_of_app. by left.
    + apply (IH (delete k l) l' (i - 1)%nat x); [done|done| |].
      * rewrite list_lookup_delete_ge by lia. by replace (S (i - 1)) with i by lia.
      * intros Hin. apply Hnd in Hin. lia.
Qed.

Lemma insert_desc_last k l :
  Forall (fun h => k < h)%nat l -> PlanetManager.insert_desc k l = l ++ [k].
Proof.
  induction 1 as [|h l Hh _ IH]; [done|]. cbn.
  destruct (Nat.leb_spec h k); [lia|]. by rewrite IH.
Qed.

(** [items_to_del] is filled in increasing order: sorting it in decreasing
    order reverses it. *)
Lemma sort_desc_reverse l : StronglySorted lt l -> PlanetManager.sort_desc l = reverse l.
Proof.
  induction 1 as [|k l Hss IH Hk]; [done|].
  unfold PlanetManager.sort_desc in *. cbn [foldr]. rewrite IH, reverse_cons.
  apply insert_desc_last. apply Forall_forall. intros h Hh.
  rewrite elem_of_reverse in Hh. rewrite Forall_forall in Hk. by apply Hk.
Qed.

Lemma indexed_fst {A} (l : list A) :
  map fst (imap (fun i x => (i, x)) l) = seq 0 (length l).
Proof.
  change (map fst (imap (λ i x, (i, x)) l)) with (fst <$> imap (λ i x, (i, x)) l).
  rewrite fmap_imap. rewrite (imap_ext _ (fun i _ => id i)) by done.
  rewrite imap_seq_0. by rewrite list_fmap_id.
Qed.

Lemma seq_sorted j n : StronglySorted lt (seq j n).
Proof.
  revert j. induction n as [|n IH]; intros j; cbn; constructor; [apply IH|].
  apply Forall_forall. intros k Hk%elem_of_seq. lia.
Qed.

Lemma cfp_loop_outbox ships its : ∀ p w p2 w2,
  for_each its (PlanetManager.call_for_proposal ships) p w = Ok (p2, w2) ->
  ∃ cfps, outbox w2 = outbox w ++ cfps.
Proof.
  induction its as [|item its IH]; intros p w p2 w2 Hloop.
  - injection Hloop as <- <-. exists []. by rewrite app_nil_r.
  - cbn [for_each] in Hloop. apply bind_inv in Hloop as (p1 & w1 & Hc & Hloop).
    assert (Hout : ∃ cfps, outbox w1 = outbox w ++ cfps).
    { unfold PlanetManager.call_for_proposal in Hc.
      apply bind_inv in Hc as (steps & w0 & Hs & Hc). injection Hs as <- <-.
      apply bind_inv in Hc as (dest & w0 & Hd & Hc). apply lift_opt_inv in Hd as [Hd ->].
      apply bind_inv in Hc as ([] & w3 & Hsend & Hc). injection Hc as <- <-.
      rewrite send_all_sent in Hsend. injection Hsend as <-. by eexists. }
    destruct Hout as [cfps1 Hout1]. destruct (IH _ _ _ _ Hloop) as [cfps Hout].
    exists (cfps1 ++ cfps). by rewrite Hout, Hout1, app_assoc.
Qed.

(** A whole step of a planet that ends without exception, and the round of
    the item [wi] that was open before the step. The round stays open when
    its waiting time is not over, and the messages drained for it are added
    to its proposals; it is resolved otherwise, with the proposals received
    before and during the step. *)
Lemma step_round ships p w p' w' i wi st :
  PlanetManager.step ships p w = Ok (p', w') ->
  PlanetManager.waiting_for_proposal p !! i = Some wi ->
  PlanetManager.start_times p !! Item.uid wi = Some st ->
  (∀ it, it ∈ map fst (PlanetManager.items_to_ship p) -> Item.uid it ≠ Item.uid wi) ->
  next_uuid w ≠ Item.uid wi ->
  (schedule_steps w - st <= WAITING_TIME ->
     wi ∈ PlanetManager.waiting_for_proposal p'
     ∧ PlanetManager.start_times p' !! Item.uid wi = Some st
     ∧ ∀ received, PlanetManager.proposals p !! Item.uid wi = Some received ->
         ∃ arrived, PlanetManager.proposals p' !! Item.uid wi = Some (received ++ arrived)
                    ∧ arrived ⊆ PlanetManager.msg_box p)
  ∧ (schedule_steps w - st > WAITING_TIME ->
     PlanetManager.start_times p' !! Item.uid wi = None
     ∧ PlanetManager.proposals p' !! Item.uid wi = None
     ∧ ∃ received arrived,
         PlanetManager.proposals p !! Item.uid wi = Some received
         ∧ arrived ⊆ PlanetManager.msg_box p
         ∧ ((received ++ arrived ≠ []
             ∧ ∃ k pre post,
                 PlanetManager.best_rank (received ++ arrived) = Some k
                 ∧ outbox w' = outbox w ++ pre
                     ++ imap (reply p wi k (schedule_steps w)) (received ++ arrived)
                     ++ post)
            ∨ (received ++ arrived = []
               ∧ ∃ dest, dest ∈ PlanetManager.planets p
                   ∧ PlanetManager.dict_get wi (PlanetManager.items_to_ship p')
                     = Some dest))).
Proof.
  intros Hstep Hi Hst Hits Hfresh. unfold PlanetManager.step in Hstep.
  apply bind_inv in Hstep as (p1 & w1 & Hspawn & Hstep).
  apply bind_inv in Hstep as (p2 & w2 & Hcfp & Hstep). cbv zeta in Hstep.
  apply bind_inv in Hstep as (p5 & w5 & Hcollect & Hstep).
  apply bind_inv in Hstep as ([p6 dels] & w6 & Hloop & Hstep).
  apply bind_inv in Hstep as (waiting & w7 & Hpop & Hstep).
  apply lift_opt_inv in Hpop as [Hpop ->]. injection Hstep as <- <-.
  (* the state before the loop over the waiting items *)
  destruct (spawn_inv _ _ _ _ Hspawn)
    as (Hpr1 & Hst1 & Hw1 & Hbox1 & Hpl1 & Hself1 & Hs1 & Ho1 & Hk1).
  destruct (cfp_phase_spec ships p1 w1)
    as (p2' & w2' & Hcfp' & Hbox2 & Hpl2 & Hself2 & Hw2 & Hs2 & _ & _ & Hother2).
  rewrite Hcfp in Hcfp'. injection Hcfp' as <- <-.
  destruct (cfp_loop_outbox _ _ _ _ _ _ Hcfp) as [cfps Ho2].
  destruct (Hother2 (Item.uid wi)) as [Hpr2 Hst2].
  { intros it Hit. destruct (Hk1 it Hit) as [?| ->]; [by apply Hits | done]. }
  destruct (collect_loop_inv _ _ _ _ _ Hcollect)
    as (Hst5 & Hw5 & _ & _ & Hpl5 & Hself5 & (Ho5 & _ & _ & Hs5) & _ & Hnone5 & Hsome5).
  cbn [PlanetManager.msg_box PlanetManager.set_items_to_ship PlanetManager.set_msg_box
       PlanetManager.start_times PlanetManager.waiting_for_proposal
       PlanetManager.proposals PlanetManager.planets PlanetManager.self] in *.
  assert (Hst5' : PlanetManager.start_times p5 !! Item.uid wi = Some st) by congruence.
  assert (Hi5 : PlanetManager.waiting_for_proposal p5 !! i = Some wi).
  { rewrite Hw5, Hw2, Hw1. by apply lookup_app_l_Some. }
  assert (Hsteps5 : schedule_steps w5 = schedule_steps w) by congruence.
  assert (Hself : PlanetManager.self p5 = PlanetManager.self p) by congruence.
  assert (Hpl : PlanetManager.planets p5 = PlanetManager.planets p) by congruence.
  assert (Hbox : PlanetManager.msg_box p2 = PlanetManager.msg_box p) by congruence.
  assert (Hlws : (i, wi) ∈ imap (fun l w => (l, w)) (PlanetManager.waiting_for_proposal p5)).
  { by apply (elem_of_lookup_imap_2 (fun l w => (l, w))). }
  destruct (resolve_loop_frame _ _ _ _ _ _ _ Hloop)
    as (_ & _ & Hw6 & _ & _ & _ & _ & _ & Hsorted & _).
  split.
  - intros Hle.
    destruct (resolve_loop_open _ _ _ _ _ _ _ (Item.uid wi) st Hloop)
      as (Hst6 & Hpr6 & Hdels); [|done|lia|].
    { rewrite indexed_fst. apply NoDup_seq. }
    cbn [PlanetManager.waiting_for_proposal PlanetManager.set_waiting_for_proposal
         PlanetManager.start_times PlanetManager.proposals].
    split_and!; [|done|].
    + assert (Hss : StronglySorted lt dels).
      { apply Hsorted. cbn [app]. rewrite indexed_fst. apply seq_sorted. }
      rewrite (sort_desc_reverse dels Hss) in Hpop.
      eapply (pop_all_keeps dels _ _ i wi Hss Hpop); [by rewrite Hw6|].
      intros Hin. specialize (Hdels i wi Hlws eq_refl Hin). by apply elem_of_nil in Hdels.
    + intros received Hrec. rewrite Hpr6.
      destruct (Hsome5 (Item.uid wi) received) as (arrived & Harr & Hsub); [congruence|].
      exists arrived. split; [done|]. by rewrite <- Hbox.
  - intros Hgt.
    destruct (resolve_loop_expired _ _ _ _ _ _ _ i wi st Hloop Hlws Hst5')
      as (Hst6 & Hpr6 & _ & received5 & Hrec5 & Hcase); [lia|].
    cbn [PlanetManager.start_times PlanetManager.proposals
         PlanetManager.set_waiting_for_proposal PlanetManager.items_to_ship].
    split_and!; [done..|].
    destruct (PlanetManager.proposals p !! Item.uid wi) as [received|] eqn:Hrec;
      [|rewrite (Hnone5 (Item.uid wi)) in Hrec5 by congruence; done].
    destruct (Hsome5 (Item.uid wi) received) as (arrived & Harr & Hsub); [congruence|].
    rewrite Harr in Hrec5. injection Hrec5 as <-.
    exists received, arrived. split_and!; [done|by rewrite <- Hbox|].
    destruct Hcase as [(Hne & k & pre & post & Hk & Hout)|(Hnil & dest & Hdest & Hget)].
    + left. split; [done|]. exists k, (cfps ++ pre), post. split; [done|].
      assert (Heq : imap (reply p5 wi k (schedule_steps w5)) (received ++ arrived)
                    = imap (reply p wi k (schedule_steps w)) (received ++ arrived)).
      { rewrite Hsteps5. apply imap_ext. intros j m _. by apply reply_self. }
      rewrite Hout, Heq, Ho5, Ho2, Ho1, <- !app_assoc. done.
    + right. split; [done|]. exists dest. split; [congruence | done].
Qed.

(** ** The claims about the negotiation rounds *)

Lemma best_scan_bids ps : ∀ i r u k,
  PlanetManager.best_scan ps i r u = Some k -> Forall (fun m => is_Some (bid m)) ps.
Proof.
  induction ps as [|m ps IH]; intros i r u k Hk; [done|].
  cbn [PlanetManager.best_scan] in Hk. unfold bid.
  destruct (Message.field m 3) as [v|] eqn:Hv; [|done].
  constructor; [by rewrite Hv|].
  destruct (float_gt v u); by eapply IH.
Qed.

(** The answers the scan and the second loop make to the proposals. *)
Lemma awarded_reply p wi steps bids k :
  bids ≠ [] -> PlanetManager.best_rank bids = Some k ->
  awarded bids (imap (reply p wi k steps) bids) k.
Proof.
  intros Hne Hk.
  destruct (best_rank_first bids k Hne (best_scan_bids _ _ _ _ _ Hk) Hk)
    as (Hlt & Hpos & Hzero & Hnn).
  unfold awarded. split_and!; try done.
  - apply length_imap.
  - intros j m Hj. eexists. rewrite list_lookup_imap, Hj. by split.
Qed.

Lemma not_restarted p w wi :
  ¬ restarted p w wi ->
  (∀ it, it ∈ map fst (PlanetManager.items_to_ship p) -> Item.uid it ≠ Item.uid wi)
  ∧ next_uuid w ≠ Item.uid wi.
Proof.
  intros Hn. split.
  - intros it Hit Hu. apply Hn. left. eauto.
  - intros Hu. apply Hn. by right.
Qed.

(** C1: when the waiting time of a round is over and its set of proposals
    is not empty, the planet sends one answer for each proposal, to its
    sender: an [accept_proposal] at one rank [k] and a [reject_proposal] at
    every other rank, where [k] is the first rank of the greatest utility
    when no utility is negative and whenever some utility exceeds 0, and is
    0 when no utility exceeds 0; the round is then deleted. This holds of
    the turn of the loop over the waiting items, which does not fail on
    well-formed proposals, and of every whole step that ends, where the
    proposals are those received before and those drained by the step. *)
Theorem C1_accept_best_reject_others (ships : list Ship.t) (p : PlanetManager.t)
    (w : Ambient) (wi : Item.t) (started : Z) :
  PlanetManager.start_times p !! Item.uid wi = Some started ->
  schedule_steps w - started > WAITING_TIME ->
  (∀ l dels received,
     PlanetManager.proposals p !! Item.uid wi = Some received ->
     received ≠ [] -> Forall is_proposal received ->
     ∃ k new,
       PlanetManager.resolve (l, wi) (p, dels) w
       = Ok ((closed wi p, dels ++ [l]), sent_all new w)
       ∧ awarded received new k)
  ∧ (∀ i p' w',
       PlanetManager.waiting_for_proposal p !! i = Some wi ->
       ¬ restarted p w wi ->
       PlanetManager.step ships p w = Ok (p', w') ->
       ∃ received arrived,
         PlanetManager.proposals p !! Item.uid wi = Some received
         ∧ arrived ⊆ PlanetManager.msg_box p
         ∧ PlanetManager.start_times p' !! Item.uid wi = None
         ∧ PlanetManager.proposals p' !! Item.uid wi = None
         ∧ (received ++ arrived ≠ [] ->
            ∃ k new pre post,
              outbox w' = outbox w ++ pre ++ new ++ post
              ∧ awarded (received ++ arrived) new k)).
Proof.
  intros Hst Hgt. split.
  - intros l dels received Hpr Hne Hall.
    destruct (resolve_bids_sent l wi p dels w started received Hst Hgt Hpr Hne Hall)
      as (k & Hk & Hres).
    exists k, (imap (reply p wi k (schedule_steps w)) received).
    split; [exact Hres | by apply awarded_reply].
  - intros i p' w' Hi [Hits Hfresh]%not_restarted Hstep.
    destruct (step_round ships p w p' w' i wi started Hstep Hi Hst Hits Hfresh)
      as [_ Hexpired].
    destruct (Hexpired Hgt) as (Hst' & Hpr' & received & arrived & Hrec & Hsub & Hcase).
    exists received, arrived. split_and!; try done.
    intros Hne. destruct Hcase as [(_ & k & pre & post & Hk & Hout)|[Hnil _]]; [|done].
    exists k, (imap (reply p wi k (schedule_steps w)) (received ++ arrived)), pre, post.
    split; [exact Hout | by apply awarded_reply].
Qed.

(** C2, as the code has it: a round is started at the tick of its call for
    proposals ([start_times] is [schedule.steps] then). A later turn leaves
    the round open, with nothing sent for it and nothing changed, as long
    as [schedule.steps - start <= WAITING_TIME]: at the tick of the call
    and at the three ticks that follow. The round is resolved, and deleted,
    at the first turn where [schedule.steps - start > WAITING_TIME]: four
    ticks after the call when the planet takes a turn at every tick. This
    holds of the turn of the loop over the waiting items and of every whole
    step that ends. *)
Theorem C2_round_open_while_not_exceeded (ships : list Ship.t) (p : PlanetManager.t)
    (w : Ambient) (wi : Item.t) (started : Z) :
  PlanetManager.start_times p !! Item.uid wi = Some started ->
  (∀ l dels,
     (schedule_steps w - started <= WAITING_TIME ->
        PlanetManager.resolve (l, wi) (p, dels) w = Ok ((p, dels), w))
     ∧ (schedule_steps w - started > WAITING_TIME ->
        ∀ received, PlanetManager.proposals p !! Item.uid wi = Some received ->
          Forall is_proposal received -> PlanetManager.planets p ≠ [] ->
          ∃ p' w', PlanetManager.resolve (l, wi) (p, dels) w = Ok ((p', dels ++ [l]), w')
                   ∧ PlanetManager.start_times p' !! Item.uid wi = None
                   ∧ PlanetManager.proposals p' !! Item.uid wi = None
                   ∧ schedule_steps w' = schedule_steps w))
  ∧ (∀ i p' w',
       PlanetManager.waiting_for_proposal p !! i = Some wi ->
       ¬ restarted p w wi ->
       PlanetManager.step ships p w = Ok (p', w') ->
       (schedule_steps w - started <= WAITING_TIME ->
          wi ∈ PlanetManager.waiting_for_proposal p'
          ∧ PlanetManager.start_times p' !! Item.uid wi = Some started
          ∧ ∀ received, PlanetManager.proposals p !! Item.uid wi = Some received ->
              ∃ arrived,
                PlanetManager.proposals p' !! Item.uid wi = Some (received ++ arrived)
                ∧ arrived ⊆ PlanetManager.msg_box p)
       ∧ (schedule_steps w - started > WAITING_TIME ->
          PlanetManager.start_times p' !! Item.uid wi = None
          ∧ PlanetManager.proposals p' !! Item.uid wi = None))
  ∧ (∀ p0 w0 dest,
       PlanetManager.dict_get wi (PlanetManager.items_to_ship p0) = Some dest ->
       ∃ p1 w1, PlanetManager.call_for_proposal ships wi p0 w0 = Ok (p1, w1)
                ∧ PlanetManager.start_times p1 !! Item.uid wi = Some (schedule_steps w0)
                ∧ PlanetManager.proposals p1 !! Item.uid wi = Some []
                ∧ schedule_steps w1 = schedule_steps w0).
Proof.
  intros Hst. split_and!.
  - intros l dels. split; [by apply resolve_waiting|].
    intros Hgt received Hpr Hall Hne.
    destruct received as [|m0 rest].
    + destruct (resolve_no_bid_drawn l wi p dels w started Hst Hgt Hpr Hne)
        as (dest & _ & Hres).
      eexists _, _. split; [exact Hres|]. cbn. by rewrite !lookup_delete_eq.
    + destruct (resolve_bids_sent l wi p dels w started (m0 :: rest))
        as (k & _ & Hres); try done.
      eexists _, _. split; [exact Hres|]. cbn. by rewrite !lookup_delete_eq.
  - intros i p' w' Hi [Hits Hfresh]%not_restarted Hstep.
    destruct (step_round ships p w p' w' i wi started Hstep Hi Hst Hits Hfresh)
      as [Hopen Hexpired].
    split; [exact Hopen|]. intros Hgt.
    destruct (Hexpired Hgt) as (? & ? & _). by split.
  - intros p0 w0 dest Hd. eexists _, _.
    split; [by apply call_for_proposal_spec|]. cbn. by rewrite !lookup_insert_eq.
Qed.

(** ** PlanetManager: the step after an item went back to the queue *)

Lemma random_random_draw w :
  ∃ r w', random_random w = Ok (r, w')
    ∧ r = hd 0%Q (rnd_floats w) ∧ rnd_floats w' = tl (rnd_floats w)
    ∧ rnd_picks w' = rnd_picks w ∧ next_uuid w' = next_uuid w ∧ same_model w w'.
Proof.
  unfold random_random. destruct w as [[|r rs] pk nu ob mi cn st]; cbn;
    eexists _, _; (split; [reflexivity|]); by repeat split.
Qed.

(** The two ways [spawn] can go. *)
Lemma spawn_cases p w p1 w1 :
  PlanetManager.spawn p w = Ok (p1, w1) ->
  outbox w1 = outbox w ∧ computed_items_nb w1 = computed_items_nb w
  ∧ schedule_steps w1 = schedule_steps w
  ∧ ((float_lt (hd 0%Q (rnd_floats w)) NEW_ITEM_PROBA = false
      ∧ p1 = p ∧ next_uuid w1 = next_uuid w ∧ model_items w1 = model_items w)
     ∨ (float_lt (hd 0%Q (rnd_floats w)) NEW_ITEM_PROBA = true
        ∧ ∃ item dest,
            Item.uid item = next_uuid w
            ∧ Item.x item = Planet.x (PlanetManager.self p)
            ∧ Item.y item = Planet.y (PlanetManager.self p)
            ∧ dest ∈ PlanetManager.planets p
            ∧ p1 = PlanetManager.set_items_to_ship
                     (PlanetManager.dict_set item dest (PlanetManager.items_to_ship p)) p
            ∧ next_uuid w1 = next_uuid w + 1
            ∧ model_items w1 = model_items w ++ [item])).
Proof.
  intros Hspawn. unfold PlanetManager.spawn in Hspawn.
  apply bind_inv in Hspawn as (r & w0 & Hr & Hspawn).
  destruct (random_random_draw w) as (r' & w0' & Hr' & -> & Hfl & Hpk & Hnu & Hsame).
  rewrite Hr in Hr'. injection Hr' as -> <-.
  destruct Hsame as (Hob & Hmi & Hcn & Hst).
  destruct (float_lt (hd 0%Q (rnd_floats w)) NEW_ITEM_PROBA) eqn:Hlt.
  - apply bind_inv in Hspawn as (item & wi & Hinit & Hspawn).
    apply bind_inv in Hspawn as (items & w2 & Hget & Hspawn).
    apply bind_inv in Hspawn as ([] & w3 & Hset & Hspawn).
    apply bind_inv in Hspawn as (dest & w4 & Hc & Hspawn).
    injection Hspawn as <- <-.
    injection Hget as <- <-. injection Hset as <-.
    apply random_choice_inv in Hc as [Hdest ->].
    assert (Hitem : Item.uid item = next_uuid w0 ∧ next_uuid wi = next_uuid w0 + 1
                    ∧ Item.x item = Planet.x (PlanetManager.self p)
                    ∧ Item.y item = Planet.y (PlanetManager.self p)
                    ∧ outbox wi = outbox w0 ∧ model_items wi = model_items w0
                    ∧ computed_items_nb wi = computed_items_nb w0
                    ∧ schedule_steps wi = schedule_steps w0).
    { clear -Hinit. unfold Item.init, bind, random_random, uuid1, ret in Hinit.
      destruct w0 as [[|r1 [|r2 [|r3 rs]]] pk nu ob mi cn st]; cbn in Hinit;
        injection Hinit as <- <-; done. }
    destruct Hitem as (Hu & Hnu' & Hx & Hy & Hob' & Hmi' & Hcn' & Hst').
    cbn. split_and!; try congruence.
    right. split; [done|]. exists item, dest. split_and!; try congruence.
  - injection Hspawn as <- <-. split_and!; try done. left. done.
Qed.

(** [d[item] = v] keeps the keys of [d]. *)
Lemma dict_set_keeps item v d k :
  k ∈ map fst d -> k ∈ map fst (PlanetManager.dict_set item v d).
Proof.
  induction d as [|[k' v'] d IH]; cbn; [by intros ?%elem_of_nil|].
  destruct (Item.eq k' item); cbn; [done|].
  intros [->|Hk]%elem_of_cons; [by left | right; by apply IH].
Qed.

(** An item that [d] holds is held under a key that is equal to it. *)
Lemma dict_get_queued item d dest :
  PlanetManager.dict_get item d = Some dest ->
  ∃ key, key ∈ map fst d ∧ Item.uid key = Item.uid item
         ∧ PlanetManager.dict_get key d = Some dest.
Proof.
  induction d as [|[k v] d IH]; cbn; [done|].
  unfold Item.eq. destruct (Z.eqb_spec (Item.uid k) (Item.uid item)) as [He|Hne].
  - intros [= ->]. exists k. rewrite Z.eqb_refl. split_and!; [by left|done..].
  - intros Hget. destruct (IH Hget) as (key & Hin & Hu & Hk).
    exists key. split_and!; [by right|done|].
    destruct (Z.eqb_spec (Item.uid k) (Item.uid key)); [congruence | done].
Qed.

Lemma cfps_for_self ships item dest p p' steps :
  PlanetManager.self p' = PlanetManager.self p ->
  cfps_for ships item dest p' steps = cfps_for ships item dest p steps.
Proof. unfold cfps_for. by intros ->. Qed.

(** The loop [for item in self.items_to_ship] sends the calls for
    proposals of each of its items. *)
Lemma cfp_loop_sends ships its : ∀ p w p2 w2 key dest,
  for_each its (PlanetManager.call_for_proposal ships) p w = Ok (p2, w2) ->
  key ∈ its ->
  PlanetManager.dict_get key (PlanetManager.items_to_ship p) = Some dest ->
  ∃ pre post,
    outbox w2 = outbox w ++ pre ++ cfps_for ships key dest p (schedule_steps w) ++ post.
Proof.
  induction its as [|item its IH]; intros p w p2 w2 key dest Hloop Hin Hget.
  - by apply elem_of_nil in Hin.
  - cbn [for_each] in Hloop. apply bind_inv in Hloop as (p1 & w1 & Hc & Hloop).
    assert (Hd : ∃ d, PlanetManager.dict_get item (PlanetManager.items_to_ship p) = Some d).
    { unfold PlanetManager.call_for_proposal in Hc.
      apply bind_inv in Hc as (steps & w0 & Hs & Hc). injection Hs as <- <-.
      apply bind_inv in Hc as (d & w0 & Hd & Hc). apply lift_opt_inv in Hd as [Hd ->].
      by exists d. }
    destruct Hd as [d Hd].
    rewrite (call_for_proposal_spec ships item p w d Hd) in Hc. injection Hc as <- <-.
    apply elem_of_cons in Hin as [->|Hin].
    + assert (d = dest) as -> by congruence.
      destruct (cfp_loop_outbox _ _ _ _ _ _ Hloop) as [post Hout].
      exists [], post. rewrite Hout. cbn. by rewrite <- app_assoc.
    + destruct (IH _ _ _ _ key dest Hloop Hin Hget) as (pre & post & Hout).
      exists (cfps_for ships item d p (schedule_steps w) ++ pre), post.
      rewrite Hout. cbn. rewrite (cfps_for_self ships key dest p) by done.
      by rewrite <- !app_assoc.
Qed.

(** A whole step of a planet that ends without exception, and the item
    [key] that is in [items_to_ship] toward [dest] before the step: the
    step calls for proposals for it toward [dest], and leaves the round it
    opens at this tick open, with the item waiting. *)
Lemma step_opens_round ships q w q' w' key dest :
  PlanetManager.step ships q w = Ok (q', w') ->
  key ∈ map fst (PlanetManager.items_to_ship q) ->
  PlanetManager.dict_get key (PlanetManager.items_to_ship q) = Some dest ->
  next_uuid w ≠ Item.uid key ->
  key ∈ PlanetManager.waiting_for_proposal q'
  ∧ PlanetManager.start_times q' !! Item.uid key = Some (schedule_steps w)
  ∧ (∃ arrived, PlanetManager.proposals q' !! Item.uid key = Some arrived
                ∧ arrived ⊆ PlanetManager.msg_box q)
  ∧ ∃ pre post,
      outbox w' = outbox w ++ pre ++ cfps_for ships key dest q (schedule_steps w) ++ post.
Proof.
  intros Hstep Hkey Hget Hfresh. unfold PlanetManager.step in Hstep.
  apply bind_inv in Hstep as (p1 & w1 & Hspawn & Hstep).
  apply bind_inv in Hstep as (p2 & w2 & Hcfp & Hstep). cbv zeta in Hstep.
  apply bind_inv in Hstep as (p5 & w5 & Hcollect & Hstep).
  apply bind_inv in Hstep as ([p6 dels] & w6 & Hloop & Hstep).
  apply bind_inv in Hstep as (waiting & w7 & Hpop & Hstep).
  apply lift_opt_inv in Hpop as [Hpop ->]. injection Hstep as <- <-.
  destruct (spawn_inv _ _ _ _ Hspawn)
    as (_ & _ & Hw1 & Hbox1 & _ & Hself1 & Hs1 & Ho1 & _).
  assert (Hq1 : key ∈ map fst (PlanetManager.items_to_ship p1)
                ∧ PlanetManager.dict_get key (PlanetManager.items_to_ship p1) = Some dest).
  { destruct (spawn_cases _ _ _ _ Hspawn)
      as (_ & _ & _ & [(_ & -> & _)|(_ & item & d0 & Hu & _ & _ & _ & -> & _)]); [done|].
    cbn. split; [by apply dict_set_keeps|].
    rewrite dict_get_set_ne by congruence. done. }
  destruct Hq1 as [Hkey1 Hget1].
  destruct (cfp_loop_spec ships (map fst (PlanetManager.items_to_ship p1)) p1 w1)
    as (p2' & w2' & Hcfp' & _ & Hbox2 & _ & _ & Hw2 & Hs2 & _ & _ & _ & Hopen).
  { intros it Hit. by apply dict_get_key. }
  rewrite Hcfp in Hcfp'. injection Hcfp' as <- <-.
  destruct (Hopen key Hkey1) as [Hpr2 Hst2].
  destruct (cfp_loop_sends _ _ _ _ _ _ key dest Hcfp Hkey1 Hget1) as (pre & post & Ho2).
  destruct (collect_loop_inv _ _ _ _ _ Hcollect)
    as (Hst5 & Hw5 & _ & _ & _ & _ & (Ho5 & _ & _ & Hs5) & _ & _ & Hsome5).
  cbn [PlanetManager.msg_box PlanetManager.set_items_to_ship PlanetManager.set_msg_box
       PlanetManager.start_times PlanetManager.waiting_for_proposal
       PlanetManager.proposals PlanetManager.planets PlanetManager.self] in *.
  destruct (Hsome5 (Item.uid key) []) as (arrived & Harr & Hsub); [done|].
  assert (Hi : ∃ i, PlanetManager.waiting_for_proposal p5 !! i = Some key).
  { apply list_elem_of_lookup. rewrite Hw5, Hw2. apply elem_of_app. by right. }
  destruct Hi as [i Hi].
  assert (Hlws : (i, key) ∈ imap (fun l w => (l, w)) (PlanetManager.waiting_for_proposal p5)).
  { by apply (elem_of_lookup_imap_2 (fun l w => (l, w))). }
  destruct (resolve_loop_frame _ _ _ _ _ _ _ Hloop)
    as (_ & _ & Hw6 & _ & _ & [post6 Ho6] & _ & _ & Hsorted & _).
  destruct (resolve_loop_open _ _ _ _ _ _ _ (Item.uid key) (schedule_steps w) Hloop)
    as (Hst6 & Hpr6 & Hdels).
  { rewrite indexed_fst. apply NoDup_seq. }
  { congruence. }
  { unfold WAITING_TIME. lia. }
  cbn [PlanetManager.waiting_for_proposal PlanetManager.set_waiting_for_proposal
       PlanetManager.start_times PlanetManager.proposals].
  split_and!.
  - assert (Hss : StronglySorted lt dels).
    { apply Hsorted. cbn [app]. rewrite indexed_fst. apply seq_sorted. }
    rewrite (sort_desc_reverse dels Hss) in Hpop.
    eapply (pop_all_keeps dels _ _ i key Hss Hpop); [by rewrite Hw6|].
    intros Hin. specialize (Hdels i key Hlws eq_refl Hin). by apply elem_of_nil in Hdels.
  - congruence.
  - exists arrived. split; [by rewrite Hpr6|]. by rewrite <- Hbox1, <- Hbox2.
  - exists pre, (post ++ post6). rewrite Ho6, Ho5, Ho2, Ho1, Hs1.
    rewrite (cfps_for_self ships key dest p1 q) by done.
    by rewrite <- !app_assoc.
Qed.

(** C6: when the waiting time of a round is over and its set of proposals
    is empty, the item is set in [items_to_ship] to the planet that
    [random.choice(self.planets)] draws, whatever its former destination;
    every planet of [self.planets] can be drawn. Nothing is sent for the
    round, which is deleted. This holds of the turn of the loop over the
    waiting items, which does not fail, and of every whole step that ends.
    The next step of the planet, whatever the ships and the mailbox then,
    calls for proposals for the item toward the planet drawn: the calls are
    in what the step sends, the round is started at the tick of this step,
    and the item waits for proposals when the step ends. *)
Theorem C6_no_bid_requeued (ships : list Ship.t) (p : PlanetManager.t)
    (w : Ambient) (wi : Item.t) (started : Z) :
  PlanetManager.start_times p !! Item.uid wi = Some started ->
  schedule_steps w - started > WAITING_TIME ->
  PlanetManager.planets p ≠ [] ->
  (∀ l dels,
     PlanetManager.proposals p !! Item.uid wi = Some [] ->
     (∃ dest,
        PlanetManager.planets p
          !! (hd 0%nat (rnd_picks w) mod length (PlanetManager.planets p))%nat = Some dest
        ∧ PlanetManager.resolve (l, wi) (p, dels) w
          = Ok ((requeued wi dest p, dels ++ [l]), picked w)
        ∧ PlanetManager.dict_get wi (PlanetManager.items_to_ship (requeued wi dest p))
          = Some dest
        ∧ PlanetManager.start_times (requeued wi dest p) !! Item.uid wi = None
        ∧ PlanetManager.proposals (requeued wi dest p) !! Item.uid wi = None
        ∧ ∀ w2,
            PlanetManager.call_for_proposal ships wi (requeued wi dest p) w2
            = Ok (opened wi (schedule_steps w2) (requeued wi dest p),
                  sent_all (cfps_for ships wi dest (requeued wi dest p)
                              (schedule_steps w2)) w2))
     ∧ (∀ d, d ∈ PlanetManager.planets p ->
          ∃ k, ∀ w2, hd 0%nat (rnd_picks w2) = k -> schedule_steps w2 = schedule_steps w ->
                 PlanetManager.resolve (l, wi) (p, dels) w2
                 = Ok ((requeued wi d p, dels ++ [l]), picked w2)))
  ∧ (∀ i p' w',
       PlanetManager.waiting_for_proposal p !! i = Some wi ->
       ¬ restarted p w wi ->
       PlanetManager.step ships p w = Ok (p', w') ->
       ∃ received arrived,
         PlanetManager.proposals p !! Item.uid wi = Some received
         ∧ arrived ⊆ PlanetManager.msg_box p
         ∧ PlanetManager.start_times p' !! Item.uid wi = None
         ∧ PlanetManager.proposals p' !! Item.uid wi = None
         ∧ (received ++ arrived = [] ->
            ∃ dest key,
              dest ∈ PlanetManager.planets p
              ∧ PlanetManager.dict_get wi (PlanetManager.items_to_ship p') = Some dest
              ∧ key ∈ map fst (PlanetManager.items_to_ship p')
              ∧ Item.uid key = Item.uid wi
              ∧ ∀ (ships2 : list Ship.t) (inbox : list Message.t) (w2 : Ambient)
                  (q' : PlanetManager.t) (w2' : Ambient),
                  next_uuid w2 ≠ Item.uid wi ->
                  PlanetManager.step ships2 (PlanetManager.set_msg_box inbox p') w2
                  = Ok (q', w2') ->
                  key ∈ PlanetManager.waiting_for_proposal q'
                  ∧ PlanetManager.start_times q' !! Item.uid wi = Some (schedule_steps w2)
                  ∧ (∃ bids, PlanetManager.proposals q' !! Item.uid wi = Some bids
                             ∧ bids ⊆ inbox)
                  ∧ ∃ pre post,
                      outbox w2'
                      = outbox w2 ++ pre
                        ++ cfps_for ships2 key dest p' (schedule_steps w2) ++ post)).
Proof.
  intros Hst Hgt Hne. split.
  - intros l dels Hpr. split.
    + destruct (resolve_no_bid_drawn l wi p dels w started Hst Hgt Hpr Hne)
        as (dest & Hdest & Hres).
      exists dest. split_and!.
      * done.
      * done.
      * apply dict_get_set.
      * cbn. apply lookup_delete_eq.
      * cbn. apply lookup_delete_eq.
      * intros w2. apply call_for_proposal_spec. apply dict_get_set.
    + intros d [k Hk]%list_elem_of_lookup. exists k. intros w2 Hw2 Hsteps.
      assert (Hlt : (k < length (PlanetManager.planets p))%nat) by by eapply lookup_lt_Some.
      destruct (resolve_no_bid_drawn l wi p dels w2 started Hst) as (dest & Hdest & Hres);
        [lia|done|done|].
      rewrite Hw2, Nat.mod_small, Hk in Hdest by done. by injection Hdest as <-.
  - intros i p' w' Hi [Hits Hfresh]%not_restarted Hstep.
    destruct (step_round ships p w p' w' i wi started Hstep Hi Hst Hits Hfresh)
      as [_ Hexpired].
    destruct (Hexpired Hgt) as (Hst' & Hpr' & received & arrived & Hrec & Hsub & Hcase).
    exists received, arrived. split_and!; try done.
    intros Hnil. destruct Hcase as [[Hbids _]|(_ & dest & Hdest & Hget)]; [done|].
    destruct (dict_get_queued _ _ _ Hget) as (key & Hkey & Hu & Hgetk).
    exists dest, key. split_and!; try done.
    intros ships2 inbox w2 q' w2' Hfresh2 Hnext.
    destruct (step_opens_round ships2 _ w2 q' w2' key dest Hnext)
      as (Hwait & Hstart & Hbids & Hout); [done|done|congruence|].
    rewrite Hu in Hstart, Hbids. by split_and!.
Qed.

(** ** The claims on the examples *)

Lemma three_bids_are_proposals : Forall is_proposal three_bids.
Proof. repeat constructor; by eexists _, _, _. Qed.

Lemma parcel_not_restarted received steps :
  ¬ restarted (soliciting received) (calm steps) parcel.
Proof.
  intros [(it & Hit & _)|Hu]; [by apply elem_of_nil in Hit | discriminate].
Qed.

Lemma nothing_arrived (arrived : list Message.t) : arrived ⊆ [] -> arrived = [].
Proof.
  destruct arrived as [|m ?]; [done|]. intros Hsub.
  exfalso. apply (not_elem_of_nil m), Hsub, elem_of_cons. by left.
Qed.

(** At tick 14 the round of the parcel, started at tick 10, holds the bids
    0.7, 0.9 and 0.4: the second ship is accepted, the two others are
    rejected, by the turn of the loop and by the whole step. *)
Lemma C1_witness :
  (∃ k new,
     PlanetManager.resolve (0%nat, parcel) (soliciting three_bids, []) (calm 14)
     = Ok ((closed parcel (soliciting three_bids), [0%nat]), sent_all new (calm 14))
     ∧ k = 1%nat
     ∧ map Message.performative new
       = ["reject_proposal"; "accept_proposal"; "reject_proposal"]%string
     ∧ map Message.to new
       = ["ship-A@localhost"; "ship-B@localhost"; "ship-C@localhost"]%string)
  ∧ ∃ p' w' k new pre post,
      PlanetManager.step [docked_ship] (soliciting three_bids) (calm 14) = Ok (p', w')
      ∧ outbox w' = outbox (calm 14) ++ pre ++ new ++ post
      ∧ awarded three_bids new k.
Proof.
  destruct (C1_accept_best_reject_others [docked_ship] (soliciting three_bids) (calm 14)
              parcel 10 eq_refl eq_refl) as [Hloop Hstep].
  split.
  - destruct (Hloop 0%nat [] three_bids)
      as (k & new & Hres & Hk & Hlen & Hnew & _ & Hbest & _).
    + reflexivity.
    + discriminate.
    + exact three_bids_are_proposals.
    + exists k, new. split; [exact Hres|].
      revert Hres. vm_compute. intros [= Hnew'].
      destruct Hbest as (best & vk & Hb & Hv & Hmax & Hfirst).
      { eexists _, _. split; [apply elem_of_cons; by left|].
        split; [reflexivity | reflexivity]. }
      subst new.
      destruct k as [|[|[|k]]]; [exfalso|by vm_compute|exfalso|by cbn in Hb].
      * injection Hb as <-. injection Hv as <-.
        specialize (Hmax 1%nat _ _ eq_refl eq_refl). by vm_compute in Hmax.
      * injection Hb as <-. injection Hv as <-.
        specialize (Hmax 1%nat _ _ eq_refl eq_refl). by vm_compute in Hmax.
  - edestruct (Hstep 0%nat) as (received & arrived & Hrec & Harr & _ & _ & Hsent).
    + reflexivity.
    + apply parcel_not_restarted.
    + vm_compute. reflexivity.
    + injection Hrec as <-. apply nothing_arrived in Harr. subst arrived.
      destruct Hsent as (k & new & pre & post & Hout & Haw); [discriminate|].
      eexists _, _, k, new, pre, post. split; [vm_compute; reflexivity|]. by split.
Defined.

(** At tick 13, three ticks after the call for proposals of tick 10, the
    round is left open by the turn of the loop and by the whole step. *)
Lemma C2_witness :
  PlanetManager.resolve (0%nat, parcel) (soliciting three_bids, []) (calm 13)
  = Ok ((soliciting three_bids, []), calm 13)
  ∧ ∃ p' w',
      PlanetManager.step [docked_ship] (soliciting three_bids) (calm 13) = Ok (p', w')
      ∧ parcel ∈ PlanetManager.waiting_for_proposal p'
      ∧ PlanetManager.start_times p' !! Item.uid parcel = Some 10.
Proof.
  destruct (C2_round_open_while_not_exceeded [docked_ship] (soliciting three_bids)
              (calm 13) parcel 10 eq_refl) as (Hloop & Hstep & _).
  split.
  - apply Hloop. vm_compute. discriminate.
  - edestruct (Hstep 0%nat) as [Hopen _].
    + reflexivity.
    + apply parcel_not_restarted.
    + vm_compute. reflexivity.
    + destruct Hopen as (Hin & Hst & _); [vm_compute; discriminate|].
      eexists _, _. split; [vm_compute; reflexivity|]. by split.
Defined.

(** C2 fails as it is stated. The planet calls for proposals for the parcel
    at tick 10 and a proposal reaches it at tick 11. After its turns of
    ticks 10, 11, 12 and 13, three ticks after the call, the round is
    still open: the parcel waits and only the call has been sent. The turn
    of tick 14 resolves the round and sends the [accept_proposal]. *)
Lemma C2_counterexample :
  ∃ p w,
    PlanetDelivery.planet_ticks [docked_ship]
      [[]; [proposal_of "ship-0@localhost" (1 # 2)]; []; []] depot (calm 10)
    = Ok (p, w)
    ∧ schedule_steps w = 10 + WAITING_TIME + 1
    ∧ PlanetManager.waiting_for_proposal p = [parcel]
    ∧ PlanetManager.start_times p !! Item.uid parcel = Some 10
    ∧ map Message.performative (outbox w) = ["call_for_proposal"%string]
    ∧ ∃ p' w',
        PlanetManager.step [docked_ship] p w = Ok (p', w')
        ∧ PlanetManager.waiting_for_proposal p' = []
        ∧ map Message.performative (outbox w')
          = ["call_for_proposal"; "accept_proposal"]%string.
Proof.
  eexists _, _. split; [vm_compute; reflexivity|].
  split_and!; try by vm_compute.
  eexists _, _. split; [vm_compute; reflexivity|]. by vm_compute.
Qed.

(** A proposal for an item without a round ends the step with
    [KeyError]. *)
Lemma C4_witness :
  PlanetManager.collect stray_proposal (soliciting three_bids) (calm 12) = Raise KeyError
  ∧ PlanetManager.step [docked_ship] (at_rest [stray_proposal]) (calm 12)
    = Raise KeyError.
Proof.
  destruct (C4_message_without_round_raises [docked_ship] (at_rest [stray_proposal])
              (calm 12) stray_proposal []) as (_ & _ & Hstep).
  { vm_compute. discriminate. }
  destruct (C4_message_without_round_raises [docked_ship] (soliciting three_bids)
              (calm 12) stray_proposal []) as (Hcollect & _ & _).
  { vm_compute. discriminate. }
  split.
  - apply Hcollect. reflexivity.
  - apply Hstep.
    + discriminate.
    + reflexivity.
    + reflexivity.
    + intros it Hit. by apply elem_of_nil in Hit.
    + vm_compute. discriminate.
Defined.

(** C4 fails as it is stated: the planet has no round for the item of the
    proposal in its mailbox; its step raises [KeyError] and returns no
    state. *)
Lemma C4_counterexample :
  PlanetManager.step [docked_ship] (at_rest [stray_proposal]) (calm 12) = Raise KeyError
  ∧ ¬ ∃ p' w', PlanetManager.step [docked_ship] (at_rest [stray_proposal]) (calm 12)
               = Ok (p', w').
Proof.
  split; [by vm_compute|]. intros (p' & w' & H). vm_compute in H. discriminate.
Qed.

Lemma C5_witness :
  ∃ net w',
    SpaceRoadNetwork.init example_norm [earth; mars] 1 0 (calm 0) = Ok (Some net, w')
    ∧ length (Graph.connected_components (SpaceRoadNetwork.initial_graph net)) = 1%nat
    ∧ Graph.path (SpaceRoadNetwork.current_graph net) earth mars.
Proof.
  destruct (C5_road_graph_connected example_norm [earth; mars] 1 0 (calm 0))
    as (net & w' & Hinit & Hone & _ & _ & _ & Hrun).
  - discriminate.
  - exists net, w'. split_and!; [done|done|].
    destruct (Hrun net (rtc_refl _ _)) as (_ & _ & _ & Hpath & _).
    apply Hpath; [apply elem_of_cons; by left|].
    apply elem_of_cons; right. apply elem_of_cons; by left.
Defined.

(** At tick 14 the round of the parcel, started at tick 10, has no proposal:
    the parcel goes back to [items_to_ship], toward [mars] again, by the
    turn of the loop and by the whole step. *)
Lemma C6_witness :
  PlanetManager.resolve (0%nat, parcel) (soliciting [], []) (calm 14)
  = Ok ((requeued parcel mars (soliciting []), [0%nat]), picked (calm 14))
  ∧ ∃ p' w',
      PlanetManager.step [docked_ship] (soliciting []) (calm 14) = Ok (p', w')
      ∧ PlanetManager.dict_get parcel (PlanetManager.items_to_ship p') = Some mars
      ∧ ∃ q' w2',
          PlanetManager.step [docked_ship] (PlanetManager.set_msg_box [] p') (calm 15)
          = Ok (q', w2')
          ∧ PlanetManager.start_times q' !! 7 = Some 15
          ∧ ∃ pre post,
              outbox w2'
              = pre ++ cfps_for [docked_ship] parcel mars p' 15 ++ post.
Proof.
  destruct (C6_no_bid_requeued [docked_ship] (soliciting []) (calm 14) parcel 10)
    as [Hloop Hstep].
  - reflexivity.
  - reflexivity.
  - discriminate.
  - split.
    + destruct (Hloop 0%nat [] eq_refl) as [(dest & Hdest & Hres & _) _].
      vm_compute in Hdest. injection Hdest as <-. exact Hres.
    + destruct (PlanetManager.step [docked_ship] (soliciting []) (calm 14))
        as [[p' w']|e] eqn:Hfirst; [|by vm_compute in Hfirst].
      edestruct (Hstep 0%nat p' w') as (received & arrived & Hrec & Harr & _ & _ & Hback).
      * reflexivity.
      * apply parcel_not_restarted.
      * reflexivity.
      * injection Hrec as <-. apply nothing_arrived in Harr. subst arrived.
        destruct Hback as (dest & key & Hdest & Hget & Hkey & Hu & Hnext); [reflexivity|].
        apply list_elem_of_singleton in Hdest. subst dest.
        exists p', w'. split; [reflexivity|]. split; [exact Hget|].
        assert (Hp' : p' = PlanetManager.mk earth [(parcel, mars)] [] ∅ ∅ [mars] []).
        { vm_compute in Hfirst. by injection Hfirst as <- _. }
        assert (key = parcel) as ->.
        { rewrite Hp' in Hkey. cbn in Hkey. by apply list_elem_of_singleton in Hkey. }
        destruct (PlanetManager.step [docked_ship] (PlanetManager.set_msg_box [] p') (calm 15))
          as [[q' w2']|e] eqn:Hsecond;
          [|rewrite Hp' in Hsecond; by vm_compute in Hsecond].
        destruct (Hnext [docked_ship] [] (calm 15) q' w2') as (_ & Hstart & _ & Hout);
          [cbn; lia | exact Hsecond |].
        exists q', w2'. split; [reflexivity|]. split; [exact Hstart|].
        destruct Hout as (pre & post & Hout). exists pre, post. exact Hout.
Defined.

(** The carrier reaches [mars], its destination, and delivers the parcel. *)
Lemma C8_witness :
  ∃ s',
    Ship.step example_norm example_path example_roads carrier (calm 14)
    = Ok (s', delivered [] (calm 14))
    ∧ Ship.item s' = None ∧ Ship.destination s' = None ∧ Ship.waypoint s' = None
    ∧ Ship.previous_point s' = mars
    ∧ model_items (delivered [] (calm 14)) = []
    ∧ computed_items_nb (delivered [] (calm 14)) = 1.
Proof.
  destruct (C8_delivery_on_arrival example_norm example_path example_roads carrier
              (calm 14) mars parcel parcel 1)
    as (s' & l1 & i' & l2 & _ & Hstep & Hsplit & _ & _ & _ & _ & _ & Hrest);
    try reflexivity.
  { apply elem_of_cons; by left. }
  assert (Hl : l1 ++ l2 = []).
  { destruct l1 as [|? [|? ?]]; [|discriminate..]. cbn in Hsplit. by injection Hsplit as _ <-. }
  rewrite Hl in Hstep. exists s'. split; [by apply Hstep|].
  destruct Hrest as (? & ? & ? & ? & _). by split_and!.
Defined.

Lemma example_roads_reachable :
  reachable example_norm [earth; mars] 1 1 example_roads.
Proof.
  apply (reachable_init _ _ _ _ (mkAmbient [0%Q] [] 100 [] [] 0 0)
           (mkAmbient [] [] 100 [] [] 0 0)).
  by vm_compute.
Defined.

Lemma C10_witness :
  ∃ state,
    (state = 0%Q ∨ state = (1 # 2)%Q ∨ state = 1%Q)
    ∧ SpaceRoadNetwork.speed_modificator example_roads !! (mars, earth) = Some state
    ∧ SpaceRoadNetwork.speed_modificator example_roads !! (earth, mars) = Some state.
Proof.
  apply (C10_speed_modificator_symmetric example_norm [earth; mars] 1 1 example_roads
           example_roads_reachable mars earth 5%Q).
  apply elem_of_cons. by left.
Defined.

(** * Further properties of the code *)

(** ** Item: the copy made from a message *)

Lemma init_fields x0 y0 a0 b0 c0 u0 w it w' :
  Item.init x0 y0 a0 b0 c0 u0 w = Ok (it, w') ->
  Item.x it = x0 ∧ Item.y it = y0
  ∧ (not_float a0 = false -> Some (Item.a it) = a0)
  ∧ (not_float b0 = false -> Some (Item.b it) = b0)
  ∧ (not_float c0 = false -> Some (Item.c it) = c0)
  ∧ (not_int u0 = false -> Some (Item.uid it) = u0 ∧ next_uuid w' = next_uuid w)
  ∧ (not_float a0 = false -> not_float b0 = false -> not_float c0 = false ->
     rnd_floats w' = rnd_floats w).
Proof.
  unfold Item.init, bind, ret, random_random, uuid1.
  destruct w as [fl pk nu ob mi cn st].
  destruct a0 as [a0|], b0 as [b0|], c0 as [c0|], u0 as [u0|]; cbn;
    repeat match goal with
           | |- context [Qeq_bool ?q 0] => destruct (Qeq_bool q 0)
           | |- context [?n =? 0] => destruct (n =? 0)
           end;
    destruct fl as [|r1 [|r2 [|r3 rs]]]; cbn; intros [= <- <-]; cbn;
    by repeat split.
Qed.

(** X1: [Item.from_json] never raises, and the copy it makes of an item
    whose [uid] is not 0 is equal to the item for [Item.__eq__], with the
    same position; an attribute [a], [b] or [c] that is not [0.0] is kept.
    When none of the three is [0.0] the copy is the item itself and no draw
    is consumed. Nothing of the model changes. *)
Theorem from_json_copy_is_equal (j : Item.t) (w : Ambient) :
  Item.uid j ≠ 0 ->
  ∃ it w',
    Item.from_json j w = Ok (it, w')
    ∧ Item.eq it j = true ∧ Item.uid it = Item.uid j
    ∧ Item.x it = Item.x j ∧ Item.y it = Item.y j
    ∧ (Qeq_bool (Item.a j) 0 = false -> Item.a it = Item.a j)
    ∧ (Qeq_bool (Item.b j) 0 = false -> Item.b it = Item.b j)
    ∧ (Qeq_bool (Item.c j) 0 = false -> Item.c it = Item.c j)
    ∧ (Qeq_bool (Item.a j) 0 = false -> Qeq_bool (Item.b j) 0 = false ->
       Qeq_bool (Item.c j) 0 = false -> it = j ∧ w' = w)
    ∧ same_model w w' ∧ rnd_picks w' = rnd_picks w ∧ next_uuid w' = next_uuid w.
Proof.
  intros Hu.
  destruct (from_json_total j w) as (it & w' & Hjson & Hsame & Hpicks).
  exists it, w'. split; [exact Hjson|].
  destruct (init_fields _ _ _ _ _ _ _ _ _ Hjson)
    as (Hx & Hy & Ha & Hb & Hc & Hid & Hfl).
  destruct Hid as [Hid Hnext]; [by apply Z.eqb_neq|].
  injection Hid as Hid.
  split_and!; try done.
  - unfold Item.eq. rewrite Hid. apply Z.eqb_refl.
  - intros H0. specialize (Ha H0). by injection Ha.
  - intros H0. specialize (Hb H0). by injection Hb.
  - intros H0. specialize (Hc H0). by injection Hc.
  - intros Ha0 Hb0 Hc0.
    rewrite from_json_supplied in Hjson by done. by injection Hjson as <- <-.
Qed.

Lemma from_json_copy_is_equal_witness :
  ∃ it w', Item.from_json parcel (calm 14) = Ok (it, w') ∧ it = parcel ∧ w' = calm 14.
Proof.
  destruct (from_json_copy_is_equal parcel (calm 14))
    as (it & w' & Hjson & _ & _ & _ & _ & _ & _ & _ & Hsame & _).
  - discriminate.
  - exists it, w'. split; [exact Hjson|]. by apply Hsame.
Defined.

(** ** Ship: construction *)

Lemma same_model_trans w1 w2 w3 : same_model w1 w2 -> same_model w2 w3 -> same_model w1 w3.
Proof. unfold same_model. intros (?&?&?&?) (?&?&?&?). repeat split; congruence. Qed.

Lemma same_model_refl w : same_model w w.
Proof. done. Qed.

Lemma ship_init_spec name planets x y max_speed w :
  ∃ w', same_model w w' ∧ rnd_picks w' = rnd_picks w ∧ next_uuid w' = next_uuid w
    ∧ rnd_floats w' = drop 3 (rnd_floats w)
    ∧ Ship.init name planets x y max_speed w
      = match head (filter (located x y) planets) with
        | None => Raise IndexError
        | Some previous_point =>
            Ok (Ship.mk name (hd 0%Q (rnd_floats w)) (hd 0%Q (drop 1 (rnd_floats w)))
                  (hd 0%Q (drop 2 (rnd_floats w))) planets x y max_speed
                  None None None previous_point None false [], w')
        end.
Proof.
  unfold Ship.init, bind, random_random, lift_opt, ret, raise.
  change (filter _ planets) with (filter (located x y) planets).
  destruct w as [[|r1 [|r2 [|r3 rs]]] pk nu ob mi cn st]; cbn;
    eexists; (split; [|split; [|split; [|split]]]);
    try (destruct (head (filter (located x y) planets)); reflexivity);
    try reflexivity; done.
Qed.

Lemma head_filter_first {A} (P : A -> Prop) `{∀ a, Decision (P a)} (l1 l2 : list A) p :
  P p -> (∀ q, q ∈ l1 -> ¬ P q) -> head (filter P (l1 ++ p :: l2)) = Some p.
Proof.
  intros Hp Hl1. induction l1 as [|q l1 IH]; cbn.
  - by rewrite decide_True.
  - rewrite decide_False by (apply Hl1; left).
    apply IH. intros q' Hq'. apply Hl1. by right.
Qed.

Lemma head_filter_none {A} (P : A -> Prop) `{∀ a, Decision (P a)} (l : list A) :
  (∀ q, q ∈ l -> ¬ P q) -> head (filter P l) = None.
Proof.
  intros Hl. induction l as [|q l IH]; [done|]. cbn.
  rewrite decide_False by (apply Hl; left).
  apply IH. intros q' Hq'. apply Hl. by right.
Qed.

(** X2: [Ship.__init__] raises [IndexError] when no planet of [planets] has
    exactly the coordinates [(x, y)] of the ship. Otherwise the ship is
    docked at the first planet of the list that has them; its preferences
    are the next three results of [random.random()], in the order [a], [b],
    [c]; it carries nothing, awaits nothing, has no destination, no
    waypoint and an empty mailbox. Nothing of the model changes. *)
Theorem ship_init_docked (name : string) (planets : list Planet.t)
    (x y max_speed : float) (w : Ambient) :
  ((∀ p, p ∈ planets -> ¬ located x y p) ->
   Ship.init name planets x y max_speed w = Raise IndexError)
  ∧ (∀ l1 p l2,
       planets = l1 ++ p :: l2 -> located x y p -> (∀ q, q ∈ l1 -> ¬ located x y q) ->
       ∃ s w',
         Ship.init name planets x y max_speed w = Ok (s, w')
         ∧ Ship.previous_point s = p
         ∧ Ship.x s = x ∧ Ship.y s = y
         ∧ Ship.name s = name ∧ Ship.planets s = planets ∧ Ship.max_speed s = max_speed
         ∧ Ship.preference_a s = hd 0%Q (rnd_floats w)
         ∧ Ship.preference_b s = hd 0%Q (drop 1 (rnd_floats w))
         ∧ Ship.preference_c s = hd 0%Q (drop 2 (rnd_floats w))
         ∧ idle s ∧ consistent s
         ∧ Ship.destination s = None ∧ Ship.waypoint s = None
         ∧ Ship.potential_destination s = None ∧ Ship.msg_box s = []
         ∧ rnd_floats w' = drop 3 (rnd_floats w)
         ∧ rnd_picks w' = rnd_picks w ∧ next_uuid w' = next_uuid w
         ∧ same_model w w').
Proof.
  destruct (ship_init_spec name planets x y max_speed w)
    as (w' & Hsame & Hpk & Hnu & Hfl & Hinit).
  split.
  - intros Hnone. rewrite Hinit. by rewrite head_filter_none.
  - intros l1 p l2 Hpl Hp Hl1. rewrite Hinit, Hpl.
    rewrite head_filter_first by done.
    eexists _, w'. split; [reflexivity|]. cbn. rewrite <- Hpl.
    split_and!; try done.
Qed.

(** ** Ship: a closed road *)

Section ClosedRoad.
Variable norm : float -> float -> float.
Hypothesis norm_proper : ∀ a a' b b', (a == a')%Q -> (b == b')%Q -> (norm a b == norm a' b')%Q.
Hypothesis norm_zero : (norm 0 0 == 0)%Q.
Hypothesis norm_nonneg : ∀ a b, (0 <= norm a b)%Q.

Lemma move_to_stalled dest speed s :
  (speed == 0)%Q ->
  (Ship.x (Ship.move_to norm dest speed s) == Ship.x s)%Q
  ∧ (Ship.y (Ship.move_to norm dest speed s) == Ship.y s)%Q
  ∧ Ship.set_position (Ship.x s) (Ship.y s) (Ship.move_to norm dest speed s) = s.
Proof.
  intros Hs. unfold Ship.move_to. cbv zeta. cbn [fst snd].
  set (dx := (Planet.x dest - Ship.x s)%Q). set (dy := (Planet.y dest - Ship.y s)%Q).
  assert (H1 : (speed * dx / norm dx dy == 0)%Q).
  { rewrite Hs. unfold Qdiv. ring. }
  assert (H2 : (speed * dy / norm dx dy == 0)%Q).
  { rewrite Hs. unfold Qdiv. ring. }
  assert (Hlt : float_lt (norm dx dy)
                  (norm (speed * dx / norm dx dy) (speed * dy / norm dx dy)) = false).
  { unfold float_lt. apply negb_false_iff, Qle_bool_iff.
    rewrite (norm_proper _ _ _ _ H1 H2), norm_zero. apply norm_nonneg. }
  rewrite Hlt. cbn. split_and!.
  - rewrite H1. ring.
  - rewrite H2. ring.
  - by destruct s.
Qed.
End ClosedRoad.

Lemma float_eq_compat a a' b b' :
  (a == a')%Q -> (b == b')%Q -> float_eq a b = float_eq a' b'.
Proof.
  intros Ha Hb. unfold float_eq.
  destruct (Qeq_bool a' b') eqn:H.
  - apply Qeq_bool_iff. apply Qeq_bool_iff in H. by rewrite Ha, Hb.
  - destruct (Qeq_bool a b) eqn:H'; [|done].
    apply Qeq_bool_iff in H'. rewrite Ha, Hb in H'. apply Qeq_bool_iff in H'. congruence.
Qed.

(** X3: a ship bound for the waypoint [wp] on a road whose multiplier is
    [0.0] does not move: [move_to] is called with the speed
    [max_speed * 0.0], the position of the ship stays what it was, and so
    do its waypoint, its destination and its previous point; the item on
    board is given the position of the ship. Nothing is sent and nothing
    of the model changes. [norm] is a norm insofar as it is 0 at the null
    vector and nowhere negative. *)
Theorem closed_road_ship_stays
    (norm : float -> float -> float)
    (dijkstra_path : Graph.t -> Planet.t -> option Planet.t -> Res (list Planet.t))
    (environment : SpaceRoadNetwork.t) (s : Ship.t) (w : Ambient)
    (wp : Planet.t) (it : Item.t) :
  (∀ a a' b b', (a == a')%Q -> (b == b')%Q -> (norm a b == norm a' b')%Q) ->
  (norm 0 0 == 0)%Q -> (∀ a b, (0 <= norm a b)%Q) ->
  Ship.waypoint s = Some wp -> Ship.item s = Some it ->
  SpaceRoadNetwork.speed_modificator environment !! (Ship.previous_point s, wp)
    = Some 0%Q ->
  ¬ ((Ship.x s == Planet.x wp)%Q ∧ (Ship.y s == Planet.y wp)%Q) ->
  ∃ s',
    Ship.advance norm dijkstra_path environment s w = Ok (s', w)
    ∧ (Ship.msg_box s = [] ->
       Ship.step norm dijkstra_path environment s w = Ok (s', w))
    ∧ (Ship.x s' == Ship.x s)%Q ∧ (Ship.y s' == Ship.y s)%Q
    ∧ Ship.item s' = Some (Item.mk (Item.a it) (Item.b it) (Item.c it)
                             (Ship.x s') (Ship.y s') (Item.uid it))
    ∧ Ship.set_position (Ship.x s) (Ship.y s) (Ship.set_item (Some it) s') = s.
Proof.
  intros Hproper Hzero Hnonneg Hwp Hit Hroad Hfar.
  assert (Hspeed : (Ship.max_speed s * 0 == 0)%Q) by ring.
  destruct (move_to_stalled norm Hproper Hzero Hnonneg wp _ s Hspeed)
    as (Hx & Hy & Hsame).
  set (s2 := Ship.move_to norm wp (Ship.max_speed s * 0)%Q s) in *.
  assert (Hfields : Ship.item s2 = Some it ∧ Ship.msg_box s2 = Ship.msg_box s).
  { split.
    - rewrite <- Hit. exact (f_equal Ship.item Hsame).
    - exact (f_equal Ship.msg_box Hsame). }
  destruct Hfields as [Hit2 Hbox2].
  assert (Hadv : Ship.advance norm dijkstra_path environment s w
                 = Ok (Ship.set_item
                         (Some (Item.mk (Item.a it) (Item.b it) (Item.c it)
                                  (Ship.x s2) (Ship.y s2) (Item.uid it))) s2, w)).
  { unfold Ship.advance. rewrite Hwp. unfold bind at 1. unfold ret at 1.
    rewrite Hwp. unfold bind at 1. rewrite Hroad. unfold lift_opt at 1, ret at 1.
    fold s2. unfold bind at 1. rewrite Hit2. unfold lift_opt, ret. cbn [Ship.x Ship.y Ship.set_item].
    rewrite (float_eq_compat _ _ _ _ Hx (Qeq_refl _)),
            (float_eq_compat _ _ _ _ Hy (Qeq_refl _)).
    destruct (float_eq (Ship.x s) (Planet.x wp)) eqn:Ex;
      destruct (float_eq (Ship.y s) (Planet.y wp)) eqn:Ey; try reflexivity.
    exfalso. apply Hfar. split; by apply Qeq_bool_iff. }
  eexists. split; [exact Hadv|]. split_and!.
  - intros Hbox. unfold Ship.step. rewrite (bind_ok _ _ _ _ _ Hadv).
    cbv zeta.
    match goal with
    | |- for_each (Ship.msg_box ?s3) _ _ _ = _ =>
        assert (Hb : Ship.msg_box s3 = []) by (cbn; congruence);
        rewrite (set_msg_box_same s3 Hb), Hb
    end. reflexivity.
  - exact Hx.
  - exact Hy.
  - reflexivity.
  - rewrite <- Hsame at 3. destruct s2. cbn in *. by rewrite Hit2.
Qed.

Lemma example_norm_proper a a' b b' :
  (a == a')%Q -> (b == b')%Q -> (example_norm a b == example_norm a' b')%Q.
Proof.
  intros Ha Hb. unfold example_norm.
  assert (H : (a * a + b * b == a' * a' + b' * b')%Q) by (rewrite Ha, Hb; reflexivity).
  by rewrite (Qfloor_comp _ _ H).
Qed.

Lemma example_norm_nonneg a b : (0 <= example_norm a b)%Q.
Proof.
  unfold example_norm. change 0%Q with (inject_Z 0). rewrite <- Zle_Qle.
  apply Z.sqrt_nonneg.
Qed.

(** The carrier of the examples, bound for [mars] on the closed road,
    stays at [earth]. *)
Lemma closed_road_ship_stays_witness :
  ∃ s', Ship.step example_norm example_path closed_roads carrier (calm 14)
        = Ok (s', calm 14)
        ∧ (Ship.x s' == 0)%Q ∧ (Ship.y s' == 0)%Q.
Proof.
  destruct (closed_road_ship_stays example_norm example_path closed_roads carrier
              (calm 14) mars parcel)
    as (s' & _ & Hstep & Hx & Hy & _).
  - exact example_norm_proper.
  - reflexivity.
  - exact example_norm_nonneg.
  - reflexivity.
  - reflexivity.
  - reflexivity.
  - intros [H _]. vm_compute in H. discriminate.
  - exists s'. split; [by apply Hstep|]. by split.
Defined.

(** ** Ship: the fields stay consistent *)

Lemma advance_consistent norm dijkstra_path environment s w s' w' :
  consistent s ->
  Ship.advance norm dijkstra_path environment s w = Ok (s', w') ->
  consistent s'
  ∧ Ship.msg_box s' = Ship.msg_box s
  ∧ Ship.waiting_for_proposal s' = Ship.waiting_for_proposal s
  ∧ Ship.potential_destination s' = Ship.potential_destination s.
Proof.
  destruct s as [nm pa pb pc pl x y ms dst pd wpt pp itm wt mb].
  unfold consistent. cbn. intros (Hitem & Hway & Hwait) Hadv.
  unfold Ship.advance, Ship.next_hop, bind, ret, lift_opt, raise,
    get_items, set_items, incr_computed_items_nb in Hadv.
  cbn in Hadv.
  destruct wpt as [wp|], dst as [d|], itm as [it|];
    try (by destruct Hitem as [H1 H2]; first [specialize (H1 eq_refl) | specialize (H2 eq_refl)]);
    try (by specialize (Hway eq_refl));
    cbn in Hadv; repeat split_match Hadv;
    injection Hadv as <- <-; cbn.
  all: try (split; [|done]).
  all: try (split; [split; intros; congruence|]).
  all: try (split; [intros; congruence|]).
  all: try (intros Hw; destruct (Hwait Hw); congruence).
  all: done.
Qed.

Lemma handle_consistent s m w s' w' :
  consistent s -> Ship.handle s m w = Ok (s', w') -> consistent s'.
Proof.
  destruct s as [nm pa pb pc pl x y ms dst pd wpt pp itm wt mb].
  unfold consistent. cbn. intros (Hitem & Hway & Hwait) Hh.
  unfold Ship.handle, Ship.on_call_for_proposal, Ship.on_reject_proposal,
    Ship.on_accept_proposal, bind, ret, lift_opt, raise, get_steps, send in Hh.
  cbn -[Item.from_json] in Hh. decide_flags Hh.
  destruct itm as [it|], wt, dst as [d|];
    try (by destruct Hitem as [H1 H2]; first [specialize (H1 eq_refl) | specialize (H2 eq_refl)]);
    try (by destruct (Hwait eq_refl));
    cbn -[Item.from_json] in Hh; decide_flags Hh; repeat split_match Hh;
    injection Hh as <- <-; cbn.
  all: try (destruct (Hwait eq_refl) as [_ Hpd]; destruct pd; [|done]).
  all: try (split; [split; intros; congruence|]).
  all: try (split; [intros; congruence|]).
  all: intuition congruence.
Qed.

(** A message changes nothing of a ship but the item, the destination, the
    destination proposed and the flag. *)
Lemma handle_frame s m w s' w' :
  Ship.handle s m w = Ok (s', w') ->
  Ship.x s' = Ship.x s ∧ Ship.y s' = Ship.y s
  ∧ Ship.waypoint s' = Ship.waypoint s
  ∧ Ship.previous_point s' = Ship.previous_point s
  ∧ Ship.msg_box s' = Ship.msg_box s
  ∧ Ship.name s' = Ship.name s ∧ Ship.planets s' = Ship.planets s
  ∧ Ship.max_speed s' = Ship.max_speed s
  ∧ Ship.preference_a s' = Ship.preference_a s
  ∧ Ship.preference_b s' = Ship.preference_b s
  ∧ Ship.preference_c s' = Ship.preference_c s.
Proof.
  destruct s as [nm pa pb pc pl x y ms dst pd wpt pp itm wt mb].
  intros Hh.
  unfold Ship.handle, Ship.on_call_for_proposal, Ship.on_reject_proposal,
    Ship.on_accept_proposal, bind, ret, lift_opt, raise, get_steps, send in Hh.
  cbn -[Item.from_json] in Hh. decide_flags Hh.
  destruct itm as [it|], wt;
    cbn -[Item.from_json] in Hh; decide_flags Hh; repeat split_match Hh;
    injection Hh as <- <-; cbn; done.
Qed.

Lemma batch_consistent ms : ∀ s w s' w',
  consistent s ->
  for_each ms (fun m s => Ship.handle s m) s w = Ok (s', w') ->
  consistent s' ∧ Ship.msg_box s' = Ship.msg_box s
  ∧ Ship.x s' = Ship.x s ∧ Ship.y s' = Ship.y s
  ∧ Ship.waypoint s' = Ship.waypoint s
  ∧ Ship.previous_point s' = Ship.previous_point s.
Proof.
  induction ms as [|m ms IH]; intros s w s' w' Hs Hrun.
  - injection Hrun as <- <-. done.
  - cbn in Hrun. apply bind_inv in Hrun as (s1 & w1 & Hh & Hrun).
    destruct (handle_frame _ _ _ _ _ Hh) as (? & ? & ? & ? & ? & _).
    destruct (IH _ _ _ _ (handle_consistent _ _ _ _ _ Hs Hh) Hrun)
      as (? & ? & ? & ? & ? & ?).
    split_and!; congruence.
Qed.

Lemma handle_raises s m w e : Ship.handle s m w = Raise e -> e = IndexError.
Proof.
  destruct s as [nm pa pb pc pl x y ms dst pd wpt pp itm wt mb].
  intros Hh.
  unfold Ship.handle, Ship.on_call_for_proposal, Ship.on_reject_proposal,
    Ship.on_accept_proposal, bind, ret, lift_opt, raise, get_steps, send in Hh.
  cbn -[Item.from_json] in Hh. decide_flags Hh.
  destruct itm as [it|], wt;
    cbn -[Item.from_json] in Hh; decide_flags Hh; repeat split_match Hh;
    try (by injection Hh).
  all: try match goal with
    | E : Item.from_json ?j ?w0 = Raise _ |- _ =>
        destruct (from_json_total j w0) as (? & ? & Ej & _); congruence
    end.
  all: discriminate Hh.
Qed.

Lemma batch_raises ms : ∀ s w e,
  for_each ms (fun m s => Ship.handle s m) s w = Raise e -> e = IndexError.
Proof.
  induction ms as [|m ms IH]; intros s w e Hrun; [done|].
  cbn in Hrun. unfold bind in Hrun.
  destruct (Ship.handle s m w) as [[s1 w1]|e1] eqn:Hh.
  - by eapply IH.
  - injection Hrun as <-. by eapply handle_raises.
Qed.

Lemma advance_no_attribute_error norm dijkstra_path environment s w :
  consistent s ->
  (∀ g a b, dijkstra_path g a b ≠ Raise AttributeError) ->
  Ship.advance norm dijkstra_path environment s w ≠ Raise AttributeError.
Proof.
  destruct s as [nm pa pb pc pl x y ms dst pd wpt pp itm wt mb].
  unfold consistent. cbn. intros (Hitem & Hway & Hwait) Hdij Hadv.
  unfold Ship.advance, Ship.next_hop, bind, ret, lift_opt, raise,
    get_items, set_items, incr_computed_items_nb in Hadv.
  cbn in Hadv.
  destruct wpt as [wp|], dst as [d|], itm as [it|];
    try (by destruct Hitem as [H1 H2]; first [specialize (H1 eq_refl) | specialize (H2 eq_refl)]);
    try (by specialize (Hway eq_refl));
    cbn in Hadv; repeat split_match Hadv;
    try discriminate Hadv;
    injection Hadv as ->;
    match goal with
    | E : dijkstra_path _ _ _ = Raise AttributeError |- _ => by apply Hdij in E
    end.
Qed.

(** X4: [Ship.step] keeps the fields of a ship consistent: whenever it
    returns, an item is on board exactly when there is a destination, a
    waypoint is kept only toward a destination, an answer is awaited only
    with no item on board and with a destination proposed, and the mailbox
    has been drained. On a consistent ship [self.item.x = self.x] is never
    reached without an item: the step does not raise [AttributeError],
    unless [nx.dijkstra_path] does. *)
Theorem ship_step_keeps_consistent
    (norm : float -> float -> float)
    (dijkstra_path : Graph.t -> Planet.t -> option Planet.t -> Res (list Planet.t))
    (environment : SpaceRoadNetwork.t) (s : Ship.t) (w : Ambient) :
  consistent s ->
  (∀ s' w', Ship.step norm dijkstra_path environment s w = Ok (s', w') ->
            consistent s' ∧ Ship.msg_box s' = [])
  ∧ ((∀ g a b, dijkstra_path g a b ≠ Raise AttributeError) ->
     Ship.step norm dijkstra_path environment s w ≠ Raise AttributeError).
Proof.
  intros Hs. split.
  - intros s' w' Hstep. unfold Ship.step in Hstep.
    apply bind_inv in Hstep as (s1 & w1 & Hadv & Hrun).
    destruct (advance_consistent _ _ _ _ _ _ _ Hs Hadv) as (Hs1 & _).
    assert (Hs2 : consistent (Ship.set_msg_box [] s1)) by (by destruct s1).
    destruct (batch_consistent _ _ _ _ _ Hs2 Hrun) as (? & ? & _). done.
  - intros Hdij Hstep. unfold Ship.step, bind in Hstep.
    destruct (Ship.advance norm dijkstra_path environment s w) as [[s1 w1]|e] eqn:Hadv.
    + by apply batch_raises in Hstep.
    + injection Hstep as ->. by eapply advance_no_attribute_error.
Qed.

Lemma example_path_no_attribute_error g a b : example_path g a b ≠ Raise AttributeError.
Proof. by destruct b. Qed.

Lemma carrier_consistent : consistent carrier.
Proof. by split_and!. Qed.

Lemma ship_step_keeps_consistent_witness :
  (∀ s' w', Ship.step example_norm example_path example_roads carrier (calm 14) = Ok (s', w') ->
            consistent s' ∧ Ship.msg_box s' = [])
  ∧ Ship.step example_norm example_path example_roads carrier (calm 14) ≠ Raise AttributeError.
Proof.
  destruct (ship_step_keeps_consistent example_norm example_path example_roads carrier
              (calm 14) carrier_consistent) as [Hkeep Hno].
  split; [exact Hkeep|]. apply Hno, example_path_no_attribute_error.
Defined.

(** ** Ship: the three answers to a message *)

(** The call for proposals read by an idle ship. *)
Lemma handle_cfp_idle s m w X Y rest :
  idle s ->
  Message.performative m = "call_for_proposal"%string ->
  Message.body_fields m = X :: Y :: rest ->
  ∃ it w1,
    Item.from_json (Message.body_item m) w = Ok (it, w1)
    ∧ same_model w w1
    ∧ Ship.handle s m w
      = match last (filter (located X Y) (Ship.planets s)) with
        | None => Raise IndexError
        | Some pd =>
            Ok (Ship.set_waiting_for_proposal true
                  (Ship.set_potential_destination (Some pd) s),
                sent (Message.mk (Message.sender m) (Message.to m) it
                        [X; Y; Ship.utility s it] "proposal" (schedule_steps w)) w1)
        end.
Proof.
  intros [Hi Hw] Hp Hf.
  destruct (from_json_total (Message.body_item m) w)
    as (it & w1 & Hjson & Hsame & _).
  exists it, w1. split; [exact Hjson|]. split; [exact Hsame|].
  destruct Hsame as (_ & _ & _ & Hst).
  unfold Ship.handle, Ship.on_call_for_proposal.
  rewrite Hi, Hw, Hp. cbn [andb]. rewrite String.eqb_refl.
  change (bool_decide (@None Item.t = None)) with true.
  change (bool_decide (false = false)) with true. cbn [andb].
  unfold bind at 1. unfold bind at 1. rewrite Hjson.
  unfold Message.field. rewrite Hf. cbn [lookup list_lookup lift_opt].
  unfold bind at 1. unfold ret at 1. unfold bind at 1. unfold ret at 1.
  change (filter _ (Ship.planets s)) with (filter (located X Y) (Ship.planets s)).
  destruct (last (filter (located X Y) (Ship.planets s))) as [pd|]; [|reflexivity].
  cbn [lift_opt]. unfold bind at 1. unfold ret at 1.
  unfold bind at 1. unfold get_steps at 1. unfold bind at 1. unfold send at 1.
  unfold ret at 1.
  rewrite on_reject_other by (rewrite Hp; discriminate).
  rewrite on_accept_other by (rewrite Hp; discriminate).
  unfold sent. rewrite <- Hst. reflexivity.
Qed.

Lemma on_cfp_other m s w :
  Message.performative m ≠ "call_for_proposal"%string ->
  Ship.on_call_for_proposal m s w = Ok (s, w).
Proof.
  intros Hp. unfold Ship.on_call_for_proposal.
  apply String.eqb_neq in Hp. by rewrite Hp, andb_false_r.
Qed.

Lemma on_reject_idle m s :
  Ship.waiting_for_proposal s = false -> Ship.on_reject_proposal m s = s.
Proof.
  intros Hw. unfold Ship.on_reject_proposal. rewrite Hw.
  change (bool_decide (false = true)) with false. by rewrite andb_false_r.
Qed.

Lemma on_accept_idle m s w :
  Ship.waiting_for_proposal s = false -> Ship.on_accept_proposal m s w = Ok (s, w).
Proof.
  intros Hw. unfold Ship.on_accept_proposal. rewrite Hw.
  change (bool_decide (false = true)) with false. by rewrite andb_false_r.
Qed.

Lemma handle_carrying s m w : Ship.item s ≠ None -> Ship.handle s m w = Ok (s, w).
Proof.
  intros Hi. unfold Ship.handle.
  rewrite (bind_ok _ _ _ _ _ (on_cfp_busy m s w ltac:(by intros [? _]))).
  assert (Hr : Ship.on_reject_proposal m s = s).
  { unfold Ship.on_reject_proposal. by rewrite (bool_decide_eq_false_2 _ Hi). }
  rewrite Hr. unfold Ship.on_accept_proposal.
  by rewrite (bool_decide_eq_false_2 _ Hi).
Qed.

Lemma handle_answer_unawaited s m w :
  Ship.waiting_for_proposal s = false ->
  Message.performative m ≠ "call_for_proposal"%string ->
  Ship.handle s m w = Ok (s, w).
Proof.
  intros Hw Hp. unfold Ship.handle.
  rewrite (bind_ok _ _ _ _ _ (on_cfp_other m s w Hp)).
  rewrite on_reject_idle by done. by apply on_accept_idle.
Qed.

(** X5: what a ship never answers. A ship with an item on board ignores
    every message, whatever its performative: the batch leaves the ship and
    the model as they are, and nothing is sent. A ship that awaits no
    answer ignores every message that is not a call for proposals, so that
    a late or repeated [accept_proposal] or [reject_proposal] has no
    effect. *)
Theorem ship_ignores_messages (s : Ship.t) (ms : list Message.t) (w : Ambient) :
  (Ship.item s ≠ None ->
   for_each ms (fun m s0 => Ship.handle s0 m) s w = Ok (s, w))
  ∧ (Ship.waiting_for_proposal s = false ->
     Forall (fun m => Message.performative m ≠ "call_for_proposal"%string) ms ->
     for_each ms (fun m s0 => Ship.handle s0 m) s w = Ok (s, w)).
Proof.
  split.
  - intros Hi. induction ms as [|m ms IH]; [done|].
    cbn. by rewrite (bind_ok _ _ _ _ _ (handle_carrying s m w Hi)).
  - intros Hw Hall. induction Hall as [|m ms Hm _ IH]; [done|].
    cbn. by rewrite (bind_ok _ _ _ _ _ (handle_answer_unawaited s m w Hw Hm)).
Qed.

(** The acceptance read by a ship that awaits an answer. *)
Lemma handle_accept_awaited s m w :
  Ship.item s = None -> Ship.waiting_for_proposal s = true ->
  Message.performative m = "accept_proposal"%string ->
  ∃ it w1,
    Item.from_json (Message.body_item m) w = Ok (it, w1)
    ∧ same_model w w1
    ∧ Ship.handle s m w
      = Ok (Ship.set_waiting_for_proposal false
              (Ship.set_potential_destination None
                 (Ship.set_destination (Ship.potential_destination s)
                    (Ship.set_item (Some it) s))), w1).
Proof.
  intros Hi Hw Hp.
  destruct (from_json_total (Message.body_item m) w)
    as (it & w1 & Hjson & Hsame & _).
  exists it, w1. split; [exact Hjson|]. split; [exact Hsame|].
  unfold Ship.handle.
  rewrite (bind_ok _ _ _ _ _ (on_cfp_other m s w ltac:(rewrite Hp; discriminate))).
  rewrite on_reject_other by (rewrite Hp; discriminate).
  unfold Ship.on_accept_proposal. rewrite Hi, Hw, Hp.
  change (bool_decide (@None Item.t = None)) with true.
  change (bool_decide (true = true)) with true. cbn [andb String.eqb Ascii.eqb Bool.eqb].
  unfold bind. rewrite Hjson. reflexivity.
Qed.

Lemma handle_cfp_short s m w :
  idle s -> Message.performative m = "call_for_proposal"%string ->
  (length (Message.body_fields m) < 2)%nat -> Ship.handle s m w = Raise IndexError.
Proof.
  intros [Hi Hw] Hp Hlen.
  destruct (from_json_total (Message.body_item m) w)
    as (it & w1 & Hjson & _).
  unfold Ship.handle, Ship.on_call_for_proposal.
  rewrite Hi, Hw, Hp. rewrite String.eqb_refl.
  change (bool_decide (@None Item.t = None)) with true.
  change (bool_decide (false = false)) with true. cbn [andb].
  unfold bind at 1. unfold bind at 1. rewrite Hjson.
  unfold Message.field.
  destruct (Message.body_fields m) as [|X [|Y rest]]; cbn in Hlen; try lia; reflexivity.
Qed.

(** X6: a call for proposals read by an idle ship whose list of planets
    holds no planet at the coordinates of the call raises [IndexError]
    ([pop] on an empty list), and so does the step of a ship at rest that
    finds this call first in its mailbox; so does a call with less than
    two coordinates. When several planets are at these coordinates, the
    destination proposed is the last of them. *)
Theorem cfp_unknown_destination_raises
    (norm : float -> float -> float)
    (dijkstra_path : Graph.t -> Planet.t -> option Planet.t -> Res (list Planet.t))
    (environment : SpaceRoadNetwork.t)
    (s : Ship.t) (m : Message.t) (w : Ambient) :
  idle s -> Message.performative m = "call_for_proposal"%string ->
  (∀ X Y rest, Message.body_fields m = X :: Y :: rest ->
     ((∀ p, p ∈ Ship.planets s -> ¬ located X Y p) ->
      Ship.handle s m w = Raise IndexError
      ∧ (∀ ms, Ship.destination s = None -> Ship.waypoint s = None ->
               Ship.msg_box s = m :: ms ->
               Ship.step norm dijkstra_path environment s w = Raise IndexError))
     ∧ (∀ l1 pd l2, Ship.planets s = l1 ++ pd :: l2 -> located X Y pd ->
          (∀ q, q ∈ l2 -> ¬ located X Y q) ->
          ∃ s' w', Ship.handle s m w = Ok (s', w')
                   ∧ Ship.potential_destination s' = Some pd))
  ∧ ((length (Message.body_fields m) < 2)%nat -> Ship.handle s m w = Raise IndexError).
Proof.
  intros Hidle Hp. split.
  - intros X Y rest Hf.
    destruct (handle_cfp_idle s m w X Y rest Hidle Hp Hf) as (it & w1 & _ & _ & Hh).
    split.
    + intros Hnone.
      assert (Hlast : last (filter (located X Y) (Ship.planets s)) = None).
      { destruct (filter (located X Y) (Ship.planets s)) as [|q l] eqn:Hfl; [done|].
        assert (Hq : q ∈ filter (located X Y) (Ship.planets s)) by (rewrite Hfl; left).
        apply list_elem_of_filter in Hq as [Hq1 Hq2]. by destruct (Hnone q). }
      rewrite Hlast in Hh. split; [exact Hh|].
      intros ms Hd Hwp Hbox. unfold Ship.step, Ship.advance.
      rewrite Hwp, Hd. unfold bind at 2. unfold ret at 1. rewrite Hwp.
      unfold bind at 1. unfold ret at 1. cbv zeta. rewrite Hbox.
      apply for_each_raise.
      destruct Hidle as [Hi Hw].
      destruct (handle_cfp_idle (Ship.set_msg_box [] s) m w X Y rest (conj Hi Hw) Hp Hf)
        as (it' & w1' & _ & _ & Hh').
      cbn [Ship.planets Ship.set_msg_box] in Hh'. rewrite Hlast in Hh'. exact Hh'.
    + intros l1 pd l2 Hpl Hpd Hl2.
      assert (Hlast : last (filter (located X Y) (Ship.planets s)) = Some pd).
      { rewrite Hpl, filter_app, filter_cons_True by done.
        assert (Hnil : filter (located X Y) l2 = []).
        { clear Hpl. induction l2 as [|q l2 IH]; [done|].
          rewrite filter_cons_False by (apply Hl2; left).
          apply IH. intros q' Hq'. apply Hl2. by right. }
        rewrite Hnil. by rewrite last_snoc. }
      rewrite Hlast in Hh. eexists _, _. split; [exact Hh|]. reflexivity.
  - intros Hlen. by apply handle_cfp_short.
Qed.

Lemma cfp_unknown_destination_raises_witness :
  Ship.handle docked_ship cfp_nowhere (calm 14) = Raise IndexError.
Proof.
  destruct (cfp_unknown_destination_raises example_norm example_path example_roads
              docked_ship cfp_nowhere (calm 14)) as [Hfields _].
  - by split.
  - reflexivity.
  - destruct (Hfields 9%Q 9%Q [] eq_refl) as [Hraise _].
    apply Hraise. intros p Hp [Hx Hy].
    apply elem_of_cons in Hp as [->|Hp]; [by vm_compute in Hx|].
    apply list_elem_of_singleton in Hp as ->. by vm_compute in Hx.
Defined.

(** X7: a call for proposals followed by the rejection of the proposal
    leaves an idle ship as it was. The call makes the ship send exactly one
    message, a proposal to the sender of the call, and await the answer;
    the [reject_proposal] then clears the flag and the destination
    proposed, and the ship is again the ship of before the call, ready for
    the next call. *)
Theorem rejected_ship_is_as_before (s s1 : Ship.t) (cfp rej : Message.t)
    (w w1 w2 : Ambient) :
  idle s -> Ship.potential_destination s = None ->
  Message.performative cfp = "call_for_proposal"%string ->
  Message.performative rej = "reject_proposal"%string ->
  Ship.handle s cfp w = Ok (s1, w1) ->
  Ship.waiting_for_proposal s1 = true
  ∧ (∃ proposal, outbox w1 = outbox w ++ [proposal]
       ∧ Message.performative proposal = "proposal"%string
       ∧ Message.to proposal = Message.sender cfp)
  ∧ Ship.handle s1 rej w2 = Ok (s, w2).
Proof.
  intros Hidle Hpd Hc Hr Hh.
  destruct (Message.body_fields cfp) as [|X [|Y rest]] eqn:Hf;
    try (rewrite handle_cfp_short in Hh by (rewrite ?Hf; cbn; (done || lia)); discriminate).
  destruct (handle_cfp_idle s cfp w X Y rest Hidle Hc Hf)
    as (it & w0 & _ & (Hob & _) & Hh').
  rewrite Hh' in Hh.
  destruct (last (filter (located X Y) (Ship.planets s))) as [pd|]; [|discriminate].
  injection Hh as <- <-. split_and!.
  - reflexivity.
  - eexists. cbn. rewrite Hob. by split_and!.
  - destruct Hidle as [Hi Hw].
    rewrite handle_reject_awaited by done.
    f_equal. f_equal. destruct s. cbn in *. by subst.
Qed.

Lemma rejected_ship_is_as_before_witness :
  ∃ s1 w1, Ship.handle docked_ship cfp_parcel (calm 11) = Ok (s1, w1)
           ∧ Ship.handle s1 reject_parcel (calm 14) = Ok (docked_ship, calm 14).
Proof.
  eexists _, _. split; [vm_compute; reflexivity|].
  eapply (rejected_ship_is_as_before docked_ship _ cfp_parcel reject_parcel (calm 11)).
  - by split.
  - reflexivity.
  - reflexivity.
  - reflexivity.
  - vm_compute. reflexivity.
Defined.

(** ** Ship: an item that the model does not hold *)

Lemma list_remove_absent it l :
  (∀ i, i ∈ l -> Item.uid i ≠ Item.uid it) -> Ship.list_remove it l = None.
Proof.
  induction l as [|i l IH]; intros Hl; [done|]. cbn.
  unfold Item.eq. rewrite (proj2 (Z.eqb_neq _ _)).
  - rewrite IH; [done|]. intros j Hj. apply Hl. by right.
  - intros Heq. by apply (Hl i); [left|].
Qed.

(** X8: the delivery of an item that [model.items] does not hold raises
    [ValueError]: [list.remove] finds no item with the [uid] of the item on
    board. The ship has reached its destination, yet the step ends with the
    exception and the counter of delivered items is not increased. *)
Theorem delivery_of_unknown_item_raises
    (norm : float -> float -> float)
    (dijkstra_path : Graph.t -> Planet.t -> option Planet.t -> Res (list Planet.t))
    (environment : SpaceRoadNetwork.t) (s : Ship.t) (w : Ambient)
    (wp : Planet.t) (it : Item.t) (modif : float) :
  Ship.waypoint s = Some wp -> Ship.destination s = Some wp ->
  Ship.item s = Some it ->
  SpaceRoadNetwork.speed_modificator environment !! (Ship.previous_point s, wp)
    = Some modif ->
  float_eq (Ship.x (Ship.move_to norm wp (Ship.max_speed s * modif)%Q s)) (Planet.x wp) = true ->
  float_eq (Ship.y (Ship.move_to norm wp (Ship.max_speed s * modif)%Q s)) (Planet.y wp) = true ->
  (∀ i, i ∈ model_items w -> Item.uid i ≠ Item.uid it) ->
  Ship.advance norm dijkstra_path environment s w = Raise ValueError
  ∧ Ship.step norm dijkstra_path environment s w = Raise ValueError.
Proof.
  intros Hwp Hd Hit Hsm Hx Hy Habsent.
  set (s2 := Ship.move_to norm wp (Ship.max_speed s * modif)%Q s) in *.
  set (it' := Item.mk (Item.a it) (Item.b it) (Item.c it) (Ship.x s2) (Ship.y s2)
                (Item.uid it)).
  assert (Hadv : Ship.advance norm dijkstra_path environment s w = Raise ValueError).
  { unfold Ship.advance. rewrite Hwp.
    unfold bind at 1. cbn [ret]. rewrite Hwp.
    unfold bind at 1. rewrite Hsm. cbn [lift_opt ret]. fold s2.
    unfold bind at 1. replace (Ship.item s2) with (Some it) by (by rewrite <- Hit).
    cbn [lift_opt ret]. fold it'.
    replace (Ship.x (Ship.set_item (Some it') s2)) with (Ship.x s2) by done.
    replace (Ship.y (Ship.set_item (Some it') s2)) with (Ship.y s2) by done.
    rewrite Hx, Hy. cbn [andb].
    rewrite bool_decide_eq_true_2 by (cbn; by rewrite Hd).
    unfold bind, get_items, set_items, incr_computed_items_nb, ret.
    rewrite (list_remove_absent it' (model_items w)) by exact Habsent.
    reflexivity. }
  split; [exact Hadv|]. unfold Ship.step. by rewrite (bind_raise _ _ _ _ Hadv).
Qed.

Lemma delivery_of_unknown_item_raises_witness :
  Ship.step example_norm example_path example_roads carrier (bare 14) = Raise ValueError.
Proof.
  apply (delivery_of_unknown_item_raises example_norm example_path example_roads carrier
           (bare 14) mars parcel 1); try reflexivity.
  intros i Hi. by apply elem_of_nil in Hi.
Defined.

(** ** PlanetManager: the items taken out of the waiting list *)

Lemma keep_from_all dels : ∀ l i,
  (∀ d, d ∈ dels -> (d < i)%nat) -> keep_from i dels l = l.
Proof.
  intros l. induction l as [|x l IH]; intros i Hlt; [done|]. cbn.
  rewrite decide_False by (intros Hin; specialize (Hlt i Hin); lia).
  f_equal. apply IH. intros d Hd. specialize (Hlt d Hd). lia.
Qed.

Lemma keep_from_delete dels k : ∀ l i,
  (∀ d, d ∈ dels -> (d < k)%nat) -> (i <= k)%nat -> (k < i + length l)%nat ->
  keep_from i dels (delete (k - i)%nat l) = keep_from i (dels ++ [k]) l.
Proof.
  intros l. induction l as [|x l IH]; intros i Hlt Hik Hk; [cbn in Hk; lia|].
  destruct (decide (k = i)) as [->|Hne].
  - rewrite Nat.sub_diag. cbn [delete list_delete keep_from].
    rewrite decide_True by (apply elem_of_app; right; left).
    rewrite (keep_from_all dels l i Hlt).
    symmetry. apply keep_from_all. intros d [Hd|Hd%list_elem_of_singleton]%elem_of_app.
    + specialize (Hlt d Hd). lia.
    + lia.
  - replace (k - i)%nat with (S (k - S i)) by lia.
    cbn [delete list_delete keep_from].
    assert (Hiff : i ∈ dels ++ [k] ↔ i ∈ dels).
    { rewrite elem_of_app, list_elem_of_singleton. intuition lia. }
    destruct (decide (i ∈ dels)) as [Hin|Hnin].
    + rewrite decide_True by (by apply Hiff). apply IH; [done|lia|cbn in Hk; lia].
    + rewrite decide_False by (by rewrite Hiff). f_equal.
      apply IH; [done|lia|cbn in Hk; lia].
Qed.

Lemma pop_all_kept dels : ∀ l,
  StronglySorted lt dels -> (∀ d, d ∈ dels -> (d < length l)%nat) ->
  PlanetManager.pop_all (reverse dels) l = Some (keep_from 0 dels l).
Proof.
  induction dels as [|k dels IH] using rev_ind; intros l Hss Hlen.
  - cbn. by rewrite keep_from_all by (intros d Hd; by apply elem_of_nil in Hd).
  - rewrite reverse_snoc. cbn [PlanetManager.pop_all].
    assert (Hss' := StronglySorted_app_1_l _ _ _ Hss).
    assert (Hlt : ∀ d, d ∈ dels -> (d < k)%nat).
    { intros d Hd. apply (StronglySorted_app_1_elem_of _ _ _ _ _ Hss Hd). left. }
    assert (Hk : (k < length l)%nat) by (apply Hlen, elem_of_app; right; left).
    destruct (lookup_lt_is_Some_2 l k Hk) as [x Hx]. rewrite Hx.
    rewrite IH; [|done|].
    + f_equal. rewrite <- (keep_from_delete dels k l 0) by (done || lia).
      by rewrite Nat.sub_0_r.
    + intros d Hd. rewrite length_delete by eauto. specialize (Hlt d Hd). lia.
Qed.

Lemma keep_from_elem dels x : ∀ l i,
  x ∈ keep_from i dels l ↔ ∃ j, l !! j = Some x ∧ (i + j)%nat ∉ dels.
Proof.
  intros l. induction l as [|y l IH]; intros i; cbn.
  - split; [by intros ?%elem_of_nil | by intros (j & ? & _)].
  - destruct (decide (i ∈ dels)) as [Hin|Hnin].
    + rewrite IH. split.
      * intros (j & Hj & Hn). exists (S j). split; [done|]. by rewrite Nat.add_succ_r.
      * intros ([|j] & Hj & Hn); [by rewrite Nat.add_0_r in Hn|].
        exists j. split; [done|]. by rewrite Nat.add_succ_r in Hn.
    + rewrite elem_of_cons, IH. split.
      * intros [->|(j & Hj & Hn)].
        -- exists 0%nat. split; [done|]. by rewrite Nat.add_0_r.
        -- exists (S j). split; [done|]. by rewrite Nat.add_succ_r.
      * intros ([|j] & Hj & Hn).
        -- left. by injection Hj.
        -- right. exists j. split; [done|]. by rewrite Nat.add_succ_r in Hn.
Qed.

Lemma keep_from_sublist dels : ∀ l i, sublist (keep_from i dels l) l.
Proof.
  intros l. induction l as [|y l IH]; intros i; cbn; [done|].
  destruct (decide (i ∈ dels)); [by apply sublist_cons | by apply sublist_skip].
Qed.

(** ** PlanetManager: the phases of a step *)

Lemma dict_set_fresh item v d :
  Item.uid item ∉ map (fun kv : Item.t * Planet.t => Item.uid kv.1) d ->
  PlanetManager.dict_set item v d = d ++ [(item, v)].
Proof.
  induction d as [|[k v'] d IH]; intros Hfresh; [done|]. cbn.
  unfold Item.eq. rewrite (proj2 (Z.eqb_neq _ _)).
  - rewrite IH; [done|]. intros Hin. apply Hfresh. by right.
  - intros Heq. apply Hfresh. cbn. rewrite Heq. left.
Qed.

Lemma sent_all_same_items msgs w : same_items w (sent_all msgs w).
Proof. done. Qed.

Lemma same_items_trans w1 w2 w3 : same_items w1 w2 -> same_items w2 w3 -> same_items w1 w3.
Proof. unfold same_items. intros (?&?&?&?) (?&?&?&?). repeat split; congruence. Qed.

Lemma cfp_same_items ships item p w p' w' :
  PlanetManager.call_for_proposal ships item p w = Ok (p', w') -> same_items w w'.
Proof.
  intros Hc. unfold PlanetManager.call_for_proposal in Hc.
  apply bind_inv in Hc as (steps & w0 & Hs & Hc). injection Hs as <- <-.
  apply bind_inv in Hc as (dest & w1 & Hd & Hc).
  apply lift_opt_inv in Hd as [Hd ->].
  apply bind_inv in Hc as ([] & w2 & Hsend & Hc). injection Hc as <- <-.
  rewrite send_all_sent in Hsend. injection Hsend as <-. apply sent_all_same_items.
Qed.

Lemma cfp_loop_same_items ships its : ∀ p w p' w',
  for_each its (PlanetManager.call_for_proposal ships) p w = Ok (p', w') -> same_items w w'.
Proof.
  induction its as [|it its IH]; intros p w p' w' Hrun.
  - injection Hrun as <- <-. done.
  - cbn in Hrun. apply bind_inv in Hrun as (p1 & w1 & Hc & Hrun).
    eapply same_items_trans; [by eapply cfp_same_items | by eapply IH].
Qed.

Lemma from_json_uuid j w it w' :
  Item.from_json j w = Ok (it, w') -> next_uuid w <= next_uuid w'.
Proof.
  unfold Item.from_json, Item.init, bind, random_random, uuid1, ret.
  destruct w as [fl pk nu ob mi cn st]. cbn.
  repeat match goal with
         | |- context [Qeq_bool ?q 0] => destruct (Qeq_bool q 0)
         | |- context [?n =? 0] => destruct (n =? 0)
         end;
    destruct fl as [|r1 [|r2 [|r3 rs]]]; cbn; intros [= <- <-]; cbn; lia.
Qed.

Lemma collect_loop_uuid ms : ∀ p w p' w',
  for_each ms PlanetManager.collect p w = Ok (p', w') -> next_uuid w <= next_uuid w'.
Proof.
  induction ms as [|m ms IH]; intros p w p' w' Hrun.
  - injection Hrun as <- <-. lia.
  - cbn in Hrun. apply bind_inv in Hrun as (p1 & w1 & Hc & Hrun).
    specialize (IH _ _ _ _ Hrun).
    unfold PlanetManager.collect in Hc.
    apply bind_inv in Hc as (key & w0 & Hj & Hc).
    apply bind_inv in Hc as (rec & w2 & Hl & Hc).
    apply lift_opt_inv in Hl as [_ ->]. injection Hc as <- <-.
    apply from_json_uuid in Hj. lia.
Qed.

Lemma resolve_same_items lx st w st' w' :
  PlanetManager.resolve lx st w = Ok (st', w') -> same_items w w'.
Proof.
  destruct lx as [l x], st as [p dels], st' as [p' dels']. intros Hr.
  apply resolve_inv in Hr as (started & _ & [(_ & _ & _ & ->)|(_ & rec & p1 & _ & Ha & _)]);
    [done|].
  apply award_inv in Ha as [(_ & _ & k & _ & ->)|(_ & dest & _ & _ & ->)]; done.
Qed.

Lemma resolve_loop_same_items lws : ∀ st w st' w',
  for_each lws PlanetManager.resolve st w = Ok (st', w') -> same_items w w'.
Proof.
  induction lws as [|lx lws IH]; intros st w st' w' Hrun.
  - injection Hrun as <- <-. done.
  - cbn in Hrun. apply bind_inv in Hrun as (st1 & w1 & Hr & Hrun).
    eapply same_items_trans; [by eapply resolve_same_items | by eapply IH].
Qed.

(** The items that the loop over the waiting items puts back in
    [items_to_ship]. *)
Lemma resolve_loop_queue lws : ∀ p dels w p' dels' w',
  for_each lws PlanetManager.resolve (p, dels) w = Ok ((p', dels'), w') ->
  NoDup (map (fun lx : nat * Item.t => Item.uid lx.2) lws) ->
  (∀ lx : nat * Item.t, lx ∈ lws -> Item.uid lx.2 ∉ queued_uids p) ->
  ∃ added,
    PlanetManager.items_to_ship p' = PlanetManager.items_to_ship p ++ added
    ∧ sublist (map (fun kv : Item.t * Planet.t => Item.uid kv.1) added)
              (map (fun lx : nat * Item.t => Item.uid lx.2) lws)
    ∧ ∀ it d, (it, d) ∈ added ->
        d ∈ PlanetManager.planets p ∧ ∃ l, (l, it) ∈ lws ∧ l ∈ dels'.
Proof.
  induction lws as [|[l x] lws IH]; intros p dels w p' dels' w' Hrun Hnd Hfresh.
  - injection Hrun as <- <- <-. exists []. rewrite app_nil_r. split_and!; [done..|].
    intros it d Hin. by apply elem_of_nil in Hin.
  - cbn in Hrun. apply bind_inv in Hrun as ([p1 dels1] & w1 & Hr & Hrun).
    cbn in Hnd. apply NoDup_cons in Hnd as [Hx Hnd].
    destruct (resolve_loop_frame _ _ _ _ _ _ _ Hrun) as (_ & _ & _ & _ & _ & _ & Hmono & _).
    destruct (resolve_frame _ _ _ _ _ _ _ _ Hr) as (_ & Hpl1 & _).
    assert (Hcase : (PlanetManager.items_to_ship p1 = PlanetManager.items_to_ship p)
                    ∨ (∃ dest, dest ∈ PlanetManager.planets p ∧ l ∈ dels1
                         ∧ PlanetManager.items_to_ship p1
                           = PlanetManager.items_to_ship p ++ [(x, dest)])).
    { apply resolve_inv in Hr
        as (started & _ & [(_ & -> & _)|(_ & rec & pa & _ & Ha & -> & ->)]); [by left|].
      apply award_inv in Ha as [(_ & -> & _)|(_ & dest & Hdest & -> & _)]; [by left|].
      right. exists dest. split; [done|]. split; [apply elem_of_app; right; left|].
      cbn. apply dict_set_fresh. apply (Hfresh (l, x)). left. }
    destruct Hcase as [Hsame|(dest & Hdest & Hl & Hnew)].
    + destruct (IH _ _ _ _ _ _ Hrun Hnd) as (added & Hadd & Hsub & Hin).
      { intros lx Hlx. unfold queued_uids. rewrite Hsame. apply Hfresh. by right. }
      exists added. split; [congruence|]. split; [by apply sublist_cons|].
      intros it d Hit. destruct (Hin it d Hit) as (Hd & l' & Hl' & Hdel).
      split; [congruence|]. exists l'. split; [by right | done].
    + destruct (IH _ _ _ _ _ _ Hrun Hnd) as (added & Hadd & Hsub & Hin).
      { intros lx Hlx. unfold queued_uids. rewrite Hnew, map_app. cbn.
        intros [Hq|Hq%list_elem_of_singleton]%elem_of_app.
        - by apply (Hfresh lx); [right|].
        - apply Hx. rewrite <- Hq. apply list_elem_of_fmap. by exists lx. }
      exists ((x, dest) :: added). split; [rewrite Hadd, Hnew, <- app_assoc; done|].
      split; [by apply sublist_skip|].
      intros it d [[= -> ->]|Hit]%elem_of_cons.
      * split; [done|]. exists l. split; [left | by apply Hmono].
      * destruct (Hin it d Hit) as (Hd & l' & Hl' & Hdel).
        split; [congruence|]. exists l'. split; [by right | done].
Qed.

(** ** PlanetManager: the books stay in order *)

Lemma queued_uids_keys p u :
  u ∈ queued_uids p ↔ ∃ it, it ∈ map fst (PlanetManager.items_to_ship p) ∧ Item.uid it = u.
Proof.
  unfold queued_uids. rewrite list_elem_of_fmap. split.
  - intros ([it d] & -> & Hin). exists it. split; [|done].
    apply list_elem_of_fmap. by exists (it, d).
  - intros (it & [[it' d] [-> Hin]]%list_elem_of_fmap & <-). by exists (it', d).
Qed.

Lemma queued_uids_map p :
  queued_uids p = map Item.uid (map fst (PlanetManager.items_to_ship p)).
Proof. unfold queued_uids. by rewrite map_map. Qed.

(** The books after the new item and the calls for proposals. *)
Lemma cfp_phase_books ships p w p1 w1 p2 w2 :
  books p w ->
  PlanetManager.spawn p w = Ok (p1, w1) ->
  for_each (map fst (PlanetManager.items_to_ship p1))
    (PlanetManager.call_for_proposal ships) p1 w1 = Ok (p2, w2) ->
  books (PlanetManager.set_msg_box [] (PlanetManager.set_items_to_ship [] p2)) w2
  ∧ PlanetManager.planets p2 = PlanetManager.planets p
  ∧ PlanetManager.self p2 = PlanetManager.self p
  ∧ PlanetManager.msg_box p2 = PlanetManager.msg_box p
  ∧ round_uids p2 = round_uids p ++ queued_uids p1
  ∧ (∀ u, u ∈ queued_uids p -> u ∈ queued_uids p1).
Proof.
  intros [Hr Hs Hp Hq Ha Hro Hi] Hspawn Hcfp.
  destruct (spawn_cases _ _ _ _ Hspawn) as (_ & _ & Hst1 & Hcase).
  (* the planet and the queue after the new item *)
  assert (H1 : PlanetManager.waiting_for_proposal p1 = PlanetManager.waiting_for_proposal p
               ∧ PlanetManager.start_times p1 = PlanetManager.start_times p
               ∧ PlanetManager.proposals p1 = PlanetManager.proposals p
               ∧ PlanetManager.planets p1 = PlanetManager.planets p
               ∧ PlanetManager.self p1 = PlanetManager.self p
               ∧ PlanetManager.msg_box p1 = PlanetManager.msg_box p
               ∧ NoDup (queued_uids p1)
               ∧ (∀ u, u ∈ queued_uids p1 -> u ∉ round_uids p)
               ∧ (∀ u, u ∈ round_uids p ∨ u ∈ queued_uids p1 -> u < next_uuid w1)
               ∧ (∀ u, u ∈ queued_uids p -> u ∈ queued_uids p1)).
  { destruct Hcase as [(_ & -> & Hnu & _)|(_ & item & dest & Hu & _ & _ & Hdest & -> & Hnu & _)].
    - split_and!; try done. intros u Hu. rewrite Hnu. by apply Hi.
    - assert (Hfresh : Item.uid item ∉ queued_uids p).
      { intros Hin. specialize (Hi _ (or_intror Hin)). lia. }
      assert (Hfresh' : Item.uid item ∉ round_uids p).
      { intros Hin. specialize (Hi _ (or_introl Hin)). lia. }
      unfold queued_uids at 1 2 3 5. cbn. rewrite (dict_set_fresh _ _ _ Hfresh), map_app. cbn.
      split_and!; try done.
      + apply NoDup_app. split; [done|]. split; [|apply NoDup_singleton].
        intros u Hu' Hu''%list_elem_of_singleton. by subst u.
      + intros u [Hu'|Hu'%list_elem_of_singleton]%elem_of_app; [by apply Ha | by subst u].
      + intros u [Hu'|[Hu'|Hu'%list_elem_of_singleton]%elem_of_app].
        * specialize (Hi _ (or_introl Hu')). lia.
        * specialize (Hi _ (or_intror Hu')). lia.
        * subst u. lia.
      + intros u Hu'. apply elem_of_app. by left. }
  destruct H1 as (Hw1 & Hs1 & Hp1 & Hpl1 & Hself1 & Hbox1 & Hq1 & Ha1 & Hi1 & Hkeep).
  (* the calls for proposals *)
  destruct (cfp_loop_spec ships (map fst (PlanetManager.items_to_ship p1)) p1 w1)
    as (p2' & w2' & Hcfp' & _ & Hbox2 & Hpl2 & Hself2 & Hw2 & _ & _ & _ & Hother & Hnew).
  { intros it Hit. by apply dict_get_key. }
  rewrite Hcfp in Hcfp'. injection Hcfp' as <- <-.
  destruct (cfp_loop_same_items _ _ _ _ _ _ Hcfp) as (_ & _ & _ & Hnu2).
  assert (Hround : round_uids p2 = round_uids p ++ queued_uids p1).
  { unfold round_uids. rewrite Hw2, map_app, Hw1. by rewrite queued_uids_map. }
  assert (Hentry : ∀ u, (is_Some (PlanetManager.start_times p2 !! u) ↔ u ∈ round_uids p2)
                        ∧ (is_Some (PlanetManager.proposals p2 !! u) ↔ u ∈ round_uids p2)).
  { intros u. rewrite Hround, elem_of_app.
    destruct (decide (u ∈ queued_uids p1)) as [Hin|Hnin].
    - apply queued_uids_keys in Hin as Hin'. destruct Hin' as (it & Hit & <-).
      destruct (Hnew it Hit) as [-> ->]. split; (split; [by right | by eexists]).
    - destruct (Hother u) as [-> ->].
      { intros it Hit Heq. apply Hnin, queued_uids_keys. by exists it. }
      rewrite Hs1, Hp1, Hs, Hp. tauto. }
  split_and!; try congruence; [|exact Hkeep].
  constructor; cbn.
  - unfold round_uids in *. cbn. rewrite Hround. apply NoDup_app. split; [done|].
    split; [|done]. intros u Hu Hu'. by apply (Ha1 u).
  - intros u. apply Hentry.
  - intros u. apply Hentry.
  - apply NoDup_nil_2.
  - intros u Hu. by apply elem_of_nil in Hu.
  - intros it dest Hin. by apply elem_of_nil in Hin.
  - unfold round_uids in *. cbn. intros u [Hu|Hu]; [|by apply elem_of_nil in Hu].
    rewrite Hnu2. apply Hi1. rewrite Hround in Hu. by apply elem_of_app in Hu.
Qed.

(** The books after the mailbox has been read. *)
Lemma collect_loop_books ms p w p' w' :
  books p w ->
  for_each ms PlanetManager.collect p w = Ok (p', w') ->
  books p' w'
  ∧ PlanetManager.items_to_ship p' = PlanetManager.items_to_ship p
  ∧ PlanetManager.waiting_for_proposal p' = PlanetManager.waiting_for_proposal p
  ∧ PlanetManager.msg_box p' = PlanetManager.msg_box p
  ∧ PlanetManager.planets p' = PlanetManager.planets p
  ∧ PlanetManager.self p' = PlanetManager.self p.
Proof.
  intros [Hr Hs Hp Hq Ha Hro Hi] Hrun.
  destruct (collect_loop_inv _ _ _ _ _ Hrun)
    as (Hst & Hw & Hits & Hbox & Hpl & Hself & _ & _ & Hnone & Hsome).
  apply collect_loop_uuid in Hrun as Hnu.
  split_and!; try done.
  assert (Hru : round_uids p' = round_uids p) by (unfold round_uids; by rewrite Hw).
  assert (Hqu : queued_uids p' = queued_uids p) by (unfold queued_uids; by rewrite Hits).
  constructor; rewrite ?Hru, ?Hqu, ?Hst, ?Hits, ?Hpl; try done.
  - intros u. rewrite <- Hp. split; intros [x Hx].
    + destruct (PlanetManager.proposals p !! u) eqn:E; [by eexists|].
      rewrite (Hnone u E) in Hx. done.
    + destruct (Hsome u x Hx) as (arr & -> & _). by eexists.
  - intros u Hu. specialize (Hi u Hu). lia.
Qed.

Lemma indexed_lookup {A} (l : list A) i x :
  (i, x) ∈ imap (fun i x => (i, x)) l ↔ l !! i = Some x.
Proof.
  split.
  - intros (j & y & [= -> ->] & Hj)%elem_of_lookup_imap_1. done.
  - intros Hi. by apply (elem_of_lookup_imap_2 (fun i x => (i, x))).
Qed.

Lemma indexed_uids (l : list Item.t) :
  map (fun lx : nat * Item.t => Item.uid lx.2) (imap (fun i x => (i, x)) l)
  = map Item.uid l.
Proof.
  change (map ?f ?l) with (f <$> l). rewrite fmap_imap.
  by rewrite <- (imap_const Item.uid).
Qed.

(** The books after the rounds whose waiting time is over have been
    resolved and their items taken out of the waiting list. *)
Lemma resolve_books p w p6 dels w6 waiting :
  books p w -> PlanetManager.items_to_ship p = [] ->
  for_each (imap (fun l x => (l, x)) (PlanetManager.waiting_for_proposal p))
    PlanetManager.resolve (p, []) w = Ok ((p6, dels), w6) ->
  PlanetManager.pop_all (PlanetManager.sort_desc dels)
    (PlanetManager.waiting_for_proposal p6) = Some waiting ->
  books (PlanetManager.set_waiting_for_proposal waiting p6) w6
  ∧ waiting = keep_from 0 dels (PlanetManager.waiting_for_proposal p)
  ∧ StronglySorted lt dels
  ∧ (∀ l, l ∈ dels -> (l < length (PlanetManager.waiting_for_proposal p))%nat).
Proof.
  intros [Hr Hs Hp Hq Ha Hro Hi] Hempty Hloop Hpop.
  set (ws := PlanetManager.waiting_for_proposal p) in *.
  set (lws := imap (fun l x => (l, x)) ws) in *.
  destruct (resolve_loop_frame _ _ _ _ _ _ _ Hloop)
    as (_ & Hpl6 & Hw6 & _ & Hst6 & _ & _ & Hrange & Hsorted & Hnone).
  destruct (resolve_loop_same_items _ _ _ _ _ Hloop) as (_ & _ & _ & Hnu6).
  assert (Hss : StronglySorted lt dels).
  { apply Hsorted. cbn [app]. unfold lws. rewrite indexed_fst. apply seq_sorted. }
  assert (Hlen : ∀ l, l ∈ dels -> (l < length ws)%nat).
  { intros l Hl. destruct (Hrange l Hl) as [Hn|Hin]; [by apply elem_of_nil in Hn|].
    unfold lws in Hin. rewrite indexed_fst in Hin. apply elem_of_seq in Hin. lia. }
  rewrite (sort_desc_reverse dels Hss), Hw6 in Hpop. fold ws in Hpop.
  rewrite (pop_all_kept dels ws Hss Hlen) in Hpop. injection Hpop as <-.
  split_and!; try done.
  (* an item of the waiting list is kept exactly when its round is open *)
  assert (Hnd : NoDup (map (fun lx : nat * Item.t => Item.uid lx.2) lws)).
  { unfold lws. by rewrite indexed_uids. }
  assert (Hndf : NoDup (map fst lws)).
  { unfold lws. rewrite indexed_fst. apply NoDup_seq. }
  assert (Hkept : ∀ j x, ws !! j = Some x ->
            (j ∉ dels -> is_Some (PlanetManager.start_times p6 !! Item.uid x)
                         ∧ is_Some (PlanetManager.proposals p6 !! Item.uid x))
            ∧ (j ∈ dels -> PlanetManager.start_times p6 !! Item.uid x = None
                           ∧ PlanetManager.proposals p6 !! Item.uid x = None)).
  { intros j x Hj.
    assert (Hin : Item.uid x ∈ round_uids p).
    { apply list_elem_of_fmap. exists x. split; [done|]. by eapply list_elem_of_lookup_2. }
    destruct (proj2 (Hs _) Hin) as [st Hst].
    assert (Hjx : (j, x) ∈ lws) by (by apply indexed_lookup).
    destruct (Z_le_gt_dec (schedule_steps w - st) WAITING_TIME) as [Hle|Hgt].
    - destruct (resolve_loop_open _ _ _ _ _ _ _ _ st Hloop Hndf Hst Hle)
        as (Hst' & Hpr' & Hdel).
      split.
      + intros _. rewrite Hst', Hpr'. split; [by eexists | by apply Hp].
      + intros Hd. specialize (Hdel j x Hjx eq_refl Hd). by apply elem_of_nil in Hdel.
    - destruct (resolve_loop_expired _ _ _ _ _ _ _ j x st Hloop Hjx Hst Hgt)
        as (Hst' & Hpr' & Hd & _).
      split; [done|]. intros _. by split. }
  assert (Hround : ∀ u, u ∈ map Item.uid (keep_from 0 dels ws)
                        ↔ ∃ j x, ws !! j = Some x ∧ Item.uid x = u ∧ j ∉ dels).
  { intros u. rewrite list_elem_of_fmap. split.
    - intros (x & -> & (j & Hj & Hn)%keep_from_elem). by exists j, x.
    - intros (j & x & Hj & <- & Hn). exists x. split; [done|].
      apply keep_from_elem. by exists j. }
  assert (Hentries : ∀ u,
            (is_Some (PlanetManager.start_times p6 !! u)
             ∨ is_Some (PlanetManager.proposals p6 !! u)) ->
            ∃ j x, ws !! j = Some x ∧ Item.uid x = u).
  { intros u Hsome.
    destruct (decide (u ∈ round_uids p)) as [Hin|Hnin].
    - apply list_elem_of_fmap in Hin as (x & -> & [j Hj]%list_elem_of_lookup). by exists j, x.
    - assert (Hn : PlanetManager.start_times p !! u = None).
      { apply eq_None_not_Some. by rewrite Hs. }
      assert (Hn' : PlanetManager.proposals p !! u = None).
      { apply eq_None_not_Some. by rewrite Hp. }
      destruct (Hnone u Hn) as (Hn6 & _ & Hp6 & _). specialize (Hp6 Hn').
      rewrite Hn6, Hp6 in Hsome. by destruct Hsome as [[]|[]]. }
  destruct (resolve_loop_queue _ _ _ _ _ _ _ Hloop Hnd) as (added & Hadd & Hsub & Hin).
  { intros lx _. unfold queued_uids. rewrite Hempty. apply not_elem_of_nil. }
  rewrite Hempty in Hadd. cbn in Hadd.
  unfold lws in Hsub. rewrite indexed_uids in Hsub.
  constructor; unfold round_uids, queued_uids; cbn; rewrite ?Hadd.
  - eapply sublist_NoDup; [exact Hr|]. apply fmap_sublist, keep_from_sublist.
  - intros u. rewrite Hround. split.
    + intros Hsome. destruct (Hentries u (or_introl Hsome)) as (j & x & Hj & <-).
      exists j, x. split_and!; try done. intros Hd.
      destruct (Hkept j x Hj) as [_ Hdel]. destruct (Hdel Hd) as [Hn _].
      rewrite Hn in Hsome. by destruct Hsome.
    + intros (j & x & Hj & <- & Hn). by apply (Hkept j x Hj).
  - intros u. rewrite Hround. split.
    + intros Hsome. destruct (Hentries u (or_intror Hsome)) as (j & x & Hj & <-).
      exists j, x. split_and!; try done. intros Hd.
      destruct (Hkept j x Hj) as [_ Hdel]. destruct (Hdel Hd) as [_ Hn].
      rewrite Hn in Hsome. by destruct Hsome.
    + intros (j & x & Hj & <- & Hn). by apply (Hkept j x Hj).
  - eapply sublist_NoDup; [exact Hr | exact Hsub].
  - intros u ([it d] & -> & Hitd)%list_elem_of_fmap. cbn.
    destruct (Hin it d Hitd) as (_ & l & Hl%indexed_lookup & Hd).
    rewrite Hround. intros (j & x & Hj & Hux & Hn).
    assert (l = j); [|by subst].
    eapply (NoDup_lookup _ _ _ _ Hr).
    + unfold round_uids. change (map ?f ?l) with (f <$> l).
      rewrite list_lookup_fmap. fold ws. by rewrite Hl.
    + unfold round_uids. change (map ?f ?l) with (f <$> l).
      rewrite list_lookup_fmap. fold ws. rewrite Hj. cbn. by rewrite Hux.
  - intros it d Hitd. rewrite Hpl6. by apply (Hin it d Hitd).
  - intros u Hu. rewrite Hnu6. apply Hi. left. destruct Hu as [Hu|Hu].
    + apply Hround in Hu as (j & x & Hj & <- & _).
      apply list_elem_of_fmap. exists x. split; [done|]. by eapply list_elem_of_lookup_2.
    + exact (elem_of_sublist _ _ _ Hu Hsub).
Qed.

Lemma step_books ships p w p' w' :
  books p w ->
  PlanetManager.step ships p w = Ok (p', w') ->
  books p' w'
  ∧ PlanetManager.msg_box p' = []
  ∧ PlanetManager.planets p' = PlanetManager.planets p
  ∧ PlanetManager.self p' = PlanetManager.self p
  ∧ (∀ u, u ∈ round_uids p' -> u ∈ round_uids p ∨ u ∈ queued_uids p ∨ u = next_uuid w)
  ∧ (∀ u, u ∈ queued_uids p' -> u ∈ round_uids p ∨ u ∈ queued_uids p ∨ u = next_uuid w).
Proof.
  intros Hbooks Hstep. unfold PlanetManager.step in Hstep.
  apply bind_inv in Hstep as (p1 & w1 & Hspawn & Hstep).
  apply bind_inv in Hstep as (p2 & w2 & Hcfp & Hstep). cbv zeta in Hstep.
  apply bind_inv in Hstep as (p5 & w5 & Hcollect & Hstep).
  apply bind_inv in Hstep as ([p6 dels] & w6 & Hloop & Hstep).
  apply bind_inv in Hstep as (waiting & w7 & Hpop & Hstep).
  apply lift_opt_inv in Hpop as [Hpop ->]. injection Hstep as <- <-.
  destruct (cfp_phase_books _ _ _ _ _ _ _ Hbooks Hspawn Hcfp)
    as (Hb4 & Hpl2 & Hself2 & Hbox2 & Hround2 & Hkeep).
  destruct (collect_loop_books _ _ _ _ _ Hb4 Hcollect)
    as (Hb5 & Hits5 & Hw5 & Hbox5 & Hpl5 & Hself5).
  cbn in Hits5, Hw5, Hbox5, Hpl5, Hself5.
  destruct (resolve_loop_frame _ _ _ _ _ _ _ Hloop)
    as (Hself6 & Hpl6 & Hw6 & Hbox6 & _).
  destruct (resolve_books _ _ _ _ _ _ Hb5 Hits5 Hloop Hpop) as (Hb & Hwaiting & _).
  assert (Hfrom : ∀ u, u ∈ round_uids p5 ->
                       u ∈ round_uids p ∨ u ∈ queued_uids p ∨ u = next_uuid w).
  { intros u Hu. unfold round_uids in Hu. rewrite Hw5 in Hu. fold (round_uids p2) in Hu.
    rewrite Hround2 in Hu. apply elem_of_app in Hu as [Hu|Hu]; [by left|]. right.
    destruct (spawn_cases _ _ _ _ Hspawn)
      as (_ & _ & _ & [(_ & -> & _)|(_ & item & dest & Hid & _ & _ & _ & -> & _)]);
      [by left|].
    apply queued_uids_keys in Hu as (it & Hit & <-). cbn in Hit.
    apply dict_set_keys in Hit as [Hit| ->]; [|by right].
    left. apply queued_uids_keys. by exists it. }
  split_and!; cbn; try congruence.
  - intros u Hu. apply Hfrom. destruct Hb5 as [_ _ _ _ _ _ Hi5].
    unfold round_uids in Hu. cbn in Hu. rewrite Hwaiting in Hu.
    eapply elem_of_sublist; [exact Hu|]. apply fmap_sublist, keep_from_sublist.
  - intros u Hu. apply Hfrom.
    destruct Hb as [_ Hs' _ _ _ _ _]. 
    assert (Hq : u ∈ queued_uids p6) by exact Hu.
    destruct (resolve_loop_queue _ _ _ _ _ _ _ Hloop) as (added & Hadd & Hsub & _).
    { rewrite indexed_uids. by destruct Hb5. }
    { intros lx _. unfold queued_uids. rewrite Hits5. apply not_elem_of_nil. }
    rewrite Hits5 in Hadd. cbn in Hadd. unfold queued_uids in Hq. rewrite Hadd in Hq.
    rewrite indexed_uids in Hsub. exact (elem_of_sublist _ _ _ Hq Hsub).
Qed.

(** X9: [PlanetManager.step] keeps the books of a planet in order. When the
    items that wait for proposals are listed once, [start_times] and
    [proposals] have an entry exactly for them, the items to ship are
    listed once and wait for nothing, and every [uid] on the books was
    issued by the source of identifiers, then the same holds after every
    step that returns; the mailbox has been drained, the planet still
    knows the same planets, and no item enters the books but the item
    created by the step. *)
Theorem planet_step_keeps_books (ships : list Ship.t) (p p' : PlanetManager.t)
    (w w' : Ambient) :
  books p w ->
  PlanetManager.step ships p w = Ok (p', w') ->
  books p' w'
  ∧ PlanetManager.msg_box p' = []
  ∧ PlanetManager.planets p' = PlanetManager.planets p
  ∧ PlanetManager.self p' = PlanetManager.self p
  ∧ (∀ u, u ∈ round_uids p' ∨ u ∈ queued_uids p' ->
          u ∈ round_uids p ∨ u ∈ queued_uids p ∨ u = next_uuid w).
Proof.
  intros Hbooks Hstep.
  destruct (step_books _ _ _ _ _ Hbooks Hstep) as (? & ? & ? & ? & Hr & Hq).
  split_and!; try done. intros u [Hu|Hu]; [by apply Hr | by apply Hq].
Qed.

Lemma depot_books steps : books depot (calm steps).
Proof.
  constructor; unfold round_uids, queued_uids; cbn.
  - apply NoDup_nil_2.
  - intros u. split; [by intros [? ?]|by intros ?%elem_of_nil].
  - intros u. split; [by intros [? ?]|by intros ?%elem_of_nil].
  - apply NoDup_singleton.
  - intros u _. apply not_elem_of_nil.
  - intros it dest [= -> ->]%list_elem_of_singleton. left.
  - intros u [Hu%elem_of_nil|Hu%list_elem_of_singleton]; [done|by subst].
Qed.

(** The depot of the examples opens a round for the parcel; its books are
    in order before and after. *)
Lemma planet_step_keeps_books_witness :
  ∃ p' w', PlanetManager.step [docked_ship] depot (calm 10) = Ok (p', w')
           ∧ books p' w' ∧ round_uids p' = [7] ∧ queued_uids p' = [].
Proof.
  eexists _, _. split; [vm_compute; reflexivity|]. split; [|by vm_compute].
  eapply (planet_step_keeps_books [docked_ship] depot _ (calm 10)).
  - apply depot_books.
  - vm_compute. reflexivity.
Defined.

(** ** PlanetManager: a step that does not raise *)

Lemma collect_loop_total ms : ∀ p w,
  (∀ m, m ∈ ms -> Item.uid (Message.body_item m) ≠ 0
                  ∧ is_Some (PlanetManager.proposals p !! Item.uid (Message.body_item m))) ->
  ∃ p' w', for_each ms PlanetManager.collect p w = Ok (p', w').
Proof.
  induction ms as [|m ms IH]; intros p w Hms; [by eexists _, _|].
  destruct (Hms m) as [Hu [rec Hrec]]; [left|].
  destruct (collect_known m p w rec Hu Hrec) as (w1 & Hc & _).
  cbn. rewrite (bind_ok _ _ _ _ _ Hc). apply IH.
  intros m' Hm'. destruct (Hms m') as [Hu' Hsome]; [by right|].
  split; [done|]. cbn. apply lookup_insert_is_Some'. by right.
Qed.

(** The loop over the waiting items deletes entries of [proposals] and
    changes none. *)
Lemma resolve_loop_bids lws : ∀ p dels w p' dels' w' u r,
  for_each lws PlanetManager.resolve (p, dels) w = Ok ((p', dels'), w') ->
  PlanetManager.proposals p' !! u = Some r -> PlanetManager.proposals p !! u = Some r.
Proof.
  induction lws as [|[l x] lws IH]; intros p dels w p' dels' w' u r Hrun Hr.
  - by injection Hrun as <- <- <-.
  - cbn in Hrun. apply bind_inv in Hrun as ([p1 dels1] & w1 & Hres & Hrun).
    specialize (IH _ _ _ _ _ _ _ _ Hrun Hr).
    apply resolve_inv in Hres
      as (started & _ & [(_ & -> & _)|(_ & rec & pa & _ & Ha & -> & _)]); [done|].
    cbn in IH. apply lookup_delete_Some in IH as [_ IH].
    apply award_inv in Ha as [(_ & -> & _)|(_ & dest & _ & -> & _)]; done.
Qed.

Lemma resolve_loop_total lws : ∀ p dels w,
  PlanetManager.planets p ≠ [] ->
  NoDup (map (fun lx : nat * Item.t => Item.uid lx.2) lws) ->
  (∀ lx : nat * Item.t, lx ∈ lws ->
     is_Some (PlanetManager.start_times p !! Item.uid lx.2)
     ∧ ∃ rec, PlanetManager.proposals p !! Item.uid lx.2 = Some rec
              ∧ Forall is_proposal rec) ->
  ∃ st' w', for_each lws PlanetManager.resolve (p, dels) w = Ok (st', w').
Proof.
  induction lws as [|[l x] lws IH]; intros p dels w Hpl Hnd Hall; [by eexists _, _|].
  cbn in Hnd. apply NoDup_cons in Hnd as [Hx Hnd].
  destruct (Hall (l, x)) as ([st Hst] & rec & Hrec & Hwf); [left|]. cbn in Hst, Hrec.
  assert (Hrest : ∀ lx : nat * Item.t, lx ∈ lws -> Item.uid lx.2 ≠ Item.uid x).
  { intros lx Hlx Heq. apply Hx. rewrite <- Heq. apply list_elem_of_fmap. by exists lx. }
  assert (Hturn : ∃ p1 dels1 w1,
            PlanetManager.resolve (l, x) (p, dels) w = Ok ((p1, dels1), w1)
            ∧ PlanetManager.planets p1 = PlanetManager.planets p
            ∧ ∀ u, u ≠ Item.uid x ->
                PlanetManager.start_times p1 !! u = PlanetManager.start_times p !! u
                ∧ PlanetManager.proposals p1 !! u = PlanetManager.proposals p !! u).
  { destruct (Z_le_gt_dec (schedule_steps w - st) WAITING_TIME) as [Hle|Hgt].
    - eexists _, _, _. split; [by apply (resolve_waiting l x p dels w st)|]. done.
    - destruct rec as [|m rec].
      + destruct (resolve_no_bid_drawn l x p dels w st Hst Hgt Hrec Hpl)
          as (dest & _ & Hres).
        eexists _, _, _. split; [exact Hres|]. split; [done|].
        intros u Hu. cbn. by rewrite !lookup_delete_ne.
      + destruct (resolve_bids_sent l x p dels w st (m :: rec) Hst Hgt Hrec)
          as (k & _ & Hres); [done..|].
        eexists _, _, _. split; [exact Hres|]. split; [done|].
        intros u Hu. cbn. by rewrite !lookup_delete_ne. }
  destruct Hturn as (p1 & dels1 & w1 & Hres & Hpl1 & Hsame).
  cbn. rewrite (bind_ok _ _ _ _ _ Hres). apply IH; [congruence|done|].
  intros lx Hlx. destruct (Hsame (Item.uid lx.2)) as [-> ->]; [by apply Hrest|].
  apply Hall. by right.
Qed.

(** X10: a step of a planet that does not raise. When the books are in
    order, the planet knows at least one other planet, and every message in
    its mailbox is a proposal with its three fields for an item of the
    books whose [uid] is not 0, then [PlanetManager.step] returns: no
    [KeyError] from [proposals] or [start_times], no [IndexError] from the
    proposals, from [random.choice] or from [pop]. The books are then again
    in order, every proposal on them has its three fields, and the mailbox
    is empty, so that the next step is in the same position. *)
Theorem planet_step_succeeds (ships : list Ship.t) (p : PlanetManager.t) (w : Ambient) :
  books p w -> bids_ok p -> inbox_ok p -> PlanetManager.planets p ≠ [] ->
  ∃ p' w',
    PlanetManager.step ships p w = Ok (p', w')
    ∧ books p' w' ∧ bids_ok p' ∧ PlanetManager.msg_box p' = []
    ∧ PlanetManager.planets p' = PlanetManager.planets p.
Proof.
  intros Hbooks Hbids Hinbox Hpl.
  destruct (spawn_spec p w Hpl) as (p1 & w1 & Hspawn & Hpr1 & _).
  destruct (cfp_phase_spec ships p1 w1)
    as (p2 & w2 & Hcfp & _ & _ & _ & _ & _ & _ & _ & Hother).
  destruct (cfp_phase_books _ _ _ _ _ _ _ Hbooks Hspawn Hcfp)
    as (Hb4 & Hpl2 & Hself2 & Hbox2 & Hround2 & Hkeep).
  set (p4 := PlanetManager.set_msg_box [] (PlanetManager.set_items_to_ship [] p2)) in *.
  (* the proposals on the books once the new rounds are opened *)
  assert (Hbids4 : bids_ok p4).
  { intros u rec Hrec. cbn in Hrec.
    destruct (decide (u ∈ queued_uids p1)) as [Hin|Hnin].
    - apply queued_uids_keys in Hin as (it & Hit & <-).
      destruct (cfp_loop_spec ships (map fst (PlanetManager.items_to_ship p1)) p1 w1)
        as (p2' & w2' & Hcfp' & _ & _ & _ & _ & _ & _ & _ & _ & _ & Hnew).
      { intros it' Hit'. by apply dict_get_key. }
      rewrite Hcfp in Hcfp'. injection Hcfp' as <- <-.
      destruct (Hnew it Hit) as [Hnil _]. rewrite Hnil in Hrec. by injection Hrec as <-.
    - destruct (Hother u) as [Hsame _].
      { intros it Hit Heq. apply Hnin, queued_uids_keys. by exists it. }
      rewrite Hsame, Hpr1 in Hrec. by apply (Hbids u). }
  (* the mailbox *)
  destruct (collect_loop_total (PlanetManager.msg_box p2) p4 w2) as (p5 & w5 & Hcollect).
  { intros m Hm. rewrite Hbox2 in Hm. destruct (Hinbox m Hm) as (_ & Hu & Hknown).
    split; [done|]. destruct Hb4 as [_ _ Hp4 _ _ _ _]. apply Hp4.
    unfold round_uids. cbn. fold (round_uids p2). rewrite Hround2. apply elem_of_app.
    destruct Hknown as [?|?]; [by left | right; by apply Hkeep]. }
  destruct (collect_loop_books _ _ _ _ _ Hb4 Hcollect)
    as (Hb5 & Hits5 & Hw5 & Hbox5 & Hpl5 & Hself5).
  cbn in Hits5, Hw5, Hbox5, Hpl5, Hself5.
  assert (Hbids5 : bids_ok p5).
  { intros u rec Hrec.
    destruct (collect_loop_inv _ _ _ _ _ Hcollect)
      as (_ & _ & _ & _ & _ & _ & _ & _ & Hnone & Hsome).
    destruct (PlanetManager.proposals p4 !! u) as [rec4|] eqn:Hrec4;
      [|by rewrite (Hnone u Hrec4) in Hrec].
    destruct (Hsome u rec4 Hrec4) as (arrived & Harr & Hsub).
    rewrite Harr in Hrec. injection Hrec as <-. apply Forall_app. split.
    - by apply (Hbids4 u).
    - apply Forall_forall. intros m Hm. apply Hsub in Hm. rewrite Hbox2 in Hm.
      by destruct (Hinbox m Hm). }
  (* the rounds *)
  destruct (resolve_loop_total
              (imap (fun l x => (l, x)) (PlanetManager.waiting_for_proposal p5))
              p5 [] w5) as ([p6 dels] & w6 & Hloop).
  { congruence. }
  { rewrite indexed_uids. by destruct Hb5. }
  { intros [l x] Hlx%indexed_lookup. cbn.
    assert (Hin : Item.uid x ∈ round_uids p5).
    { apply list_elem_of_fmap. exists x. split; [done|]. by eapply list_elem_of_lookup_2. }
    destruct Hb5 as [_ Hs5 Hp5 _ _ _ _]. split; [by apply Hs5|].
    destruct (proj2 (Hp5 _) Hin) as [rec Hrec]. exists rec. split; [done|].
    by apply (Hbids5 (Item.uid x)). }
  destruct (resolve_loop_frame _ _ _ _ _ _ _ Hloop)
    as (_ & _ & Hw6 & _ & _ & _ & _ & Hrange & Hsorted & _).
  assert (Hss : StronglySorted lt dels).
  { apply Hsorted. cbn [app]. rewrite indexed_fst. apply seq_sorted. }
  assert (Hpop : PlanetManager.pop_all (PlanetManager.sort_desc dels)
                   (PlanetManager.waiting_for_proposal p6)
                 = Some (keep_from 0 dels (PlanetManager.waiting_for_proposal p6))).
  { rewrite (sort_desc_reverse dels Hss). apply pop_all_kept; [done|].
    intros l Hl. destruct (Hrange l Hl) as [Hn|Hin]; [by apply elem_of_nil in Hn|].
    rewrite indexed_fst in Hin. apply elem_of_seq in Hin. rewrite Hw6. lia. }
  assert (Hstep : PlanetManager.step ships p w
                  = Ok (PlanetManager.set_waiting_for_proposal
                          (keep_from 0 dels (PlanetManager.waiting_for_proposal p6)) p6,
                        w6)).
  { unfold PlanetManager.step.
    rewrite (bind_ok _ _ _ _ _ Hspawn), (bind_ok _ _ _ _ _ Hcfp). cbv zeta.
    fold p4. rewrite (bind_ok _ _ _ _ _ Hcollect), (bind_ok _ _ _ _ _ Hloop).
    rewrite Hpop. reflexivity. }
  eexists _, _. split; [exact Hstep|].
  destruct (step_books _ _ _ _ _ Hbooks Hstep) as (Hb' & Hbox' & Hpl' & _).
  split_and!; try done.
  intros u rec Hrec. cbn in Hrec.
  apply (Hbids5 u). by eapply resolve_loop_bids.
Qed.

Lemma soliciting_books received steps : books (soliciting received) (calm steps).
Proof.
  constructor; unfold round_uids, queued_uids; cbn.
  - apply NoDup_singleton.
  - intros u. rewrite list_elem_of_singleton. split.
    + intros [st Hst]. by apply lookup_singleton_Some in Hst as [<- _].
    + intros ->. eexists. apply lookup_singleton_eq.
  - intros u. rewrite list_elem_of_singleton. split.
    + intros [st Hst]. by apply lookup_singleton_Some in Hst as [<- _].
    + intros ->. eexists. apply lookup_singleton_eq.
  - apply NoDup_nil_2.
  - intros u Hu. by apply elem_of_nil in Hu.
  - intros it dest Hin. by apply elem_of_nil in Hin.
  - intros u [Hu%list_elem_of_singleton|Hu%elem_of_nil]; [by subst|done].
Qed.

Lemma soliciting_bids_ok : bids_ok (soliciting three_bids).
Proof.
  intros u rec Hrec. cbn in Hrec. apply lookup_singleton_Some in Hrec as [_ <-].
  repeat constructor; by eexists _, _, _.
Qed.

Lemma soliciting_inbox_ok received : inbox_ok (soliciting received).
Proof. intros m Hm. by apply elem_of_nil in Hm. Qed.

Lemma planet_step_succeeds_witness :
  ∃ p' w', PlanetManager.step [docked_ship] (soliciting three_bids) (calm 14) = Ok (p', w')
           ∧ books p' w' ∧ bids_ok p'.
Proof.
  destruct (planet_step_succeeds [docked_ship] (soliciting three_bids) (calm 14))
    as (p' & w' & Hstep & Hb & Hbids & _).
  - apply soliciting_books.
  - apply soliciting_bids_ok.
  - apply soliciting_inbox_ok.
  - discriminate.
  - by exists p', w'.
Defined.

(** ** PlanetManager: a planet that knows no other planet *)

(** X11: a planet whose list [planets] is empty cannot give an item a
    destination: [random.choice] raises [IndexError] on the empty list.
    The step raises when it creates an item, that is when the first
    result of [random.random()] is below [NEW_ITEM_PROBA]; and the turn of
    the loop over the waiting items raises when the waiting time of a round
    without proposal is over. *)
Theorem planet_without_planets_raises (ships : list Ship.t) (p : PlanetManager.t)
    (w : Ambient) :
  PlanetManager.planets p = [] ->
  (float_lt (hd 0%Q (rnd_floats w)) NEW_ITEM_PROBA = true ->
   PlanetManager.step ships p w = Raise IndexError)
  ∧ (∀ l wi dels started,
       PlanetManager.start_times p !! Item.uid wi = Some started ->
       schedule_steps w - started > WAITING_TIME ->
       PlanetManager.proposals p !! Item.uid wi = Some [] ->
       PlanetManager.resolve (l, wi) (p, dels) w = Raise IndexError).
Proof.
  intros Hnil. split.
  - intros Hlt. unfold PlanetManager.step. apply bind_raise.
    unfold PlanetManager.spawn.
    destruct (random_random_draw w) as (r & w0 & Hr & -> & _).
    rewrite (bind_ok _ _ _ _ _ Hr), Hlt.
    destruct (init_total (Planet.x (PlanetManager.self p)) (Planet.y (PlanetManager.self p))
                None None None None w0) as (item & wi & Hinit & _).
    rewrite (bind_ok _ _ _ _ _ Hinit).
    unfold bind at 1. unfold get_items at 1. unfold bind at 1. unfold set_items at 1.
    apply bind_raise. rewrite Hnil. apply random_choice_nil.
  - intros l wi dels started Hst Hgt Hpr.
    rewrite (resolve_expired l wi p dels w started [] Hst Hgt Hpr).
    rewrite award_no_bid, Hnil, random_choice_nil. reflexivity.
Qed.

Lemma planet_without_planets_raises_witness :
  PlanetManager.step [docked_ship] lonely (fertile 12) = Raise IndexError
  ∧ PlanetManager.resolve (0%nat, parcel) (lonely, []) (calm 14) = Raise IndexError.
Proof.
  split.
  - apply (planet_without_planets_raises [docked_ship] lonely (fertile 12) eq_refl).
    reflexivity.
  - apply (planet_without_planets_raises [docked_ship] lonely (calm 14) eq_refl) with 10;
      reflexivity.
Defined.

(** ** PlanetManager: the waiting list after a step *)

(** X12: lines 347-349 take out of the waiting list exactly the items
    whose rank was recorded. For ranks recorded in increasing order, as the
    loop over [enumerate(self.waiting_for_proposal)] records them, and
    within the list, popping them in decreasing order does not raise and
    leaves the items at the other ranks, in their order: the ranks still to
    pop are not shifted by the pops already done. A rank outside the list
    raises [IndexError]. *)
Theorem resolved_items_are_popped (items_to_del : list nat) (waiting : list Item.t) :
  StronglySorted lt items_to_del ->
  ((∀ k, k ∈ items_to_del -> (k < length waiting)%nat) ->
   PlanetManager.pop_all (PlanetManager.sort_desc items_to_del) waiting
   = Some (keep_from 0 items_to_del waiting)
   ∧ sublist (keep_from 0 items_to_del waiting) waiting
   ∧ ∀ x, x ∈ keep_from 0 items_to_del waiting
          ↔ ∃ j, waiting !! j = Some x ∧ j ∉ items_to_del)
  ∧ (∀ k, last items_to_del = Some k -> (length waiting <= k)%nat ->
     PlanetManager.pop_all (PlanetManager.sort_desc items_to_del) waiting = None).
Proof.
  intros Hss. rewrite (sort_desc_reverse _ Hss). split.
  - intros Hlen. split_and!.
    + by apply pop_all_kept.
    + apply keep_from_sublist.
    + intros x. by rewrite keep_from_elem.
  - intros k Hlast Hk.
    destruct items_to_del as [|d ds _] using rev_ind; [done|].
    rewrite last_snoc in Hlast. injection Hlast as ->.
    rewrite reverse_snoc. cbn. by rewrite lookup_ge_None_2.
Qed.

Lemma resolved_items_are_popped_witness :
  PlanetManager.pop_all (PlanetManager.sort_desc [0; 2]%nat)
    [parcel; Item.mk 1 1 1 0 0 8; Item.mk 1 1 1 0 0 9]
  = Some [Item.mk 1 1 1 0 0 8].
Proof.
  destruct (resolved_items_are_popped [0; 2]%nat
              [parcel; Item.mk 1 1 1 0 0 8; Item.mk 1 1 1 0 0 9]) as [Hpop _].
  - repeat constructor.
  - destruct Hpop as [Hpop _]; [|exact Hpop].
    intros k Hk. cbn.
    apply elem_of_cons in Hk as [->|Hk]; [lia|].
    apply list_elem_of_singleton in Hk as ->. lia.
Defined.

(** ** The items of the model and the counter of deliveries *)

Lemma list_remove_inv it l l' :
  Ship.list_remove it l = Some l' ->
  ∃ l1 i l2, l = l1 ++ i :: l2 ∧ Item.uid i = Item.uid it ∧ l' = l1 ++ l2.
Proof.
  revert l'. induction l as [|i l IH]; intros l' Hrm; [done|]. cbn in Hrm.
  destruct (Item.eq it i) eqn:Heq.
  - injection Hrm as <-. exists [], i, l. split_and!; try done.
    unfold Item.eq in Heq. apply Z.eqb_eq in Heq. done.
  - destruct (Ship.list_remove it l) as [r|] eqn:Hr; [|done]. injection Hrm as <-.
    destruct (IH r eq_refl) as (l1 & i' & l2 & -> & Hu & ->).
    by exists (i :: l1), i', l2.
Qed.

Lemma advance_cases norm dijkstra_path environment s w s' w' :
  Ship.advance norm dijkstra_path environment s w = Ok (s', w') ->
  w' = w
  ∨ ∃ it l1 i l2,
      Ship.item s = Some it ∧ model_items w = l1 ++ i :: l2
      ∧ Item.uid i = Item.uid it ∧ w' = delivered (l1 ++ l2) w.
Proof.
  destruct s as [nm pa pb pc pl x y ms dst pd wpt pp itm wt mb].
  intros Hadv.
  unfold Ship.advance, Ship.next_hop, bind, ret, lift_opt, raise,
    get_items, set_items, incr_computed_items_nb in Hadv.
  cbn in Hadv.
  destruct wpt as [wp|], dst as [d|], itm as [it|];
    cbn in Hadv; repeat split_match Hadv;
    injection Hadv as <- <-; try (by left).
  all: right;
    match goal with
    | E : Ship.list_remove _ _ = Some _ |- _ =>
        apply list_remove_inv in E as (l1 & i & l2 & Hsplit & Huid & ->)
    end;
    eexists _, l1, i, l2; split_and!; [reflexivity|done|exact Huid|reflexivity].
Qed.

Lemma from_json_same j w it w' :
  Item.from_json j w = Ok (it, w') -> same_model w w'.
Proof.
  intros H. destruct (from_json_total j w) as (it0 & w0 & H0 & Hsame & _).
  rewrite H in H0. by injection H0 as <- <-.
Qed.

Lemma extends_refl w : extends w w.
Proof. split; [done|]. exists []. by rewrite app_nil_r. Qed.

Lemma extends_trans w1 w2 w3 : extends w1 w2 -> extends w2 w3 -> extends w1 w3.
Proof.
  intros [H1 [n1 Hn1]] [H2 [n2 Hn2]]. split; [congruence|].
  exists (n1 ++ n2). by rewrite Hn2, Hn1, app_assoc.
Qed.

Lemma same_model_extends w w' : same_model w w' -> extends w w'.
Proof. intros (Ho & _ & _ & Hs). split; [done|]. exists []. by rewrite app_nil_r. Qed.

Lemma handle_ambient s m w s' w' :
  Ship.handle s m w = Ok (s', w') ->
  model_items w' = model_items w ∧ computed_items_nb w' = computed_items_nb w
  ∧ extends w w'.
Proof.
  destruct s as [nm pa pb pc pl x y ms dst pd wpt pp itm wt mb].
  intros Hh.
  unfold Ship.handle, Ship.on_call_for_proposal, Ship.on_reject_proposal,
    Ship.on_accept_proposal, bind, ret, lift_opt, raise, get_steps, send in Hh.
  cbn -[Item.from_json] in Hh. decide_flags Hh.
  destruct itm as [it|], wt;
    cbn -[Item.from_json] in Hh; decide_flags Hh; repeat split_match Hh;
    injection Hh as <- <-;
    repeat match goal with
           | E : Item.from_json _ _ = Ok _ |- _ => apply from_json_same in E
           end;
    unfold same_model, extends in *; cbn in *.
  all: try (split_and!; try done; try (by exists []; rewrite app_nil_r)).
  all: try (intuition (try congruence)).
  all: repeat match goal with H : outbox _ = _ |- _ => rewrite H; clear H end.
  all: first [by exists []; rewrite app_nil_r | eexists; reflexivity].
Qed.

Lemma batch_ambient ms : ∀ s w s' w',
  for_each ms (fun m s => Ship.handle s m) s w = Ok (s', w') ->
  model_items w' = model_items w ∧ computed_items_nb w' = computed_items_nb w
  ∧ extends w w'.
Proof.
  induction ms as [|m ms IH]; intros s w s' w' Hrun.
  - injection Hrun as <- <-. split_and!; try done. apply extends_refl.
  - cbn in Hrun. apply bind_inv in Hrun as (s1 & w1 & Hh & Hrun).
    destruct (handle_ambient _ _ _ _ _ Hh) as (? & ? & ?).
    destruct (IH _ _ _ _ Hrun) as (? & ? & ?).
    split_and!; try congruence. by eapply extends_trans.
Qed.

Lemma sent_all_extends msgs w : extends w (sent_all msgs w).
Proof. split; [done|]. by exists msgs. Qed.

Lemma resolve_extends lx st w st' w' :
  PlanetManager.resolve lx st w = Ok (st', w') -> extends w w'.
Proof.
  destruct lx as [l x], st as [p dels], st' as [p' dels']. intros Hr.
  apply resolve_frame in Hr as (_ & _ & _ & _ & Hs & Ho & _). by split.
Qed.

Lemma step_road_ambient rs sm w sm' w' :
  SpaceRoadNetwork.step_road rs sm w = Ok (sm', w') ->
  same_model w w' ∧ next_uuid w' = next_uuid w.
Proof.
  destruct rs as [road state]. intros Hs. unfold SpaceRoadNetwork.step_road in Hs.
  apply bind_inv in Hs as (r & w0 & Hr & Hs).
  destruct (random_random_inv _ _ _ Hr) as (Hnu & _ & Hsame).
  destruct (float_lt r PROBA_ISSUE_ROAD).
  - apply bind_inv in Hs as (ns & w1 & Hc & Hs). injection Hs as <- <-.
    apply random_choice_inv in Hc as [_ ->]. split; [|done].
    destruct Hsame as (? & ? & ? & ?). by split_and!.
  - injection Hs as <- <-. done.
Qed.

Lemma step_roads_ambient rss : ∀ sm w sm' w',
  for_each rss SpaceRoadNetwork.step_road sm w = Ok (sm', w') ->
  same_model w w' ∧ next_uuid w' = next_uuid w.
Proof.
  induction rss as [|rs rss IH]; intros sm w sm' w' Hrun.
  - by injection Hrun as <- <-.
  - cbn in Hrun. apply bind_inv in Hrun as (sm1 & w1 & Hs & Hrun).
    destruct (step_road_ambient _ _ _ _ _ Hs) as [H1 H1'].
    destruct (IH _ _ _ _ Hrun) as [H2 H2'].
    split; [by eapply same_model_trans | congruence].
Qed.

(** X13: the model keeps its accounts. A step of a ship either leaves
    [model.items] and the counter of deliveries as they are, or takes out
    one item, which has the [uid] of the item on board, and adds one to the
    counter. A step of a planet leaves the counter as it is and either
    leaves [model.items] as it is or appends one item, the one it creates,
    at the position of the planet. A step of the road network changes
    neither. No step of an agent changes the clock of the schedule, and the
    messages already sent stay sent. *)
Theorem model_items_are_accounted_for :
  (∀ norm dijkstra_path environment s w s' w',
     Ship.step norm dijkstra_path environment s w = Ok (s', w') ->
     extends w w'
     ∧ ((model_items w' = model_items w
         ∧ computed_items_nb w' = computed_items_nb w)
        ∨ (∃ it l1 i l2,
             Ship.item s = Some it ∧ Item.uid i = Item.uid it
             ∧ model_items w = l1 ++ i :: l2 ∧ model_items w' = l1 ++ l2
             ∧ computed_items_nb w' = computed_items_nb w + 1)))
  ∧ (∀ ships p w p' w',
       PlanetManager.step ships p w = Ok (p', w') ->
       extends w w' ∧ computed_items_nb w' = computed_items_nb w
       ∧ (model_items w' = model_items w
          ∨ ∃ item, model_items w' = model_items w ++ [item]
                    ∧ Item.uid item = next_uuid w
                    ∧ Item.x item = Planet.x (PlanetManager.self p)
                    ∧ Item.y item = Planet.y (PlanetManager.self p)))
  ∧ (∀ net w net' w',
       SpaceRoadNetwork.step net w = Ok (net', w') ->
       extends w w' ∧ outbox w' = outbox w
       ∧ model_items w' = model_items w
       ∧ computed_items_nb w' = computed_items_nb w).
Proof.
  split_and!.
  - intros norm dijkstra_path environment s w s' w' Hstep. unfold Ship.step in Hstep.
    apply bind_inv in Hstep as (s1 & w1 & Hadv & Hrun).
    destruct (batch_ambient _ _ _ _ _ Hrun) as (Hmi & Hcn & Hext).
    destruct (advance_cases _ _ _ _ _ _ _ Hadv)
      as [->|(it & l1 & i & l2 & Hit & Hsplit & Hu & ->)].
    + split; [done|]. by left.
    + split.
      * eapply extends_trans; [|exact Hext]. split; [done|]. exists []. cbn.
        by rewrite app_nil_r.
      * right. exists it, l1, i, l2. split_and!; try done.
  - intros ships p w p' w' Hstep. unfold PlanetManager.step in Hstep.
    apply bind_inv in Hstep as (p1 & w1 & Hspawn & Hstep).
    apply bind_inv in Hstep as (p2 & w2 & Hcfp & Hstep). cbv zeta in Hstep.
    apply bind_inv in Hstep as (p5 & w5 & Hcollect & Hstep).
    apply bind_inv in Hstep as ([p6 dels] & w6 & Hloop & Hstep).
    apply bind_inv in Hstep as (waiting & w7 & Hpop & Hstep).
    apply lift_opt_inv in Hpop as [Hpop ->]. injection Hstep as <- <-.
    destruct (spawn_cases _ _ _ _ Hspawn) as (Ho1 & Hc1 & Hs1 & Hcase).
    destruct (cfp_loop_same_items _ _ _ _ _ _ Hcfp) as (Hm2 & Hc2 & Hs2 & _).
    destruct (cfp_loop_outbox _ _ _ _ _ _ Hcfp) as [cfps Ho2].
    destruct (collect_loop_inv _ _ _ _ _ Hcollect)
      as (_ & _ & _ & _ & _ & _ & (Ho5 & Hm5 & Hc5 & Hs5) & _).
    destruct (resolve_loop_same_items _ _ _ _ _ Hloop) as (Hm6 & Hc6 & Hs6 & _).
    destruct (resolve_loop_frame _ _ _ _ _ _ _ Hloop)
      as (_ & _ & _ & _ & _ & [post Ho6] & _).
    split_and!.
    + split; [congruence|]. exists (cfps ++ post).
      rewrite Ho6, Ho5, Ho2, Ho1. by rewrite app_assoc.
    + congruence.
    + destruct Hcase as [(_ & _ & _ & Hm1)|(_ & item & dest & Hu & Hx & Hy & _ & _ & _ & Hm1)].
      * left. congruence.
      * right. exists item. split_and!; try done. congruence.
  - intros net w net' w' Hstep. unfold SpaceRoadNetwork.step in Hstep.
    apply bind_inv in Hstep as (sm & w1 & Hrun & Hstep). injection Hstep as <- <-.
    destruct (step_roads_ambient _ _ _ _ _ Hrun) as [Hsame _].
    split; [by apply same_model_extends|]. destruct Hsame as (? & ? & ? & ?). done.
Qed.

(** ** The contract net from the call to the item on board *)

Lemma located_self p : located (Planet.x p) (Planet.y p) p.
Proof. split; apply Qeq_bool_iff; reflexivity. Qed.

(** X14: the messages of the planet and of the ship fit together. A planet
    calls for proposals for an item whose [uid] is not 0, toward [dest]; an
    idle ship [a] docked at the planet, which knows [dest], is among those
    called. Whenever the ship reads the call it sends one proposal, to the
    planet; whenever the planet reads this proposal it books it in the
    round of the item, without [KeyError]; when the waiting time is over
    and this proposal is the only one, the planet sends one message, an
    [accept_proposal] to the ship, and closes the round; and whenever the
    ship reads it, it takes on board a copy of the item that is equal to
    the item, toward a planet at the coordinates of [dest]. *)
Theorem sole_bidder_gets_the_item (ships : list Ship.t) (p : PlanetManager.t)
    (a : Ship.t) (item : Item.t) (dest : Planet.t) (w : Ambient) :
  PlanetManager.dict_get item (PlanetManager.items_to_ship p) = Some dest ->
  Item.uid item ≠ 0 ->
  a ∈ ships ->
  float_eq (Ship.x a) (Planet.x (PlanetManager.self p)) = true ->
  float_eq (Ship.y a) (Planet.y (PlanetManager.self p)) = true ->
  idle a -> dest ∈ Ship.planets a ->
  ∃ p1 cfps cfp,
    PlanetManager.call_for_proposal ships item p w = Ok (p1, sent_all cfps w)
    ∧ cfp ∈ cfps ∧ Message.to cfp = Ship.jid a
    ∧ Message.performative cfp = "call_for_proposal"%string
    ∧ ∀ wa, ∃ a1 wa1 proposal,
        Ship.handle a cfp wa = Ok (a1, sent proposal wa1) ∧ same_model wa wa1
        ∧ Message.to proposal = Planet.jid (PlanetManager.self p)
        ∧ Message.sender proposal = Ship.jid a
        ∧ Message.performative proposal = "proposal"%string
        ∧ ∀ wb, ∃ p2 wb1,
            PlanetManager.collect proposal p1 wb = Ok (p2, wb1) ∧ same_model wb wb1
            ∧ PlanetManager.proposals p2 !! Item.uid item = Some [proposal]
            ∧ ∀ l dels wc,
                schedule_steps wc - schedule_steps w > WAITING_TIME ->
                ∃ acceptance,
                  PlanetManager.resolve (l, item) (p2, dels) wc
                  = Ok ((closed item p2, dels ++ [l]), sent acceptance wc)
                  ∧ Message.performative acceptance = "accept_proposal"%string
                  ∧ Message.to acceptance = Ship.jid a
                  ∧ ∀ wd, ∃ a2 wd1 carried pd,
                      Ship.handle a1 acceptance wd = Ok (a2, wd1) ∧ same_model wd wd1
                      ∧ Ship.item a2 = Some carried ∧ Item.eq carried item = true
                      ∧ Ship.destination a2 = Some pd ∧ pd ∈ Ship.planets a
                      ∧ located (Planet.x dest) (Planet.y dest) pd
                      ∧ Ship.waiting_for_proposal a2 = false.
Proof.
  intros Hdest Huid Ha Hx Hy Hidle Hknown.
  set (cfp := Message.mk (Ship.jid a) (Planet.jid (PlanetManager.self p)) item
                [Planet.x dest; Planet.y dest] "call_for_proposal" (schedule_steps w)).
  exists (opened item (schedule_steps w) p),
         (cfps_for ships item dest p (schedule_steps w)), cfp.
  split; [by apply call_for_proposal_spec|].
  split.
  { unfold cfps_for. apply list_elem_of_fmap. exists a. split; [done|].
    apply list_elem_of_filter. done. }
  split; [done|]. split; [done|].
  (* the ship reads the call *)
  intros wa.
  destruct (handle_cfp_idle a cfp wa (Planet.x dest) (Planet.y dest) [] Hidle eq_refl eq_refl)
    as (it1 & wa1 & Hjson1 & Hsame1 & Hh1).
  destruct (last_filter_match (located (Planet.x dest) (Planet.y dest)) (Ship.planets a)
              dest Hknown (located_self dest)) as (pd & Hlast & Hpd & Hloc).
  rewrite Hlast in Hh1.
  destruct (from_json_uid item wa Huid) as (it1' & wa1' & Hjson1' & Hu1 & _).
  cbn [Message.body_item cfp] in Hjson1. rewrite Hjson1 in Hjson1'.
  injection Hjson1' as <- <-.
  eexists _, wa1, _. split; [exact Hh1|]. split; [exact Hsame1|].
  split; [done|]. split; [done|]. split; [done|].
  (* the planet reads the proposal *)
  intros wb.
  set (proposal := Message.mk (Message.sender cfp) (Message.to cfp) it1
                     [Planet.x dest; Planet.y dest; Ship.utility a it1] "proposal"
                     (schedule_steps wa)).
  destruct (collect_known proposal (opened item (schedule_steps w) p) wb [])
    as (wb1 & Hcollect & Hsameb & _).
  { cbn. by rewrite Hu1. }
  { cbn. rewrite Hu1. apply lookup_insert_eq. }
  cbn [Message.body_item proposal] in Hcollect. rewrite Hu1 in Hcollect.
  eexists _, wb1. split; [exact Hcollect|]. split; [exact Hsameb|].
  split; [cbn; apply lookup_insert_eq|].
  (* the planet resolves the round *)
  intros l dels wc Hgt.
  match type of Hcollect with _ = Ok (?q, _) => set (p2 := q) end.
  destruct (resolve_bids_sent l item p2 dels wc (schedule_steps w) [proposal])
    as (k & Hk & Hres).
  { cbn. rewrite lookup_insert_eq. done. }
  { exact Hgt. }
  { cbn. apply lookup_insert_eq. }
  { done. }
  { repeat constructor. by eexists _, _, _. }
  assert (Hk0 : k = 0%nat).
  { destruct (best_rank_first [proposal] k) as (Hlt & _); [done| |done|cbn in Hlt; lia].
    repeat constructor. by eexists. }
  subst k. cbn [imap] in Hres.
  eexists. split; [exact Hres|]. split; [done|]. split; [done|].
  (* the ship reads the answer *)
  intros wd.
  destruct Hidle as [Hitem Hwait].
  destruct (handle_accept_awaited
              (Ship.set_waiting_for_proposal true
                 (Ship.set_potential_destination (Some pd) a))
              (reply p2 item 0 (schedule_steps wc) 0 proposal) wd)
    as (carried & wd1 & Hjson2 & Hsamed & Hh2); [done..|].
  destruct (from_json_uid item wd Huid) as (c' & wd1' & Hjson2' & Hu2 & _).
  cbn [Message.body_item reply] in Hjson2. rewrite Hjson2 in Hjson2'.
  injection Hjson2' as <- <-.
  eexists _, wd1, carried, pd. split; [exact Hh2|]. split; [exact Hsamed|].
  split_and!; try done.
  unfold Item.eq. rewrite Hu2. apply Z.eqb_refl.
Qed.

Lemma sole_bidder_gets_the_item_witness :
  ∃ p1 cfps cfp,
    PlanetManager.call_for_proposal [docked_ship] parcel depot (calm 10)
    = Ok (p1, sent_all cfps (calm 10))
    ∧ cfp ∈ cfps ∧ Message.to cfp = "ship-0@localhost"%string.
Proof.
  destruct (sole_bidder_gets_the_item [docked_ship] depot docked_ship parcel mars (calm 10))
    as (p1 & cfps & cfp & Hcall & Hin & Hto & _).
  - reflexivity.
  - discriminate.
  - left.
  - reflexivity.
  - reflexivity.
  - by split.
  - right. left.
  - by exists p1, cfps, cfp.
Defined.

(** ** SpaceRoadNetwork: the smallest networks *)

Lemma init_no_planet norm uid rbf w :
  SpaceRoadNetwork.init norm [] uid rbf w = Raise IndexError.
Proof. reflexivity. Qed.

(** X15: the two smallest inputs of the constructor. With no planet the
    road graph has no connected component and
    [list(nx.connected_components(...))[0]] raises [IndexError], whatever
    the branching factor. With one planet the constructor returns without
    a draw: the initial graph has this planet as its only node and
    [current_graph], which is filled road by road, has no node at all;
    there is no road and no multiplier. *)
Theorem smallest_road_networks (norm : float -> float -> float) (uid : Z)
    (road_branching_factor : float) (w : Ambient) :
  SpaceRoadNetwork.init norm [] uid road_branching_factor w = Raise IndexError
  ∧ ∀ p, SpaceRoadNetwork.init norm [p] uid road_branching_factor w
         = Ok (Some (SpaceRoadNetwork.mk uid (Graph.mk [p] []) Graph.empty ∅), w).
Proof. split; [apply init_no_planet|]. intros p. reflexivity. Qed.

(** ** SpaceRoadNetwork: the keys of [speed_modificator] *)

Lemma open_roads_keys es_rest : ∀ es (acc : Graph.t * gmap (Planet.t * Planet.t) Q),
  (∀ a b, is_Some (acc.2 !! (a, b)) -> Graph.linked es a b) ->
  (∀ x y, Graph.linked es x y -> x ∈ Graph.nodes acc.1) ->
  (∀ a b, is_Some ((fold_left SpaceRoadNetwork.open_road es_rest acc).2 !! (a, b)) ->
          Graph.linked (es ++ es_rest) a b)
  ∧ (∀ x y, Graph.linked (es ++ es_rest) x y ->
            x ∈ Graph.nodes (fold_left SpaceRoadNetwork.open_road es_rest acc).1).
Proof.
  induction es_rest as [|[[u v] d] es_rest IH]; intros es acc Hkeys Hnodes.
  - rewrite app_nil_r. by split.
  - cbn [fold_left].
    assert (Heq : ∀ (l1 l2 : list Graph.edge) e, l1 ++ e :: l2 = (l1 ++ [e]) ++ l2)
      by (intros; by rewrite <- app_assoc).
    rewrite Heq.
    apply IH; unfold SpaceRoadNetwork.open_road; cbn [fst snd].
    + intros a b Hsome. apply linked_snoc.
      destruct (decide ((v, u) = (a, b))) as [Heq1|Hne1]; [by right; right|].
      rewrite lookup_insert_ne in Hsome by done.
      destruct (decide ((u, v) = (a, b))) as [Heq2|Hne2]; [by right; left|].
      rewrite lookup_insert_ne in Hsome by done. left. by apply Hkeys.
    + intros x y [Hold|[[= -> ->]|[= -> ->]]]%linked_snoc; apply add_edge_nodes.
      * left. by eapply Hnodes.
      * right. by left.
      * right. by right.
Qed.

Lemma open_roads_keys_spec g cur sm :
  SpaceRoadNetwork.open_roads g = (cur, sm) ->
  (∀ a b, is_Some (sm !! (a, b)) -> Graph.adjacent g a b)
  ∧ (∀ x y, Graph.adjacent g x y -> x ∈ Graph.nodes cur).
Proof.
  intros Hopen. unfold SpaceRoadNetwork.open_roads in Hopen.
  pose proof (open_roads_keys (Graph.edges g) [] (Graph.empty, ∅)) as H.
  rewrite Hopen in H. cbn [fst snd app] in H. apply H.
  - intros a b [x Hx]. by rewrite lookup_empty in Hx.
  - intros x y [d [Hin|Hin]]; by apply elem_of_nil in Hin.
Qed.

Lemma init_keyed norm planets uid rbf w net w' :
  SpaceRoadNetwork.init norm planets uid rbf w = Ok (Some net, w') -> keyed net.
Proof.
  intros Hinit. destruct (init_inv _ _ _ _ _ _ _ Hinit) as [Hopen _].
  destruct (open_roads_spec _ _ _ Hopen) as (Hadj & Hone & Hnodes).
  destruct (open_roads_keys_spec _ _ _ Hopen) as (Hkeys & Hends).
  split.
  - intros a b. rewrite Hadj. split; [apply Hkeys|]. intros H. rewrite (Hone a b H). by eexists.
  - intros x. split.
    + intros Hx. destruct (Hnodes x Hx) as [y Hy]. exists y. by apply Hadj.
    + intros [y Hy]. apply (Hends x y). by apply Hadj.
Qed.

Lemma step_road_keys road state sm w sm' w' a b :
  SpaceRoadNetwork.step_road (road, state) sm w = Ok (sm', w') ->
  is_Some (sm !! road) -> is_Some (sm !! (road.2, road.1)) ->
  is_Some (sm' !! (a, b)) ↔ is_Some (sm !! (a, b)).
Proof.
  intros Hstep H1 H2.
  destruct (step_road_spec road state sm w) as (sm1 & w1 & Hstep' & Hcase).
  rewrite Hstep in Hstep'. injection Hstep' as <- <-.
  destruct Hcase as [->|(n & _ & ->)]; [done|].
  rewrite !lookup_insert_is_Some'. split; [|by right; right].
  intros [<-|[<-|H]]; done.
Qed.

Lemma step_roads_keys rss : ∀ sm w sm' w',
  for_each rss SpaceRoadNetwork.step_road sm w = Ok (sm', w') ->
  (∀ rs : (Planet.t * Planet.t) * list (string * float), rs ∈ rss ->
     is_Some (sm !! rs.1) ∧ is_Some (sm !! (rs.1.2, rs.1.1))) ->
  ∀ a b, is_Some (sm' !! (a, b)) ↔ is_Some (sm !! (a, b)).
Proof.
  induction rss as [|[road state] rss IH]; intros sm w sm' w' Hrun Hin a b.
  - by injection Hrun as <- <-.
  - cbn in Hrun. apply bind_inv in Hrun as (sm1 & w1 & Hstep & Hrun).
    destruct (Hin (road, state)) as [H1 H2]; [left|].
    assert (Hsame : ∀ a b, is_Some (sm1 !! (a, b)) ↔ is_Some (sm !! (a, b))).
    { intros a' b'. exact (step_road_keys road state sm w sm1 w1 a' b' Hstep H1 H2). }
    rewrite (IH _ _ _ _ Hrun); [apply Hsame|].
    intros [[x y] st] Hrs. cbn. rewrite !Hsame. apply (Hin ((x, y), st)). by right.
Qed.

Lemma ticks_keyed net net' : ticks net net' -> keyed net -> keyed net'.
Proof.
  intros (w & w' & Hstep) [Hkeys Hnodes]. unfold SpaceRoadNetwork.step in Hstep.
  apply bind_inv in Hstep as (sm & w1 & Hrun & Hstep). injection Hstep as <- <-.
  split; cbn; [|done].
  intros a b. rewrite <- Hkeys. eapply step_roads_keys; [exact Hrun|].
  intros [[x y] st] Hrs. cbn.
  unfold Graph.edges_items in Hrs. apply list_elem_of_fmap in Hrs as ([[x' y'] d] & [= -> -> ->] & He).
  split; apply Hkeys; exists d; [by left | by right].
Qed.

Lemma reachable_keyed norm planets uid rbf net :
  reachable norm planets uid rbf net -> keyed net.
Proof.
  induction 1 as [w w' net Hinit|net net' _ IH Htick].
  - by eapply init_keyed.
  - by eapply ticks_keyed.
Qed.

Lemma reachable_graphs norm planets uid rbf net :
  reachable norm planets uid rbf net ->
  Graph.wf (SpaceRoadNetwork.initial_graph net)
  ∧ Graph.connected (SpaceRoadNetwork.initial_graph net)
  ∧ (∀ x, x ∈ Graph.nodes (SpaceRoadNetwork.initial_graph net) ↔ x ∈ planets)
  ∧ (∀ a b, Graph.adjacent (SpaceRoadNetwork.current_graph net) a b
            ↔ Graph.adjacent (SpaceRoadNetwork.initial_graph net) a b).
Proof.
  induction 1 as [w w' net Hinit|net net' _ IH Htick].
  - assert (Hne : planets ≠ []).
    { intros ->. by rewrite init_no_planet in Hinit. }
    destruct (init_spec norm planets uid rbf w Hne)
      as (net0 & w0 & Hinit0 & Hwf & Hnodes & Hone).
    rewrite Hinit in Hinit0. injection Hinit0 as <- <-.
    destruct (init_inv _ _ _ _ _ _ _ Hinit) as [Hopen _].
    destruct (open_roads_spec _ _ _ Hopen) as (Hadj & _).
    split_and!; try done. apply one_component_connected; try done.
    intros Hnil. destruct planets as [|p ps]; [done|].
    assert (Hp : p ∈ Graph.nodes (SpaceRoadNetwork.initial_graph net))
      by (apply Hnodes; left).
    rewrite Hnil in Hp. by apply elem_of_nil in Hp.
  - destruct (ticks_frame _ _ Htick) as (-> & -> & _). exact IH.
Qed.

(** X16: in every road network of a run, [speed_modificator] has a key
    [(a, b)] exactly when a road of the current graph joins [a] and [b], in
    one direction or the other; a step adds no key and removes none. The
    nodes of the current graph are the ends of its roads: with two distinct
    planets or more they are all the planets. A ship whose waypoint is not
    a neighbour of its previous point therefore raises [KeyError] when it
    advances, and a ship whose waypoint is one finds a multiplier. *)
Theorem road_keys_are_the_roads (norm : float -> float -> float)
    (planets : list Planet.t) (uid : Z) (road_branching_factor : float)
    (net : SpaceRoadNetwork.t) :
  reachable norm planets uid road_branching_factor net ->
  (∀ a b, is_Some (SpaceRoadNetwork.speed_modificator net !! (a, b))
          ↔ Graph.adjacent (SpaceRoadNetwork.current_graph net) a b)
  ∧ (∀ x, x ∈ Graph.nodes (SpaceRoadNetwork.current_graph net)
          ↔ ∃ y, Graph.adjacent (SpaceRoadNetwork.current_graph net) x y)
  ∧ (NoDup planets -> (2 <= length planets)%nat ->
     ∀ x, x ∈ Graph.nodes (SpaceRoadNetwork.current_graph net) ↔ x ∈ planets)
  ∧ (∀ norm' dijkstra_path s w wp,
       Ship.waypoint s = Some wp ->
       ¬ Graph.adjacent (SpaceRoadNetwork.current_graph net) (Ship.previous_point s) wp ->
       Ship.advance norm' dijkstra_path net s w = Raise KeyError).
Proof.
  intros Hreach.
  destruct (reachable_keyed _ _ _ _ _ Hreach) as [Hkeys Hnodes].
  destruct (reachable_graphs _ _ _ _ _ Hreach) as (Hwf & Hconn & Hpl & Hadj).
  split_and!; try done.
  - intros Hnd Hlen x. rewrite Hnodes. split.
    + intros [y [d Hd]%Hadj]. apply Hpl. destruct Hwf as [_ Hends].
      destruct Hd as [Hd|Hd]; by destruct (Hends _ Hd).
    + intros Hx.
      assert (Hother : ∃ y, y ∈ planets ∧ y ≠ x).
      { destruct planets as [|p [|q ps]]; [cbn in Hlen; lia..|].
        destruct (decide (p = x)) as [->|Hp].
        - exists q. split; [right; left|]. apply NoDup_cons in Hnd as [Hn _].
          intros ->. apply Hn. left.
        - exists p. split; [left | done]. }
      destruct Hother as (y & Hy & Hne).
      destruct Hconn as [_ Hpath].
      specialize (Hpath x y (proj2 (Hpl x) Hx) (proj2 (Hpl y) Hy)).
      apply rtc_inv in Hpath as [->|(z & Hxz & _)]; [done|].
      exists z. by apply Hadj.
  - intros norm' dijkstra_path s w wp Hwp Hfar.
    unfold Ship.advance. rewrite Hwp. unfold bind at 1. unfold ret at 1. rewrite Hwp.
    apply bind_raise.
    destruct (SpaceRoadNetwork.speed_modificator net !! (Ship.previous_point s, wp))
      as [v|] eqn:Hv; [|done].
    exfalso. apply Hfar, Hkeys. by eexists.
Qed.

Lemma road_keys_are_the_roads_witness :
  (is_Some (SpaceRoadNetwork.speed_modificator example_roads !! (earth, mars))
   ↔ Graph.adjacent (SpaceRoadNetwork.current_graph example_roads) earth mars)
  ∧ (mars ∈ Graph.nodes (SpaceRoadNetwork.current_graph example_roads)
     ↔ mars ∈ [earth; mars]).
Proof.
  destruct (road_keys_are_the_roads example_norm [earth; mars] 1 1 example_roads
              example_roads_reachable) as (Hkeys & _ & Hnodes & _).
  split; [apply Hkeys|]. apply Hnodes.
  - apply NoDup_cons. split; [|apply NoDup_singleton].
    intros Hin%list_elem_of_singleton. discriminate.
  - cbn. lia.
Defined.

(** ** SpaceRoadNetwork: what the construction keeps *)

Section Construction.
Variable norm : float -> float -> float.
Variable I : Graph.t -> Prop.
Hypothesis I_node : ∀ n g, I g -> I (Graph.add_node n g).
Hypothesis I_edge : ∀ u v g,
  I g -> I (Graph.add_edge u v
              (norm (Planet.x u - Planet.x v)%Q (Planet.y u - Planet.y v)%Q) g).

Lemma add_roads_invariant rbf p qs : ∀ g w g' w',
  for_each qs (fun q g =>
      r <- random_random ;;
      if float_lt r rbf
      then ret (Graph.add_edge p q
                  (norm (Planet.x p - Planet.x q)%Q (Planet.y p - Planet.y q)%Q) g)
      else ret g) g w = Ok (g', w') ->
  I g -> I g'.
Proof.
  induction qs as [|q qs IH]; intros g w g' w' Hrun Hg.
  - by injection Hrun as <- <-.
  - cbn [for_each] in Hrun. apply bind_inv in Hrun as (g1 & w1 & Hq & Hrun).
    apply bind_inv in Hq as (r & w0 & _ & Hq).
    apply (IH _ _ _ _ Hrun).
    destruct (float_lt r rbf); injection Hq as <- <-; [by apply I_edge | done].
Qed.

Lemma add_planets_invariant rbf rest : ∀ earlier g w g' w',
  SpaceRoadNetwork.add_planets norm rbf earlier rest g w = Ok (g', w') ->
  I g -> I g'.
Proof.
  induction rest as [|p rest IH]; intros earlier g w g' w' Hrun Hg.
  - by injection Hrun as <- <-.
  - cbn [SpaceRoadNetwork.add_planets] in Hrun.
    apply bind_inv in Hrun as (g1 & w1 & Hp & Hrun).
    apply (IH _ _ _ _ _ Hrun).
    unfold SpaceRoadNetwork.add_planet in Hp.
    eapply add_roads_invariant; [exact Hp|]. by apply I_node.
Qed.

Lemma reconnect_invariant fuel : ∀ g w g' w',
  SpaceRoadNetwork.reconnect norm fuel g w = Ok (Some g', w') -> I g -> I g'.
Proof.
  induction fuel as [|fuel IH]; intros g w g' w' Hrun Hg.
  - cbn in Hrun. destruct (bool_decide _); [done|]. by injection Hrun as <- <-.
  - cbn [SpaceRoadNetwork.reconnect] in Hrun.
    destruct (bool_decide _); [|by injection Hrun as <- <-].
    apply bind_inv in Hrun as (c0 & w0 & _ & Hrun).
    apply bind_inv in Hrun as (a & w1 & _ & Hrun).
    apply bind_inv in Hrun as (c1 & w2 & _ & Hrun).
    apply bind_inv in Hrun as (b & w3 & _ & Hrun).
    apply (IH _ _ _ _ Hrun). by apply I_edge.
Qed.

Lemma init_invariant planets uid rbf w net w' :
  SpaceRoadNetwork.init norm planets uid rbf w = Ok (Some net, w') ->
  I Graph.empty -> I (SpaceRoadNetwork.initial_graph net).
Proof.
  intros Hinit Hempty. unfold SpaceRoadNetwork.init in Hinit.
  apply bind_inv in Hinit as (g & w1 & Hadd & Hinit).
  apply bind_inv in Hinit as ([g'|] & w2 & Hrec & Hinit); [|done].
  destruct (SpaceRoadNetwork.open_roads g') as [cur sm]. injection Hinit as <- <-. cbn.
  eapply reconnect_invariant; [exact Hrec|].
  by eapply add_planets_invariant.
Qed.
End Construction.

(** ** SpaceRoadNetwork: the distances *)

Lemma add_edge_measured norm u v d g :
  measured norm g ->
  d = norm (Planet.x u - Planet.x v)%Q (Planet.y u - Planet.y v)%Q
  ∨ d = norm (Planet.x v - Planet.x u)%Q (Planet.y v - Planet.y u)%Q ->
  measured norm (Graph.add_edge u v d g).
Proof.
  intros Hg Hd a b d' Hin. unfold Graph.add_edge in Hin. cbv zeta in Hin.
  rewrite !add_node_edges in Hin.
  destruct (Graph.has_edge _ u v); cbn [Graph.edges] in Hin.
  - apply list_elem_of_fmap in Hin as ([[a' b'] d0] & Heq & Hin). cbn [fst snd] in Heq.
    destruct (Graph.joins u v (a', b', d0)) eqn:Hj.
    + injection Heq as -> -> ->.
      apply joins_spec in Hj as [[= -> ->]|[= -> ->]]; [done|]. tauto.
    + injection Heq as -> -> ->. by apply Hg.
  - apply elem_of_app in Hin as [Hin|[= -> -> ->]%list_elem_of_singleton]; [by apply Hg|done].
Qed.

Lemma open_roads_measured norm es : ∀ (acc : Graph.t * gmap (Planet.t * Planet.t) Q),
  (∀ u v d, (u, v, d) ∈ es ->
     d = norm (Planet.x u - Planet.x v)%Q (Planet.y u - Planet.y v)%Q
     ∨ d = norm (Planet.x v - Planet.x u)%Q (Planet.y v - Planet.y u)%Q) ->
  measured norm acc.1 ->
  measured norm (fold_left SpaceRoadNetwork.open_road es acc).1.
Proof.
  induction es as [|[[u v] d] es IH]; intros acc Hes Hacc; [done|].
  cbn [fold_left]. apply IH.
  - intros a b d' Hin. apply Hes. by right.
  - unfold SpaceRoadNetwork.open_road. cbn [fst snd].
    apply add_edge_measured; [done|]. apply Hes. left.
Qed.

(** X17: the ['distance'] of every road is the norm of the difference of
    the coordinates of its two ends, in the initial graph and in the
    current graph of every road network of a run: the weight that
    [nx.dijkstra_path] reads is the length of the road, and no step
    changes it. *)
Theorem road_distances_are_norms (norm : float -> float -> float)
    (planets : list Planet.t) (uid : Z) (road_branching_factor : float)
    (net : SpaceRoadNetwork.t) :
  reachable norm planets uid road_branching_factor net ->
  measured norm (SpaceRoadNetwork.initial_graph net)
  ∧ measured norm (SpaceRoadNetwork.current_graph net).
Proof.
  induction 1 as [w w' net Hinit|net net' _ IH Htick].
  - assert (Hi : measured norm (SpaceRoadNetwork.initial_graph net)).
    { eapply (init_invariant norm (measured norm)); [| |exact Hinit|].
      - intros n g Hg a b d Hin. rewrite add_node_edges in Hin. by apply Hg.
      - intros u v g Hg. apply add_edge_measured; [done | by left].
      - intros a b d Hin. by apply elem_of_nil in Hin. }
    split; [done|].
    destruct (init_inv _ _ _ _ _ _ _ Hinit) as [Hopen _].
    unfold SpaceRoadNetwork.open_roads in Hopen.
    pose proof (open_roads_measured norm
                  (Graph.edges (SpaceRoadNetwork.initial_graph net)) (Graph.empty, ∅)) as H.
    rewrite Hopen in H. apply H; [exact Hi|].
    intros a b d Hin. by apply elem_of_nil in Hin.
  - destruct (ticks_frame _ _ Htick) as (-> & -> & _). exact IH.
Qed.

Lemma road_distances_are_norms_witness :
  measured example_norm (SpaceRoadNetwork.current_graph example_roads).
Proof.
  apply (road_distances_are_norms example_norm [earth; mars] 1 1 example_roads
           example_roads_reachable).
Defined.

(** ** SpaceRoadNetwork: the number of roads *)

Lemma merge_length_ge u v P : (length P <= S (length (Graph.merge u v P)))%nat.
Proof.
  unfold Graph.merge.
  destruct (Graph.find_block u P) as [[i Bi]|] eqn:Hu; [|lia].
  destruct (Graph.find_block v P) as [[j Bj]|] eqn:Hv; [|lia].
  apply find_block_Some in Hu as [Hi _]. apply find_block_Some in Hv as [Hj _].
  repeat case_decide; [lia| |]; rewrite length_insert, length_delete by eauto; lia.
Qed.

Lemma components_length_ge g :
  (length (Graph.nodes g)
   <= length (Graph.connected_components g) + length (Graph.edges g))%nat.
Proof.
  unfold Graph.connected_components.
  assert (H : ∀ es P, (length P <= length (fold_left (fun P (e : Graph.edge) =>
                         Graph.merge e.1.1 e.1.2 P) es P) + length es)%nat).
  { induction es as [|e es IH]; intros P; cbn; [lia|].
    pose proof (IH (Graph.merge e.1.1 e.1.2 P)).
    pose proof (merge_length_ge e.1.1 e.1.2 P). lia. }
  etransitivity; [|apply H]. by rewrite length_map.
Qed.

Lemma components_no_edge g :
  Graph.edges g = [] ->
  length (Graph.connected_components g) = length (Graph.nodes g).
Proof. intros He. unfold Graph.connected_components. rewrite He. cbn. apply length_map. Qed.

(** A road between two connected components is a new road. *)
Lemma reconnect_turn_edges g c0 c1 rest first_element second_element d :
  Graph.wf g ->
  Graph.connected_components g = c0 :: c1 :: rest ->
  first_element ∈ c0 -> second_element ∈ c1 ->
  Graph.edges (Graph.add_edge first_element second_element d g)
  = Graph.edges g ++ [(first_element, second_element, d)].
Proof.
  intros Hwf HP H0 H1.
  destruct (components_partition g Hwf) as [Hnodes Hne Hjoin Hedges].
  rewrite HP in *. cbn in Hnodes.
  assert (Hnd : NoDup (c0 ++ c1 ++ mjoin rest)) by (rewrite Hnodes; apply Hwf).
  apply NoDup_app in Hnd as (_ & Hc0 & Hnd).
  assert (Hu : first_element ∈ Graph.nodes g).
  { rewrite <- Hnodes. apply elem_of_app. by left. }
  assert (Hv : second_element ∈ Graph.nodes g).
  { rewrite <- Hnodes. apply elem_of_app. right. apply elem_of_app. by left. }
  assert (H10 : second_element ∉ c0).
  { intros Hin. apply (Hc0 _ Hin). apply elem_of_app. by left. }
  assert (Hno : Graph.has_edge g first_element second_element = false).
  { apply not_true_is_false. intros Hhas%has_edge_linked.
    assert (Hblock : ∃ B, B ∈ c0 :: c1 :: rest ∧ first_element ∈ B ∧ second_element ∈ B).
    { destruct Hhas as [d' [Hin|Hin]]; destruct (Hedges _ Hin) as (B & HB & Ha & Hb);
        exists B; cbn in *; done. }
    destruct Hblock as (B & HB & Ha & Hb).
    apply elem_of_cons in HB as [->|HB]; [done|].
    apply elem_of_cons in HB as [->|HB].
    - apply (Hc0 _ H0). apply elem_of_app. by left.
    - apply (Hc0 _ H0). apply elem_of_app. right. apply list_elem_of_join. eauto. }
  by rewrite (add_edge_new _ _ d g Hu Hv Hno).
Qed.

(** Each turn of the reconnection loop adds one road and takes one
    component away. *)
Lemma reconnect_edges norm fuel : ∀ g w g' w',
  Graph.wf g ->
  SpaceRoadNetwork.reconnect norm fuel g w = Ok (Some g', w') ->
  (length (Graph.edges g') + length (Graph.connected_components g')
   = length (Graph.edges g) + length (Graph.connected_components g))%nat
  ∧ length (Graph.connected_components g') = 1%nat.
Proof.
  induction fuel as [|fuel IH]; intros g w g' w' Hwf Hrun.
  - cbn in Hrun. destruct (bool_decide _) eqn:Hd; [done|]. injection Hrun as <- <-.
    split; [done|]. apply bool_decide_eq_false in Hd. by apply dec_stable.
  - cbn [SpaceRoadNetwork.reconnect] in Hrun.
    destruct (bool_decide _) eqn:Hd.
    + apply bind_inv in Hrun as (c0 & w0 & Hc0 & Hrun).
      apply lift_opt_inv in Hc0 as [Hc0 ->].
      apply bind_inv in Hrun as (a & w1 & Ha & Hrun).
      apply random_choice_inv in Ha as [Ha ->].
      apply bind_inv in Hrun as (c1 & w2 & Hc1 & Hrun).
      apply lift_opt_inv in Hc1 as [Hc1 ->].
      apply bind_inv in Hrun as (b & w3 & Hb & Hrun).
      apply random_choice_inv in Hb as [Hb ->].
      destruct (Graph.connected_components g) as [|c0' [|c1' rest]] eqn:HP; try done.
      cbn in Hc0, Hc1. injection Hc0 as ->. injection Hc1 as ->.
      set (d := norm (Planet.x a - Planet.x b)%Q (Planet.y a - Planet.y b)%Q) in *.
      destruct (reconnect_turn g c0 c1 rest a b d Hwf HP Ha Hb) as (Hwf' & _ & HP').
      destruct (IH _ _ _ _ Hwf' Hrun) as [Hsum Hone].
      rewrite (reconnect_turn_edges g c0 c1 rest a b d Hwf HP Ha Hb), HP' in Hsum.
      rewrite length_app in Hsum. cbn in *. split; [lia | done].
    + injection Hrun as <- <-. split; [done|].
      apply bool_decide_eq_false in Hd. by apply dec_stable.
Qed.

(** With a branching factor that no draw is below, the first loop of the
    constructor opens no road. *)
Lemma add_roads_none norm rbf p qs : ∀ g w g' w',
  (rbf <= 0)%Q -> Forall (fun r => (0 <= r)%Q) (rnd_floats w) ->
  for_each qs (fun q g =>
      r <- random_random ;;
      if float_lt r rbf
      then ret (Graph.add_edge p q
                  (norm (Planet.x p - Planet.x q)%Q (Planet.y p - Planet.y q)%Q) g)
      else ret g) g w = Ok (g', w') ->
  g' = g ∧ Forall (fun r => (0 <= r)%Q) (rnd_floats w').
Proof.
  induction qs as [|q qs IH]; intros g w g' w' Hrbf Hdraws Hrun.
  - by injection Hrun as <- <-.
  - cbn [for_each] in Hrun. apply bind_inv in Hrun as (g1 & w1 & Hq & Hrun).
    apply bind_inv in Hq as (r & w0 & Hr & Hq).
    destruct (random_random_draw w) as (r' & w0' & Hr' & Hhd & Htl & _).
    rewrite Hr in Hr'. injection Hr' as <- <-.
    assert (Hr0 : (0 <= r)%Q).
    { rewrite Hhd. destruct Hdraws; [done|]. done. }
    assert (Hdraws0 : Forall (fun r => (0 <= r)%Q) (rnd_floats w0)).
    { rewrite Htl. destruct Hdraws; [done|]. done. }
    assert (Hlt : float_lt r rbf = false).
    { unfold float_lt. apply negb_false_iff, Qle_bool_iff.
      exact (Qle_trans _ _ _ Hrbf Hr0). }
    rewrite Hlt in Hq. injection Hq as <- <-. by eapply IH.
Qed.

Lemma add_planets_none norm rbf rest : ∀ earlier g w g' w',
  (rbf <= 0)%Q -> Forall (fun r => (0 <= r)%Q) (rnd_floats w) ->
  SpaceRoadNetwork.add_planets norm rbf earlier rest g w = Ok (g', w') ->
  Graph.edges g' = Graph.edges g.
Proof.
  induction rest as [|p rest IH]; intros earlier g w g' w' Hrbf Hdraws Hrun.
  - by injection Hrun as <- <-.
  - cbn [SpaceRoadNetwork.add_planets] in Hrun.
    apply bind_inv in Hrun as (g1 & w1 & Hp & Hrun).
    unfold SpaceRoadNetwork.add_planet in Hp.
    destruct (add_roads_none _ _ _ _ _ _ _ _ Hrbf Hdraws Hp) as [-> Hdraws1].
    rewrite (IH _ _ _ _ _ Hrbf Hdraws1 Hrun). apply add_node_edges.
Qed.

(** X18: the number of roads. For distinct planets the road network that
    the constructor returns has at least [len(planets) - 1] roads. When the
    branching factor is 0, or below, and [random.random()] gives no
    negative number, the first loop opens no road and the reconnection
    loop opens exactly [len(planets) - 1]: the network is a tree. *)
Theorem road_network_has_enough_roads (norm : float -> float -> float)
    (planets : list Planet.t) (uid : Z) (road_branching_factor : float) (w : Ambient) :
  NoDup planets -> planets ≠ [] ->
  ∃ net w',
    SpaceRoadNetwork.init norm planets uid road_branching_factor w = Ok (Some net, w')
    ∧ (length planets
       <= S (length (Graph.edges (SpaceRoadNetwork.initial_graph net))))%nat
    ∧ ((road_branching_factor <= 0)%Q ->
       Forall (fun r => (0 <= r)%Q) (rnd_floats w) ->
       S (length (Graph.edges (SpaceRoadNetwork.initial_graph net))) = length planets).
Proof.
  intros Hnd Hne.
  destruct (init_spec norm planets uid road_branching_factor w Hne)
    as (net & w' & Hinit & Hwf & Hnodes & Hone).
  exists net, w'. split; [exact Hinit|].
  assert (Hlen : length (Graph.nodes (SpaceRoadNetwork.initial_graph net)) = length planets).
  { apply Permutation_length, NoDup_Permutation; [apply Hwf | done | done]. }
  split.
  - pose proof (components_length_ge (SpaceRoadNetwork.initial_graph net)). lia.
  - intros Hrbf Hdraws. unfold SpaceRoadNetwork.init in Hinit.
    apply bind_inv in Hinit as (g & w1 & Hadd & Hinit).
    apply bind_inv in Hinit as ([g'|] & w2 & Hrec & Hinit); [|done].
    destruct (SpaceRoadNetwork.open_roads g') as [cur sm]. injection Hinit as <- <-.
    cbn [SpaceRoadNetwork.initial_graph] in *.
    destruct (add_planets_spec norm road_branching_factor planets [] Graph.empty w)
      as (g0 & w0 & Hadd0 & Hwf0 & Hnodes0 & _).
    { split; [apply NoDup_nil_2|]. intros e He. by apply elem_of_nil in He. }
    { done. }
    { done. }
    rewrite Hadd in Hadd0. injection Hadd0 as <- <-.
    assert (He : Graph.edges g = []).
    { exact (add_planets_none _ _ _ _ _ _ _ _ Hrbf Hdraws Hadd). }
    destruct (reconnect_edges _ _ _ _ _ _ Hwf0 Hrec) as [Hsum Hone'].
    rewrite He, (components_no_edge g He), Hone' in Hsum. cbn in Hsum.
    assert (Hn : length (Graph.nodes g) = length planets).
    { apply Permutation_length, NoDup_Permutation; [apply Hwf0 | done | done]. }
    lia.
Qed.

Lemma road_network_has_enough_roads_witness :
  ∃ net w',
    SpaceRoadNetwork.init example_norm [earth; mars] 1 0 (calm 0) = Ok (Some net, w')
    ∧ length (Graph.edges (SpaceRoadNetwork.initial_graph net)) = 1%nat.
Proof.
  destruct (road_network_has_enough_roads example_norm [earth; mars] 1 0 (calm 0))
    as (net & w' & Hinit & _ & Htree).
  - apply NoDup_cons. split; [|apply NoDup_singleton].
    intros Hin%list_elem_of_singleton. discriminate.
  - discriminate.
  - exists net, w'. split; [exact Hinit|].
    assert (H : S (length (Graph.edges (SpaceRoadNetwork.initial_graph net))) = 2%nat).
    { apply Htree; [done|]. repeat constructor; done. }
    by injection H.
Defined.

(** ** PlanetDelivery: the construction of the model *)

Lemma make_planet_spec i w :
  ∃ rx ry w',
    PlanetDelivery.make_planet i w
    = Ok (Planet.mk (next_uuid w) ("planet-" ++ pretty i) rx ry, w')
    ∧ next_uuid w' = next_uuid w + 1 ∧ same_model w w' ∧ rnd_picks w' = rnd_picks w.
Proof.
  unfold PlanetDelivery.make_planet, bind, uuid1, random_random, ret.
  destruct w as [[|r1 [|r2 rs]] pk nu ob mi cn st]; cbn;
    eexists _, _, _; (split; [reflexivity|]); by split_and!.
Qed.

Lemma make_planets_spec n : ∀ i acc w,
  ∃ new w',
    for_each (seq i n)
      (fun i acc => p <- PlanetDelivery.make_planet i ;; ret (acc ++ [p])) acc w
    = Ok (acc ++ new, w')
    ∧ length new = n
    ∧ (∀ k p, new !! k = Some p ->
         Planet.unique_id p = next_uuid w + Z.of_nat k
         ∧ Planet.name p = ("planet-" ++ pretty (i + k)%nat)%string)
    ∧ next_uuid w' = next_uuid w + Z.of_nat n
    ∧ same_model w w' ∧ rnd_picks w' = rnd_picks w.
Proof.
  induction n as [|n IH]; intros i acc w.
  - exists [], w. rewrite app_nil_r. cbn. split_and!; try done. lia.
  - cbn [seq for_each].
    destruct (make_planet_spec i w) as (rx & ry & w1 & Hp & Hnu & Hsame & Hpk).
    unfold bind at 1. unfold bind at 1. rewrite Hp. cbn [ret].
    destruct (IH (S i) (acc ++ [Planet.mk (next_uuid w) ("planet-" ++ pretty i) rx ry]) w1)
      as (new & w' & Hrun & Hlen & Hnew & Hnu' & Hsame' & Hpk').
    exists (Planet.mk (next_uuid w) ("planet-" ++ pretty i) rx ry :: new), w'.
    split; [rewrite Hrun; by rewrite <- app_assoc|].
    split_and!.
    + cbn. by rewrite Hlen.
    + intros [|k] p Hk.
      * injection Hk as <-. cbn. rewrite Nat.add_0_r. split; [lia | done].
      * destruct (Hnew k p Hk) as [Hu Hname]. split; [lia|].
        by rewrite Hname, Nat.add_succ_r.
    + lia.
    + by eapply same_model_trans.
    + congruence.
Qed.

Lemma make_ship_spec planets i w :
  planets ≠ [] ->
  ∃ s w',
    PlanetDelivery.make_ship planets i w = Ok (s, w')
    ∧ docked planets s ∧ Ship.name s = ("ship-" ++ pretty i)%string
    ∧ same_model w w'.
Proof.
  intros Hne. unfold PlanetDelivery.make_ship.
  destruct (random_choice_spec planets w Hne) as (sp & _ & Hsp & Hc).
  rewrite (bind_ok _ _ _ _ _ Hc).
  unfold bind at 1. unfold uuid1 at 1.
  match goal with |- context [Ship.init ?n ?pl ?x ?y ?ms ?w0] =>
    destruct (ship_init_spec n pl x y ms w0) as (w' & Hsame & _ & _ & _ & Hinit)
  end.
  rewrite Hinit.
  destruct (head (filter (located (Planet.x sp) (Planet.y sp)) planets)) as [pp|] eqn:Hhd.
  - eexists _, w'. split; [reflexivity|].
    apply head_Some_elem_of in Hhd. apply list_elem_of_filter in Hhd as [Hloc Hin].
    split; [|split; [done|]].
    + unfold docked, idle, consistent. cbn. split_and!; try done.
    + destruct Hsame as (? & ? & ? & ?). by split_and!.
  - exfalso. apply head_None in Hhd.
    assert (Hin : sp ∈ filter (located (Planet.x sp) (Planet.y sp)) planets).
    { apply list_elem_of_filter. split; [apply located_self | done]. }
    rewrite Hhd in Hin. by apply elem_of_nil in Hin.
Qed.

Lemma make_ships_spec planets n : ∀ i acc w,
  planets ≠ [] ->
  ∃ new w',
    for_each (seq i n)
      (fun i acc => s <- PlanetDelivery.make_ship planets i ;; ret (acc ++ [s])) acc w
    = Ok (acc ++ new, w')
    ∧ length new = n
    ∧ (∀ k s, new !! k = Some s ->
         docked planets s ∧ Ship.name s = ("ship-" ++ pretty (i + k)%nat)%string)
    ∧ same_model w w'.
Proof.
  induction n as [|n IH]; intros i acc w Hne.
  - exists [], w. rewrite app_nil_r. cbn. by split_and!.
  - cbn [seq for_each].
    destruct (make_ship_spec planets i w Hne) as (s & w1 & Hs & Hdock & Hname & Hsame).
    unfold bind at 1. unfold bind at 1. rewrite Hs. cbn [ret].
    destruct (IH (S i) (acc ++ [s]) w1 Hne) as (new & w' & Hrun & Hlen & Hnew & Hsame').
    exists (s :: new), w'.
    split; [rewrite Hrun; by rewrite <- app_assoc|].
    split_and!.
    + cbn. by rewrite Hlen.
    + intros [|k] s' Hk.
      * injection Hk as <-. by rewrite Nat.add_0_r.
      * destruct (Hnew k s' Hk) as [Hd Hn]. split; [done|]. by rewrite Hn, Nat.add_succ_r.
    + by eapply same_model_trans.
Qed.

Lemma fresh_planet_books p pl w :
  books (PlanetManager.set_planets pl (PlanetManager.init p)) w.
Proof.
  constructor; unfold round_uids, queued_uids; cbn.
  - apply NoDup_nil_2.
  - intros u. split; [by intros [? ?]|by intros ?%elem_of_nil].
  - intros u. split; [by intros [? ?]|by intros ?%elem_of_nil].
  - apply NoDup_nil_2.
  - intros u Hu. by apply elem_of_nil in Hu.
  - intros it dest Hin. by apply elem_of_nil in Hin.
  - intros u [Hu|Hu]; by apply elem_of_nil in Hu.
Qed.

(** The constructor of the road network consumes draws and nothing
    else. *)
Lemma add_roads_ambient norm rbf p qs : ∀ g w g' w',
  for_each qs (fun q g =>
      r <- random_random ;;
      if float_lt r rbf
      then ret (Graph.add_edge p q
                  (norm (Planet.x p - Planet.x q)%Q (Planet.y p - Planet.y q)%Q) g)
      else ret g) g w = Ok (g', w') ->
  same_model w w' ∧ next_uuid w' = next_uuid w.
Proof.
  induction qs as [|q qs IH]; intros g w g' w' Hrun.
  - by injection Hrun as <- <-.
  - cbn [for_each] in Hrun. apply bind_inv in Hrun as (g1 & w1 & Hq & Hrun).
    apply bind_inv in Hq as (r & w0 & Hr & Hq).
    destruct (random_random_inv _ _ _ Hr) as (Hnu & _ & Hsame).
    destruct (IH _ _ _ _ Hrun) as [Hsame' Hnu'].
    assert (w1 = w0) as -> by (destruct (float_lt r rbf); by injection Hq).
    split; [by eapply same_model_trans | congruence].
Qed.

Lemma add_planets_ambient norm rbf rest : ∀ earlier g w g' w',
  SpaceRoadNetwork.add_planets norm rbf earlier rest g w = Ok (g', w') ->
  same_model w w' ∧ next_uuid w' = next_uuid w.
Proof.
  induction rest as [|p rest IH]; intros earlier g w g' w' Hrun.
  - by injection Hrun as <- <-.
  - cbn [SpaceRoadNetwork.add_planets] in Hrun.
    apply bind_inv in Hrun as (g1 & w1 & Hp & Hrun).
    unfold SpaceRoadNetwork.add_planet in Hp.
    destruct (add_roads_ambient _ _ _ _ _ _ _ _ Hp) as [H1 H1'].
    destruct (IH _ _ _ _ _ Hrun) as [H2 H2'].
    split; [by eapply same_model_trans | congruence].
Qed.

Lemma reconnect_ambient norm fuel : ∀ g w og w',
  SpaceRoadNetwork.reconnect norm fuel g w = Ok (og, w') ->
  same_model w w' ∧ next_uuid w' = next_uuid w.
Proof.
  induction fuel as [|fuel IH]; intros g w og w' Hrun.
  - cbn in Hrun. destruct (bool_decide _); by injection Hrun as <- <-.
  - cbn [SpaceRoadNetwork.reconnect] in Hrun.
    destruct (bool_decide _); [|by injection Hrun as <- <-].
    apply bind_inv in Hrun as (c0 & w0 & Hc0 & Hrun).
    apply lift_opt_inv in Hc0 as [_ ->].
    apply bind_inv in Hrun as (a & w1 & Ha & Hrun).
    apply random_choice_inv in Ha as [_ ->].
    apply bind_inv in Hrun as (c1 & w2 & Hc1 & Hrun).
    apply lift_opt_inv in Hc1 as [_ ->].
    apply bind_inv in Hrun as (b & w3 & Hb & Hrun).
    apply random_choice_inv in Hb as [_ ->].
    destruct (IH _ _ _ _ Hrun) as [(? & ? & ? & ?) ?]. by split_and!.
Qed.

Lemma init_roads_ambient norm planets uid rbf w onet w' :
  SpaceRoadNetwork.init norm planets uid rbf w = Ok (onet, w') ->
  same_model w w' ∧ next_uuid w' = next_uuid w.
Proof.
  intros Hinit. unfold SpaceRoadNetwork.init in Hinit.
  apply bind_inv in Hinit as (g & w1 & Hadd & Hinit).
  apply bind_inv in Hinit as (og & w2 & Hrec & Hinit).
  destruct (add_planets_ambient _ _ _ _ _ _ _ _ Hadd) as [H1 H1'].
  destruct (reconnect_ambient _ _ _ _ _ _ Hrec) as [H2 H2'].
  assert (w' = w2) as ->.
  { destruct og as [g'|]; [|by injection Hinit].
    destruct (SpaceRoadNetwork.open_roads g'). by injection Hinit. }
  split; [by eapply same_model_trans | congruence].
Qed.

Lemma init_model_spec norm n_planets n_ships rbf w :
  n_planets ≠ 0%nat ->
  ∃ planets environment ships w',
    PlanetDelivery.init norm n_planets n_ships rbf w
    = Ok (Some (PlanetDelivery.mk environment ships
                  (map (fun p => PlanetManager.set_planets (PlanetDelivery.others planets p)
                                   (PlanetManager.init p)) planets)
                  (mkAmbient (rnd_floats w') (rnd_picks w') (next_uuid w') (outbox w')
                     [] 0 0)))
    ∧ length planets = n_planets ∧ length ships = n_ships
    ∧ (∀ k p, planets !! k = Some p ->
         Planet.unique_id p = next_uuid w + Z.of_nat k
         ∧ Planet.name p = ("planet-" ++ pretty k)%string)
    ∧ (∀ k s, ships !! k = Some s ->
         docked planets s ∧ Ship.name s = ("ship-" ++ pretty k)%string)
    ∧ reachable norm planets (next_uuid w + Z.of_nat n_planets) rbf environment
    ∧ outbox w' = outbox w.
Proof.
  intros Hn. unfold PlanetDelivery.init.
  destruct (make_planets_spec n_planets 0 [] w)
    as (planets & w1 & Hpl & Hlen & Hnames & Hnu1 & Hsame1 & _).
  cbn [app] in Hpl.
  assert (Hne : planets ≠ []) by (intros ->; cbn in Hlen; lia).
  rewrite (bind_ok _ _ _ _ _ Hpl).
  unfold bind at 1. unfold uuid1 at 1.
  set (w1' := mkAmbient (rnd_floats w1) (rnd_picks w1) (next_uuid w1 + 1) (outbox w1)
                (model_items w1) (computed_items_nb w1) (schedule_steps w1)).
  destruct (init_spec norm planets (next_uuid w1) rbf w1' Hne) as (env & w2 & Henv & _).
  destruct (init_roads_ambient _ _ _ _ _ _ _ Henv) as [Hsame2 _].
  rewrite (bind_ok _ _ _ _ _ Henv).
  destruct (make_ships_spec planets n_ships 0 [] w2 Hne)
    as (ships & w3 & Hsh & Hlen' & Hships & Hsame3).
  cbn [app] in Hsh. rewrite (bind_ok _ _ _ _ _ Hsh). cbn [ret].
  exists planets, env, ships, w3. split; [reflexivity|].
  split_and!; try done.
  - rewrite <- Hnu1. by eapply reachable_init.
  - destruct Hsame1 as [H1 _], Hsame2 as [H2 _], Hsame3 as [H3 _]. cbn in H2. congruence.
Qed.

Lemma planets_of_model (planets : list Planet.t) :
  map PlanetManager.self
    (map (fun p => PlanetManager.set_planets (PlanetDelivery.others planets p)
                     (PlanetManager.init p)) planets) = planets.
Proof. rewrite map_map. cbn. apply map_id. Qed.

(** Without planet the road network raises. *)
Lemma init_model_no_planet norm n_ships rbf w :
  PlanetDelivery.init norm 0 n_ships rbf w = Raise IndexError.
Proof.
  unfold PlanetDelivery.init.
  match goal with
  | |- match ?c w with _ => _ end = _ =>
      assert (Hc : c w = Raise IndexError); [|by rewrite Hc]
  end.
  match goal with
  | |- bind ?m ?k w = _ => rewrite (bind_ok m k w [] w eq_refl)
  end.
  match goal with
  | |- bind ?m ?k w = _ =>
      rewrite (bind_ok m k w (next_uuid w)
                 (mkAmbient (rnd_floats w) (rnd_picks w) (next_uuid w + 1) (outbox w)
                    (model_items w) (computed_items_nb w) (schedule_steps w)) eq_refl)
  end.
  apply bind_raise. apply init_no_planet.
Qed.

(** X19: the model that [PlanetDelivery.__init__] builds. With no planet
    the constructor raises [IndexError], from the road network. With one
    planet or more it returns a model with [n_planets] planets and
    [n_ships] ships: the planets are distinct and named [planet-0],
    [planet-1], ...; each knows exactly the other planets, has books in
    order, an empty mailbox and nothing to ship; every ship is docked at a
    planet of the model, idle, with an empty mailbox; the road network is
    that of these planets; the model holds no item, has delivered nothing,
    its schedule is at step 0 and no message has been sent. With a single
    planet, this planet knows no other planet. *)
Theorem model_construction (norm : float -> float -> float)
    (n_planets n_ships : nat) (road_branching_factor : float) (w : Ambient) :
  PlanetDelivery.init norm 0 n_ships road_branching_factor w = Raise IndexError
  ∧ (n_planets ≠ 0%nat ->
     ∃ mo,
       PlanetDelivery.init norm n_planets n_ships road_branching_factor w = Ok (Some mo)
       ∧ length (PlanetDelivery.planets mo) = n_planets
       ∧ length (PlanetDelivery.ships mo) = n_ships
       ∧ NoDup (map PlanetManager.self (PlanetDelivery.planets mo))
       ∧ (∀ k p, PlanetDelivery.planets mo !! k = Some p ->
            Planet.name (PlanetManager.self p) = ("planet-" ++ pretty k)%string
            ∧ (∀ q, q ∈ PlanetManager.planets p
                    ↔ q ∈ map PlanetManager.self (PlanetDelivery.planets mo)
                      ∧ q ≠ PlanetManager.self p)
            ∧ books p (PlanetDelivery.world mo)
            ∧ PlanetManager.msg_box p = []
            ∧ PlanetManager.waiting_for_proposal p = []
            ∧ PlanetManager.items_to_ship p = [])
       ∧ (∀ k s, PlanetDelivery.ships mo !! k = Some s ->
            docked (map PlanetManager.self (PlanetDelivery.planets mo)) s
            ∧ Ship.name s = ("ship-" ++ pretty k)%string)
       ∧ (∃ uid, reachable norm (map PlanetManager.self (PlanetDelivery.planets mo)) uid
                   road_branching_factor (PlanetDelivery.environment mo))
       ∧ model_items (PlanetDelivery.world mo) = []
       ∧ computed_items_nb (PlanetDelivery.world mo) = 0
       ∧ schedule_steps (PlanetDelivery.world mo) = 0
       ∧ outbox (PlanetDelivery.world mo) = outbox w
       ∧ (n_planets = 1%nat ->
          ∀ p, p ∈ PlanetDelivery.planets mo -> PlanetManager.planets p = [])).
Proof.
  split; [apply init_model_no_planet|].
  intros Hn.
  destruct (init_model_spec norm n_planets n_ships road_branching_factor w Hn)
    as (planets & env & ships & w' & Hinit & Hlen & Hlen' & Hnames & Hships & Hreach & Hout).
  eexists. split; [exact Hinit|].
  cbn [PlanetDelivery.planets PlanetDelivery.ships PlanetDelivery.world
       PlanetDelivery.environment].
  rewrite planets_of_model.
  split_and!; try done.
  - by rewrite length_map.
  - apply NoDup_alt. intros i j x Hi Hj.
    destruct (Hnames i x Hi) as [Hui _]. destruct (Hnames j x Hj) as [Huj _]. lia.
  - intros k p Hk. change (map ?f ?l) with (f <$> l) in Hk.
    rewrite list_lookup_fmap in Hk.
    destruct (planets !! k) as [q|] eqn:Hq; [|done]. injection Hk as <-. cbn.
    destruct (Hnames k q Hq) as [_ Hname]. split_and!; try done.
    + intros x. unfold PlanetDelivery.others. rewrite list_elem_of_filter. tauto.
    + apply fresh_planet_books.
  - by eexists.
  - intros H1 p Hp. rewrite H1 in Hlen.
    destruct planets as [|q [|q' ps]]; try done.
    cbn in Hp. apply list_elem_of_singleton in Hp as ->. cbn.
    unfold PlanetDelivery.others. cbn. by rewrite decide_False by (intros H; by apply H).
Qed.

Lemma model_construction_witness :
  ∃ mo, PlanetDelivery.init example_norm 2 1 (1 # 2) (calm 0) = Ok (Some mo)
        ∧ length (PlanetDelivery.planets mo) = 2%nat
        ∧ length (PlanetDelivery.ships mo) = 1%nat.
Proof.
  destruct (model_construction example_norm 2 1 (1 # 2) (calm 0)) as [_ Hmodel].
  destruct Hmodel as (mo & Hinit & Hp & Hs & _); [discriminate|].
  exists mo. split; [exact Hinit|]. split; [exact Hp | exact Hs].
Defined.
